(** * A shallow embedding of [lock-free-alloc.c]

    The lock-free slab allocator of Michael (2004) as written in
    [src/lock-free-alloc.c].  Every C function is a program of a small
    state-and-error monad over a [World] that holds the shared memory of
    the process: the descriptor table, the [desc_avail] stack, heaps and
    size classes, the bytes of the superblocks, the state of the OS
    allocator and of the hazard-pointer subsystem.

    Loops that retry ([for (;;)], [goto retry], [do ... while]) take fuel.
    Where a loop body reads a shared location and later compares-and-swaps
    on it, the body is split at the read: the part after the read is a
    definition of its own that takes the value read, so that running it in
    a world that differs from the one the value was read in is exactly an
    interleaving in which other threads ran in between. *)

From stdpp Require Import gmap list.
From Stdlib Require Import ZArith Lia.

Local Open Scope Z_scope.

(** ** Constants of the source *)

(** [enum { STATE_FULL, STATE_PARTIAL, STATE_EMPTY }]. *)
Definition STATE_FULL : Z := 0.
Definition STATE_PARTIAL : Z := 1.
Definition STATE_EMPTY : Z := 2.

Definition NUM_DESC_BATCH : Z := 64.

Definition SB_SIZE : Z := 16384.
Definition SB_HEADER_SIZE : Z := 16.
Definition SB_USABLE_SIZE : Z := SB_SIZE - SB_HEADER_SIZE.
Definition MAX_SMALL_SIZE : Z := 8192 - 8.

Definition TEST_SIZE : Z := 64.

(** [(mword)(a) & ~(mword)(SB_SIZE-1)]. *)
Definition SB_HEADER_FOR_ADDR (a : Z) : Z := Z.land a (Z.lnot (SB_SIZE - 1)).

(** Conversion to [unsigned int]. *)
Definition u32 (x : Z) : Z := x mod 2 ^ 32.

(** ** The anchor

    [union { guint64 value; struct { avail:10; count:10; state:2; tag:42 } data; }].
    An anchor is its 64-bit [value]; the bit-fields are read and written
    through it, the first declared field in the least significant bits. *)

Definition Anchor : Type := Z.

Definition bf_get (off width : Z) (a : Z) : Z := (a / 2 ^ off) mod 2 ^ width.
Definition bf_set (off width : Z) (a v : Z) : Z :=
  a + (v mod 2 ^ width - bf_get off width a) * 2 ^ off.

Definition avail (a : Anchor) : Z := bf_get 0 10 a.
Definition count (a : Anchor) : Z := bf_get 10 10 a.
Definition state (a : Anchor) : Z := bf_get 20 2 a.
Definition tag (a : Anchor) : Z := bf_get 22 42 a.

Definition set_avail (a : Anchor) (v : Z) : Anchor := bf_set 0 10 a v.
Definition set_count (a : Anchor) (v : Z) : Anchor := bf_set 10 10 a v.
Definition set_state (a : Anchor) (v : Z) : Anchor := bf_set 20 2 a v.
Definition set_tag (a : Anchor) (v : Z) : Anchor := bf_set 22 42 a v.

(** The anchor with the given fields. *)
Definition mk_anchor (av cn st tg : Z) : Anchor :=
  av mod 2 ^ 10 + (cn mod 2 ^ 10) * 2 ^ 10 + (st mod 2 ^ 2) * 2 ^ 20
  + (tg mod 2 ^ 42) * 2 ^ 22.

(** ** Descriptors, size classes, heaps *)

Module Desc.
(** [struct _MonoLockFreeAllocDescriptor]; the queue node is kept by the
    queue. *)
Record t : Type := mk {
  heap : Z;
  anchor : Anchor;
  slot_size : Z;
  max_count : Z;
  sb : Z;
  next : Z;
  in_use : bool
}.
(** A descriptor in zero-filled memory. *)
Definition zero : t := mk 0 0 0 0 0 0 false.
Definition with_heap (d : t) (v : Z) : t :=
  mk v (anchor d) (slot_size d) (max_count d) (sb d) (next d) (in_use d).
Definition with_anchor (d : t) (v : Anchor) : t :=
  mk (heap d) v (slot_size d) (max_count d) (sb d) (next d) (in_use d).
Definition with_slot_size (d : t) (v : Z) : t :=
  mk (heap d) (anchor d) v (max_count d) (sb d) (next d) (in_use d).
Definition with_max_count (d : t) (v : Z) : t :=
  mk (heap d) (anchor d) (slot_size d) v (sb d) (next d) (in_use d).
Definition with_sb (d : t) (v : Z) : t :=
  mk (heap d) (anchor d) (slot_size d) (max_count d) v (next d) (in_use d).
Definition with_next (d : t) (v : Z) : t :=
  mk (heap d) (anchor d) (slot_size d) (max_count d) (sb d) v (in_use d).
Definition with_in_use (d : t) (v : bool) : t :=
  mk (heap d) (anchor d) (slot_size d) (max_count d) (sb d) (next d) v.
(** [sizeof (Descriptor)] on LP64, the queue node being one pointer. *)
Definition size : Z := 56.
End Desc.

Module SizeClass.
(** [MonoLockFreeAllocSizeClass]: the partial queue, front first, and the
    slot size. *)
Record t : Type := mk { partial : list Z; slot_size : Z }.
End SizeClass.

Module Heap.
(** [MonoLockFreeAllocator]: the size class and the active descriptor. *)
Record t : Type := mk { sc : Z; active : Z }.
End Heap.

(** ** The world *)

(** The two functions handed to [mono_thread_hazardous_free_or_queue]. *)
Inductive free_func : Type := Fn_desc_enqueue_avail | Fn_desc_put_partial.

Global Instance free_func_eq_dec : EqDecision free_func.
Proof. solve_decision. Defined.

(** A log of calls, written by the model and read by no function; it
    makes "was called", "how often" and "for which value" statable. *)
Inductive event : Type :=
| EvOsAlloc (size addr : Z)          (* an OS request and its answer, 0 when refused *)
| EvOsFree (addr size : Z)
| EvRetire (desc : Z)                (* [desc_retire (desc)] was entered *)
| EvRemoveEmpty (sc : Z)             (* [list_remove_empty_desc (sc)] was entered *)
| EvAnchor (desc : Z) (old new : Z). (* a cmpxchg on [desc->anchor] succeeded *)

Global Instance event_eq_dec : EqDecision event.
Proof. solve_decision. Defined.

Record World : Type := mkWorld {
  descs : gmap Z Desc.t;            (* descriptors by address *)
  desc_avail : Z;                   (* the global [desc_avail] *)
  heaps : gmap Z Heap.t;
  size_classes : gmap Z SizeClass.t;
  mem : gmap Z Z;                   (* bytes by address; absent bytes are 0 *)
  os_live : list (Z * Z);           (* regions the OS has mapped: base, size *)
  os_script : list Z;               (* the addresses the OS will offer next *)
  hazard : Z;                       (* hazard pointer 1 of the running thread *)
  hazard_others : list Z;           (* hazard pointers published by other threads *)
  delayed : list (Z * free_func);   (* the delayed-free table *)
  trace : list event
}.

Definition upd_descs (f : gmap Z Desc.t → gmap Z Desc.t) (w : World) : World :=
  mkWorld (f (descs w)) (desc_avail w) (heaps w) (size_classes w) (mem w)
    (os_live w) (os_script w) (hazard w) (hazard_others w) (delayed w) (trace w).
Definition upd_desc_avail (v : Z) (w : World) : World :=
  mkWorld (descs w) v (heaps w) (size_classes w) (mem w)
    (os_live w) (os_script w) (hazard w) (hazard_others w) (delayed w) (trace w).
Definition upd_heaps (f : gmap Z Heap.t → gmap Z Heap.t) (w : World) : World :=
  mkWorld (descs w) (desc_avail w) (f (heaps w)) (size_classes w) (mem w)
    (os_live w) (os_script w) (hazard w) (hazard_others w) (delayed w) (trace w).
Definition upd_size_classes (f : gmap Z SizeClass.t → gmap Z SizeClass.t)
    (w : World) : World :=
  mkWorld (descs w) (desc_avail w) (heaps w) (f (size_classes w)) (mem w)
    (os_live w) (os_script w) (hazard w) (hazard_others w) (delayed w) (trace w).
Definition upd_mem (f : gmap Z Z → gmap Z Z) (w : World) : World :=
  mkWorld (descs w) (desc_avail w) (heaps w) (size_classes w) (f (mem w))
    (os_live w) (os_script w) (hazard w) (hazard_others w) (delayed w) (trace w).
Definition upd_os (live : list (Z * Z)) (script : list Z) (w : World) : World :=
  mkWorld (descs w) (desc_avail w) (heaps w) (size_classes w) (mem w)
    live script (hazard w) (hazard_others w) (delayed w) (trace w).
Definition upd_hazard (v : Z) (w : World) : World :=
  mkWorld (descs w) (desc_avail w) (heaps w) (size_classes w) (mem w)
    (os_live w) (os_script w) v (hazard_others w) (delayed w) (trace w).
Definition upd_hazard_others (v : list Z) (w : World) : World :=
  mkWorld (descs w) (desc_avail w) (heaps w) (size_classes w) (mem w)
    (os_live w) (os_script w) (hazard w) v (delayed w) (trace w).
Definition upd_delayed (v : list (Z * free_func)) (w : World) : World :=
  mkWorld (descs w) (desc_avail w) (heaps w) (size_classes w) (mem w)
    (os_live w) (os_script w) (hazard w) (hazard_others w) v (trace w).
Definition log (e : event) (w : World) : World :=
  mkWorld (descs w) (desc_avail w) (heaps w) (size_classes w) (mem w)
    (os_live w) (os_script w) (hazard w) (hazard_others w) (delayed w)
    (trace w ++ [e]).

(** What the world holds at a descriptor's address, a zero-filled
    descriptor where nothing was written, and the world with the
    descriptor at [d] replaced. *)
Definition getd (ds : gmap Z Desc.t) (d : Z) : Desc.t :=
  default Desc.zero (ds !! d).
Definition get_desc (w : World) (d : Z) : Desc.t := getd (descs w) d.
Definition put_desc (d : Z) (D : Desc.t) (w : World) : World :=
  upd_descs (λ m, <[d := D]> m) w.

(** ** The monad: state, and the ways a C program stops *)

Inductive error : Type :=
| AssertFailed     (* [ASSERT] or [g_assert] failed: the process aborts *)
| Segfault         (* an access outside mapped memory, null included *)
| DivByZero        (* an integer division by zero *)
| OutOfFuel.       (* the model's loop bound was reached *)

Inductive result (A : Type) : Type :=
| Done (a : A) (w : World)
| Crash (e : error).
Arguments Done {A} a w.
Arguments Crash {A} e.

Definition M (A : Type) : Type := World → result A.

Definition ret {A} (a : A) : M A := λ w, Done a w.
Definition bind {A B} (m : M A) (f : A → M B) : M B := λ w,
  match m w with
  | Done a w' => f a w'
  | Crash e => Crash e
  end.

Declare Scope M_scope.
Delimit Scope M_scope with M.
Bind Scope M_scope with M.
Notation "x ← y ; z" := (bind y (λ x : _, z))
  (at level 20, y at level 100, z at level 200, only parsing) : M_scope.
Notation "x ;; z" := (bind x (λ _, z))
  (at level 100, z at level 200, only parsing, right associativity) : M_scope.
Local Open Scope M_scope.

Definition crash {A} (e : error) : M A := λ _, Crash e.
Definition get_world : M World := λ w, Done w w.
Definition modify (f : World → World) : M unit := λ w, Done () (f w).

(** [ASSERT (x)] and [g_assert (x)]. *)
Definition ASSERT (b : bool) : M unit :=
  if b then ret () else crash AssertFailed.

(** Unsigned division as C has it. *)
Definition udiv (a b : Z) : M Z :=
  if b =? 0 then crash DivByZero else ret (a / b).

(** ** External collaborators

    The OS allocator, the atomics, the lock-free queue and the hazard
    pointers are used by [lock-free-alloc.c] and defined elsewhere. *)

(** *** Memory *)

Definition mapped (w : World) (a n : Z) : bool :=
  existsb (λ r : Z * Z, (r.1 <=? a) && (a + n <=? r.1 + r.2)) (os_live w).

(** Little-endian integers of [n] bytes. *)
Fixpoint load_bytes (m : gmap Z Z) (n : nat) (a : Z) : Z :=
  match n with
  | O => 0
  | S n' => default 0 (m !! a) + 256 * load_bytes m n' (a + 1)
  end.

Fixpoint store_bytes (m : gmap Z Z) (n : nat) (a v : Z) : gmap Z Z :=
  match n with
  | O => m
  | S n' => <[a := v mod 256]> (store_bytes m n' (a + 1) (v / 256))
  end.

(** A load of an integer or pointer of [n] bytes at address [a]. *)
Definition load (n : nat) (a : Z) : M Z := λ w,
  if mapped w a (Z.of_nat n) then Done (load_bytes (mem w) n a) w
  else Crash Segfault.

(** A store of an integer or pointer of [n] bytes at address [a]. *)
Definition store (n : nat) (a v : Z) : M unit := λ w,
  if mapped w a (Z.of_nat n)
  then Done () (upd_mem (λ m, store_bytes m n a v) w)
  else Crash Segfault.

(** A read of the descriptor at [d]: zero-filled memory holds [Desc.zero]. *)
Definition read_desc (d : Z) : M Desc.t := λ w,
  if mapped w d Desc.size then Done (get_desc w d) w
  else Crash Segfault.

(** A write to fields of the descriptor at [d]. *)
Definition write_desc (d : Z) (f : Desc.t → Desc.t) : M unit := λ w,
  if mapped w d Desc.size
  then Done () (put_desc d (f (get_desc w d)) w)
  else Crash Segfault.

Definition read_heap (heap : Z) : M Heap.t := λ w,
  match heaps w !! heap with
  | Some H => Done H w
  | None => Crash Segfault
  end.

Definition read_sc (sc : Z) : M SizeClass.t := λ w,
  match size_classes w !! sc with
  | Some C => Done C w
  | None => Crash Segfault
  end.

(** *** The OS allocator

    Modelled from the spec: [alloc_aligned(size, alignment)] and
    [free(ptr, size)] of the OS allocator, which may refuse memory.  The
    OS offers the next address of [os_script]; it refuses (returns null)
    when it has none, or when the region would be null, misaligned, beyond
    the 64-bit address space or overlap a mapped one.  Fresh memory is
    zero-filled. *)

Definition os_fits (live : list (Z * Z)) (a size align : Z) : bool :=
  (0 <? a) && (a + size <=? 2 ^ 64) && (a mod align =? 0)
  && forallb (λ r : Z * Z, (a + size <=? r.1) || (r.1 + r.2 <=? a)) live.

Definition outside (a size : Z) (k : Z) : Prop := k < a ∨ a + size ≤ k.

Global Instance outside_dec a size k : Decision (outside a size k).
Proof. unfold outside. apply _. Defined.

Definition zero_fill (a size : Z) (w : World) : World :=
  upd_descs (filter (λ kv : Z * Desc.t, outside a size kv.1))
    (upd_mem (filter (λ kv : Z * Z, outside a size kv.1)) w).

Definition mono_sgen_alloc_os_memory_aligned (size align : Z) (activate : bool)
    : M Z := λ w,
  match os_script w with
  | [] => Done 0 (log (EvOsAlloc size 0) w)
  | a :: rest =>
      if os_fits (os_live w) a size align
      then Done a (log (EvOsAlloc size a)
                     (zero_fill a size (upd_os ((a, size) :: os_live w) rest w)))
      else Done 0 (log (EvOsAlloc size 0) (upd_os (os_live w) rest w))
  end.

Definition mono_sgen_alloc_os_memory (size : Z) (activate : bool) : M Z :=
  mono_sgen_alloc_os_memory_aligned size 1 activate.

Definition mono_sgen_free_os_memory (addr size : Z) : M unit := λ w,
  Done () (log (EvOsFree addr size)
             (upd_os (filter (λ r : Z * Z, r ≠ (addr, size)) (os_live w))
                (os_script w) w)).

(** *** Atomics and barriers (sequentially consistent memory) *)

Definition mono_memory_write_barrier : M unit := ret ().
Definition mono_memory_read_barrier : M unit := ret ().

(** The two pointers that are compared-and-swapped. *)
Inductive ptr_loc : Type :=
| Loc_desc_avail             (* [&desc_avail] *)
| Loc_active (heap : Z).     (* [&heap->active] *)

Definition read_ptr (dest : ptr_loc) : M Z :=
  match dest with
  | Loc_desc_avail => w ← get_world; ret (desc_avail w)
  | Loc_active heap => H ← read_heap heap; ret (Heap.active H)
  end.

Definition write_ptr (dest : ptr_loc) (v : Z) : M unit :=
  match dest with
  | Loc_desc_avail => modify (upd_desc_avail v)
  | Loc_active heap =>
      H ← read_heap heap;
      modify (upd_heaps (λ m, <[heap := Heap.mk (Heap.sc H) v]> m))
  end.

(** Returns the value found; stores [exch] when that is [comparand]. *)
Definition InterlockedCompareExchangePointer (dest : ptr_loc)
    (exch comparand : Z) : M Z :=
  cur ← read_ptr dest;
  (if cur =? comparand then write_ptr dest exch else ret ());;
  ret cur.

(** [atomic64_read (&desc->anchor)]. *)
Definition atomic64_read (desc : Z) : M Anchor :=
  D ← read_desc desc; ret (Desc.anchor D).

(** [atomic64_cmpxchg (&desc->anchor.value, old, new)]. *)
Definition atomic64_cmpxchg (desc : Z) (old new : Z) : M Z :=
  D ← read_desc desc;
  let cur := Desc.anchor D in
  (if cur =? old
   then write_desc desc (λ D, Desc.with_anchor D new);;
        modify (log (EvAnchor desc old new))
   else ret ());;
  ret cur.

(** *** The lock-free queue of a size class

    Modelled from the spec: [enqueue(q, node)], [dequeue(q) → node|null],
    [node_init], [node_free] and [init], which leaves the queue empty; a
    queue is named by its size class. *)

Definition mono_lock_free_queue_dequeue (sc : Z) : M Z :=
  C ← read_sc sc;
  match SizeClass.partial C with
  | [] => ret 0
  | d :: q =>
      modify (upd_size_classes
                (λ m, <[sc := SizeClass.mk q (SizeClass.slot_size C)]> m));;
      ret d
  end.

Definition mono_lock_free_queue_enqueue (sc : Z) (node : Z) : M unit :=
  C ← read_sc sc;
  modify (upd_size_classes
            (λ m, <[sc := SizeClass.mk (SizeClass.partial C ++ [node])
                            (SizeClass.slot_size C)]> m)).

Definition mono_lock_free_queue_init (sc : Z) : M unit :=
  modify (upd_size_classes (λ m,
    <[sc := SizeClass.mk []
        (SizeClass.slot_size (default (SizeClass.mk [] 0) (m !! sc)))]> m)).

Definition mono_lock_free_queue_node_init (node : Z) (poison : bool) : M unit :=
  ret ().
Definition mono_lock_free_queue_node_free (node : Z) : M unit := ret ().

(** *** Hazard pointers

    Modelled from the spec: [hazardous_load(slot, hp, idx)] publishes the
    pointer it returns, [hazard_clear(hp, idx)] withdraws it. *)

Definition mono_thread_hazardous_load (dest : ptr_loc) : M Z :=
  p ← read_ptr dest;
  modify (upd_hazard p);;
  ret p.

Definition mono_hazard_pointer_clear : M unit := modify (upd_hazard 0).

Definition is_pointer_hazardous (p : Z) (w : World) : bool :=
  bool_decide (p ∈ hazard w :: hazard_others w).

(** ** The functions of [lock-free-alloc.c] *)

(** [alloc_sb], lines 78-86. *)
Definition alloc_sb (desc : Z) : M Z :=
  sb_header ← mono_sgen_alloc_os_memory_aligned SB_SIZE SB_SIZE true;
  ASSERT (sb_header =? SB_HEADER_FOR_ADDR sb_header);;
  store 8 (SB_HEADER_FOR_ADDR sb_header) desc;;
  ret (sb_header + SB_HEADER_SIZE).

(** [free_sb], lines 88-95. *)
Definition free_sb (sb : Z) : M unit :=
  let sb_header := SB_HEADER_FOR_ADDR sb in
  ASSERT (sb_header + SB_HEADER_SIZE =? sb);;
  mono_sgen_free_os_memory sb_header SB_SIZE.

(** [DESCRIPTOR_FOR_ADDR (a)] read as a value. *)
Definition DESCRIPTOR_FOR_ADDR (a : Z) : M Z := load 8 (SB_HEADER_FOR_ADDR a).

(** The loop of lines 121-127 that organizes a batch into a linked list. *)
Fixpoint organize_descs (n : nat) (i desc d : Z) : M unit :=
  match n with
  | O => ret ()
  | S n' =>
      if i <? NUM_DESC_BATCH then
        let next := if i =? NUM_DESC_BATCH - 1 then 0
                    else desc + (i + 1) * Desc.size in
        write_desc d (λ D, Desc.with_next D next);;
        mono_lock_free_queue_node_init d true;;
        organize_descs n' (i + 1) desc next
      else ret ()
  end.

(** One round of the [for (;;)] of [desc_alloc], lines 110-137, from the
    value [desc] that the hazardous load of line 109 returned. *)
Definition desc_alloc_try (desc : Z) : M (bool * Z) :=
  r ← (if negb (desc =? 0) then
         D ← read_desc desc;
         let next := Desc.next D in
         old ← InterlockedCompareExchangePointer Loc_desc_avail next desc;
         ret (old =? desc, desc)
       else
         let desc_size := Desc.size in
         desc ← mono_sgen_alloc_os_memory (desc_size * NUM_DESC_BATCH) true;
         organize_descs (Z.to_nat NUM_DESC_BATCH) 0 desc desc;;
         mono_memory_write_barrier;;
         D ← read_desc desc;
         old ← InterlockedCompareExchangePointer Loc_desc_avail (Desc.next D) 0;
         let success := old =? 0 in
         (if negb success
          then mono_sgen_free_os_memory desc (desc_size * NUM_DESC_BATCH)
          else ret ());;
         ret (success, desc));
  mono_hazard_pointer_clear;;
  ret r.

Fixpoint desc_alloc_loop (fuel : nat) : M Z :=
  match fuel with
  | O => crash OutOfFuel
  | S n =>
      desc ← mono_thread_hazardous_load Loc_desc_avail;
      r ← desc_alloc_try desc;
      if fst r then ret (snd r) else desc_alloc_loop n
  end.

(** [desc_alloc], lines 100-147. *)
Definition desc_alloc (fuel : nat) : M Z :=
  desc ← desc_alloc_loop fuel;
  D ← read_desc desc;
  ASSERT (negb (Desc.in_use D));;
  write_desc desc (λ D, Desc.with_in_use D true);;
  ret desc.

(** One round of the [do ... while] of [desc_enqueue_avail], lines 159-162,
    from the value read at line 159. *)
Definition desc_enqueue_avail_try (desc old_head : Z) : M bool :=
  write_desc desc (λ D, Desc.with_next D old_head);;
  mono_memory_write_barrier;;
  old ← InterlockedCompareExchangePointer Loc_desc_avail desc old_head;
  ret (old =? old_head).

Fixpoint desc_enqueue_avail_loop (fuel : nat) (desc : Z) : M unit :=
  match fuel with
  | O => crash OutOfFuel
  | S n =>
      old_head ← read_ptr Loc_desc_avail;
      ok ← desc_enqueue_avail_try desc old_head;
      if ok then ret () else desc_enqueue_avail_loop n desc
  end.

(** [desc_enqueue_avail], lines 149-163. *)
Definition desc_enqueue_avail (fuel : nat) (desc : Z) : M unit :=
  D ← read_desc desc;
  ASSERT (state (Desc.anchor D) =? STATE_EMPTY);;
  ASSERT (negb (Desc.in_use D));;
  desc_enqueue_avail_loop fuel desc.

(** [desc_put_partial], lines 209-218. *)
Definition desc_put_partial (desc : Z) : M unit :=
  D ← read_desc desc;
  ASSERT (negb (state (Desc.anchor D) =? STATE_FULL));;
  mono_lock_free_queue_node_free desc;;
  H ← read_heap (Desc.heap D);
  mono_lock_free_queue_enqueue (Heap.sc H) desc.

Definition call_free_func (fuel : nat) (f : free_func) (p : Z) : M unit :=
  match f with
  | Fn_desc_enqueue_avail => desc_enqueue_avail fuel p
  | Fn_desc_put_partial => desc_put_partial p
  end.

(** Modelled from the spec: [hazardous_free_or_queue(ptr, callback)] of the
    hazard-pointer subsystem, which calls [callback (ptr)] at once unless
    some thread publishes [ptr] as hazardous, and then defers the call. *)
Definition mono_thread_hazardous_free_or_queue (fuel : nat) (p : Z)
    (f : free_func) : M unit :=
  w ← get_world;
  if is_pointer_hazardous p w
  then modify (upd_delayed (delayed w ++ [(p, f)]))
  else call_free_func fuel f p.

Fixpoint try_free_items (fuel : nat) (items : list (Z * free_func)) : M unit :=
  match items with
  | [] => ret ()
  | (p, f) :: rest =>
      mono_thread_hazardous_free_or_queue fuel p f;;
      try_free_items fuel rest
  end.

(** Modelled from the spec: [try_free_all()] of the hazard-pointer
    subsystem, which runs every deferred call that is no longer hazardous. *)
Definition mono_thread_hazardous_try_free_all (fuel : nat) : M unit :=
  w ← get_world;
  modify (upd_delayed []);;
  try_free_items fuel (delayed w).

(** [desc_retire], lines 165-173. *)
Definition desc_retire (fuel : nat) (desc : Z) : M unit :=
  modify (log (EvRetire desc));;
  D ← read_desc desc;
  ASSERT (state (Desc.anchor D) =? STATE_EMPTY);;
  ASSERT (Desc.in_use D);;
  write_desc desc (λ D, Desc.with_in_use D false);;
  free_sb (Desc.sb D);;
  mono_thread_hazardous_free_or_queue fuel desc Fn_desc_enqueue_avail.

(** [list_get_partial], lines 196-207. *)
Fixpoint list_get_partial (fuel : nat) (sc : Z) : M Z :=
  match fuel with
  | O => crash OutOfFuel
  | S n =>
      desc ← mono_lock_free_queue_dequeue sc;
      if desc =? 0 then ret 0 else
      D ← read_desc desc;
      if negb (state (Desc.anchor D) =? STATE_EMPTY) then ret desc else
      desc_retire fuel desc;;
      list_get_partial n sc
  end.

(** [list_put_partial], lines 220-225. *)
Definition list_put_partial (fuel : nat) (desc : Z) : M unit :=
  D ← read_desc desc;
  ASSERT (negb (state (Desc.anchor D) =? STATE_FULL));;
  mono_thread_hazardous_free_or_queue fuel desc Fn_desc_put_partial.

Fixpoint list_remove_empty_desc_loop (fuel : nat) (sc : Z) (num_non_empty : Z)
    : M unit :=
  match fuel with
  | O => crash OutOfFuel
  | S n =>
      desc ← mono_lock_free_queue_dequeue sc;
      if desc =? 0 then ret () else
      D ← read_desc desc;
      if state (Desc.anchor D) =? STATE_EMPTY then
        desc_retire fuel desc;;
        list_remove_empty_desc_loop n sc num_non_empty
      else
        H ← read_heap (Desc.heap D);
        ASSERT (Heap.sc H =? sc);;
        mono_thread_hazardous_free_or_queue fuel desc Fn_desc_put_partial;;
        let num_non_empty := num_non_empty + 1 in
        if 2 <=? num_non_empty then ret ()
        else list_remove_empty_desc_loop n sc num_non_empty
  end.

(** [list_remove_empty_desc], lines 227-248. *)
Definition list_remove_empty_desc (fuel : nat) (sc : Z) : M unit :=
  modify (log (EvRemoveEmpty sc));;
  list_remove_empty_desc_loop fuel sc 0.

(** [heap_get_partial], lines 250-254. *)
Definition heap_get_partial (fuel : nat) (heap : Z) : M Z :=
  H ← read_heap heap;
  list_get_partial fuel (Heap.sc H).

(** [heap_put_partial], lines 256-260. *)
Definition heap_put_partial (fuel : nat) (desc : Z) : M unit :=
  list_put_partial fuel desc.

(** [set_anchor], lines 262-269. *)
Definition set_anchor (desc : Z) (old_anchor new_anchor : Anchor) : M bool :=
  (if state old_anchor =? STATE_EMPTY
   then ASSERT (state new_anchor =? STATE_EMPTY)
   else ret ());;
  prev ← atomic64_cmpxchg desc old_anchor new_anchor;
  ret (prev =? old_anchor).

(** The anchor that lines 310-315 of [alloc_from_active_or_partial] compute
    from the anchor read and the index found in the slot at [avail]. *)
Definition alloc_new_anchor (old_anchor : Anchor) (next : Z) : Anchor :=
  let new_anchor := old_anchor in
  let new_anchor := set_avail new_anchor next in
  let new_anchor := set_count new_anchor (count new_anchor - 1) in
  let new_anchor := set_tag new_anchor (tag new_anchor + 1) in
  if count new_anchor =? 0 then set_state new_anchor STATE_FULL
  else new_anchor.

(** How one round of the [do ... while] of lines 291-316 ends. *)
Inductive alloc_step : Type :=
| Goto_retry                                  (* line 298 *)
| Cas_failed                                  (* [set_anchor] returned false *)
| Cas_done (addr : Z) (new_anchor : Anchor).  (* [set_anchor] returned true *)

(** One round of the [do ... while] of [alloc_from_active_or_partial],
    lines 295-316, from the anchor read at line 294. *)
Definition alloc_anchor_try (fuel : nat) (desc : Z) (old_anchor : Anchor)
    : M alloc_step :=
  if state old_anchor =? STATE_EMPTY then
    desc_retire fuel desc;;
    ret Goto_retry
  else
    ASSERT (state old_anchor =? STATE_PARTIAL);;
    ASSERT (0 <? count old_anchor);;
    D ← read_desc desc;
    let addr := Desc.sb D + u32 (avail old_anchor * Desc.slot_size D) in
    mono_memory_read_barrier;;
    next ← load 4 addr;
    max ← udiv SB_USABLE_SIZE (Desc.slot_size D);
    ASSERT (next <? max);;
    let new_anchor := alloc_new_anchor old_anchor next in
    ok ← set_anchor desc old_anchor new_anchor;
    ret (if ok then Cas_done addr new_anchor else Cas_failed).

Fixpoint alloc_anchor_loop (fuel : nat) (desc : Z) : M alloc_step :=
  match fuel with
  | O => crash OutOfFuel
  | S n =>
      old_anchor ← atomic64_read desc;
      r ← alloc_anchor_try fuel desc old_anchor;
      match r with
      | Cas_failed => alloc_anchor_loop n desc
      | _ => ret r
      end
  end.

(** [alloc_from_active_or_partial], lines 271-325. *)
Fixpoint alloc_from_active_or_partial (fuel : nat) (heap : Z) : M Z :=
  match fuel with
  | O => crash OutOfFuel
  | S n =>
      H ← read_heap heap;
      let desc := Heap.active H in
      owned ← (if negb (desc =? 0) then
                 old ← InterlockedCompareExchangePointer (Loc_active heap) 0 desc;
                 ret (if old =? desc then Some desc else None)
               else
                 desc ← heap_get_partial fuel heap;
                 ret (Some desc));
      match owned with
      | None => alloc_from_active_or_partial n heap
      | Some desc =>
          if desc =? 0 then ret 0 else
          (* Now we own the desc. *)
          r ← alloc_anchor_loop fuel desc;
          match r with
          | Cas_done addr new_anchor =>
              (* If the desc is partial we have to give it back. *)
              (if state new_anchor =? STATE_PARTIAL then
                 old ← InterlockedCompareExchangePointer (Loc_active heap) desc 0;
                 if negb (old =? 0) then heap_put_partial fuel desc else ret ()
               else ret ());;
              ret addr
          | _ => alloc_from_active_or_partial n heap
          end
      end
  end.

(** The loop of lines 339-340 that organizes blocks into a linked list. *)
Fixpoint organize_blocks (n : nat) (i bound sb slot_size : Z) : M unit :=
  match n with
  | O => ret ()
  | S n' =>
      if i <? bound then
        store 4 (sb + u32 (i * slot_size)) (u32 (i + 1));;
        organize_blocks n' (u32 (i + 1)) bound sb slot_size
      else ret ()
  end.

(** [alloc_from_new_sb], lines 327-365. *)
Definition alloc_from_new_sb (fuel : nat) (heap : Z) : M Z :=
  desc ← desc_alloc fuel;
  sb ← alloc_sb desc;
  write_desc desc (λ D, Desc.with_sb D sb);;
  H ← read_heap heap;
  C ← read_sc (Heap.sc H);
  let slot_size := SizeClass.slot_size C in
  write_desc desc (λ D, Desc.with_slot_size D slot_size);;
  count ← udiv SB_USABLE_SIZE slot_size;
  (* Organize blocks into linked list. *)
  organize_blocks (Z.to_nat (u32 (count - 1))) 1 (u32 (count - 1)) sb slot_size;;
  write_desc desc (λ D,
    let D := Desc.with_heap D heap in
    (* Setting avail to 1 because 0 is the block we're allocating right away. *)
    let D := Desc.with_anchor D (set_avail (Desc.anchor D) 1) in
    let D := Desc.with_anchor D (set_tag (Desc.anchor D) 0) in
    let D := Desc.with_slot_size D slot_size in
    let D := Desc.with_max_count D count in
    let D := Desc.with_anchor D
               (set_count (Desc.anchor D) (u32 (Desc.max_count D - 1))) in
    Desc.with_anchor D (set_state (Desc.anchor D) STATE_PARTIAL));;
  mono_memory_write_barrier;;
  (* Make it active or free it again. *)
  old ← InterlockedCompareExchangePointer (Loc_active heap) desc 0;
  if old =? 0 then
    D ← read_desc desc;
    ret (Desc.sb D)
  else
    write_desc desc (λ D,
      Desc.with_anchor D (set_state (Desc.anchor D) STATE_EMPTY));;
    desc_retire fuel desc;;
    ret 0.

(** [init_heap], lines 372-378.  The two static objects [test_sc] and
    [test_heap] of the source are named by their addresses; a static object
    that was never written reads as zeros. *)
Definition init_heap (test_sc test_heap : Z) : M unit :=
  mono_lock_free_queue_init test_sc;;
  modify (upd_size_classes (λ m,
    <[test_sc := SizeClass.mk
        (SizeClass.partial (default (SizeClass.mk [] 0) (m !! test_sc)))
        TEST_SIZE]> m));;
  modify (upd_heaps (λ m,
    <[test_heap := Heap.mk test_sc
        (Heap.active (default (Heap.mk 0 0) (m !! test_heap)))]> m)).

(** [mono_lock_free_alloc], lines 380-402. *)
Fixpoint mono_lock_free_alloc (fuel : nat) (heap : Z) : M Z :=
  match fuel with
  | O => crash OutOfFuel
  | S n =>
      addr ← alloc_from_active_or_partial fuel heap;
      if negb (addr =? 0) then ret addr else
      addr ← alloc_from_new_sb fuel heap;
      if negb (addr =? 0) then ret addr else
      mono_lock_free_alloc n heap
  end.

(** The anchor that lines 422-433 of [mono_lock_free_free] compute from the
    anchor read and the index of the freed slot. *)
Definition free_new_anchor (old_anchor : Anchor) (index max_count : Z)
    : Anchor :=
  let new_anchor := old_anchor in
  let new_anchor := set_avail new_anchor index in
  let new_anchor :=
    if state old_anchor =? STATE_FULL then set_state new_anchor STATE_PARTIAL
    else new_anchor in
  let new_anchor := set_count new_anchor (count new_anchor + 1) in
  if count new_anchor =? max_count then set_state new_anchor STATE_EMPTY
  else new_anchor.

(** One round of the [do ... while] of [mono_lock_free_free], lines 423-434,
    from the anchor read at line 422; [heap] is the local variable, set at
    line 431.  Returns what [set_anchor] returned, [new_anchor] and [heap]. *)
Definition free_anchor_try (desc ptr sb heap : Z) (old_anchor : Anchor)
    : M (bool * Anchor * Z) :=
  let new_anchor := old_anchor in
  store 4 ptr (avail old_anchor);;
  D ← read_desc desc;
  if Desc.slot_size D =? 0 then crash DivByZero else
  let new_anchor :=
    set_avail new_anchor (Z.quot (ptr - sb) (Desc.slot_size D)) in
  max ← udiv SB_USABLE_SIZE (Desc.slot_size D);
  ASSERT (avail new_anchor <? max);;
  let new_anchor :=
    if state old_anchor =? STATE_FULL then set_state new_anchor STATE_PARTIAL
    else new_anchor in
  let new_anchor := set_count new_anchor (count new_anchor + 1) in
  let at_max := count new_anchor =? Desc.max_count D in
  let heap := if at_max then Desc.heap D else heap in
  let new_anchor :=
    if at_max then set_state new_anchor STATE_EMPTY else new_anchor in
  ok ← set_anchor desc old_anchor new_anchor;
  ret (ok, new_anchor, heap).

Fixpoint free_anchor_loop (fuel : nat) (desc ptr sb heap : Z)
    : M (Anchor * Anchor * Z) :=
  match fuel with
  | O => crash OutOfFuel
  | S n =>
      old_anchor ← atomic64_read desc;
      r ← free_anchor_try desc ptr sb heap old_anchor;
      if fst (fst r) then ret (old_anchor, snd (fst r), snd r)
      else free_anchor_loop n desc ptr sb (snd r)
  end.

(** Lines 436-459 of [mono_lock_free_free]: what follows the successful
    [set_anchor]. *)
Definition free_finish (fuel : nat) (desc heap : Z)
    (old_anchor new_anchor : Anchor) : M unit :=
  if state new_anchor =? STATE_EMPTY then
    ASSERT (negb (state old_anchor =? STATE_EMPTY));;
    old ← InterlockedCompareExchangePointer (Loc_active heap) 0 desc;
    if old =? desc then
      (* We own it, so we free it. *)
      desc_retire fuel desc
    else
      (* Somebody else must free it, so we do some freeing for others. *)
      H ← read_heap heap;
      list_remove_empty_desc fuel (Heap.sc H)
  else if state old_anchor =? STATE_FULL then
    (* Nobody owned it, now we do, so we need to give it back. *)
    ASSERT (state new_anchor =? STATE_PARTIAL);;
    D ← read_desc desc;
    old ← InterlockedCompareExchangePointer (Loc_active (Desc.heap D)) desc 0;
    if negb (old =? 0) then heap_put_partial fuel desc else ret ()
  else ret ().

(** [mono_lock_free_free], lines 404-460. *)
Definition mono_lock_free_free (fuel : nat) (ptr : Z) : M unit :=
  let heap := 0 in
  desc ← DESCRIPTOR_FOR_ADDR ptr;
  D ← read_desc desc;
  let sb := Desc.sb D in
  ASSERT (SB_HEADER_FOR_ADDR ptr =? SB_HEADER_FOR_ADDR sb);;
  r ← free_anchor_loop fuel desc ptr sb heap;
  free_finish fuel desc (snd r) (fst (fst r)) (snd (fst r)).

(** ** The consistency check

    [descriptor_check_consistency], lines 471-541, as it is compiled:
    without [DESC_AVAIL_DUMMY] and without [LAST_BYTE_DEBUG]. *)

(** [ASSERT_OR_PRINT (c, ...)], lines 462-469.  What [g_print] writes is
    not part of the world. *)
Definition ASSERT_OR_PRINT (print c : bool) : M unit :=
  if negb c then
    if print then ret () else ASSERT false
  else ret ().

(** The loop of lines 482-483 over the stack of available descriptors,
    from [avail] on. *)
Fixpoint check_not_avail (fuel : nat) (desc avail : Z) (print : bool)
    : M unit :=
  match fuel with
  | O => crash OutOfFuel
  | S n =>
      if avail =? 0 then ret () else
      ASSERT_OR_PRINT print (negb (desc =? avail));;
      A ← read_desc avail;
      check_not_avail n desc (Desc.next A) print
  end.

(** The loop of lines 513-529 with [n] rounds to go, [index] the slot
    reached and [linked] the array of the slots met.  An access outside
    the array is one outside mapped memory. *)
Fixpoint check_links (n : nat) (desc : Z) (print : bool)
    (max_count index : Z) (linked : list bool) : M (list bool) :=
  match n with
  | O => ret linked
  | S n' =>
      D ← read_desc desc;
      let addr := Desc.sb D + u32 (index * Desc.slot_size D) in
      ASSERT_OR_PRINT print ((0 <=? index) && (index <? u32 max_count));;
      match linked !! Z.to_nat index with
      | None => crash Segfault
      | Some l =>
          ASSERT_OR_PRINT print (negb l);;
          if l then ret linked else
          let linked := <[Z.to_nat index := true]> linked in
          index ← load 4 addr;
          check_links n' desc print max_count index linked
      end
  end.

(** [descriptor_check_consistency].  The loop of lines 531-540 only reads
    [linked] within its bounds and has no effect. *)
Definition descriptor_check_consistency (fuel : nat) (desc : Z)
    (print : bool) : M unit :=
  D ← read_desc desc;
  let count := count (Desc.anchor D) in
  max_count ← udiv SB_USABLE_SIZE (Desc.slot_size D);
  avail_desc ← read_ptr Loc_desc_avail;
  check_not_avail fuel desc avail_desc print;;
  D ← read_desc desc;
  H ← read_heap (Desc.heap D);
  C ← read_sc (Heap.sc H);
  ASSERT_OR_PRINT print (Desc.slot_size D =? SizeClass.slot_size C);;
  D ← read_desc desc;
  (let st := state (Desc.anchor D) in
   if st =? STATE_FULL then ASSERT_OR_PRINT print (count =? 0)
   else if st =? STATE_PARTIAL then ASSERT_OR_PRINT print (count <? max_count)
   else if st =? STATE_EMPTY then ASSERT_OR_PRINT print (count =? max_count)
   else ASSERT_OR_PRINT print false);;
  let linked := replicate (Z.to_nat max_count) false in
  D ← read_desc desc;
  check_links (Z.to_nat count) desc print max_count
    (avail (Desc.anchor D)) linked;;
  ret ().

(** ** Well-formed worlds

    The invariant of the allocator between calls, stated on the parts of
    the world it speaks of. *)

(** Slot sizes for which a superblock has at least two slots and at most
    as many as the ten bits of [avail] and [count] can number. *)
Definition valid_slot_size (slot_size : Z) : Prop :=
  16 ≤ slot_size ≤ MAX_SMALL_SIZE.

Definition disjoint_regions (r1 r2 : Z * Z) : Prop :=
  r1.1 + r1.2 ≤ r2.1 ∨ r2.1 + r2.2 ≤ r1.1.

Fixpoint regions_ok (live : list (Z * Z)) : Prop :=
  match live with
  | [] => True
  | r :: rest =>
      0 < r.1 ∧ 0 < r.2 ∧ r.1 + r.2 ≤ 2 ^ 64 ∧
      Forall (disjoint_regions r) rest ∧ regions_ok rest
  end.

(** The descriptor at [d] lies in a mapped batch of descriptors. *)
Definition dmapped (live : list (Z * Z)) (d : Z) : Prop :=
  ∃ base, (base, Desc.size * NUM_DESC_BATCH) ∈ live ∧
          base ≤ d ∧ d + Desc.size ≤ base + Desc.size * NUM_DESC_BATCH.

(** The first [n] slot indices of the free chain that starts at index [i]:
    each free slot holds the index of the next in its first four bytes. *)
Fixpoint chain (m : gmap Z Z) (sb slot_size : Z) (n : nat) (i : Z) : list Z :=
  match n with
  | O => []
  | S n' => i :: chain m sb slot_size n' (load_bytes m 4 (sb + i * slot_size))
  end.

(** The anchor's state is the one its count calls for. *)
Definition anchor_ok (a : Anchor) (max_count : Z) : Prop :=
  (state a = STATE_EMPTY ∧ count a = max_count)
  ∨ (state a = STATE_FULL ∧ count a = 0)
  ∨ (state a = STATE_PARTIAL ∧ 0 < count a < max_count).

(** The free chain from [avail] runs through [count] distinct slots of the
    superblock, and every index met on the way is one. *)
Definition chain_ok (m : gmap Z Z) (D : Desc.t) : Prop :=
  let a := Desc.anchor D in
  Forall (λ i, 0 ≤ i < Desc.max_count D)
    (chain m (Desc.sb D) (Desc.slot_size D) (S (Z.to_nat (count a))) (avail a))
  ∧ NoDup (chain m (Desc.sb D) (Desc.slot_size D) (Z.to_nat (count a))
             (avail a)).

(** A descriptor in use describes a mapped superblock whose header points
    back to it, belongs to a heap of its slot size, and has a consistent
    anchor and free chain. *)
Definition desc_ok (ds : gmap Z Desc.t) (m : gmap Z Z) (live : list (Z * Z))
    (hs : gmap Z Heap.t) (scs : gmap Z SizeClass.t) (d : Z) : Prop :=
  let D := getd ds d in
  (∃ hdr, Desc.sb D = hdr + SB_HEADER_SIZE ∧ hdr mod SB_SIZE = 0 ∧
          (hdr, SB_SIZE) ∈ live ∧ load_bytes m 8 hdr = d)
  ∧ (∃ H C, hs !! Desc.heap D = Some H ∧ scs !! Heap.sc H = Some C ∧
            SizeClass.slot_size C = Desc.slot_size D)
  ∧ valid_slot_size (Desc.slot_size D)
  ∧ Desc.max_count D = SB_USABLE_SIZE / Desc.slot_size D
  ∧ anchor_ok (Desc.anchor D) (Desc.max_count D)
  ∧ chain_ok m D.

(** Every descriptor in use is well formed, those of [X] excepted. *)
Definition descs_ok (X : list Z) (ds : gmap Z Desc.t) (m : gmap Z Z)
    (live : list (Z * Z)) (hs : gmap Z Heap.t) (scs : gmap Z SizeClass.t)
    : Prop :=
  ∀ d, d ∉ X → dmapped live d → Desc.in_use (getd ds d) = true →
       desc_ok ds m live hs scs d.

(** A heap has a size class; its active descriptor is in use, not FULL,
    of a heap of the same size class, and active in no other heap. *)
Definition heaps_ok (ds : gmap Z Desc.t) (live : list (Z * Z))
    (hs : gmap Z Heap.t) (scs : gmap Z SizeClass.t) : Prop :=
  ∀ h H, hs !! h = Some H →
    is_Some (scs !! Heap.sc H) ∧
    (Heap.active H ≠ 0 →
       dmapped live (Heap.active H) ∧
       Desc.in_use (getd ds (Heap.active H)) = true ∧
       state (Desc.anchor (getd ds (Heap.active H))) ≠ STATE_FULL ∧
       (∃ H', hs !! Desc.heap (getd ds (Heap.active H)) = Some H' ∧
              Heap.sc H' = Heap.sc H) ∧
       (∀ h' H', hs !! h' = Some H' → Heap.active H' = Heap.active H →
                 h' = h)).

(** A partial queue holds distinct descriptors in use, none FULL, none
    active, each of a heap of the queue's size class. *)
Definition queues_ok (ds : gmap Z Desc.t) (live : list (Z * Z))
    (hs : gmap Z Heap.t) (scs : gmap Z SizeClass.t) : Prop :=
  ∀ s C, scs !! s = Some C →
    valid_slot_size (SizeClass.slot_size C) ∧
    NoDup (SizeClass.partial C) ∧
    ∀ d, d ∈ SizeClass.partial C →
      d ≠ 0 ∧ dmapped live d ∧ Desc.in_use (getd ds d) = true ∧
      state (Desc.anchor (getd ds d)) ≠ STATE_FULL ∧
      (∃ H, hs !! Desc.heap (getd ds d) = Some H ∧ Heap.sc H = s) ∧
      (∀ h H, hs !! h = Some H → Heap.active H ≠ d).

(** [l] is the stack of descriptors linked from [p] through [next]. *)
Fixpoint stack_chain (ds : gmap Z Desc.t) (p : Z) (l : list Z) : Prop :=
  match l with
  | [] => p = 0
  | d :: l' => p = d ∧ d ≠ 0 ∧ stack_chain ds (Desc.next (getd ds d)) l'
  end.

(** The [desc_avail] stack holds distinct descriptors, none in use, none
    waiting to be pushed. *)
Definition stack_ok (ds : gmap Z Desc.t) (live : list (Z * Z)) (head : Z)
    (dl : list (Z * free_func)) : Prop :=
  ∃ l, stack_chain ds head l ∧ NoDup l ∧
       ∀ d, d ∈ l → dmapped live d ∧ Desc.in_use (getd ds d) = false ∧
                    (d, Fn_desc_enqueue_avail) ∉ dl.

(** A deferred push is of a retired descriptor; a deferred enqueue is of a
    descriptor in use that is not FULL, not queued and not active. *)
Definition delayed_ok (ds : gmap Z Desc.t) (live : list (Z * Z))
    (hs : gmap Z Heap.t) (scs : gmap Z SizeClass.t)
    (dl : list (Z * free_func)) : Prop :=
  NoDup dl ∧
  ∀ d f, (d, f) ∈ dl →
    dmapped live d ∧
    match f with
    | Fn_desc_enqueue_avail =>
        Desc.in_use (getd ds d) = false ∧
        state (Desc.anchor (getd ds d)) = STATE_EMPTY
    | Fn_desc_put_partial =>
        Desc.in_use (getd ds d) = true ∧
        state (Desc.anchor (getd ds d)) ≠ STATE_FULL ∧
        (∃ H, hs !! Desc.heap (getd ds d) = Some H) ∧
        (∀ s C, scs !! s = Some C → d ∉ SizeClass.partial C) ∧
        (∀ h H, hs !! h = Some H → Heap.active H ≠ d)
    end.

(** The descriptor [d] is not active, not queued and not waiting to be. *)
Definition unowned (hs : gmap Z Heap.t) (scs : gmap Z SizeClass.t)
    (dl : list (Z * free_func)) (d : Z) : Prop :=
  (∀ h H, hs !! h = Some H → Heap.active H ≠ d)
  ∧ (∀ s C, scs !! s = Some C → d ∉ SizeClass.partial C)
  ∧ (d, Fn_desc_put_partial) ∉ dl.

(** The world is well formed, the descriptors of [X] excepted. *)
Definition wfx (X : list Z) (w : World) : Prop :=
  regions_ok (os_live w)
  ∧ descs_ok X (descs w) (mem w) (os_live w) (heaps w) (size_classes w)
  ∧ heaps_ok (descs w) (os_live w) (heaps w) (size_classes w)
  ∧ queues_ok (descs w) (os_live w) (heaps w) (size_classes w)
  ∧ stack_ok (descs w) (os_live w) (desc_avail w) (delayed w)
  ∧ delayed_ok (descs w) (os_live w) (heaps w) (size_classes w) (delayed w).

Definition wf (w : World) : Prop := wfx [] w.

(** [m] run in [w] returns, with a result and a world that satisfy [Q]. *)
Definition returns {A} (m : M A) (w : World) (Q : A → World → Prop) : Prop :=
  ∃ a w', m w = Done a w' ∧ Q a w'.

(** The address of slot [i] of the superblock of [d], the indices of its
    free slots, and the addresses a caller may hold: those of the slots
    of a descriptor in use that are not free. *)
Definition slot_of (w : World) (d i : Z) : Z :=
  Desc.sb (get_desc w d) + i * Desc.slot_size (get_desc w d).

Definition free_slots (w : World) (d : Z) : list Z :=
  chain (mem w) (Desc.sb (get_desc w d)) (Desc.slot_size (get_desc w d))
    (Z.to_nat (count (Desc.anchor (get_desc w d))))
    (avail (Desc.anchor (get_desc w d))).

Definition allocated_slot (w : World) (d addr : Z) : Prop :=
  dmapped (os_live w) d ∧ Desc.in_use (get_desc w d) = true ∧
  ∃ i, 0 ≤ i < Desc.max_count (get_desc w d) ∧ addr = slot_of w d i ∧
       i ∉ free_slots w d.

(** Every slot held in [w] is held in [w'], under the same descriptor. *)
Definition keeps_held (w w' : World) : Prop :=
  ∀ d p, allocated_slot w d p → allocated_slot w' d p.

(** The same slots are held in [w] and in [w']. *)
Definition same_held (w w' : World) : Prop :=
  ∀ d p, allocated_slot w' d p ↔ allocated_slot w d p.

(** No byte of a superblock in which a slot is held in [w] differs in
    [w']. *)
Definition keeps_bytes (w w' : World) : Prop :=
  ∀ d p k, allocated_slot w d p →
    SB_HEADER_FOR_ADDR p ≤ k < SB_HEADER_FOR_ADDR p + SB_SIZE →
    mem w' !! k = mem w !! k.

Definition keeps (w w' : World) : Prop := keeps_held w w' ∧ keeps_bytes w w'.

(** What an allocation that returns [addr] does to the slots held: they
    stay held, with the bytes of their superblocks, and [addr], unless
    null, was held by nobody. *)
Definition alloc_fresh (w : World) (addr : Z) (w' : World) : Prop :=
  keeps w w' ∧ (addr ≠ 0 → ∀ d, ¬ allocated_slot w d addr).

(** The descriptors of a batch at [desc] after the loop of lines 121-127 has
    linked those from number [i] on, [n] of them. *)
Fixpoint link_descs (n : nat) (i desc : Z) (ds : gmap Z Desc.t)
    : gmap Z Desc.t :=
  match n with
  | O => ds
  | S n' =>
      link_descs n' (i + 1) desc
        (<[desc + i * Desc.size :=
             Desc.with_next (getd ds (desc + i * Desc.size))
               (if i =? NUM_DESC_BATCH - 1 then 0
                else desc + (i + 1) * Desc.size)]> ds)
  end.

(** The addresses of the descriptors number [i] to [i + n - 1] of a batch. *)
Fixpoint batch_addrs (n : nat) (i desc : Z) : list Z :=
  match n with
  | O => []
  | S n' => (desc + i * Desc.size) :: batch_addrs n' (i + 1) desc
  end.

(** The bytes of a superblock after the loop of lines 339-340 has run from
    index [i] on. *)
Fixpoint link_blocks (n : nat) (i bound sb slot_size : Z) (m : gmap Z Z)
    : gmap Z Z :=
  match n with
  | O => m
  | S n' =>
      if i <? bound then
        link_blocks n' (u32 (i + 1)) bound sb slot_size
          (store_bytes m 4 (sb + u32 (i * slot_size)) (u32 (i + 1)))
      else m
  end.

Definition hs_le (hs hs' : gmap Z Heap.t) : Prop :=
  ∀ h H, hs !! h = Some H → ∃ H', hs' !! h = Some H' ∧ Heap.sc H' = Heap.sc H.

Definition scs_le (scs scs' : gmap Z SizeClass.t) : Prop :=
  ∀ s C, scs !! s = Some C →
    ∃ C', scs' !! s = Some C' ∧ SizeClass.slot_size C' = SizeClass.slot_size C.

(** A descriptor without the two fields that a retirement writes. *)
Definition erase (D : Desc.t) : Desc.t :=
  Desc.with_in_use (Desc.with_next D 0) false.

(** What [desc_retire] leaves as it was, for the descriptors [R] retired. *)
Definition retired_rel (R : list Z) (w w' : World) : Prop :=
  heaps w' = heaps w ∧ mem w' = mem w ∧ os_script w' = os_script w
  ∧ hazard w' = hazard w ∧ hazard_others w' = hazard_others w
  ∧ (∀ d, d ∉ R → getd (descs w') d = getd (descs w) d)
  ∧ (∀ d, erase (getd (descs w') d) = erase (getd (descs w) d))
  ∧ (∀ d, d ∈ R → Desc.in_use (getd (descs w') d) = false)
  ∧ (∀ d, dmapped (os_live w') d ↔ dmapped (os_live w) d)
  ∧ (∀ r, r ∈ os_live w' → r ∈ os_live w)
  ∧ (∀ d, (d, Fn_desc_put_partial) ∈ delayed w'
          ↔ (d, Fn_desc_put_partial) ∈ delayed w).

(** The events of one retirement. *)
Definition retire_events (w : World) (d : Z) : list event :=
  [EvRetire d; EvOsFree (Desc.sb (get_desc w d) - SB_HEADER_SIZE) SB_SIZE].

(** What the alloc path promises for heap [h] of size class [C]. *)
Definition alloc_post (h : Z) (H : Heap.t) (C : SizeClass.t) (w : World)
    (addr : Z) (w' : World) : Prop :=
  wf w' ∧ os_script w' = os_script w ∧
  (∀ r, r ∈ os_live w' → r ∈ os_live w) ∧
  (∃ H' C', heaps w' !! h = Some H' ∧ Heap.sc H' = Heap.sc H ∧
            size_classes w' !! Heap.sc H = Some C' ∧
            SizeClass.slot_size C' = SizeClass.slot_size C ∧
            (addr = 0 → Heap.active H' = 0)) ∧
  (addr ≠ 0 → ∃ d, allocated_slot w' d addr ∧
                   Desc.slot_size (get_desc w' d) = SizeClass.slot_size C).

(** What [desc_alloc] promises: a mapped descriptor marked in use, held by
    nobody and still to be set up; the rest of the world stays well formed. *)
Definition desc_alloc_post (X : list Z) (w : World) (d : Z) (w' : World)
    : Prop :=
  wfx (d :: X) w' ∧ dmapped (os_live w') d ∧
  Desc.in_use (get_desc w' d) = true ∧
  unowned (heaps w') (size_classes w') (delayed w') d ∧
  heaps w' = heaps w ∧ size_classes w' = size_classes w ∧
  hazard_others w' = hazard_others w ∧
  (∀ d', dmapped (os_live w) d' → dmapped (os_live w') d') ∧
  (∀ d', d' ≠ d → dmapped (os_live w) d' →
         getd (descs w') d' = getd (descs w) d') ∧
  (∀ k, (∀ r, r ∈ os_live w → k < r.1 ∨ r.1 + r.2 ≤ k) ∨ mem w' !! k = mem w !! k) ∧
  (∀ r, r ∈ os_live w → r ∈ os_live w') ∧
  (if desc_avail w =? 0
   then ∃ rest, os_script w = d :: rest ∧ os_script w' = rest ∧
                os_live w' = (d, Desc.size * NUM_DESC_BATCH) :: os_live w
   else os_script w' = os_script w ∧ os_live w' = os_live w ∧
        d = desc_avail w).


(** The OS grants what [alloc_from_new_sb] is about to ask for: a batch of
    descriptors if the stack of free ones is empty, then a superblock. *)
Definition new_sb_ready (w : World) : Prop :=
  if desc_avail w =? 0
  then ∃ a b rest,
         os_script w = a :: b :: rest ∧
         os_fits (os_live w) a (Desc.size * NUM_DESC_BATCH) 1 = true ∧
         os_fits ((a, Desc.size * NUM_DESC_BATCH) :: os_live w) b
           SB_SIZE SB_SIZE = true
  else ∃ b rest,
         os_script w = b :: rest ∧
         os_fits (os_live w) b SB_SIZE SB_SIZE = true.

(** What [alloc_from_new_sb] leaves when its descriptor [d] became the
    active one of heap [h]: the anchor of lines 343-349, the links of lines
    339-340, and slot 0 as the result. *)
Definition new_sb_installed (h : Z) (H : Heap.t) (C : SizeClass.t)
    (w : World) (r : Z) (w' : World) (d : Z) : Prop :=
  let D := get_desc w' d in
  heaps w' = <[h := Heap.mk (Heap.sc H) d]> (heaps w)
  ∧ size_classes w' = size_classes w
  ∧ dmapped (os_live w') d ∧ Desc.in_use D = true
  ∧ Desc.heap D = h ∧ Desc.slot_size D = SizeClass.slot_size C
  ∧ Desc.max_count D = SB_USABLE_SIZE / SizeClass.slot_size C
  ∧ avail (Desc.anchor D) = 1
  ∧ count (Desc.anchor D) = Desc.max_count D - 1
  ∧ tag (Desc.anchor D) = 0
  ∧ state (Desc.anchor D) = STATE_PARTIAL
  ∧ r = Desc.sb D ∧ r = slot_of w' d 0
  ∧ (∀ i, 1 ≤ i ≤ Desc.max_count D - 2 →
          load_bytes (mem w') 4 (slot_of w' d i) = i + 1)
  ∧ free_slots w' d = seqZ 1 (Desc.max_count D - 1).

Definition new_sb_post (h : Z) (H : Heap.t) (C : SizeClass.t) (w : World)
    (r : Z) (w' : World) : Prop :=
  wf w' ∧
  if Heap.active H =? 0
  then r ≠ 0 ∧ ∃ d, new_sb_installed h H C w r w' d
  else r = 0 ∧ heaps w' = heaps w ∧ size_classes w' = size_classes w.

(** The OS has two superblock-sized, superblock-aligned regions on offer:
    enough for a batch of descriptors and a superblock, the most that one
    call of [mono_lock_free_alloc] asks for. *)
Definition os_willing (w : World) : Prop :=
  ∃ a b rest,
    os_script w = a :: b :: rest ∧
    os_fits (os_live w) a SB_SIZE SB_SIZE = true ∧
    os_fits ((a, SB_SIZE) :: os_live w) b SB_SIZE SB_SIZE = true.

(** What a sweep of the partial queue leaves as it was: everything but the
    queues, the stack of free descriptors, the deferred calls and the
    superblocks of the descriptors retired. *)
Definition swept_rel (w w' : World) : Prop :=
  heaps w' = heaps w ∧ mem w' = mem w ∧ os_script w' = os_script w
  ∧ hazard w' = hazard w ∧ hazard_others w' = hazard_others w
  ∧ (∀ d, erase (getd (descs w') d) = erase (getd (descs w) d))
  ∧ (∀ d, Desc.in_use (getd (descs w) d) = false →
          Desc.in_use (getd (descs w') d) = false)
  ∧ (∀ d, dmapped (os_live w') d ↔ dmapped (os_live w) d)
  ∧ (∀ r, r ∈ os_live w' → r ∈ os_live w).

(** What one call of [list_remove_empty_desc] on the queue [q] does, from
    world [w] to [w']: the descriptors [retired], in this order and no
    others, were retired; those [kept] were found not EMPTY and given back. *)
Definition sweep_post (q : list Z) (bound : Z) (w w' : World) : Prop :=
  wf w' ∧ swept_rel w w' ∧
  ∃ retired kept,
    trace w' = trace w ++ concat (map (retire_events w) retired)
    ∧ (∀ d, d ∈ retired →
         d ∈ q ∧ state (Desc.anchor (get_desc w d)) = STATE_EMPTY ∧
         Desc.in_use (get_desc w' d) = false)
    ∧ (∀ d, d ∈ kept →
         d ∈ q ∧ state (Desc.anchor (get_desc w d)) ≠ STATE_EMPTY)
    ∧ Z.of_nat (length kept) ≤ bound
    ∧ (∀ es rest, q = es ++ rest →
         (∀ d, d ∈ es → state (Desc.anchor (get_desc w d)) = STATE_EMPTY) →
         ∃ more, retired = es ++ more).

(** The world right after the successful [set_anchor] of
    [mono_lock_free_free] for slot [i] of descriptor [d]. *)
Definition free_anchor_world (w : World) (d i : Z) : World :=
  let D := get_desc w d in
  let old := Desc.anchor D in
  let new := free_new_anchor old i (Desc.max_count D) in
  log (EvAnchor d old new)
    (put_desc d (Desc.with_anchor D new)
       (upd_mem (λ m, store_bytes m 4 (slot_of w d i) (avail old)) w)).

(** What [mono_lock_free_free] leaves for slot [i] of descriptor [d]: one
    anchor update, and then the retirement of [d], a sweep of the partial
    queue, the return of [d] to its heap, or nothing. *)
Definition free_post (w : World) (d i : Z) (w' : World) : Prop :=
  let D := get_desc w d in
  let old := Desc.anchor D in
  let new := free_new_anchor old i (Desc.max_count D) in
  let w1 := free_anchor_world w d i in
  wf w' ∧
  ∃ H C, heaps w !! Desc.heap D = Some H ∧
         size_classes w !! Heap.sc H = Some C ∧
    if state new =? STATE_EMPTY then
      if Heap.active H =? d then
        trace w' = trace w1 ++ retire_events w d ∧
        Desc.in_use (get_desc w' d) = false
      else
        sweep_post (SizeClass.partial C) 2
          (log (EvRemoveEmpty (Heap.sc H)) w1) w'
    else
      trace w' = trace w1 ∧ descs w' = descs w1 ∧ mem w' = mem w1.

(** ** Executions

    The worlds that calls of [mono_lock_free_alloc] and
    [mono_lock_free_free] reach from a freshly initialised heap, one call
    at a time.  Between two calls the OS may change what it will offer and
    other threads may publish hazard pointers.  A call of
    [mono_lock_free_alloc] is made while the OS is willing, a call of
    [mono_lock_free_free] for a slot that a caller holds, and both with
    fuel for their loops. *)

Definition initial_world (script : list Z) : World :=
  mkWorld ∅ 0 ∅ ∅ ∅ [] script 0 [] [] [].

Inductive reachable : World → Prop :=
| reach_init script test_sc test_heap w :
    init_heap test_sc test_heap (initial_world script) = Done () w →
    reachable w
| reach_os w script :
    reachable w → reachable (upd_os (os_live w) script w)
| reach_hazard w l :
    reachable w → reachable (upd_hazard_others l w)
| reach_alloc w fuel h H C addr w' :
    reachable w → heaps w !! h = Some H →
    size_classes w !! Heap.sc H = Some C → os_willing w →
    (length (SizeClass.partial C) + 1 < fuel)%nat →
    mono_lock_free_alloc fuel h w = Done addr w' → reachable w'
| reach_free w fuel d ptr H C w' :
    reachable w → allocated_slot w d ptr →
    heaps w !! Desc.heap (get_desc w d) = Some H →
    size_classes w !! Heap.sc H = Some C →
    (length (SizeClass.partial C) + 2 < fuel)%nat →
    mono_lock_free_free fuel ptr w = Done () w' → reachable w'.

(** The world and the result of a run. *)
Definition world_after {A} (m : M A) (w : World) : World :=
  match m w with Done _ w' => w' | Crash _ => w end.

Definition result_of {A} (m : M A) (w : World) : option A :=
  match m w with Done a _ => Some a | Crash _ => None end.

(** *** Checked runs

    A list of calls is run call by call; before each call it is checked
    that the call is one that [reachable] allows. *)
Inductive op : Type := Op_alloc (heap : Z) | Op_free (ptr : Z).

Definition os_willingb (w : World) : bool :=
  match os_script w with
  | a :: b :: _ =>
      os_fits (os_live w) a SB_SIZE SB_SIZE
      && os_fits ((a, SB_SIZE) :: os_live w) b SB_SIZE SB_SIZE
  | _ => false
  end.

Definition alloc_ready (fuel : nat) (h : Z) (w : World) : bool :=
  match heaps w !! h with
  | Some H =>
      match size_classes w !! Heap.sc H with
      | Some C =>
          bool_decide (length (SizeClass.partial C) + 1 < fuel)%nat
          && os_willingb w
      | None => false
      end
  | None => false
  end.

Definition dmappedb (live : list (Z * Z)) (d : Z) : bool :=
  existsb (λ r : Z * Z,
             (r.2 =? Desc.size * NUM_DESC_BATCH) && (r.1 <=? d)
             && (d + Desc.size <=? r.1 + r.2)) live.

Definition free_ready (fuel : nat) (ptr : Z) (w : World) : bool :=
  let d := load_bytes (mem w) 8 (SB_HEADER_FOR_ADDR ptr) in
  let D := get_desc w d in
  let i := (ptr - Desc.sb D) / Desc.slot_size D in
  dmappedb (os_live w) d && Desc.in_use D
  && (0 <=? i) && (i <? Desc.max_count D) && (ptr =? slot_of w d i)
  && bool_decide (i ∉ free_slots w d)
  && match heaps w !! Desc.heap D with
     | Some H =>
         match size_classes w !! Heap.sc H with
         | Some C => bool_decide (length (SizeClass.partial C) + 2 < fuel)%nat
         | None => false
         end
     | None => false
     end.

Definition step (fuel : nat) (o : op) (w : World) : option World :=
  match o with
  | Op_alloc h =>
      if alloc_ready fuel h w
      then Some (world_after (mono_lock_free_alloc fuel h) w) else None
  | Op_free ptr =>
      if free_ready fuel ptr w
      then Some (world_after (mono_lock_free_free fuel ptr) w) else None
  end.

Fixpoint run (fuel : nat) (ops : list op) (w : World) : option World :=
  match ops with
  | [] => Some w
  | o :: rest =>
      match step fuel o w with
      | Some w' => run fuel rest w'
      | None => None
      end
  end.


Definition retired_in (evs : list event) : list Z :=
  omap (λ e, match e with EvRetire d => Some d | _ => None end) evs.

(** ** The properties claimed *)

(** The state of an anchor is the one its count calls for. *)
Definition anchor_invariant (a : Anchor) (max_count : Z) : Prop :=
  (count a = max_count ↔ state a = STATE_EMPTY)
  ∧ (count a = 0 ↔ state a = STATE_FULL)
  ∧ (count a ≠ max_count → count a ≠ 0 → state a = STATE_PARTIAL).

(** Every live descriptor, one that is mapped and in use, has such an
    anchor. *)
Definition anchors_ok (w : World) : Prop :=
  ∀ d, dmapped (os_live w) d → Desc.in_use (get_desc w d) = true →
       anchor_invariant (Desc.anchor (get_desc w d))
         (Desc.max_count (get_desc w d)).

(** The descriptor [d] is on the [desc_avail] stack. *)
Definition on_stack (w : World) (d : Z) : Prop :=
  ∃ l, stack_chain (descs w) (desc_avail w) l ∧ d ∈ l.

(** ** Example worlds

    The two static objects of the test harness, an OS with superblock-
    aligned regions on offer, and the worlds of the first calls. *)
Definition test_sc : Z := 4096.
Definition test_heap : Z := 4160.
Definition test_script : list Z := map (λ k, SB_SIZE * k) (seqZ 10 12).

Definition world_init : World :=
  world_after (init_heap test_sc test_heap) (initial_world test_script).

(** After one call of [mono_lock_free_alloc]: slot 0 of a new superblock
    is handed out. *)
Definition world_one : World :=
  default world_init (run 3 [Op_alloc test_heap] world_init).

(** After a second call: slots 0 and 1 are handed out. *)
Definition world_two : World :=
  default world_init
    (run 3 [Op_alloc test_heap; Op_alloc test_heap] world_init).

(** The world with an OS that has nothing on offer. *)
Definition world_refused : World :=
  world_after (init_heap test_sc test_heap) (initial_world []).

(** A longer run.  Superblock number [k] of the test heap, from 1 on, is
    the region that the OS offers after the batch of descriptors and the
    superblocks before it; its descriptor is number [k] of the batch. *)
Definition test_sb (k : Z) : Z := SB_SIZE * (10 + k) + SB_HEADER_SIZE.
Definition test_desc (k : Z) : Z := SB_SIZE * 10 + (k - 1) * Desc.size.
Definition test_slot (k i : Z) : Z := test_sb k + i * TEST_SIZE.

Definition free_ops (k : Z) (from : Z) (n : nat) : list op :=
  map (λ i, Op_free (test_slot k i)) (seqZ from (Z.of_nat n)).

(** All 255 slots of eight superblocks are handed out; slot 0 of the
    eighth and then of the first seven is freed, which makes the eighth
    descriptor the active one and queues the others; then the other slots
    of the fifth and of the sixth are freed, and those of the seventh but
    for the last. *)
Definition sweep_ops : list op :=
  replicate (8 * 255) (Op_alloc test_heap)
  ++ free_ops 8 0 1
  ++ concat (map (λ k, free_ops k 0 1) (seqZ 1 7))
  ++ free_ops 5 1 254 ++ free_ops 6 1 254 ++ free_ops 7 1 253.

Definition world_sweep : World :=
  default world_init (run 10 sweep_ops world_init).

(** The size class of the test heap in [world_sweep]: the fifth and the
    sixth descriptor, both EMPTY, are at the front of the partial queue. *)
Definition sweep_class : SizeClass.t :=
  SizeClass.mk (map test_desc [5; 6; 7; 1; 2; 3; 4]) TEST_SIZE.

(** The world in which [mono_lock_free_free], called in [world_sweep] for
    the last slot of the seventh superblock, calls
    [list_remove_empty_desc]: the anchor of the seventh descriptor has just
    become EMPTY. *)
Definition sweep_call_world : World :=
  free_anchor_world world_sweep (test_desc 7) 254.

(** * Properties of the embedding *)

(** ** Bit-fields *)

Lemma bf_get_range off width a :
  0 ≤ width → 0 ≤ bf_get off width a < 2 ^ width.
Proof.
  intros. unfold bf_get. apply Z.mod_pos_bound. apply Z.pow_pos_nonneg; lia.
Qed.

Lemma bf_get_set_same off width a v :
  0 ≤ off → 0 ≤ width →
  bf_get off width (bf_set off width a v) = v mod 2 ^ width.
Proof.
  intros Ho Hw. unfold bf_set, bf_get.
  assert (0 < 2 ^ off) by (apply Z.pow_pos_nonneg; lia).
  assert (0 < 2 ^ width) by (apply Z.pow_pos_nonneg; lia).
  rewrite Z.div_add by lia.
  set (q := a / 2 ^ off).
  rewrite (Z.div_mod q (2 ^ width)) at 1 by lia.
  replace (2 ^ width * (q / 2 ^ width) + q mod 2 ^ width
           + (v mod 2 ^ width - q mod 2 ^ width))
    with (v mod 2 ^ width + (q / 2 ^ width) * 2 ^ width) by lia.
  rewrite Z.mod_add by lia. apply Z.mod_mod. lia.
Qed.

Lemma bf_get_set_below off width off' width' a v :
  0 ≤ off' → 0 ≤ width' → off' + width' ≤ off →
  bf_get off' width' (bf_set off width a v) = bf_get off' width' a.
Proof.
  intros Ho Hw Hle. unfold bf_set, bf_get.
  assert (0 < 2 ^ off') by (apply Z.pow_pos_nonneg; lia).
  assert (0 < 2 ^ width') by (apply Z.pow_pos_nonneg; lia).
  replace (2 ^ off) with (2 ^ (off - off' - width') * 2 ^ width' * 2 ^ off').
  2:{ rewrite <- !Z.pow_add_r by lia. f_equal. lia. }
  rewrite !Z.mul_assoc. rewrite Z.div_add by lia.
  rewrite Z.mod_add by lia. reflexivity.
Qed.

Lemma bf_get_set_above off width off' width' a v :
  0 ≤ off → 0 ≤ width → off + width ≤ off' →
  bf_get off' width' (bf_set off width a v) = bf_get off' width' a.
Proof.
  intros Ho Hw Hle. unfold bf_set, bf_get.
  assert (0 < 2 ^ off) by (apply Z.pow_pos_nonneg; lia).
  assert (0 < 2 ^ width) by (apply Z.pow_pos_nonneg; lia).
  f_equal.
  replace (2 ^ off') with (2 ^ off * (2 ^ width * 2 ^ (off' - off - width))).
  2:{ rewrite <- !Z.pow_add_r by lia. f_equal. lia. }
  assert (0 < 2 ^ (off' - off - width)) by (apply Z.pow_pos_nonneg; lia).
  rewrite <- !Z.div_div by lia.
  rewrite Z.div_add by lia.
  set (q := a / 2 ^ off).
  f_equal.
  rewrite (Z.div_mod q (2 ^ width)) at 1 by lia.
  replace (2 ^ width * (q / 2 ^ width) + q mod 2 ^ width
           + (v mod 2 ^ width - q mod 2 ^ width))
    with (v mod 2 ^ width + (q / 2 ^ width) * 2 ^ width) by lia.
  rewrite Z.div_add by lia.
  rewrite Z.div_small by (apply Z.mod_pos_bound; lia). lia.
Qed.

(** ** The fields of an anchor *)

Lemma avail_range a : 0 ≤ avail a < 1024.
Proof. apply (bf_get_range 0 10 a). lia. Qed.
Lemma count_range a : 0 ≤ count a < 1024.
Proof. apply (bf_get_range 10 10 a). lia. Qed.
Lemma state_range a : 0 ≤ state a < 4.
Proof. apply (bf_get_range 20 2 a). lia. Qed.
Lemma tag_range a : 0 ≤ tag a < 2 ^ 42.
Proof. apply (bf_get_range 22 42 a). lia. Qed.

Lemma avail_set_avail a v : avail (set_avail a v) = v mod 1024.
Proof. apply (bf_get_set_same 0 10); lia. Qed.
Lemma count_set_avail a v : count (set_avail a v) = count a.
Proof. apply (bf_get_set_above 0 10 10 10); lia. Qed.
Lemma state_set_avail a v : state (set_avail a v) = state a.
Proof. apply (bf_get_set_above 0 10 20 2); lia. Qed.
Lemma tag_set_avail a v : tag (set_avail a v) = tag a.
Proof. apply (bf_get_set_above 0 10 22 42); lia. Qed.

Lemma avail_set_count a v : avail (set_count a v) = avail a.
Proof. apply (bf_get_set_below 10 10 0 10); lia. Qed.
Lemma count_set_count a v : count (set_count a v) = v mod 1024.
Proof. apply (bf_get_set_same 10 10); lia. Qed.
Lemma state_set_count a v : state (set_count a v) = state a.
Proof. apply (bf_get_set_above 10 10 20 2); lia. Qed.
Lemma tag_set_count a v : tag (set_count a v) = tag a.
Proof. apply (bf_get_set_above 10 10 22 42); lia. Qed.

Lemma avail_set_state a v : avail (set_state a v) = avail a.
Proof. apply (bf_get_set_below 20 2 0 10); lia. Qed.
Lemma count_set_state a v : count (set_state a v) = count a.
Proof. apply (bf_get_set_below 20 2 10 10); lia. Qed.
Lemma state_set_state a v : state (set_state a v) = v mod 4.
Proof. apply (bf_get_set_same 20 2); lia. Qed.
Lemma tag_set_state a v : tag (set_state a v) = tag a.
Proof. apply (bf_get_set_above 20 2 22 42); lia. Qed.

Lemma avail_set_tag a v : avail (set_tag a v) = avail a.
Proof. apply (bf_get_set_below 22 42 0 10); lia. Qed.
Lemma count_set_tag a v : count (set_tag a v) = count a.
Proof. apply (bf_get_set_below 22 42 10 10); lia. Qed.
Lemma state_set_tag a v : state (set_tag a v) = state a.
Proof. apply (bf_get_set_below 22 42 20 2); lia. Qed.
Lemma tag_set_tag a v : tag (set_tag a v) = v mod 2 ^ 42.
Proof. apply (bf_get_set_same 22 42); lia. Qed.

Create Rewrite HintDb anchor.
#[export] Hint Rewrite
  avail_set_avail count_set_avail state_set_avail tag_set_avail
  avail_set_count count_set_count state_set_count tag_set_count
  avail_set_state count_set_state state_set_state tag_set_state
  avail_set_tag count_set_tag state_set_tag tag_set_tag : anchor.

(** The 64-bit value is its four fields. *)
Lemma anchor_fields a :
  0 ≤ a < 2 ^ 64 →
  a = avail a + count a * 2 ^ 10 + state a * 2 ^ 20 + tag a * 2 ^ 22.
Proof.
  intros Ha. unfold avail, count, state, tag, bf_get.
  change (2 ^ 0) with 1. rewrite Z.div_1_r.
  assert (H42 : (a / 2 ^ 22) mod 2 ^ 42 = a / 2 ^ 22).
  { apply Z.mod_small. split; [apply Z.div_pos; lia|].
    apply Z.div_lt_upper_bound; lia. }
  rewrite H42.
  pose proof (Z.div_mod a (2 ^ 10) ltac:(lia)) as E1.
  pose proof (Z.div_mod (a / 2 ^ 10) (2 ^ 10) ltac:(lia)) as E2.
  pose proof (Z.div_mod (a / 2 ^ 10 / 2 ^ 10) (2 ^ 2) ltac:(lia)) as E3.
  rewrite !Z.div_div in E2, E3 by lia.
  rewrite Z.div_div in E3 by lia.
  change (2 ^ 10 * 2 ^ 10) with (2 ^ 20) in *.
  change (2 ^ 20 * 2 ^ 2) with (2 ^ 22) in *.
  lia.
Qed.

Lemma anchor_eq a b :
  0 ≤ a < 2 ^ 64 → 0 ≤ b < 2 ^ 64 →
  avail a = avail b → count a = count b → state a = state b → tag a = tag b →
  a = b.
Proof.
  intros Ha Hb E1 E2 E3 E4.
  rewrite (anchor_fields a Ha), (anchor_fields b Hb). congruence.
Qed.

Lemma mk_anchor_avail av cn st tg : avail (mk_anchor av cn st tg) = av mod 1024.
Proof.
  unfold avail, mk_anchor, bf_get. change (2 ^ 0) with 1. rewrite Z.div_1_r.
  replace (av mod 2 ^ 10 + cn mod 2 ^ 10 * 2 ^ 10 + st mod 2 ^ 2 * 2 ^ 20
           + tg mod 2 ^ 42 * 2 ^ 22)
    with (av mod 2 ^ 10 + (cn mod 2 ^ 10 + st mod 2 ^ 2 * 2 ^ 10
                           + tg mod 2 ^ 42 * 2 ^ 12) * 2 ^ 10) by lia.
  rewrite Z.mod_add by lia. apply Z.mod_mod. lia.
Qed.

Lemma mk_anchor_count av cn st tg : count (mk_anchor av cn st tg) = cn mod 1024.
Proof.
  unfold count, mk_anchor, bf_get.
  replace (av mod 2 ^ 10 + cn mod 2 ^ 10 * 2 ^ 10 + st mod 2 ^ 2 * 2 ^ 20
           + tg mod 2 ^ 42 * 2 ^ 22)
    with (av mod 2 ^ 10 + (cn mod 2 ^ 10 + (st mod 2 ^ 2
                           + tg mod 2 ^ 42 * 2 ^ 2) * 2 ^ 10) * 2 ^ 10) by lia.
  rewrite Z.div_add by lia.
  rewrite (Z.div_small (av mod 2 ^ 10)) by (apply Z.mod_pos_bound; lia).
  rewrite Z.add_0_l, Z.mod_add by lia. apply Z.mod_mod. lia.
Qed.

Lemma mk_anchor_state av cn st tg : state (mk_anchor av cn st tg) = st mod 4.
Proof.
  unfold state, mk_anchor, bf_get.
  pose proof (Z.mod_pos_bound av (2 ^ 10) ltac:(lia)).
  pose proof (Z.mod_pos_bound cn (2 ^ 10) ltac:(lia)).
  replace (av mod 2 ^ 10 + cn mod 2 ^ 10 * 2 ^ 10 + st mod 2 ^ 2 * 2 ^ 20
           + tg mod 2 ^ 42 * 2 ^ 22)
    with ((av mod 2 ^ 10 + cn mod 2 ^ 10 * 2 ^ 10)
          + (st mod 2 ^ 2 + tg mod 2 ^ 42 * 2 ^ 2) * 2 ^ 20) by lia.
  rewrite Z.div_add by lia.
  rewrite (Z.div_small (av mod 2 ^ 10 + _)) by lia.
  rewrite Z.add_0_l, Z.mod_add by lia. apply Z.mod_mod. lia.
Qed.

Lemma mk_anchor_tag av cn st tg : tag (mk_anchor av cn st tg) = tg mod 2 ^ 42.
Proof.
  unfold tag, mk_anchor, bf_get.
  pose proof (Z.mod_pos_bound av (2 ^ 10) ltac:(lia)).
  pose proof (Z.mod_pos_bound cn (2 ^ 10) ltac:(lia)).
  pose proof (Z.mod_pos_bound st (2 ^ 2) ltac:(lia)).
  replace (av mod 2 ^ 10 + cn mod 2 ^ 10 * 2 ^ 10 + st mod 2 ^ 2 * 2 ^ 20
           + tg mod 2 ^ 42 * 2 ^ 22)
    with ((av mod 2 ^ 10 + cn mod 2 ^ 10 * 2 ^ 10 + st mod 2 ^ 2 * 2 ^ 20)
          + (tg mod 2 ^ 42) * 2 ^ 22) by lia.
  rewrite Z.div_add by lia.
  rewrite (Z.div_small (av mod 2 ^ 10 + _ + _)) by lia.
  rewrite Z.add_0_l. apply Z.mod_mod. lia.
Qed.

(** [SB_HEADER_FOR_ADDR] rounds down to a multiple of [SB_SIZE]. *)
Lemma SB_HEADER_FOR_ADDR_eq a : SB_HEADER_FOR_ADDR a = a - a mod SB_SIZE.
Proof.
  unfold SB_HEADER_FOR_ADDR, SB_SIZE.
  change (16384 - 1) with (Z.ones 14).
  rewrite <- Z.ldiff_land, Z.ldiff_ones_r by lia.
  rewrite Z.shiftr_div_pow2, Z.shiftl_mul_pow2 by lia.
  change (2 ^ 14) with 16384.
  pose proof (Z.div_mod a 16384 ltac:(lia)). lia.
Qed.

Lemma SB_HEADER_FOR_ADDR_in hdr off :
  hdr mod SB_SIZE = 0 → 0 ≤ off < SB_SIZE → SB_HEADER_FOR_ADDR (hdr + off) = hdr.
Proof.
  intros Hh Ho. rewrite SB_HEADER_FOR_ADDR_eq.
  assert (E : (hdr + off) mod SB_SIZE = off).
  { unfold SB_SIZE in *.
    rewrite Z.add_mod, Hh, Z.add_0_l, Z.mod_mod by lia.
    apply Z.mod_small. lia. }
  lia.
Qed.

(** ** Bytes *)

Lemma load_bytes_ext m1 m2 n a :
  (∀ k, a ≤ k < a + Z.of_nat n → m1 !! k = m2 !! k) →
  load_bytes m1 n a = load_bytes m2 n a.
Proof.
  revert a. induction n as [|n IH]; intros a H; simpl; [reflexivity|].
  rewrite (H a) by lia. rewrite (IH (a + 1)); [reflexivity|].
  intros k Hk. apply H. lia.
Qed.

Lemma store_bytes_lookup_outside m n a v k :
  k < a ∨ a + Z.of_nat n ≤ k → store_bytes m n a v !! k = m !! k.
Proof.
  revert a v. induction n as [|n IH]; intros a v H; simpl; [reflexivity|].
  rewrite lookup_insert_ne by lia. apply IH. lia.
Qed.

Lemma load_store_other m n a v n' a' :
  a' + Z.of_nat n' ≤ a ∨ a + Z.of_nat n ≤ a' →
  load_bytes (store_bytes m n a v) n' a' = load_bytes m n' a'.
Proof.
  intros H. apply load_bytes_ext. intros k Hk.
  apply store_bytes_lookup_outside. lia.
Qed.

Lemma load_store_same m n a v :
  0 ≤ v < 256 ^ Z.of_nat n → load_bytes (store_bytes m n a v) n a = v.
Proof.
  revert a v. induction n as [|n IH]; intros a v Hv.
  - simpl in *. lia.
  - cbn [load_bytes store_bytes]. rewrite lookup_insert_eq.
    change (default 0 (Some (v mod 256))) with (v mod 256).
    rewrite (load_bytes_ext _ (store_bytes m n (a + 1) (v / 256))).
    2:{ intros k Hk. apply lookup_insert_ne. lia. }
    rewrite IH.
    + pose proof (Z.div_mod v 256 ltac:(lia)). lia.
    + rewrite Nat2Z.inj_succ, Z.pow_succ_r in Hv by lia.
      split; [apply Z.div_pos; lia|apply Z.div_lt_upper_bound; lia].
Qed.

Lemma load_bytes_zero m n a :
  (∀ k, a ≤ k < a + Z.of_nat n → m !! k = None) → load_bytes m n a = 0.
Proof.
  revert a. induction n as [|n IH]; intros a H; simpl; [reflexivity|].
  rewrite (H a) by lia. rewrite IH; [reflexivity|].
  intros k Hk. apply H. lia.
Qed.

Lemma zero_fill_mem_inside a size w k :
  a ≤ k < a + size → mem (zero_fill a size w) !! k = None.
Proof.
  intros H. simpl. apply map_lookup_filter_None. right.
  intros x _ Hout. unfold outside in Hout. simpl in Hout. lia.
Qed.

Lemma zero_fill_mem_outside a size w k :
  outside a size k → mem (zero_fill a size w) !! k = mem w !! k.
Proof.
  intros H. simpl. destruct (mem w !! k) as [x|] eqn:E.
  - apply map_lookup_filter_Some. split; [exact E|exact H].
  - apply map_lookup_filter_None. left. exact E.
Qed.

Lemma zero_fill_descs_inside a size w k :
  a ≤ k < a + size → descs (zero_fill a size w) !! k = None.
Proof.
  intros H. simpl. apply map_lookup_filter_None. right.
  intros x _ Hout. unfold outside in Hout. simpl in Hout. lia.
Qed.

Lemma zero_fill_descs_outside a size w k :
  outside a size k → descs (zero_fill a size w) !! k = descs w !! k.
Proof.
  intros H. simpl. destruct (descs w !! k) as [x|] eqn:E.
  - apply map_lookup_filter_Some. split; [exact E|exact H].
  - apply map_lookup_filter_None. left. exact E.
Qed.

(** ** Running programs *)

Lemma bind_Done {A B} (m : M A) (f : A → M B) w b w2 :
  bind m f w = Done b w2 ↔ ∃ a w1, m w = Done a w1 ∧ f a w1 = Done b w2.
Proof.
  unfold bind. split.
  - destruct (m w) as [a w1|e]; [|discriminate]. eauto.
  - intros (a & w1 & -> & H). exact H.
Qed.

Lemma bind_eq {A B} (m : M A) (f : A → M B) w a w1 :
  m w = Done a w1 → bind m f w = f a w1.
Proof. unfold bind. intros ->. reflexivity. Qed.

Lemma ret_Done {A} (a b : A) w w' : ret a w = Done b w' ↔ b = a ∧ w' = w.
Proof. unfold ret. split; [intros [= -> ->]|intros [-> ->]]; auto. Qed.

Lemma ASSERT_Done b w u w' : ASSERT b w = Done u w' ↔ b = true ∧ w' = w.
Proof.
  unfold ASSERT, ret, crash. destruct b, u; split; try discriminate.
  - intros [= ->]; auto.
  - intros [_ ->]; auto.
  - intros [? _]; discriminate.
Qed.

Lemma udiv_Done a b w q w' :
  udiv a b w = Done q w' ↔ b ≠ 0 ∧ q = a / b ∧ w' = w.
Proof.
  unfold udiv, ret, crash. destruct (Z.eqb_spec b 0); split; try discriminate.
  - intros (? & _); contradiction.
  - intros [= <- <-]; auto.
  - intros (_ & -> & ->); auto.
Qed.

Lemma modify_Done f w u w' : modify f w = Done u w' ↔ w' = f w.
Proof. unfold modify. destruct u. split; [intros [= <-]|intros ->]; auto. Qed.

Lemma get_world_Done w a w' : get_world w = Done a w' ↔ a = w ∧ w' = w.
Proof. unfold get_world. split; [intros [= <- <-]|intros [-> ->]]; auto. Qed.

Lemma crash_Done {A} e w (a : A) w' : crash e w = Done a w' ↔ False.
Proof. unfold crash. split; [discriminate|contradiction]. Qed.

Lemma load_Done n a w v w' :
  load n a w = Done v w' ↔
  mapped w a (Z.of_nat n) = true ∧ v = load_bytes (mem w) n a ∧ w' = w.
Proof.
  unfold load. destruct (mapped w a (Z.of_nat n)); split; try discriminate.
  - intros [= <- <-]; auto.
  - intros (_ & -> & ->); auto.
  - intros (? & _); discriminate.
Qed.

Lemma store_Done n a v w u w' :
  store n a v w = Done u w' ↔
  mapped w a (Z.of_nat n) = true ∧ w' = upd_mem (λ m, store_bytes m n a v) w.
Proof.
  unfold store. destruct u, (mapped w a (Z.of_nat n)); split; try discriminate.
  - intros [= <-]; auto.
  - intros (_ & ->); auto.
  - intros (? & _); discriminate.
Qed.

Lemma read_desc_Done d w D w' :
  read_desc d w = Done D w' ↔
  mapped w d Desc.size = true ∧ D = get_desc w d ∧ w' = w.
Proof.
  unfold read_desc. destruct (mapped w d Desc.size); split; try discriminate.
  - intros [= <- <-]; auto.
  - intros (_ & -> & ->); auto.
  - intros (? & _); discriminate.
Qed.

Lemma write_desc_Done d f w u w' :
  write_desc d f w = Done u w' ↔
  mapped w d Desc.size = true ∧ w' = put_desc d (f (get_desc w d)) w.
Proof.
  unfold write_desc. destruct u, (mapped w d Desc.size); split; try discriminate.
  - intros [= <-]; auto.
  - intros (_ & ->); auto.
  - intros (? & _); discriminate.
Qed.

Lemma read_heap_Done h w H w' :
  read_heap h w = Done H w' ↔ heaps w !! h = Some H ∧ w' = w.
Proof.
  unfold read_heap. destruct (heaps w !! h); split; try discriminate.
  - intros [= <- <-]; auto.
  - intros ([= ->] & ->); auto.
  - intros (? & _); discriminate.
Qed.

Lemma read_sc_Done s w C w' :
  read_sc s w = Done C w' ↔ size_classes w !! s = Some C ∧ w' = w.
Proof.
  unfold read_sc. destruct (size_classes w !! s); split; try discriminate.
  - intros [= <- <-]; auto.
  - intros ([= ->] & ->); auto.
  - intros (? & _); discriminate.
Qed.

(** Takes apart a hypothesis that says a program returned. *)
Ltac inv_M :=
  repeat match goal with
  | H : bind _ _ _ = Done _ _ |- _ =>
      apply bind_Done in H; destruct H as (? & ? & ? & H)
  | H : ret _ _ = Done _ _ |- _ =>
      apply ret_Done in H; destruct H as [? ?]; subst
  | H : ASSERT _ _ = Done _ _ |- _ =>
      apply ASSERT_Done in H; destruct H as [H ?]; subst
  | H : crash _ _ = Done _ _ |- _ => apply crash_Done in H; contradiction
  | H : udiv _ _ _ = Done _ _ |- _ =>
      apply udiv_Done in H; destruct H as (? & ? & ?); subst
  | H : modify _ _ = Done _ _ |- _ => apply modify_Done in H; subst
  | H : get_world _ = Done _ _ |- _ =>
      apply get_world_Done in H; destruct H as [? ?]; subst
  | H : load _ _ _ = Done _ _ |- _ =>
      apply load_Done in H; destruct H as (? & ? & ?); subst
  | H : store _ _ _ _ = Done _ _ |- _ =>
      apply store_Done in H; destruct H as (? & ?); subst
  | H : read_desc _ _ = Done _ _ |- _ =>
      apply read_desc_Done in H; destruct H as (? & ? & ?); subst
  | H : write_desc _ _ _ = Done _ _ |- _ =>
      apply write_desc_Done in H; destruct H as (? & ?); subst
  | H : read_heap _ _ = Done _ _ |- _ =>
      apply read_heap_Done in H; destruct H as (? & ?); subst
  | H : read_sc _ _ = Done _ _ |- _ =>
      apply read_sc_Done in H; destruct H as (? & ?); subst
  | H : mono_memory_write_barrier _ = Done _ _ |- _ =>
      apply ret_Done in H; destruct H as [? ?]; subst
  | H : mono_memory_read_barrier _ = Done _ _ |- _ =>
      apply ret_Done in H; destruct H as [? ?]; subst
  end.

(** Projects the fields of an updated world. *)
Ltac wsimpl :=
  cbn [descs desc_avail heaps size_classes mem os_live os_script hazard
       hazard_others delayed trace put_desc upd_descs upd_desc_avail
       upd_heaps upd_size_classes upd_mem upd_os upd_hazard
       upd_hazard_others upd_delayed log zero_fill].

Tactic Notation "wsimpl" "in" hyp(H) :=
  cbn [descs desc_avail heaps size_classes mem os_live os_script hazard
       hazard_others delayed trace put_desc upd_descs upd_desc_avail
       upd_heaps upd_size_classes upd_mem upd_os upd_hazard
       upd_hazard_others upd_delayed log zero_fill] in H.

Lemma get_desc_put_desc_eq d D w : get_desc (put_desc d D w) d = D.
Proof.
  unfold get_desc, getd, put_desc. simpl. rewrite lookup_insert_eq. reflexivity.
Qed.

Lemma get_desc_put_desc_ne d d' D w :
  d ≠ d' → get_desc (put_desc d D w) d' = get_desc w d'.
Proof.
  intros. unfold get_desc, getd, put_desc. simpl. rewrite lookup_insert_ne by done.
  reflexivity.
Qed.

Lemma atomic64_cmpxchg_Done desc old new w prev w' :
  atomic64_cmpxchg desc old new w = Done prev w' ↔
  mapped w desc Desc.size = true ∧ prev = Desc.anchor (get_desc w desc) ∧
  w' = if prev =? old
       then log (EvAnchor desc old new)
              (put_desc desc (Desc.with_anchor (get_desc w desc) new) w)
       else w.
Proof.
  unfold atomic64_cmpxchg. split.
  - intros H. apply bind_Done in H as (D & w1 & H1 & H2).
    apply read_desc_Done in H1 as (Hm & -> & ->).
    destruct (Desc.anchor (get_desc w desc) =? old) eqn:E; inv_M;
      rewrite ?E; auto.
  - intros (Hm & -> & ->).
    rewrite (bind_eq _ _ _ (get_desc w desc) w)
      by (apply read_desc_Done; auto).
    destruct (Desc.anchor (get_desc w desc) =? old) eqn:E; [|reflexivity].
    unfold bind at 1.
    rewrite (bind_eq _ _ _ () (put_desc desc (Desc.with_anchor (get_desc w desc) new) w))
      by (apply write_desc_Done; auto).
    reflexivity.
Qed.

Lemma set_anchor_Done desc old new w ok w' :
  set_anchor desc old new w = Done ok w' ↔
  (state old = STATE_EMPTY → state new = STATE_EMPTY) ∧
  mapped w desc Desc.size = true ∧
  ok = (Desc.anchor (get_desc w desc) =? old) ∧
  w' = if ok
       then log (EvAnchor desc old new)
              (put_desc desc (Desc.with_anchor (get_desc w desc) new) w)
       else w.
Proof.
  unfold set_anchor. split.
  - intros H. apply bind_Done in H as (u & w1 & H1 & H).
    apply bind_Done in H as (prev & w2 & H2 & H).
    apply ret_Done in H as [-> ->].
    assert (w1 = w ∧ (state old = STATE_EMPTY → state new = STATE_EMPTY))
      as [-> Hs].
    { destruct (Z.eqb_spec (state old) STATE_EMPTY) as [e|n].
      - apply ASSERT_Done in H1 as [H1 ->]. split; [reflexivity|].
        intros _. apply Z.eqb_eq. exact H1.
      - apply ret_Done in H1 as [_ ->]. split; [reflexivity|]. contradiction. }
    apply atomic64_cmpxchg_Done in H2 as (Hm & -> & ->). auto.
  - intros (Hs & Hm & -> & ->).
    assert (E : (if state old =? STATE_EMPTY
                 then ASSERT (state new =? STATE_EMPTY) else ret ()) w
                = Done () w).
    { destruct (Z.eqb_spec (state old) STATE_EMPTY) as [e|]; [|reflexivity].
      rewrite (Hs e). reflexivity. }
    rewrite (bind_eq _ _ _ _ _ E).
    erewrite bind_eq by (apply atomic64_cmpxchg_Done; eauto).
    reflexivity.
Qed.

(** [set_anchor] aborts rather than re-arm a descriptor. *)
Lemma set_anchor_aborts desc old new w :
  state old = STATE_EMPTY → state new ≠ STATE_EMPTY →
  set_anchor desc old new w = Crash AssertFailed.
Proof.
  intros E N. unfold set_anchor, bind. rewrite E.
  change (STATE_EMPTY =? STATE_EMPTY) with true.
  destruct (Z.eqb_spec (state new) STATE_EMPTY); [contradiction|reflexivity].
Qed.

(** ** C10: the slot count of the test size class *)

(** C10. With [SB_SIZE = 16384] and [SB_HEADER_SIZE = 16] the usable size is
    16368 bytes, and for slot size 64 the computed
    [max_count = SB_USABLE_SIZE / slot_size] is 255, below 1024, so that
    [avail] and [count] hold every index and count of such a superblock in
    their 10 bits. *)
Theorem test_size_max_count :
  SB_SIZE = 16384 ∧ SB_HEADER_SIZE = 16 ∧ SB_USABLE_SIZE = 16368 ∧
  (∀ w, udiv SB_USABLE_SIZE TEST_SIZE w = Done 255 w) ∧
  255 < 2 ^ 10 ∧
  (∀ a v, 0 ≤ v ≤ 255 → avail (set_avail a v) = v ∧ count (set_count a v) = v).
Proof.
  repeat split; try reflexivity.
  - rewrite avail_set_avail. apply Z.mod_small. lia.
  - rewrite count_set_count. apply Z.mod_small. lia.
Qed.

(** ** C5: an EMPTY anchor stays EMPTY *)


(** ** Programs that return *)

Lemma returns_bind {A B} (m : M A) (f : A → M B) w Q :
  returns m w (λ a w1, returns (f a) w1 Q) → returns (bind m f) w Q.
Proof.
  intros (a & w1 & E & b & w2 & E2 & HQ). exists b, w2. split; [|exact HQ].
  rewrite (bind_eq _ _ _ _ _ E). exact E2.
Qed.

Lemma returns_ret {A} (a : A) w (Q : A → World → Prop) :
  Q a w → returns (ret a) w Q.
Proof. intros. exists a, w. auto. Qed.

Lemma returns_mono {A} (m : M A) w (Q Q' : A → World → Prop) :
  returns m w Q → (∀ a w', Q a w' → Q' a w') → returns m w Q'.
Proof. intros (a & w' & E & HQ) H. exists a, w'. auto. Qed.

Lemma returns_Done {A} (m : M A) w Q a w' :
  returns m w Q → m w = Done a w' → Q a w'.
Proof. intros (a0 & w0 & E & HQ) E'. congruence. Qed.

Lemma returns_ASSERT b w (Q : unit → World → Prop) :
  b = true → Q () w → returns (ASSERT b) w Q.
Proof. intros -> HQ. exists (), w. auto. Qed.

Lemma returns_udiv a b w (Q : Z → World → Prop) :
  b ≠ 0 → Q (a / b) w → returns (udiv a b) w Q.
Proof.
  intros Hb HQ. exists (a / b), w. split; [|exact HQ]. apply udiv_Done. auto.
Qed.

Lemma returns_modify f w (Q : unit → World → Prop) :
  Q () (f w) → returns (modify f) w Q.
Proof. intros HQ. exists (), (f w). auto. Qed.

Lemma returns_get_world w (Q : World → World → Prop) :
  Q w w → returns get_world w Q.
Proof. intros HQ. exists w, w. auto. Qed.

Lemma returns_load n a w (Q : Z → World → Prop) :
  mapped w a (Z.of_nat n) = true → Q (load_bytes (mem w) n a) w →
  returns (load n a) w Q.
Proof. intros Hm HQ. eexists _, _. split; [apply load_Done; eauto|exact HQ]. Qed.

Lemma returns_store n a v w (Q : unit → World → Prop) :
  mapped w a (Z.of_nat n) = true →
  Q () (upd_mem (λ m, store_bytes m n a v) w) →
  returns (store n a v) w Q.
Proof. intros Hm HQ. eexists _, _. split; [apply store_Done; eauto|exact HQ]. Qed.

Lemma returns_read_desc d w (Q : Desc.t → World → Prop) :
  mapped w d Desc.size = true → Q (get_desc w d) w → returns (read_desc d) w Q.
Proof.
  intros Hm HQ. eexists _, _. split; [apply read_desc_Done; eauto|exact HQ].
Qed.

Lemma returns_write_desc d f w (Q : unit → World → Prop) :
  mapped w d Desc.size = true → Q () (put_desc d (f (get_desc w d)) w) →
  returns (write_desc d f) w Q.
Proof.
  intros Hm HQ. eexists _, _. split; [apply write_desc_Done; eauto|exact HQ].
Qed.

Lemma returns_read_heap h w H (Q : Heap.t → World → Prop) :
  heaps w !! h = Some H → Q H w → returns (read_heap h) w Q.
Proof.
  intros Hh HQ. eexists _, _. split; [apply read_heap_Done; eauto|exact HQ].
Qed.

Lemma returns_read_sc s w C (Q : SizeClass.t → World → Prop) :
  size_classes w !! s = Some C → Q C w → returns (read_sc s) w Q.
Proof.
  intros Hh HQ. eexists _, _. split; [apply read_sc_Done; eauto|exact HQ].
Qed.

(** The world with [heap->active] set. *)
Lemma returns_cas_active heap exch comparand w H (Q : Z → World → Prop) :
  heaps w !! heap = Some H →
  Q (Heap.active H)
    (if Heap.active H =? comparand
     then upd_heaps (λ m, <[heap := Heap.mk (Heap.sc H) exch]> m) w
     else w) →
  returns (InterlockedCompareExchangePointer (Loc_active heap) exch comparand)
    w Q.
Proof.
  intros Hh HQ. unfold InterlockedCompareExchangePointer, read_ptr, write_ptr.
  apply returns_bind. apply returns_bind.
  eapply returns_read_heap; [exact Hh|]. apply returns_ret.
  apply returns_bind.
  destruct (Heap.active H =? comparand).
  - apply returns_bind. eapply returns_read_heap; [exact Hh|].
    apply returns_modify. apply returns_ret. exact HQ.
  - apply returns_ret. apply returns_ret. exact HQ.
Qed.

Lemma returns_cas_desc_avail exch comparand w (Q : Z → World → Prop) :
  Q (desc_avail w)
    (if desc_avail w =? comparand then upd_desc_avail exch w else w) →
  returns (InterlockedCompareExchangePointer Loc_desc_avail exch comparand)
    w Q.
Proof.
  intros HQ. unfold InterlockedCompareExchangePointer, read_ptr, write_ptr.
  apply returns_bind. apply returns_bind. apply returns_get_world.
  apply returns_ret. apply returns_bind.
  destruct (desc_avail w =? comparand).
  - apply returns_modify. apply returns_ret. exact HQ.
  - apply returns_ret. apply returns_ret. exact HQ.
Qed.

Lemma cas_active_Done heap exch comparand w cur w' :
  InterlockedCompareExchangePointer (Loc_active heap) exch comparand w
  = Done cur w' ↔
  ∃ H, heaps w !! heap = Some H ∧ cur = Heap.active H ∧
       w' = if cur =? comparand
            then upd_heaps (λ m, <[heap := Heap.mk (Heap.sc H) exch]> m) w
            else w.
Proof.
  split.
  - intros E. unfold InterlockedCompareExchangePointer, read_ptr, write_ptr in E.
    apply bind_Done in E as (c & w1 & E1 & E).
    apply bind_Done in E1 as (H & w0 & E0 & E1).
    apply read_heap_Done in E0 as [E0 ->]. apply ret_Done in E1 as [-> ->].
    apply bind_Done in E as (u & w2 & E2 & E). apply ret_Done in E as [-> ->].
    exists H. split; [exact E0|]. split; [reflexivity|].
    destruct (Heap.active H =? comparand).
    + apply bind_Done in E2 as (H' & w0 & E3 & E2).
      apply read_heap_Done in E3 as [E3 ->].
      apply modify_Done in E2. rewrite E0 in E3. injection E3 as <-. exact E2.
    + apply ret_Done in E2 as [_ ->]. reflexivity.
  - intros (H & Hh & -> & ->).
    destruct (returns_cas_active heap exch comparand w H
                (λ c w1, c = Heap.active H ∧
                   w1 = if Heap.active H =? comparand
                        then upd_heaps (λ m, <[heap := Heap.mk (Heap.sc H) exch]> m) w
                        else w) Hh (conj eq_refl eq_refl)) as (c & w1 & E & -> & ->).
    exact E.
Qed.


(** ** Mapped memory *)

Lemma mapped_In w a n :
  mapped w a n = true ↔
  ∃ r, r ∈ os_live w ∧ r.1 ≤ a ∧ a + n ≤ r.1 + r.2.
Proof.
  unfold mapped. rewrite existsb_exists. split.
  - intros (r & Hin & Hb). apply andb_true_iff in Hb as [H1 H2].
    exists r. rewrite list_elem_of_In. split; [exact Hin|]. lia.
  - intros (r & Hin & H1 & H2). exists r. rewrite <- list_elem_of_In.
    split; [exact Hin|]. apply andb_true_iff. split; lia.
Qed.

Lemma dmapped_mapped w d : dmapped (os_live w) d → mapped w d Desc.size = true.
Proof.
  intros (base & Hin & H1 & H2). apply mapped_In. exists (base, Desc.size * NUM_DESC_BATCH).
  simpl. auto.
Qed.

Lemma regions_ok_disjoint live r1 r2 :
  regions_ok live → r1 ∈ live → r2 ∈ live → r1 ≠ r2 → disjoint_regions r1 r2.
Proof.
  induction live as [|r rest IH]; simpl; intros Hok H1 H2 Hne.
  - inversion H1.
  - destruct Hok as (_ & _ & _ & Hall & Hrest).
    rewrite Forall_forall in Hall.
    apply elem_of_cons in H1 as [->|H1], H2 as [->|H2].
    + contradiction.
    + apply Hall. exact H2.
    + specialize (Hall _ H1). unfold disjoint_regions in *. lia.
    + apply IH; assumption.
Qed.

Lemma regions_ok_pos live r :
  regions_ok live → r ∈ live → 0 < r.1 ∧ 0 < r.2 ∧ r.1 + r.2 ≤ 2 ^ 64.
Proof.
  induction live as [|r0 rest IH]; simpl; intros Hok Hin.
  - inversion Hin.
  - destruct Hok as (? & ? & ? & _ & Hrest).
    apply elem_of_cons in Hin as [->|Hin]; auto.
Qed.

Lemma regions_ok_filter (P : Z * Z → Prop) `{∀ r, Decision (P r)} live :
  regions_ok live → regions_ok (filter P live).
Proof.
  induction live as [|r rest IH]; simpl; intros Hok; [exact I|].
  destruct Hok as (? & ? & ? & Hall & Hrest).
  rewrite filter_cons. destruct (decide (P r)).
  - simpl. repeat split; auto.
    rewrite Forall_forall in *. intros r' Hr'.
    apply list_elem_of_filter in Hr' as [_ Hr']. auto.
  - auto.
Qed.

(** ** The free chain *)

Lemma chain_length m sb ss n i : length (chain m sb ss n i) = n.
Proof. revert i. induction n; intros; simpl; auto. Qed.

Lemma chain_ext_S m1 m2 sb ss n i :
  (∀ j, j ∈ chain m1 sb ss n i →
        load_bytes m2 4 (sb + j * ss) = load_bytes m1 4 (sb + j * ss)) →
  chain m2 sb ss (S n) i = chain m1 sb ss (S n) i.
Proof.
  revert i. induction n as [|n IH]; intros i H; [reflexivity|].
  change (i :: chain m2 sb ss (S n) (load_bytes m2 4 (sb + i * ss))
          = i :: chain m1 sb ss (S n) (load_bytes m1 4 (sb + i * ss))).
  rewrite (H i) by (cbn [chain]; left).
  f_equal. apply IH. intros j Hj. apply H. cbn [chain]. right. exact Hj.
Qed.

Lemma chain_ext m1 m2 sb ss n i :
  (∀ j, j ∈ chain m1 sb ss n i →
        load_bytes m2 4 (sb + j * ss) = load_bytes m1 4 (sb + j * ss)) →
  chain m2 sb ss n i = chain m1 sb ss n i.
Proof.
  revert i. induction n as [|n IH]; intros i H; [reflexivity|].
  cbn [chain]. rewrite (H i) by (cbn [chain]; left).
  f_equal. apply IH. intros j Hj. apply H. cbn [chain]. right. exact Hj.
Qed.

Lemma chain_S_snoc m sb ss n i :
  ∃ e, chain m sb ss (S n) i = chain m sb ss n i ++ [e].
Proof.
  revert i. induction n as [|n IH]; intros i.
  - exists i. reflexivity.
  - destruct (IH (load_bytes m 4 (sb + i * ss))) as (e & E).
    exists e. change (chain m sb ss (S (S n)) i)
      with (i :: chain m sb ss (S n) (load_bytes m 4 (sb + i * ss))).
    rewrite E. reflexivity.
Qed.

Lemma chain_prefix_Forall (P : Z → Prop) m sb ss n i :
  Forall P (chain m sb ss (S n) i) → Forall P (chain m sb ss n i).
Proof.
  destruct (chain_S_snoc m sb ss n i) as (e & ->).
  intros H. apply Forall_app in H as [H _]. exact H.
Qed.

(** A slot lies inside its superblock. *)
Lemma slot_in_sb ss i :
  valid_slot_size ss → 0 ≤ i < SB_USABLE_SIZE / ss →
  0 ≤ i * ss ∧ i * ss + ss ≤ SB_USABLE_SIZE.
Proof.
  unfold valid_slot_size, MAX_SMALL_SIZE, SB_USABLE_SIZE, SB_SIZE, SB_HEADER_SIZE.
  change (16384 - 16) with 16368. change (8192 - 8) with 8184.
  intros Hs Hi.
  assert (H := Z.mul_div_le 16368 ss ltac:(lia)).
  split; [nia|]. nia.
Qed.

Lemma max_count_range ss :
  valid_slot_size ss → 2 ≤ SB_USABLE_SIZE / ss ≤ 1023.
Proof.
  unfold valid_slot_size, MAX_SMALL_SIZE, SB_USABLE_SIZE, SB_SIZE, SB_HEADER_SIZE.
  change (16384 - 16) with 16368. change (8192 - 8) with 8184.
  intros Hs. split.
  - apply Z.div_le_lower_bound; lia.
  - assert (16368 / ss < 1024); [|lia].
    apply Z.div_lt_upper_bound; lia.
Qed.

(** Memory that agrees on a superblock has the same chains in it. *)
Lemma chain_ext_region m1 m2 hdr ss n i :
  valid_slot_size ss →
  (∀ k, hdr ≤ k < hdr + SB_SIZE → m2 !! k = m1 !! k) →
  Forall (λ j, 0 ≤ j < SB_USABLE_SIZE / ss)
    (chain m1 (hdr + SB_HEADER_SIZE) ss n i) →
  chain m2 (hdr + SB_HEADER_SIZE) ss (S n) i
  = chain m1 (hdr + SB_HEADER_SIZE) ss (S n) i.
Proof.
  intros Hs Hm Hall. apply chain_ext_S. intros j Hj.
  rewrite Forall_forall in Hall. specialize (Hall j Hj).
  apply load_bytes_ext. intros k Hk. apply Hm.
  pose proof (slot_in_sb ss j Hs Hall).
  unfold valid_slot_size, SB_USABLE_SIZE, SB_SIZE, SB_HEADER_SIZE in *.
  change (Z.of_nat 4) with 4 in Hk. lia.
Qed.

(** ** One well-formed descriptor under changes of the world *)

Lemma hs_le_refl hs : hs_le hs hs.
Proof. intros h H E. eauto. Qed.

Lemma scs_le_refl scs : scs_le scs scs.
Proof. intros s C E. eauto. Qed.

Lemma hs_le_insert hs h H v :
  hs !! h = Some H → hs_le hs (<[h := Heap.mk (Heap.sc H) v]> hs).
Proof.
  intros E h' H' E'. destruct (decide (h = h')) as [<-|n].
  - rewrite lookup_insert_eq. rewrite E in E'. injection E' as <-. eauto.
  - rewrite lookup_insert_ne by done. eauto.
Qed.

Lemma scs_le_insert scs s C q :
  scs !! s = Some C →
  scs_le scs (<[s := SizeClass.mk q (SizeClass.slot_size C)]> scs).
Proof.
  intros E s' C' E'. destruct (decide (s = s')) as [<-|n].
  - rewrite lookup_insert_eq. rewrite E in E'. injection E' as <-. eauto.
  - rewrite lookup_insert_ne by done. eauto.
Qed.

Lemma desc_ok_ext ds m live hs scs ds' m' live' hs' scs' d :
  desc_ok ds m live hs scs d →
  getd ds' d = getd ds d →
  (∀ k, Desc.sb (getd ds d) - SB_HEADER_SIZE ≤ k
        < Desc.sb (getd ds d) - SB_HEADER_SIZE + SB_SIZE → m' !! k = m !! k) →
  ((Desc.sb (getd ds d) - SB_HEADER_SIZE, SB_SIZE) ∈ live →
   (Desc.sb (getd ds d) - SB_HEADER_SIZE, SB_SIZE) ∈ live') →
  hs_le hs hs' → scs_le scs scs' →
  desc_ok ds' m' live' hs' scs' d.
Proof.
  intros (Hsb & Hheap & Hsize & Hmax & Hanchor & Hchain) Ed Hm Hlive Hhs Hscs.
  unfold desc_ok. rewrite Ed.
  destruct Hsb as (hdr & Esb & Hal & Hin & Hback).
  rewrite Esb in Hm, Hlive.
  replace (hdr + SB_HEADER_SIZE - SB_HEADER_SIZE) with hdr in Hm, Hlive by lia.
  split; [|split; [|split; [exact Hsize|split; [exact Hmax|split; [exact Hanchor|]]]]].
  - exists hdr. repeat split; auto.
    rewrite <- Hback. apply load_bytes_ext. intros k Hk. apply Hm.
    unfold SB_SIZE. change (Z.of_nat 8) with 8 in Hk. lia.
  - destruct Hheap as (H & C & E1 & E2 & E3).
    destruct (Hhs _ _ E1) as (H' & E1' & Esc).
    destruct (Hscs _ _ E2) as (C' & E2' & Ess).
    exists H', C'. rewrite Esc. split; [exact E1'|]. split; [exact E2'|]. congruence.
  - destruct Hchain as [Hall Hnd]. unfold chain_ok in *. cbv zeta in *.
    rewrite Esb, Hmax in *.
    pose proof (chain_prefix_Forall _ _ _ _ _ _ Hall) as Hall'.
    split.
    + rewrite (chain_ext_region m m'); auto.
    + destruct (Z.to_nat (count (Desc.anchor (getd ds d)))) as [|n] eqn:En.
      * constructor.
      * rewrite (chain_ext_region m m'); auto.
        apply chain_prefix_Forall. exact Hall'.
Qed.

(** ** The clauses of [wfx] under a change of one descriptor *)

Lemma getd_insert_eq ds d D : getd (<[d := D]> ds) d = D.
Proof. unfold getd. rewrite lookup_insert_eq. reflexivity. Qed.

Lemma getd_insert_ne ds d d' D : d ≠ d' → getd (<[d := D]> ds) d' = getd ds d'.
Proof. intros. unfold getd. rewrite lookup_insert_ne by done. reflexivity. Qed.

Lemma descs_ok_put X X' ds m live hs scs d D' :
  descs_ok X ds m live hs scs →
  (d ∉ X' → dmapped live d → Desc.in_use D' = true →
   desc_ok (<[d := D']> ds) m live hs scs d) →
  (∀ d', d' ∉ X' → d' ≠ d → d' ∉ X) →
  descs_ok X' (<[d := D']> ds) m live hs scs.
Proof.
  intros Hok Hd HX d' HX' Hmap Hin.
  destruct (decide (d' = d)) as [->|n].
  - rewrite getd_insert_eq in Hin. auto.
  - rewrite getd_insert_ne in Hin by done.
    eapply desc_ok_ext; [apply Hok; auto| | | |apply hs_le_refl|apply scs_le_refl]; auto.
    apply getd_insert_ne. done.
Qed.

Lemma heaps_ok_put ds live hs scs d D' :
  heaps_ok ds live hs scs →
  (∀ h H, hs !! h = Some H → Heap.active H = d → d ≠ 0 →
     Desc.in_use D' = true ∧ state (Desc.anchor D') ≠ STATE_FULL ∧
     Desc.heap D' = Desc.heap (getd ds d)) →
  heaps_ok (<[d := D']> ds) live hs scs.
Proof.
  intros Hok Hd h H Eh. destruct (Hok h H Eh) as [Hsc Hact].
  split; [exact Hsc|]. intros Hne.
  destruct (Hact Hne) as (Hmap & Hin & Hst & Hheap & Hinj).
  destruct (decide (Heap.active H = d)) as [e|n].
  - rewrite e in *. rewrite getd_insert_eq.
    destruct (Hd h H Eh e Hne) as (? & ? & E). rewrite E. auto.
  - rewrite getd_insert_ne by done. auto.
Qed.

Lemma queues_ok_put ds live hs scs d D' :
  queues_ok ds live hs scs →
  (∀ s C, scs !! s = Some C → d ∈ SizeClass.partial C →
     Desc.in_use D' = true ∧ state (Desc.anchor D') ≠ STATE_FULL ∧
     Desc.heap D' = Desc.heap (getd ds d)) →
  queues_ok (<[d := D']> ds) live hs scs.
Proof.
  intros Hok Hd s C Es. destruct (Hok s C Es) as (Hv & Hnd & Hall).
  split; [exact Hv|]. split; [exact Hnd|].
  intros d' Hd'. destruct (Hall d' Hd') as (H0 & Hmap & Hin & Hst & Hh & Ha).
  destruct (decide (d' = d)) as [->|n].
  - rewrite getd_insert_eq. destruct (Hd s C Es Hd') as (? & ? & E).
    rewrite E. auto 10.
  - rewrite getd_insert_ne by done. auto 10.
Qed.

Lemma stack_chain_put ds d D' p l :
  d ∉ l → stack_chain ds p l → stack_chain (<[d := D']> ds) p l.
Proof.
  revert p. induction l as [|x l IH]; intros p Hd H; simpl in *; [exact H|].
  destruct H as (-> & Hx & H). apply not_elem_of_cons in Hd as [Hne Hd].
  repeat split; auto. rewrite getd_insert_ne by done. auto.
Qed.

Lemma stack_chain_put_same ds d D' p l :
  Desc.next D' = Desc.next (getd ds d) →
  stack_chain ds p l → stack_chain (<[d := D']> ds) p l.
Proof.
  intros E. revert p. induction l as [|x l IH]; intros p H; simpl in *; [exact H|].
  destruct H as (-> & Hx & H). repeat split; auto.
  destruct (decide (d = x)) as [->|n].
  - rewrite getd_insert_eq, E. auto.
  - rewrite getd_insert_ne by done. auto.
Qed.

Lemma stack_ok_put ds live head dl d D' :
  stack_ok ds live head dl →
  Desc.in_use (getd ds d) = true
  ∨ (Desc.next D' = Desc.next (getd ds d) ∧ Desc.in_use D' = false) →
  stack_ok (<[d := D']> ds) live head dl.
Proof.
  intros (l & Hch & Hnd & Hall) Hd. exists l.
  destruct Hd as [Hin|[En Ei]].
  - assert (d ∉ l).
    { intros Hl. destruct (Hall d Hl) as (_ & E & _). congruence. }
    split; [apply stack_chain_put; auto|]. split; [exact Hnd|].
    intros d' Hd'. rewrite getd_insert_ne by (intros ->; contradiction). auto.
  - split; [apply stack_chain_put_same; auto|]. split; [exact Hnd|].
    intros d' Hd'. destruct (decide (d = d')) as [->|n].
    + rewrite getd_insert_eq. destruct (Hall d' Hd') as (? & ? & ?). auto.
    + rewrite getd_insert_ne by done. auto.
Qed.

Lemma delayed_ok_put ds live hs scs dl d D' :
  delayed_ok ds live hs scs dl →
  (∀ f, (d, f) ∈ dl →
     match f with
     | Fn_desc_enqueue_avail =>
         Desc.in_use D' = false ∧ state (Desc.anchor D') = STATE_EMPTY
     | Fn_desc_put_partial =>
         Desc.in_use D' = true ∧ state (Desc.anchor D') ≠ STATE_FULL ∧
         Desc.heap D' = Desc.heap (getd ds d)
     end) →
  delayed_ok (<[d := D']> ds) live hs scs dl.
Proof.
  intros (Hnd & Hall) Hd. split; [exact Hnd|].
  intros d' f Hf. destruct (Hall d' f Hf) as (Hmap & Hf').
  split; [exact Hmap|].
  destruct (decide (d' = d)) as [->|n].
  - rewrite getd_insert_eq. specialize (Hd f Hf). destruct f.
    + exact Hd.
    + destruct Hd as (? & ? & E). rewrite E.
      destruct Hf' as (? & ? & ? & ? & ?). auto.
  - rewrite getd_insert_ne by done. exact Hf'.
Qed.

(** ** The clauses under a change of heaps and of queues *)

Lemma descs_ok_le X ds m live hs scs hs' scs' :
  descs_ok X ds m live hs scs → hs_le hs hs' → scs_le scs scs' →
  descs_ok X ds m live hs' scs'.
Proof.
  intros Hok Hh Hs d HX Hmap Hin.
  eapply desc_ok_ext; [apply Hok; auto| | | |exact Hh|exact Hs]; auto.
Qed.

Lemma dmapped_pos live d : regions_ok live → dmapped live d → 0 < d.
Proof.
  intros Hok (base & Hin & H1 & H2).
  destruct (regions_ok_pos _ _ Hok Hin) as (Hp & _). simpl in Hp. lia.
Qed.

Lemma heaps_ok_mono ds live hs scs live' scs' :
  heaps_ok ds live hs scs →
  (∀ d, dmapped live d → dmapped live' d) → scs_le scs scs' →
  heaps_ok ds live' hs scs'.
Proof.
  intros Hok Hl Hs h H Eh. destruct (Hok h H Eh) as [[C EC] Hact].
  split.
  - destruct (Hs _ _ EC) as (C' & EC' & _). eauto.
  - intros Hne. destruct (Hact Hne) as (? & ? & ? & ? & ?). auto.
Qed.

Lemma heaps_ok_set_active ds live hs scs h H v :
  heaps_ok ds live hs scs → hs !! h = Some H →
  (v ≠ 0 → dmapped live v ∧ Desc.in_use (getd ds v) = true ∧
           state (Desc.anchor (getd ds v)) ≠ STATE_FULL ∧
           (∃ H', hs !! Desc.heap (getd ds v) = Some H' ∧
                  Heap.sc H' = Heap.sc H) ∧
           (∀ h' H', hs !! h' = Some H' → h' ≠ h → Heap.active H' ≠ v)) →
  heaps_ok ds live (<[h := Heap.mk (Heap.sc H) v]> hs) scs.
Proof.
  intros Hok Eh Hv h' H' Eh'.
  pose proof (hs_le_insert hs h H v Eh) as Hle.
  destruct (decide (h = h')) as [<-|n].
  - rewrite lookup_insert_eq in Eh'. injection Eh' as <-. simpl.
    split; [apply (Hok h H Eh)|]. intros Hne.
    destruct (Hv Hne) as (Hm & Hi & Hs & (H' & EH' & Esc) & Hinj).
    split; [exact Hm|]. split; [exact Hi|]. split; [exact Hs|]. split.
    + destruct (Hle _ _ EH') as (H2 & E2 & Esc2). exists H2.
      split; [exact E2|]. congruence.
    + intros h2 H2 Eh2 Ea. destruct (decide (h2 = h)) as [|n]; [assumption|].
      rewrite lookup_insert_ne in Eh2 by done.
      destruct (Hinj h2 H2 Eh2 n Ea).
  - rewrite lookup_insert_ne in Eh' by done.
    destruct (Hok h' H' Eh') as [Hsc Hact]. split; [exact Hsc|]. intros Hne.
    destruct (Hact Hne) as (Hm & Hi & Hs & (H2 & EH2 & Esc) & Hinj).
    split; [exact Hm|]. split; [exact Hi|]. split; [exact Hs|]. split.
    + destruct (Hle _ _ EH2) as (H3 & E3 & Esc3). exists H3.
      split; [exact E3|]. congruence.
    + intros h2 H3 Eh2 Ea. destruct (decide (h = h2)) as [<-|n2].
      * rewrite lookup_insert_eq in Eh2. injection Eh2 as <-. simpl in Ea.
        assert (v ≠ 0) as Hv0 by congruence.
        destruct (Hv Hv0) as (_ & _ & _ & _ & Hinj').
        destruct (Hinj' h' H' Eh' ltac:(auto) ltac:(auto)).
      * rewrite lookup_insert_ne in Eh2 by done. eauto.
Qed.

Lemma queues_ok_mono ds live hs scs live' :
  queues_ok ds live hs scs → (∀ d, dmapped live d → dmapped live' d) →
  queues_ok ds live' hs scs.
Proof.
  intros Hok Hl s C Es. destruct (Hok s C Es) as (Hv & Hnd & Hall).
  split; [exact Hv|]. split; [exact Hnd|].
  intros d Hd. destruct (Hall d Hd) as (? & ? & ? & ? & ? & ?). auto 10.
Qed.

Lemma queues_ok_set_active ds live hs scs h H v :
  queues_ok ds live hs scs → hs !! h = Some H →
  (∀ s C, scs !! s = Some C → v ∉ SizeClass.partial C) →
  queues_ok ds live (<[h := Heap.mk (Heap.sc H) v]> hs) scs.
Proof.
  intros Hok Eh Hv s C Es. destruct (Hok s C Es) as (Hval & Hnd & Hall).
  pose proof (hs_le_insert hs h H v Eh) as Hle.
  split; [exact Hval|]. split; [exact Hnd|].
  intros d Hd.
  destruct (Hall d Hd) as (H0 & Hmap & Hin & Hst & (H' & EH' & Esc) & Hact).
  split; [exact H0|]. split; [exact Hmap|]. split; [exact Hin|].
  split; [exact Hst|]. split.
  - destruct (Hle _ _ EH') as (H2 & E2 & Esc2). exists H2.
    split; [exact E2|]. congruence.
  - intros h2 H2 Eh2. destruct (decide (h = h2)) as [<-|n].
    + rewrite lookup_insert_eq in Eh2. injection Eh2 as <-. simpl.
      intros ->. exact (Hv s C Es Hd).
    + rewrite lookup_insert_ne in Eh2 by done. eauto.
Qed.

Lemma queues_ok_set_queue ds live hs scs s C q :
  queues_ok ds live hs scs → scs !! s = Some C →
  NoDup q →
  (∀ d, d ∈ q → d ∉ SizeClass.partial C →
     d ≠ 0 ∧ dmapped live d ∧ Desc.in_use (getd ds d) = true ∧
     state (Desc.anchor (getd ds d)) ≠ STATE_FULL ∧
     (∃ H, hs !! Desc.heap (getd ds d) = Some H ∧ Heap.sc H = s) ∧
     (∀ h H, hs !! h = Some H → Heap.active H ≠ d)) →
  queues_ok ds live hs (<[s := SizeClass.mk q (SizeClass.slot_size C)]> scs).
Proof.
  intros Hok Es Hnd Hq s' C' Es'. destruct (decide (s = s')) as [<-|n].
  - rewrite lookup_insert_eq in Es'. injection Es' as <-. simpl.
    destruct (Hok s C Es) as (Hval & _ & Hall).
    split; [exact Hval|]. split; [exact Hnd|].
    intros d Hd. destruct (decide (d ∈ SizeClass.partial C)); auto.
  - rewrite lookup_insert_ne in Es' by done. apply Hok. exact Es'.
Qed.

Lemma stack_ok_mono ds live head dl live' dl' :
  stack_ok ds live head dl → (∀ d, dmapped live d → dmapped live' d) →
  (∀ d, (d, Fn_desc_enqueue_avail) ∈ dl' → (d, Fn_desc_enqueue_avail) ∈ dl) →
  stack_ok ds live' head dl'.
Proof.
  intros (l & Hch & Hnd & Hall) Hl Hdl. exists l.
  split; [exact Hch|]. split; [exact Hnd|].
  intros d Hd. destruct (Hall d Hd) as (H1 & H2 & H3).
  split; [auto|]. split; [exact H2|]. intros Hd'. apply H3. auto.
Qed.

Lemma delayed_ok_mono ds live hs scs dl live' :
  delayed_ok ds live hs scs dl → (∀ d, dmapped live d → dmapped live' d) →
  delayed_ok ds live' hs scs dl.
Proof.
  intros (Hnd & Hall) Hl. split; [exact Hnd|].
  intros d f Hf. destruct (Hall d f Hf) as [? ?]. auto.
Qed.

Lemma delayed_ok_set_active ds live hs scs dl h H v :
  delayed_ok ds live hs scs dl → hs !! h = Some H →
  (v, Fn_desc_put_partial) ∉ dl →
  delayed_ok ds live (<[h := Heap.mk (Heap.sc H) v]> hs) scs dl.
Proof.
  intros (Hnd & Hall) Eh Hv. split; [exact Hnd|].
  intros d f Hf. destruct (Hall d f Hf) as [Hmap Hf']. split; [exact Hmap|].
  destruct f; [exact Hf'|].
  destruct Hf' as (Hin & Hst & [H0 EH0] & Hq & Hact). repeat split; auto.
  - destruct (decide (h = Desc.heap (getd ds d))) as [e|n].
    + rewrite <- e, lookup_insert_eq. eauto.
    + rewrite lookup_insert_ne by done. eauto.
  - intros h' H' Eh'. destruct (decide (h = h')) as [<-|n].
    + rewrite lookup_insert_eq in Eh'. injection Eh' as <-. simpl.
      intros ->. contradiction.
    + rewrite lookup_insert_ne in Eh' by done. eauto.
Qed.

Lemma delayed_ok_set_queue ds live hs scs dl s C q :
  delayed_ok ds live hs scs dl → scs !! s = Some C →
  (∀ d, d ∈ q → (d, Fn_desc_put_partial) ∉ dl) →
  delayed_ok ds live hs (<[s := SizeClass.mk q (SizeClass.slot_size C)]> scs) dl.
Proof.
  intros (Hnd & Hall) Es Hq. split; [exact Hnd|].
  intros d f Hf. destruct (Hall d f Hf) as [Hmap Hf']. split; [exact Hmap|].
  destruct f; [exact Hf'|].
  destruct Hf' as (Hin & Hst & HH & Hqs & Hact). repeat split; auto.
  intros s' C' Es'. destruct (decide (s = s')) as [<-|n].
  - rewrite lookup_insert_eq in Es'. injection Es' as <-. simpl.
    intros Hd. exact (Hq d Hd Hf).
  - rewrite lookup_insert_ne in Es' by done. eauto.
Qed.

Lemma dmapped_filter live hdr d :
  dmapped live d →
  dmapped (filter (λ r : Z * Z, r ≠ (hdr, SB_SIZE)) live) d.
Proof.
  intros (base & Hin & H1 & H2). exists base. repeat split; auto.
  apply list_elem_of_filter. split; [|exact Hin].
  intros E. assert (E' := f_equal snd E). vm_compute in E'. discriminate.
Qed.

Lemma dmapped_filter_inv (P : Z * Z → Prop) `{∀ r, Decision (P r)} live d :
  dmapped (filter P live) d → dmapped live d.
Proof.
  intros (base & Hin & H1 & H2). exists base. repeat split; auto.
  apply list_elem_of_filter in Hin as [_ Hin]. exact Hin.
Qed.

Lemma descs_ok_mem X ds m m' live hs scs :
  descs_ok X ds m live hs scs →
  (∀ d k, d ∉ X → dmapped live d → Desc.in_use (getd ds d) = true →
     Desc.sb (getd ds d) - SB_HEADER_SIZE ≤ k
     < Desc.sb (getd ds d) - SB_HEADER_SIZE + SB_SIZE → m' !! k = m !! k) →
  descs_ok X ds m' live hs scs.
Proof.
  intros Hok Hm d HX Hmap Hin.
  eapply desc_ok_ext; [apply Hok; auto| | | |apply hs_le_refl|apply scs_le_refl];
    eauto.
Qed.

Lemma descs_ok_free X ds m live hs scs hdr :
  descs_ok X ds m live hs scs →
  (∀ d, d ∉ X → dmapped live d → Desc.in_use (getd ds d) = true →
        Desc.sb (getd ds d) ≠ hdr + SB_HEADER_SIZE) →
  descs_ok X ds m (filter (λ r : Z * Z, r ≠ (hdr, SB_SIZE)) live) hs scs.
Proof.
  intros Hok Hne d HX Hmap Hin.
  apply dmapped_filter_inv in Hmap.
  eapply desc_ok_ext; [apply Hok; auto| | | |apply hs_le_refl|apply scs_le_refl];
    auto.
  intros Hl. apply list_elem_of_filter. split; [|exact Hl].
  intros [= E]. apply (Hne d HX Hmap Hin). lia.
Qed.

(** ** The stack and the delayed-free table under a retirement *)

Lemma stack_ok_delay ds live head dl d D' :
  stack_ok ds live head dl → Desc.in_use (getd ds d) = true →
  stack_ok (<[d := D']> ds) live head (dl ++ [(d, Fn_desc_enqueue_avail)]).
Proof.
  intros (l & Hch & Hnd & Hall) Hin. exists l.
  assert (d ∉ l).
  { intros Hl. destruct (Hall d Hl) as (_ & E & _). congruence. }
  split; [apply stack_chain_put; auto|]. split; [exact Hnd|].
  intros d' Hd'. destruct (Hall d' Hd') as (H1 & H2 & H3).
  rewrite getd_insert_ne by (intros ->; contradiction).
  split; [exact H1|]. split; [exact H2|].
  intros Hx. apply elem_of_app in Hx as [Hx|Hx]; [contradiction|].
  apply list_elem_of_singleton in Hx. injection Hx as ->. contradiction.
Qed.

Lemma stack_ok_push ds live head dl d D' :
  stack_ok ds live head dl → Desc.in_use (getd ds d) = true →
  dmapped live d → d ≠ 0 → (d, Fn_desc_enqueue_avail) ∉ dl →
  Desc.next D' = head → Desc.in_use D' = false →
  stack_ok (<[d := D']> ds) live d dl.
Proof.
  intros (l & Hch & Hnd & Hall) Hin Hmap Hne Hdl En Ei. exists (d :: l).
  assert (d ∉ l).
  { intros Hl. destruct (Hall d Hl) as (_ & E & _). congruence. }
  split.
  { simpl. split; [reflexivity|]. split; [exact Hne|].
    rewrite getd_insert_eq, En. apply stack_chain_put; auto. }
  split; [constructor; auto|].
  intros d' Hd'. apply elem_of_cons in Hd' as [->|Hd'].
  - rewrite getd_insert_eq. auto.
  - rewrite getd_insert_ne by (intros ->; contradiction). auto.
Qed.

Lemma delayed_ok_snoc ds live hs scs dl d f :
  delayed_ok ds live hs scs dl → (d, f) ∉ dl → dmapped live d →
  match f with
  | Fn_desc_enqueue_avail =>
      Desc.in_use (getd ds d) = false ∧
      state (Desc.anchor (getd ds d)) = STATE_EMPTY
  | Fn_desc_put_partial =>
      Desc.in_use (getd ds d) = true ∧
      state (Desc.anchor (getd ds d)) ≠ STATE_FULL ∧
      (∃ H, hs !! Desc.heap (getd ds d) = Some H) ∧
      (∀ s C, scs !! s = Some C → d ∉ SizeClass.partial C) ∧
      (∀ h H, hs !! h = Some H → Heap.active H ≠ d)
  end →
  delayed_ok ds live hs scs (dl ++ [(d, f)]).
Proof.
  intros (Hnd & Hall) Hni Hmap Hf. split.
  - apply NoDup_app. split; [exact Hnd|]. split; [|apply NoDup_singleton].
    intros x Hx Hx'. apply list_elem_of_singleton in Hx'. subst x. contradiction.
  - intros d' f' Hd'. apply elem_of_app in Hd' as [Hd'|Hd'].
    + apply Hall. exact Hd'.
    + apply list_elem_of_singleton in Hd'. injection Hd' as -> ->. auto.
Qed.

Lemma delayed_not_in_use ds live hs scs dl d :
  delayed_ok ds live hs scs dl → Desc.in_use (getd ds d) = true →
  (d, Fn_desc_enqueue_avail) ∉ dl.
Proof.
  intros (_ & Hall) Hin Hd. destruct (Hall _ _ Hd) as (_ & E & _). congruence.
Qed.

(** ** The descriptor pool *)

Lemma desc_enqueue_avail_returns fuel d w (Q : unit → World → Prop) :
  (1 ≤ fuel)%nat → mapped w d Desc.size = true →
  state (Desc.anchor (get_desc w d)) = STATE_EMPTY →
  Desc.in_use (get_desc w d) = false →
  Q () (upd_desc_avail d
          (put_desc d (Desc.with_next (get_desc w d) (desc_avail w)) w)) →
  returns (desc_enqueue_avail fuel d) w Q.
Proof.
  intros Hf Hm Hs Hi HQ. unfold desc_enqueue_avail.
  apply returns_bind, returns_read_desc; [exact Hm|].
  apply returns_bind, returns_ASSERT; [rewrite Hs; reflexivity|].
  apply returns_bind, returns_ASSERT; [rewrite Hi; reflexivity|].
  destruct fuel as [|n]; [lia|]. cbn [desc_enqueue_avail_loop].
  apply returns_bind. unfold read_ptr.
  apply returns_bind, returns_get_world, returns_ret.
  apply returns_bind. unfold desc_enqueue_avail_try.
  apply returns_bind, returns_write_desc; [exact Hm|].
  apply returns_bind, returns_ret.
  apply returns_bind, returns_cas_desc_avail.
  cbn [desc_avail put_desc upd_descs].
  rewrite Z.eqb_refl. apply returns_ret, returns_ret. exact HQ.
Qed.

Lemma desc_put_partial_returns d w H C (Q : unit → World → Prop) :
  mapped w d Desc.size = true →
  state (Desc.anchor (get_desc w d)) ≠ STATE_FULL →
  heaps w !! Desc.heap (get_desc w d) = Some H →
  size_classes w !! Heap.sc H = Some C →
  Q () (upd_size_classes
          (λ m, <[Heap.sc H := SizeClass.mk (SizeClass.partial C ++ [d])
                                 (SizeClass.slot_size C)]> m) w) →
  returns (desc_put_partial d) w Q.
Proof.
  intros Hm Hs Hh Hc HQ. unfold desc_put_partial.
  apply returns_bind, returns_read_desc; [exact Hm|].
  apply returns_bind, returns_ASSERT.
  { apply negb_true_iff, Z.eqb_neq. exact Hs. }
  apply returns_bind, returns_ret.
  apply returns_bind. eapply returns_read_heap; [exact Hh|].
  unfold mono_lock_free_queue_enqueue.
  apply returns_bind. eapply returns_read_sc; [exact Hc|].
  apply returns_modify. exact HQ.
Qed.

Lemma free_or_queue_returns fuel p f w (Q : unit → World → Prop) :
  (is_pointer_hazardous p w = true →
   Q () (upd_delayed (delayed w ++ [(p, f)]) w)) →
  (is_pointer_hazardous p w = false → returns (call_free_func fuel f p) w Q) →
  returns (mono_thread_hazardous_free_or_queue fuel p f) w Q.
Proof.
  intros H1 H2. unfold mono_thread_hazardous_free_or_queue.
  apply returns_bind, returns_get_world.
  destruct (is_pointer_hazardous p w).
  - apply returns_modify. auto.
  - auto.
Qed.

Lemma erase_anchor D1 D2 : erase D1 = erase D2 → Desc.anchor D1 = Desc.anchor D2.
Proof. intros E. exact (f_equal Desc.anchor E). Qed.
Lemma erase_heap D1 D2 : erase D1 = erase D2 → Desc.heap D1 = Desc.heap D2.
Proof. intros E. exact (f_equal Desc.heap E). Qed.
Lemma erase_sb D1 D2 : erase D1 = erase D2 → Desc.sb D1 = Desc.sb D2.
Proof. intros E. exact (f_equal Desc.sb E). Qed.
Lemma erase_slot_size D1 D2 :
  erase D1 = erase D2 → Desc.slot_size D1 = Desc.slot_size D2.
Proof. intros E. exact (f_equal Desc.slot_size E). Qed.
Lemma erase_max_count D1 D2 :
  erase D1 = erase D2 → Desc.max_count D1 = Desc.max_count D2.
Proof. intros E. exact (f_equal Desc.max_count E). Qed.

Lemma retired_rel_refl w : retired_rel [] w w.
Proof. unfold retired_rel. repeat split; auto. intros d Hd. inversion Hd. Qed.

Lemma retired_rel_trans R1 R2 w1 w2 w3 :
  retired_rel R1 w1 w2 → retired_rel R2 w2 w3 → retired_rel (R1 ++ R2) w1 w3.
Proof.
  intros (A1 & A2 & A3 & A4 & A5 & A6 & A7 & A9 & A10 & A11 & A12)
         (B1 & B2 & B3 & B4 & B5 & B6 & B7 & B9 & B10 & B11 & B12).
  unfold retired_rel.
  split; [congruence|]. split; [congruence|]. split; [congruence|].
  split; [congruence|]. split; [congruence|].
  split.
  { intros d Hd. apply not_elem_of_app in Hd as [H1 H2]. rewrite B6, A6; auto. }
  split; [intros d; rewrite B7, A7; reflexivity|].
  split.
  { intros d Hd. destruct (decide (d ∈ R2)) as [H2|H2]; [auto|].
    rewrite B6 by exact H2. apply A9. apply elem_of_app in Hd as [?|?]; tauto. }
  split; [intros d; rewrite B10, A10; reflexivity|].
  split; [auto|].
  intros d. rewrite B12, A12. reflexivity.
Qed.

Lemma is_pointer_hazardous_frame p w w' :
  hazard w' = hazard w → hazard_others w' = hazard_others w →
  is_pointer_hazardous p w' = is_pointer_hazardous p w.
Proof. unfold is_pointer_hazardous. intros -> ->. reflexivity. Qed.

(** [desc_retire] of a descriptor that is in use, EMPTY and held by nobody
    returns and leaves a well-formed world. *)
Lemma desc_retire_spec fuel d X X' w hdr :
  (1 ≤ fuel)%nat → wfx X w → dmapped (os_live w) d →
  Desc.in_use (get_desc w d) = true →
  state (Desc.anchor (get_desc w d)) = STATE_EMPTY →
  Desc.sb (get_desc w d) = hdr + SB_HEADER_SIZE → hdr mod SB_SIZE = 0 →
  (∀ d', d' ∉ X → d' ≠ d → dmapped (os_live w) d' →
         Desc.in_use (get_desc w d') = true →
         Desc.sb (get_desc w d') ≠ hdr + SB_HEADER_SIZE) →
  unowned (heaps w) (size_classes w) (delayed w) d →
  (∀ d', d' ∉ X' → d' ≠ d → d' ∉ X) →
  returns (desc_retire fuel d) w (λ _ w',
    wfx X' w' ∧ retired_rel [d] w w' ∧ size_classes w' = size_classes w ∧
    trace w' = trace w ++ [EvRetire d; EvOsFree hdr SB_SIZE]).
Proof.
  intros Hf (Hreg & Hds & Hhs & Hqs & Hst & Hdl) Hmap Hin Hse Hsb Hal Hoth
         (Hu1 & Hu2 & Hu3) HX.
  unfold get_desc in *.
  assert (Hpos : d ≠ 0) by (pose proof (dmapped_pos _ _ Hreg Hmap); lia).
  assert (Hne : (d, Fn_desc_enqueue_avail) ∉ delayed w)
    by (eapply delayed_not_in_use; eauto).
  unfold desc_retire.
  apply returns_bind, returns_modify.
  apply returns_bind, returns_read_desc; [apply dmapped_mapped; exact Hmap|].
  apply returns_bind, returns_ASSERT; [unfold get_desc; simpl; rewrite Hse; reflexivity|].
  apply returns_bind, returns_ASSERT; [exact Hin|].
  apply returns_bind, returns_write_desc; [apply dmapped_mapped; exact Hmap|].
  apply returns_bind. unfold free_sb.
  change (get_desc (log (EvRetire d) w) d) with (getd (descs w) d).
  rewrite Hsb, (SB_HEADER_FOR_ADDR_in hdr SB_HEADER_SIZE Hal) by (vm_compute; split; congruence).
  apply returns_bind, returns_ASSERT; [apply Z.eqb_refl|].
  unfold mono_sgen_free_os_memory.
  eexists _, _. split; [reflexivity|].
  set (D' := Desc.with_in_use (getd (descs w) d) false).
  set (live' := filter (λ r : Z * Z, r ≠ (hdr, SB_SIZE)) (os_live w)).
  fold D'.
  assert (Hmap' : dmapped live' d) by (apply dmapped_filter; exact Hmap).
  (* the clauses that both ways of ending share *)
  assert (Hreg' : regions_ok live') by (apply regions_ok_filter; exact Hreg).
  assert (Hds' : descs_ok X' (<[d := D']> (descs w)) (mem w) live'
                   (heaps w) (size_classes w)).
  { apply descs_ok_free.
    - eapply descs_ok_put; [exact Hds| |exact HX].
      intros _ _ E. discriminate E.
    - intros d' HX' Hm' Hi'. destruct (decide (d' = d)) as [->|n].
      + rewrite getd_insert_eq in Hi'. discriminate Hi'.
      + rewrite getd_insert_ne in * by done. apply Hoth; auto. }
  assert (Hhs' : heaps_ok (<[d := D']> (descs w)) live'
                   (heaps w) (size_classes w)).
  { eapply heaps_ok_mono; [|intros; apply dmapped_filter; eassumption|apply scs_le_refl].
    eapply heaps_ok_put; [exact Hhs|].
    intros h H Eh Ea. destruct (Hu1 h H Eh Ea). }
  assert (Hqs' : queues_ok (<[d := D']> (descs w)) live'
                   (heaps w) (size_classes w)).
  { eapply queues_ok_mono; [|intros; apply dmapped_filter; eassumption].
    eapply queues_ok_put; [exact Hqs|].
    intros s C Es Hd. destruct (Hu2 s C Es Hd). }
  assert (HdlP : delayed_ok (<[d := D']> (descs w)) live'
                   (heaps w) (size_classes w) (delayed w)).
  { eapply delayed_ok_mono; [|intros; apply dmapped_filter; eassumption].
    eapply delayed_ok_put; [exact Hdl|].
    intros [] Hd; contradiction. }
  assert (Hrel : ∀ w', heaps w' = heaps w → mem w' = mem w →
            os_script w' = os_script w → hazard w' = hazard w →
            hazard_others w' = hazard_others w → os_live w' = live' →
            (∀ d', d' ≠ d → getd (descs w') d' = getd (descs w) d') →
            erase (getd (descs w') d) = erase (getd (descs w) d) →
            Desc.in_use (getd (descs w') d) = false →
            (∀ d', (d', Fn_desc_put_partial) ∈ delayed w'
                   ↔ (d', Fn_desc_put_partial) ∈ delayed w) →
            retired_rel [d] w w').
  { intros w' E1 E2 E3 E4 E5 E6 E7 E8 E10 E11. unfold retired_rel.
    repeat (split; [assumption|]).
    split. { intros d' Hd'. apply E7. intros ->. apply Hd'. left. }
    split. { intros d'. destruct (decide (d' = d)) as [->|n]; [exact E8|].
             rewrite E7 by done. reflexivity. }
    split. { intros d' Hd'. apply list_elem_of_singleton in Hd'. subst. exact E10. }
    split. { intros d'. rewrite E6. split; [apply dmapped_filter_inv|apply dmapped_filter]. }
    split. { intros r. rewrite E6. intros Hr.
             apply list_elem_of_filter in Hr as [_ Hr]. exact Hr. }
    exact E11. }
  apply free_or_queue_returns.
  - (* the descriptor is hazardous: the push is deferred *)
    intros _. split; [|split; [|split; [reflexivity|]]].
    + unfold wfx. cbn. fold D' live'.
      split; [exact Hreg'|]. split; [exact Hds'|]. split; [exact Hhs'|].
      split; [exact Hqs'|]. split.
      * eapply stack_ok_mono; [apply stack_ok_delay; eauto| |auto].
        intros; apply dmapped_filter; assumption.
      * apply delayed_ok_snoc; auto.
        rewrite getd_insert_eq. split; [reflexivity|exact Hse].
    + apply Hrel; try reflexivity.
      * intros d' n. cbn. apply getd_insert_ne. auto.
      * cbn. rewrite getd_insert_eq. reflexivity.
      * cbn. rewrite getd_insert_eq. reflexivity.
      * intros d'. cbn. rewrite elem_of_app, list_elem_of_singleton.
        split; [intros [?|[=]]; auto|auto].
    + cbn. rewrite <- app_assoc. reflexivity.
  - (* the descriptor is pushed at once *)
    intros _. cbn [call_free_func].
    apply desc_enqueue_avail_returns.
    + exact Hf.
    + apply mapped_In. destruct Hmap' as (base & Hb & ? & ?).
      exists (base, Desc.size * NUM_DESC_BATCH). cbn. auto.
    + unfold get_desc. cbn. rewrite getd_insert_eq. exact Hse.
    + unfold get_desc. cbn. rewrite getd_insert_eq. reflexivity.
    + unfold get_desc. cbn. rewrite getd_insert_eq. fold live'.
      split; [|split; [|split; [reflexivity|]]].
      * unfold wfx. cbn. fold live'. rewrite insert_insert_eq.
        set (D2 := Desc.with_next D' (desc_avail w)).
        split; [exact Hreg'|].
        split.
        { apply descs_ok_free.
          - eapply descs_ok_put; [exact Hds| |exact HX].
            intros _ _ E. discriminate E.
          - intros d' HX' Hm' Hi'. destruct (decide (d' = d)) as [->|n].
            + rewrite getd_insert_eq in Hi'. discriminate Hi'.
            + rewrite getd_insert_ne in * by done. apply Hoth; auto. }
        split.
        { eapply heaps_ok_mono; [|intros; apply dmapped_filter; eassumption|apply scs_le_refl].
          eapply heaps_ok_put; [exact Hhs|].
          intros h H Eh Ea. destruct (Hu1 h H Eh Ea). }
        split.
        { eapply queues_ok_mono; [|intros; apply dmapped_filter; eassumption].
          eapply queues_ok_put; [exact Hqs|].
          intros s C Es Hd. destruct (Hu2 s C Es Hd). }
        split.
        { eapply stack_ok_mono; [eapply stack_ok_push; eauto| |auto].
          intros; apply dmapped_filter; assumption. }
        { eapply delayed_ok_mono; [|intros; apply dmapped_filter; eassumption].
          eapply delayed_ok_put; [exact Hdl|].
          intros [] Hd; contradiction. }
      * apply Hrel; try reflexivity.
        -- intros d' n. cbn. rewrite insert_insert_eq. apply getd_insert_ne. auto.
        -- cbn. rewrite insert_insert_eq, getd_insert_eq. reflexivity.
        -- cbn. rewrite insert_insert_eq, getd_insert_eq. reflexivity.
      * cbn. rewrite <- app_assoc. reflexivity.
Qed.

(** ** The partial queue *)

Lemma queued_unowned X w s C d q :
  wfx X w → size_classes w !! s = Some C → SizeClass.partial C = d :: q →
  unowned (heaps w)
    (<[s := SizeClass.mk q (SizeClass.slot_size C)]> (size_classes w))
    (delayed w) d.
Proof.
  intros (Hreg & Hds & Hhs & Hqs & Hst & Hdl) Es Eq.
  destruct (Hqs s C Es) as (Hval & Hnd & Hall).
  rewrite Eq in Hnd, Hall. apply NoDup_cons in Hnd as [Hnq Hnd].
  destruct (Hall d ltac:(left))
    as (Hd0 & Hmap & Hin & Hnf & (H & EH & Esc) & Hact).
  split; [exact Hact|split].
  - intros s' C' Es'. destruct (decide (s = s')) as [<-|n].
    + rewrite lookup_insert_eq in Es'. injection Es' as <-. exact Hnq.
    + rewrite lookup_insert_ne in Es' by done. intros Hd.
      destruct (Hqs s' C' Es') as (_ & _ & Hall').
      destruct (Hall' d Hd) as (_ & _ & _ & _ & (H2 & EH2 & Esc2) & _).
      congruence.
  - intros Hd. destruct Hdl as (_ & Hdl). destruct (Hdl _ _ Hd) as (_ & _ & _ & _ & Hq & _).
    apply (Hq s C Es). rewrite Eq. left.
Qed.

Lemma wfx_dequeue X w s C d q :
  wfx X w → size_classes w !! s = Some C → SizeClass.partial C = d :: q →
  wfx X (upd_size_classes
           (λ m, <[s := SizeClass.mk q (SizeClass.slot_size C)]> m) w).
Proof.
  intros Hwf Es Eq. pose proof Hwf as (Hreg & Hds & Hhs & Hqs & Hst & Hdl).
  destruct (Hqs s C Es) as (Hval & Hnd & Hall).
  rewrite Eq in Hnd, Hall. apply NoDup_cons in Hnd as [Hnq Hnd].
  unfold wfx. cbn.
  split; [exact Hreg|].
  split; [eapply descs_ok_le; [exact Hds|apply hs_le_refl|apply scs_le_insert; exact Es]|].
  split; [eapply heaps_ok_mono; [exact Hhs|auto|apply scs_le_insert; exact Es]|].
  split.
  { apply queues_ok_set_queue; auto.
    intros d' Hd' Hn. exfalso. apply Hn. rewrite Eq. right. exact Hd'. }
  split; [exact Hst|].
  apply delayed_ok_set_queue; auto.
  intros d' Hd' Hx. destruct Hdl as (_ & Hdl).
  destruct (Hdl _ _ Hx) as (_ & _ & _ & _ & Hq & _).
  apply (Hq s C Es). rewrite Eq. right. exact Hd'.
Qed.

Lemma dequeue_returns s w C (Q : Z → World → Prop) :
  size_classes w !! s = Some C →
  match SizeClass.partial C with
  | [] => Q 0 w
  | d :: q =>
      Q d (upd_size_classes
             (λ m, <[s := SizeClass.mk q (SizeClass.slot_size C)]> m) w)
  end →
  returns (mono_lock_free_queue_dequeue s) w Q.
Proof.
  intros Es HQ. unfold mono_lock_free_queue_dequeue.
  apply returns_bind. eapply returns_read_sc; [exact Es|].
  destruct (SizeClass.partial C) as [|d q].
  - apply returns_ret. exact HQ.
  - apply returns_bind, returns_modify, returns_ret. exact HQ.
Qed.

(** The back-pointer in its header tells a superblock's descriptor. *)
Lemma sb_owner X w d d' hdr :
  wfx X w → d ∉ X → d' ∉ X →
  dmapped (os_live w) d → Desc.in_use (get_desc w d) = true →
  dmapped (os_live w) d' → Desc.in_use (get_desc w d') = true →
  Desc.sb (get_desc w d) = hdr → Desc.sb (get_desc w d') = hdr → d' = d.
Proof.
  intros (_ & Hds & _) HX HX' Hm Hi Hm' Hi' E E'.
  destruct (Hds d HX Hm Hi) as ((h1 & E1 & _ & _ & B1) & _).
  destruct (Hds d' HX' Hm' Hi') as ((h2 & E2 & _ & _ & B2) & _).
  unfold get_desc in *. assert (h1 = h2) by lia. congruence.
Qed.

Lemma list_get_partial_spec fuel : ∀ s w C,
  wf w → size_classes w !! s = Some C →
  (length (SizeClass.partial C) < fuel)%nat →
  returns (list_get_partial fuel s) w (λ r w',
    ∃ retired rest,
      SizeClass.partial C = retired ++ rest
      ∧ (if r =? 0 then rest = [] else ∃ q, rest = r :: q ∧
           size_classes w' !! s = Some (SizeClass.mk q (SizeClass.slot_size C)))
      ∧ (r = 0 → size_classes w' !! s
                 = Some (SizeClass.mk [] (SizeClass.slot_size C)))
      ∧ (∀ s', s' ≠ s → size_classes w' !! s' = size_classes w !! s')
      ∧ wf w' ∧ retired_rel retired w w'
      ∧ (∀ d, d ∈ retired → state (Desc.anchor (get_desc w d)) = STATE_EMPTY)
      ∧ trace w' = trace w ++ concat (map (retire_events w) retired)
      ∧ (r ≠ 0 →
           dmapped (os_live w') r ∧ Desc.in_use (get_desc w' r) = true ∧
           state (Desc.anchor (get_desc w' r)) = STATE_PARTIAL ∧
           unowned (heaps w') (size_classes w') (delayed w') r)).
Proof.
  induction fuel as [|n IH]; intros s w C Hwf Es Hlen; [lia|].
  cbn [list_get_partial].
  apply returns_bind. eapply dequeue_returns; [exact Es|].
  destruct (SizeClass.partial C) as [|d q] eqn:Eq.
  - (* the queue is exhausted *)
    rewrite Z.eqb_refl. apply returns_ret.
    exists [], []. rewrite Z.eqb_refl.
    split; [reflexivity|]. split; [reflexivity|].
    split. { intros _. rewrite Es. destruct C. simpl in *. congruence. }
    split; [auto|]. split; [exact Hwf|]. split; [apply retired_rel_refl|].
    split; [intros d Hd; inversion Hd|].
    split; [simpl; rewrite app_nil_r; reflexivity|]. intros Hx. contradiction.
  - pose proof Hwf as (Hreg & Hds & Hhs & Hqs & Hst & Hdl).
    destruct (Hqs s C Es) as (Hval & Hnd & Hall).
    rewrite Eq in Hnd, Hall.
    destruct (Hall d ltac:(left))
      as (Hd0 & Hmap & Hin & Hnf & (H & EH & Esc) & Hact).
    pose proof (wfx_dequeue _ _ _ _ _ _ Hwf Es Eq) as Hwf1.
    pose proof (queued_unowned _ _ _ _ _ _ Hwf Es Eq) as Hun1.
    set (w1 := upd_size_classes
                 (λ m, <[s := SizeClass.mk q (SizeClass.slot_size C)]> m) w) in *.
    destruct (Z.eqb_spec d 0) as [|_]; [contradiction|].
    apply returns_bind, returns_read_desc; [apply dmapped_mapped; exact Hmap|].
    change (get_desc w1 d) with (get_desc w d).
    destruct (Hds d ltac:(apply not_elem_of_nil) Hmap Hin)
      as ((hdr & Esb & Hal & Hlive & Hback) & _ & _ & _ & Hanc & _).
    destruct (Z.eqb_spec (state (Desc.anchor (get_desc w d))) STATE_EMPTY) as [Hse|Hse].
    + (* a stale EMPTY descriptor: retired, and the loop goes round *)
      cbn [negb].
      apply returns_bind.
      eapply returns_mono.
      { apply (desc_retire_spec (S n) d [] [] w1 hdr); auto.
        - lia.
        - intros d' _ Hne Hm' Hi' E'.
          apply Hne. eapply (sb_owner [] w); eauto using not_elem_of_nil. }
      intros [] w2 (Hwf2 & Hrel2 & Escs2 & Etr2). cbv beta.
      assert (Es2 : size_classes w2 !! s
                    = Some (SizeClass.mk q (SizeClass.slot_size C))).
      { rewrite Escs2. cbn. apply lookup_insert_eq. }
      eapply returns_mono.
      { apply (IH s w2 _ Hwf2 Es2). simpl in *. lia. }
      intros r w' (retired & rest & E1 & E2 & E3 & E4 & Hwf' & Hrel' & Hst' & Etr' & Hr).
      simpl in E1, E2, E3.
      exists (d :: retired), rest.
      split; [simpl; congruence|]. split; [exact E2|]. split; [exact E3|].
      split.
      { intros s' Hs'. rewrite E4, Escs2 by done. cbn.
        apply lookup_insert_ne. auto. }
      split; [exact Hwf'|].
      split. { apply (retired_rel_trans [d] retired w w2 w'); auto. }
      destruct Hrel2 as (_ & _ & _ & _ & _ & _ & A7 & _).
      assert (A7' : ∀ d', erase (get_desc w2 d') = erase (get_desc w d'))
        by (intros d'; apply A7).
      split.
      { intros d' Hd'. apply elem_of_cons in Hd' as [->|Hd']; [exact Hse|].
        rewrite <- (Hst' d' Hd'). symmetry. f_equal. apply erase_anchor, A7'. }
      split.
      { rewrite Etr', Etr2. cbn [map concat].
        rewrite <- !app_assoc. f_equal.
        unfold retire_events at 2. unfold get_desc at 1. rewrite Esb.
        replace (hdr + SB_HEADER_SIZE - SB_HEADER_SIZE) with hdr by lia.
        cbn [app]. f_equal. f_equal. f_equal. apply map_ext.
        intros d'. unfold retire_events. rewrite (erase_sb _ _ (A7' d')).
        reflexivity. }
      exact Hr.
    + (* a descriptor that is not EMPTY is returned *)
      cbn [negb]. apply returns_ret.
      exists [], (d :: q). destruct (Z.eqb_spec d 0) as [|_]; [contradiction|].
      split; [reflexivity|].
      split. { exists q. split; [reflexivity|]. cbn. apply lookup_insert_eq. }
      split; [contradiction|].
      split. { intros s' Hs'. cbn. apply lookup_insert_ne. auto. }
      split; [exact Hwf1|].
      split. { unfold retired_rel. cbn. repeat split; auto. intros ? Hx; inversion Hx. }
      split; [intros ? Hx; inversion Hx|].
      split; [simpl; rewrite app_nil_r; reflexivity|].
      intros _. split; [exact Hmap|]. split; [exact Hin|]. split; [|exact Hun1].
      change (get_desc w1 d) with (get_desc w d).
      unfold get_desc in *.
      destruct Hanc as [[? ?]|[[? ?]|[? ?]]]; [contradiction|contradiction|assumption].
Qed.

(** ** The anchors that the two paths compute *)

Lemma alloc_new_anchor_avail old next :
  avail (alloc_new_anchor old next) = next mod 1024.
Proof.
  unfold alloc_new_anchor. cbv zeta.
  destruct (_ =? 0); autorewrite with anchor; reflexivity.
Qed.

Lemma alloc_new_anchor_count old next :
  count (alloc_new_anchor old next) = (count old - 1) mod 1024.
Proof.
  unfold alloc_new_anchor. cbv zeta.
  destruct (_ =? 0); autorewrite with anchor; reflexivity.
Qed.

Lemma alloc_new_anchor_tag old next :
  tag (alloc_new_anchor old next) = (tag old + 1) mod 2 ^ 42.
Proof.
  unfold alloc_new_anchor. cbv zeta.
  destruct (_ =? 0); autorewrite with anchor; reflexivity.
Qed.

Lemma alloc_new_anchor_state old next :
  state (alloc_new_anchor old next)
  = if (count old - 1) mod 1024 =? 0 then STATE_FULL else state old.
Proof.
  unfold alloc_new_anchor. cbv zeta. autorewrite with anchor.
  destruct (_ =? 0); autorewrite with anchor; reflexivity.
Qed.

Lemma free_new_anchor_avail old index max_count :
  avail (free_new_anchor old index max_count) = index mod 1024.
Proof.
  unfold free_new_anchor. cbv zeta.
  destruct (state old =? STATE_FULL), (_ =? max_count);
    autorewrite with anchor; reflexivity.
Qed.

Lemma free_new_anchor_count old index max_count :
  count (free_new_anchor old index max_count) = (count old + 1) mod 1024.
Proof.
  unfold free_new_anchor. cbv zeta.
  destruct (state old =? STATE_FULL), (_ =? max_count);
    autorewrite with anchor; reflexivity.
Qed.

Lemma free_new_anchor_tag old index max_count :
  tag (free_new_anchor old index max_count) = tag old.
Proof.
  unfold free_new_anchor. cbv zeta.
  destruct (state old =? STATE_FULL), (_ =? max_count);
    autorewrite with anchor; reflexivity.
Qed.

Lemma free_new_anchor_state old index max_count :
  state (free_new_anchor old index max_count)
  = if (count old + 1) mod 1024 =? max_count then STATE_EMPTY
    else if state old =? STATE_FULL then STATE_PARTIAL else state old.
Proof.
  unfold free_new_anchor. cbv zeta.
  destruct (state old =? STATE_FULL); autorewrite with anchor;
    destruct (_ =? max_count); autorewrite with anchor; reflexivity.
Qed.

(** ** Taking and giving back the active descriptor *)

Lemma wfx_clear_active X w h H :
  wfx X w → heaps w !! h = Some H →
  wfx X (upd_heaps (λ m, <[h := Heap.mk (Heap.sc H) 0]> m) w).
Proof.
  intros (Hreg & Hds & Hhs & Hqs & Hst & Hdl) Eh. unfold wfx. cbn.
  split; [exact Hreg|].
  split; [eapply descs_ok_le; [exact Hds|apply hs_le_insert; exact Eh|apply scs_le_refl]|].
  split; [apply heaps_ok_set_active; auto; intros []; reflexivity|].
  split.
  { apply queues_ok_set_active; auto. intros s C Es Hd.
    destruct (Hqs s C Es) as (_ & _ & Hall). destruct (Hall 0 Hd) as [? _]. auto. }
  split; [exact Hst|].
  apply delayed_ok_set_active; auto. intros Hd.
  destruct Hdl as (_ & Hdl). destruct (Hdl _ _ Hd) as (Hm & _).
  pose proof (dmapped_pos _ _ Hreg Hm). lia.
Qed.

Lemma active_unowned X w h H :
  wfx X w → heaps w !! h = Some H → Heap.active H ≠ 0 →
  unowned (<[h := Heap.mk (Heap.sc H) 0]> (heaps w)) (size_classes w)
    (delayed w) (Heap.active H).
Proof.
  intros (Hreg & Hds & Hhs & Hqs & Hst & Hdl) Eh Hne.
  destruct (Hhs h H Eh) as [_ Ha].
  destruct (Ha Hne) as (Hm & Hi & _ & _ & Hinj).
  split; [|split].
  - intros h' H' Eh' Ea. destruct (decide (h = h')) as [<-|n].
    + rewrite lookup_insert_eq in Eh'. injection Eh' as <-. simpl in Ea. auto.
    + rewrite lookup_insert_ne in Eh' by done.
      apply n. symmetry. eapply Hinj; eauto.
  - intros s C Es Hd. destruct (Hqs s C Es) as (_ & _ & Hall).
    destruct (Hall _ Hd) as (_ & _ & _ & _ & _ & Hact).
    exact (Hact h H Eh eq_refl).
  - intros Hd. destruct Hdl as (_ & Hdl).
    destruct (Hdl _ _ Hd) as (_ & _ & _ & _ & _ & Hact).
    exact (Hact h H Eh eq_refl).
Qed.

Lemma wfx_set_active X w h H d :
  wfx X w → heaps w !! h = Some H →
  dmapped (os_live w) d → Desc.in_use (get_desc w d) = true →
  (∃ H', heaps w !! Desc.heap (get_desc w d) = Some H' ∧
         Heap.sc H' = Heap.sc H) →
  state (Desc.anchor (get_desc w d)) ≠ STATE_FULL →
  unowned (heaps w) (size_classes w) (delayed w) d →
  wfx X (upd_heaps (λ m, <[h := Heap.mk (Heap.sc H) d]> m) w).
Proof.
  intros (Hreg & Hds & Hhs & Hqs & Hst & Hdl) Eh Hm Hi Ehp Hs (Hu1 & Hu2 & Hu3).
  unfold wfx. cbn.
  split; [exact Hreg|].
  split; [eapply descs_ok_le; [exact Hds|apply hs_le_insert; exact Eh|apply scs_le_refl]|].
  split.
  { apply heaps_ok_set_active; auto. intros _.
    split; [exact Hm|]. split; [exact Hi|]. split; [exact Hs|].
    split; [exact Ehp|]. intros h' H' Eh' _. eauto. }
  split; [apply queues_ok_set_active; auto|].
  split; [exact Hst|].
  apply delayed_ok_set_active; auto.
Qed.

(** ** Allocating from a descriptor that the thread owns *)

Lemma sb_mapped w hdr off n :
  (hdr, SB_SIZE) ∈ os_live w → 0 ≤ off → off + n ≤ SB_SIZE →
  mapped w (hdr + off) n = true.
Proof.
  intros Hin H1 H2. apply mapped_In. exists (hdr, SB_SIZE). simpl.
  split; [exact Hin|]. lia.
Qed.

Lemma alloc_anchor_loop_spec fuel d w :
  (1 ≤ fuel)%nat → wf w → dmapped (os_live w) d →
  Desc.in_use (get_desc w d) = true →
  state (Desc.anchor (get_desc w d)) = STATE_PARTIAL →
  unowned (heaps w) (size_classes w) (delayed w) d →
  returns (alloc_anchor_loop fuel d) w (λ r w',
    ∃ addr new_anchor,
      r = Cas_done addr new_anchor ∧
      new_anchor = alloc_new_anchor (Desc.anchor (get_desc w d))
                     (load_bytes (mem w) 4 addr) ∧
      addr = slot_of w d (avail (Desc.anchor (get_desc w d))) ∧
      w' = log (EvAnchor d (Desc.anchor (get_desc w d)) new_anchor)
             (put_desc d (Desc.with_anchor (get_desc w d) new_anchor) w) ∧
      wf w' ∧ allocated_slot w' d addr ∧
      (state new_anchor = STATE_PARTIAL ∨ state new_anchor = STATE_FULL)).
Proof.
  intros Hf Hwf Hm Hi Hs Hun.
  pose proof Hwf as (Hreg & Hds & Hhs & Hqs & Hst & Hdl).
  destruct (Hds d ltac:(apply not_elem_of_nil) Hm Hi)
    as ((hdr & Esb & Hal & Hlive & Hback) & Hheap & Hsz & Hmax & Hanc & Hall & Hnd).
  fold (get_desc w d) in *.
  set (D := get_desc w d) in *. set (old := Desc.anchor D) in *.
  destruct Hanc as [[E _]|[[E _]|[_ Hcnt]]];
    [rewrite E in Hs; discriminate Hs|rewrite E in Hs; discriminate Hs|].
  pose proof (max_count_range _ Hsz) as Hmc. rewrite <- Hmax in Hmc.
  destruct (Z.to_nat (count old)) as [|k] eqn:Ek.
  { clear -Hcnt Ek. lia. }
  cbn [chain] in Hall, Hnd.
  apply Forall_cons in Hall as [Hav Hall]. apply NoDup_cons in Hnd as [Hni Hnd].
  pose proof (slot_in_sb _ _ Hsz ltac:(rewrite <- Hmax; exact Hav)) as Hslot.
  assert (Eaddr : Desc.sb D + u32 (avail old * Desc.slot_size D)
                  = slot_of w d (avail old)).
  { unfold slot_of, u32. fold D. f_equal. apply Z.mod_small.
    change (2 ^ 32) with 4294967296.
    unfold valid_slot_size, SB_USABLE_SIZE, SB_SIZE, SB_HEADER_SIZE in *.
    clear -Hslot Hsz. lia. }
  set (next := load_bytes (mem w) 4 (Desc.sb D + avail old * Desc.slot_size D)) in *.
  assert (Hnext : 0 ≤ next < Desc.max_count D).
  { destruct k; cbn [chain] in Hall; apply Forall_cons in Hall as [? _]; auto. }
  destruct fuel as [|n]; [lia|]. cbn [alloc_anchor_loop].
  apply returns_bind. unfold atomic64_read.
  apply returns_bind, returns_read_desc; [apply dmapped_mapped; exact Hm|].
  apply returns_ret. fold D old.
  apply returns_bind. unfold alloc_anchor_try.
  rewrite Hs. change (STATE_PARTIAL =? STATE_EMPTY) with false. cbv iota.
  apply returns_bind, returns_ASSERT; [reflexivity|].
  apply returns_bind, returns_ASSERT; [apply Z.ltb_lt; lia|].
  apply returns_bind, returns_read_desc; [apply dmapped_mapped; exact Hm|].
  fold D. rewrite Eaddr.
  apply returns_bind, returns_ret.
  apply returns_bind, returns_load.
  { unfold slot_of. fold D. rewrite Esb.
    replace (hdr + SB_HEADER_SIZE + avail old * Desc.slot_size D)
      with (hdr + (SB_HEADER_SIZE + avail old * Desc.slot_size D)) by lia.
    apply sb_mapped; [exact Hlive| |];
      unfold valid_slot_size, SB_USABLE_SIZE, SB_SIZE, SB_HEADER_SIZE in *;
      change (Z.of_nat 4) with 4; lia. }
  change (load_bytes (mem w) 4 (slot_of w d (avail old))) with next.
  apply returns_bind, returns_udiv; [unfold valid_slot_size in Hsz; lia|].
  rewrite <- Hmax.
  apply returns_bind, returns_ASSERT; [apply Z.ltb_lt; lia|].
  set (new := alloc_new_anchor old next).
  assert (Hcn : count new = count old - 1).
  { unfold new. rewrite alloc_new_anchor_count. apply Z.mod_small. lia. }
  assert (Han : avail new = next).
  { unfold new. rewrite alloc_new_anchor_avail. apply Z.mod_small. lia. }
  assert (Hsn : state new = if count old - 1 =? 0 then STATE_FULL else STATE_PARTIAL).
  { unfold new. rewrite alloc_new_anchor_state, Hs.
    rewrite (Z.mod_small (count old - 1)) by lia. reflexivity. }
  apply returns_bind.
  exists true, (log (EvAnchor d old new) (put_desc d (Desc.with_anchor D new) w)).
  split.
  { apply set_anchor_Done. split; [rewrite Hs; discriminate|].
    split; [apply dmapped_mapped; exact Hm|]. fold D old.
    rewrite Z.eqb_refl. auto. }
  apply returns_ret. cbv iota. apply returns_ret.
  exists (slot_of w d (avail old)), new.
  split; [reflexivity|]. split; [reflexivity|]. split; [reflexivity|].
  split; [reflexivity|].
  assert (Hk : Z.to_nat (count new) = k) by lia.
  split; [|split].
  - (* the world stays well formed *)
    destruct Hun as (Hu1 & Hu2 & Hu3).
    unfold wf, wfx. cbn.
    split; [exact Hreg|].
    split.
    { eapply descs_ok_put; [exact Hds| |auto].
      intros _ _ _. unfold desc_ok. rewrite getd_insert_eq. cbn.
      fold D.
      split; [exists hdr; auto|]. split; [exact Hheap|].
      split; [exact Hsz|]. split; [exact Hmax|].
      split.
      - unfold anchor_ok. rewrite Hsn, Hcn.
        destruct (Z.eqb_spec (count old - 1) 0); [right; left|right; right]; lia.
      - unfold chain_ok. cbn. rewrite Hk, Han. split; [exact Hall|].
        exact Hnd. }
    split.
    { eapply heaps_ok_put; [exact Hhs|].
      intros h H Eh Ea. destruct (Hu1 h H Eh Ea). }
    split.
    { eapply queues_ok_put; [exact Hqs|].
      intros s C Es Hd. destruct (Hu2 s C Es Hd). }
    split; [apply stack_ok_put; auto|].
    eapply delayed_ok_put; [exact Hdl|].
    intros [] Hd; [|contradiction].
    exfalso. eapply delayed_not_in_use; eauto.
  - (* the slot handed out is no longer free *)
    unfold allocated_slot, free_slots, slot_of, get_desc. cbn.
    rewrite getd_insert_eq. cbn. fold D.
    split; [exact Hm|]. split; [exact Hi|].
    exists (avail old). split; [exact Hav|]. split; [reflexivity|].
    rewrite Hk, Han. destruct k; [apply not_elem_of_nil|].
    exact Hni.
  - rewrite Hsn. destruct (count old - 1 =? 0); auto.
Qed.

(** ** [alloc_from_active_or_partial] *)

(** ** The slots held

    What the steps of an allocation do to the slots that callers hold. *)

(** A chain of [n] distinct indices below [n] holds every index below [n]. *)
Lemma chain_full_all (l : list Z) n i :
  NoDup l → length l = Z.to_nat n → Forall (λ x, 0 ≤ x < n) l →
  0 ≤ i < n → i ∈ l.
Proof.
  intros Hnd Hlen Hall Hi.
  assert (Hsub : l ⊆+ seqZ 0 n).
  { apply NoDup_submseteq; [exact Hnd|].
    intros x Hx. apply elem_of_seqZ.
    rewrite Forall_forall in Hall. specialize (Hall x Hx). lia. }
  assert (Hp : l ≡ₚ seqZ 0 n).
  { apply submseteq_length_Permutation; [exact Hsub|].
    rewrite length_seqZ. lia. }
  rewrite Hp. apply elem_of_seqZ. lia.
Qed.

(** A descriptor with a slot in the hands of a caller is not EMPTY. *)
Lemma allocated_not_empty w d addr :
  wf w → allocated_slot w d addr →
  count (Desc.anchor (get_desc w d)) < Desc.max_count (get_desc w d)
  ∧ state (Desc.anchor (get_desc w d)) ≠ STATE_EMPTY.
Proof.
  intros (_ & Hds & _) (Hm & Hu & i & Hi & _ & Hfree).
  destruct (Hds d ltac:(apply not_elem_of_nil) Hm Hu)
    as (_ & _ & Hsz & Hmax & Hanc & Hall & Hnd).
  fold (get_desc w d) in *.
  pose proof (max_count_range _ Hsz) as Hmc. rewrite <- Hmax in Hmc.
  assert (Hlt : count (Desc.anchor (get_desc w d)) ≠ Desc.max_count (get_desc w d)).
  { intros E. apply Hfree. unfold free_slots.
    apply (chain_full_all _ (Desc.max_count (get_desc w d))).
    - exact Hnd.
    - rewrite chain_length, E. reflexivity.
    - apply chain_prefix_Forall in Hall. exact Hall.
    - exact Hi. }
  destruct Hanc as [[E1 E2]|[[E1 E2]|[E1 E2]]].
  - contradiction.
  - rewrite E1, E2. split; [lia|discriminate].
  - rewrite E1. split; [lia|discriminate].
Qed.

Lemma keeps_held_refl w : keeps_held w w.
Proof. intros d p H. exact H. Qed.

Lemma keeps_held_trans w1 w2 w3 :
  keeps_held w1 w2 → keeps_held w2 w3 → keeps_held w1 w3.
Proof. intros H1 H2 d p H. apply H2, H1, H. Qed.

Lemma keeps_of_mem w w' : keeps_held w w' → mem w' = mem w → keeps w w'.
Proof. intros Hk E. split; [exact Hk|]. intros d p k _ _. rewrite E. reflexivity. Qed.

Lemma keeps_trans w1 w2 w3 : keeps w1 w2 → keeps w2 w3 → keeps w1 w3.
Proof.
  intros [H1 B1] [H2 B2]. split; [exact (keeps_held_trans _ _ _ H1 H2)|].
  intros d p k Hal Hk.
  rewrite (B2 d p k (H1 d p Hal) Hk). exact (B1 d p k Hal Hk).
Qed.

Lemma slot_of_inj w d d' i i' :
  wf w →
  dmapped (os_live w) d → Desc.in_use (get_desc w d) = true →
  dmapped (os_live w) d' → Desc.in_use (get_desc w d') = true →
  0 ≤ i < Desc.max_count (get_desc w d) →
  0 ≤ i' < Desc.max_count (get_desc w d') →
  slot_of w d i = slot_of w d' i' → d' = d ∧ i' = i.
Proof.
  intros Hwf Hm Hu Hm' Hu' Hi Hi' E.
  pose proof Hwf as (_ & Hds & _).
  destruct (Hds d ltac:(apply not_elem_of_nil) Hm Hu)
    as ((hdr & Esb & Hal & _) & _ & Hsz & Hmax & _).
  destruct (Hds d' ltac:(apply not_elem_of_nil) Hm' Hu')
    as ((hdr' & Esb' & Hal' & _) & _ & Hsz' & Hmax' & _).
  fold (get_desc w d) in *. fold (get_desc w d') in *.
  rewrite Hmax in Hi. rewrite Hmax' in Hi'.
  pose proof (slot_in_sb _ _ Hsz Hi) as Hr.
  pose proof (slot_in_sb _ _ Hsz' Hi') as Hr'.
  unfold slot_of in E. rewrite Esb, Esb' in E.
  assert (Eh : hdr' = hdr).
  { pose proof (Z.div_mod hdr SB_SIZE ltac:(discriminate)) as D.
    pose proof (Z.div_mod hdr' SB_SIZE ltac:(discriminate)) as D'.
    rewrite Hal in D. rewrite Hal' in D'.
    unfold valid_slot_size, SB_USABLE_SIZE, SB_SIZE, SB_HEADER_SIZE in *. lia. }
  subst hdr'.
  assert (Ed : d' = d).
  { eapply (sb_owner [] w d d'); eauto using not_elem_of_nil. }
  subst d'. split; [reflexivity|].
  unfold valid_slot_size in *. nia.
Qed.

(** A held slot stays held when its descriptor and the bytes of its
    superblock stay as they are. *)
Lemma allocated_slot_ext w w' d p :
  wf w → allocated_slot w d p →
  getd (descs w') d = getd (descs w) d →
  dmapped (os_live w') d →
  (∀ k, Desc.sb (get_desc w d) - SB_HEADER_SIZE ≤ k
        < Desc.sb (get_desc w d) - SB_HEADER_SIZE + SB_SIZE →
        mem w' !! k = mem w !! k) →
  allocated_slot w' d p.
Proof.
  intros Hwf (Hm & Hu & i & Hi & Ep & Hfree) Eg Hm' Hmem.
  pose proof Hwf as (_ & Hds & _).
  destruct (Hds d ltac:(apply not_elem_of_nil) Hm Hu)
    as ((hdr & Esb & _) & _ & Hsz & Hmax & Hanc & Hall & _).
  fold (get_desc w d) in *.
  assert (Eg' : get_desc w' d = get_desc w d) by exact Eg.
  split; [exact Hm'|]. rewrite Eg'. split; [exact Hu|].
  exists i. split; [exact Hi|].
  unfold slot_of, free_slots. rewrite Eg'. split; [exact Ep|].
  unfold free_slots in Hfree. rewrite Esb in *.
  replace (hdr + SB_HEADER_SIZE - SB_HEADER_SIZE) with hdr in Hmem by lia.
  intros Hin. apply Hfree.
  destruct (Z.to_nat (count (Desc.anchor (get_desc w d)))) as [|n] eqn:En;
    [exact Hin|].
  rewrite <- (chain_ext_region (mem w) (mem w') hdr); [exact Hin|exact Hsz|exact Hmem|].
  rewrite <- Hmax.
  apply chain_prefix_Forall in Hall.
  apply chain_prefix_Forall in Hall. exact Hall.
Qed.
Lemma retired_keeps_held R w w' :
  wf w → retired_rel R w w' →
  (∀ d, d ∈ R → state (Desc.anchor (get_desc w d)) = STATE_EMPTY) →
  keeps_held w w'.
Proof.
  intros Hwf (A1 & A2 & A3 & A4 & A5 & A6 & A7 & A9 & A10 & A11 & A12) HR d p Hal.
  pose proof (allocated_not_empty w d p Hwf Hal) as (_ & Hne).
  apply (allocated_slot_ext w w' d p Hwf Hal).
  - apply A6. intros Hin. apply Hne, HR, Hin.
  - apply A10. apply Hal.
  - intros k _. rewrite A2. reflexivity.
Qed.

(** Taking the first free slot of [d]: the slots held stay held, and the
    slot handed out was held by nobody. *)
Lemma alloc_anchor_held w d e :
  wf w → dmapped (os_live w) d → Desc.in_use (get_desc w d) = true →
  state (Desc.anchor (get_desc w d)) = STATE_PARTIAL →
  let old := Desc.anchor (get_desc w d) in
  let addr := slot_of w d (avail old) in
  let new := alloc_new_anchor old (load_bytes (mem w) 4 addr) in
  keeps_held w (log e (put_desc d (Desc.with_anchor (get_desc w d) new) w))
  ∧ ∀ d0, ¬ allocated_slot w d0 addr.
Proof.
  intros Hwf Hm Hi Hs old addr new.
  pose proof Hwf as (Hreg & Hds & _).
  destruct (Hds d ltac:(apply not_elem_of_nil) Hm Hi)
    as (_ & _ & Hsz & Hmax & Hanc & Hall & Hnd).
  fold (get_desc w d) in *.
  set (D := get_desc w d) in *. fold old in Hanc, Hall, Hnd.
  destruct Hanc as [[E _]|[[E _]|[_ Hcnt]]];
    [fold old in Hs; rewrite E in Hs; discriminate Hs
    |fold old in Hs; rewrite E in Hs; discriminate Hs|].
  pose proof (max_count_range _ Hsz) as Hmc. rewrite <- Hmax in Hmc.
  assert (Efree : free_slots w d
                  = avail old :: chain (mem w) (Desc.sb D) (Desc.slot_size D)
                                   (Z.to_nat (count old - 1))
                                   (load_bytes (mem w) 4 addr)).
  { unfold free_slots. fold D old.
    replace (Z.to_nat (count old)) with (S (Z.to_nat (count old - 1))) by lia.
    reflexivity. }
  cbv zeta in Hall.
  replace (Z.to_nat (count old)) with (S (Z.to_nat (count old - 1))) in Hall by lia.
  cbn [chain] in Hall. apply Forall_cons in Hall as [Hav Hall].
  fold (slot_of w d (avail old)) in Hall. fold addr in Hall.
  assert (Hnext : 0 ≤ load_bytes (mem w) 4 addr < Desc.max_count D).
  { destruct (Z.to_nat (count old - 1)); cbn [chain] in Hall;
      apply Forall_cons in Hall as [? _]; auto. }
  assert (Hcn : count new = count old - 1).
  { unfold new. rewrite alloc_new_anchor_count. apply Z.mod_small. lia. }
  assert (Han : avail new = load_bytes (mem w) 4 addr).
  { unfold new. rewrite alloc_new_anchor_avail. apply Z.mod_small. lia. }
  split.
  - intros d0 p Hal. destruct (Z.eq_dec d0 d) as [->|Hne].
    + destruct Hal as (_ & _ & i & Hir & Ep & Hfree).
      rewrite Efree in Hfree. apply not_elem_of_cons in Hfree as [_ Hfree].
      unfold allocated_slot, free_slots, slot_of, get_desc. cbn.
      rewrite getd_insert_eq. cbn. fold D.
      split; [exact Hm|]. split; [exact Hi|].
      exists i. split; [exact Hir|]. split; [exact Ep|].
      rewrite Hcn, Han. exact Hfree.
    + apply (allocated_slot_ext w _ d0 p Hwf Hal).
      * cbn. apply getd_insert_ne. congruence.
      * apply Hal.
      * intros k _. reflexivity.
  - intros d0 (Hm0 & Hi0 & i & Hir & Ep & Hfree).
    destruct (slot_of_inj w d d0 (avail old) i Hwf Hm Hi Hm0 Hi0 Hav Hir Ep)
      as [-> ->].
    apply Hfree. rewrite Efree. left.
Qed.

Lemma allocated_slot_frame w w' d addr :
  descs w' = descs w → mem w' = mem w → os_live w' = os_live w →
  allocated_slot w d addr → allocated_slot w' d addr.
Proof.
  unfold allocated_slot, free_slots, slot_of, get_desc.
  intros -> -> ->. auto.
Qed.

(** The owned descriptor [d], PARTIAL, serves the allocation and goes back
    to the empty active slot if it is still PARTIAL. *)
Lemma alloc_owned_spec fuel h H C d w (Q : Z → World → Prop) :
  (1 ≤ fuel)%nat → wf w → heaps w !! h = Some H → Heap.active H = 0 →
  size_classes w !! Heap.sc H = Some C →
  dmapped (os_live w) d → Desc.in_use (get_desc w d) = true →
  state (Desc.anchor (get_desc w d)) = STATE_PARTIAL →
  (∃ H', heaps w !! Desc.heap (get_desc w d) = Some H' ∧
         Heap.sc H' = Heap.sc H) →
  unowned (heaps w) (size_classes w) (delayed w) d →
  (∀ addr w', alloc_post h H C w addr w' → alloc_fresh w addr w' →
              addr = slot_of w d (avail (Desc.anchor (get_desc w d))) →
              addr ≠ 0 → Q addr w') →
  returns (r ← alloc_anchor_loop fuel d;
           match r with
           | Cas_done addr new_anchor =>
               (if state new_anchor =? STATE_PARTIAL then
                  old ← InterlockedCompareExchangePointer (Loc_active h) d 0;
                  if negb (old =? 0) then heap_put_partial fuel d else ret ()
                else ret ());;
               ret addr
           | _ => alloc_from_active_or_partial (pred fuel) h
           end) w Q.
Proof.
  intros Hf Hwf Eh Ha Es Hm Hi Hs Hhp Hun HQ.
  apply returns_bind.
  eapply returns_mono; [apply alloc_anchor_loop_spec; eauto|].
  intros r w2 (addr & new & -> & Enew & Eaddr & Ew2 & Hwf2 & Hslot & Hst).
  cbv beta iota.
  assert (Hd2 : get_desc w2 d = Desc.with_anchor (get_desc w d) new).
  { rewrite Ew2. unfold get_desc. cbn. apply getd_insert_eq. }
  assert (Eh2 : heaps w2 = heaps w) by (rewrite Ew2; reflexivity).
  assert (Es2 : size_classes w2 = size_classes w) by (rewrite Ew2; reflexivity).
  assert (Hpos : addr ≠ 0).
  { pose proof Hslot as (Hm2 & Hi2 & i & Hi' & Ea & _). rewrite Ea.
    pose proof Hwf2 as (Hreg2 & Hds2 & _).
    destruct (Hds2 d ltac:(apply not_elem_of_nil) Hm2 Hi2)
      as ((hdr & Esb & _ & Hlive & _) & _ & Hsz & Hmax & _).
    destruct (regions_ok_pos _ _ Hreg2 Hlive) as (Hp & _). simpl in Hp.
    fold (get_desc w2 d) in *. unfold slot_of. rewrite Esb.
    rewrite Hmax in Hi'. pose proof (slot_in_sb _ _ Hsz Hi').
    unfold SB_HEADER_SIZE. lia. }
  assert (Hslotsz : Desc.slot_size (get_desc w2 d) = SizeClass.slot_size C).
  { pose proof Hslot as (Hm2 & Hi2 & _). pose proof Hwf2 as (_ & Hds2 & _).
    destruct (Hds2 d ltac:(apply not_elem_of_nil) Hm2 Hi2)
      as (_ & (H1 & C1 & E1 & E2 & E3) & _).
    fold (get_desc w2 d) in *. rewrite Hd2 in E1. cbn in E1.
    destruct Hhp as (H' & EH' & Esc). rewrite Eh2 in E1. rewrite EH' in E1.
    injection E1 as <-. rewrite Esc, Es2, Es in E2. injection E2 as <-.
    symmetry. exact E3. }
  pose proof (alloc_anchor_held w d
                (EvAnchor d (Desc.anchor (get_desc w d)) new) Hwf Hm Hi Hs)
    as Hheld.
  cbv zeta in Hheld. rewrite <- Eaddr, <- Enew, <- Ew2 in Hheld.
  destruct Hheld as [Hkeep Hnew].
  assert (Em2 : mem w2 = mem w) by (rewrite Ew2; reflexivity).
  apply returns_bind.
  destruct (Z.eqb_spec (state new) STATE_PARTIAL) as [Hp|Hp].
  - (* still PARTIAL: back into the active slot *)
    apply returns_bind.
    eapply returns_cas_active; [rewrite Eh2; exact Eh|].
    rewrite Ha. cbn [Z.eqb negb]. apply returns_ret, returns_ret.
    apply HQ; [| |exact Eaddr|exact Hpos];
      [|split; [|intros _; exact Hnew];
        apply keeps_of_mem; [|exact Em2];
        intros d0 p Hal; apply Hkeep in Hal;
        eapply allocated_slot_frame; [| | |exact Hal]; reflexivity].
    assert (Hwf3 : wf (upd_heaps (λ m, <[h := Heap.mk (Heap.sc H) d]> m) w2)).
    { apply wfx_set_active; auto.
      - rewrite Eh2. exact Eh.
      - rewrite Ew2. exact Hm.
      - apply Hslot.
      - rewrite Hd2, Eh2. exact Hhp.
      - rewrite Hd2. cbn. rewrite Hp. discriminate.
      - rewrite Ew2. exact Hun. }
    split; [exact Hwf3|]. split; [rewrite Ew2; reflexivity|].
    split; [rewrite Ew2; auto|]. split.
    + exists (Heap.mk (Heap.sc H) d), C. cbn. rewrite lookup_insert_eq.
      rewrite Es2. split; [reflexivity|]. split; [reflexivity|].
      split; [exact Es|]. split; [reflexivity|]. contradiction.
    + intros _. exists d. split; [|exact Hslotsz].
      eapply allocated_slot_frame; [| | |exact Hslot]; reflexivity.
  - (* FULL: nobody holds it *)
    apply returns_ret, returns_ret.
    apply HQ; [|split; [exact (keeps_of_mem _ _ Hkeep Em2)|intros _; exact Hnew]
               |exact Eaddr|exact Hpos].
    split; [exact Hwf2|]. split; [rewrite Ew2; reflexivity|].
    split; [rewrite Ew2; auto|]. split.
    + exists H, C. rewrite Eh2, Es2. auto 10.
    + intros _. exists d. auto.
Qed.

Lemma alloc_post_trans h H H1 C C1 w w1 addr w' :
  os_script w1 = os_script w → (∀ r, r ∈ os_live w1 → r ∈ os_live w) →
  Heap.sc H1 = Heap.sc H → SizeClass.slot_size C1 = SizeClass.slot_size C →
  alloc_post h H1 C1 w1 addr w' → alloc_post h H C w addr w'.
Proof.
  intros E1 E2 E3 E4 (Hwf & Hs & Hl & (H' & C' & F1 & F2 & F3 & F4 & F5) & Hd).
  split; [exact Hwf|]. split; [congruence|]. split; [auto|]. split.
  - exists H', C'. rewrite <- E3, <- E4. split; [exact F1|].
    split; [congruence|]. auto.
  - rewrite <- E4. exact Hd.
Qed.

Lemma alloc_fresh_trans w w1 addr w' :
  keeps w w1 → alloc_fresh w1 addr w' → alloc_fresh w addr w'.
Proof.
  intros Hk [Hk1 Hn]. split; [exact (keeps_trans _ _ _ Hk Hk1)|].
  intros Ha d Hal. exact (Hn Ha d (proj1 Hk d addr Hal)).
Qed.

Lemma alloc_from_partial_fresh fuel h H C w :
  wf w → heaps w !! h = Some H → Heap.active H = 0 →
  size_classes w !! Heap.sc H = Some C →
  (length (SizeClass.partial C) < fuel)%nat →
  returns (alloc_from_active_or_partial fuel h) w
    (λ addr w', alloc_post h H C w addr w' ∧ alloc_fresh w addr w').
Proof.
  intros Hwf Eh Ha Es Hlen. destruct fuel as [|n]; [lia|].
  cbn [alloc_from_active_or_partial].
  apply returns_bind. eapply returns_read_heap; [exact Eh|].
  rewrite Ha. cbn [Z.eqb negb].
  apply returns_bind, returns_bind. unfold heap_get_partial.
  apply returns_bind. eapply returns_read_heap; [exact Eh|].
  eapply returns_mono; [apply (list_get_partial_spec (S n) _ w C); auto|].
  intros r w1 (retired & rest & E1 & E2 & E3 & E4 & Hwf1 & Hrel & Hst & Etr & Hr).
  apply returns_ret. cbv beta iota.
  pose proof Hrel as (A1 & A2 & A3 & A4 & A5 & A6 & A7 & A9 & A10 & A11 & A12).
  pose proof (keeps_of_mem _ _ (retired_keeps_held retired w w1 Hwf Hrel Hst) A2)
    as Hkeep.
  destruct (Z.eqb_spec r 0) as [->|Hr0].
  - apply returns_ret. split; [|split; [exact Hkeep|contradiction]].
    split; [exact Hwf1|]. split; [exact A3|].
    split; [exact A11|]. split; [|contradiction].
    exists H, (SizeClass.mk [] (SizeClass.slot_size C)).
    rewrite A1. auto 10.
  - destruct E2 as (q & -> & Es1).
    destruct (Hr Hr0) as (Hm & Hi & Hs & Hun).
    apply (alloc_owned_spec (S n) h H (SizeClass.mk q (SizeClass.slot_size C)));
      auto; try lia; try congruence.
    + pose proof Hwf as (_ & _ & _ & Hqs & _).
      destruct (Hqs _ _ Es) as (_ & _ & Hall).
      destruct (Hall r) as (_ & _ & _ & _ & (H' & EH' & Esc) & _).
      { rewrite E1. apply elem_of_app. right. left. }
      exists H'. unfold get_desc. rewrite (erase_heap _ _ (A7 r)), A1. auto.
    + intros addr w' Hpost Hfresh _ _.
      split; [|exact (alloc_fresh_trans _ _ _ _ Hkeep Hfresh)].
      eapply alloc_post_trans; [exact A3|exact A11|reflexivity| |exact Hpost].
      reflexivity.
Qed.

Lemma alloc_from_partial_spec fuel h H C w :
  wf w → heaps w !! h = Some H → Heap.active H = 0 →
  size_classes w !! Heap.sc H = Some C →
  (length (SizeClass.partial C) < fuel)%nat →
  returns (alloc_from_active_or_partial fuel h) w (alloc_post h H C w).
Proof.
  intros Hwf Eh Ha Es Hlen.
  eapply returns_mono; [exact (alloc_from_partial_fresh fuel h H C w Hwf Eh Ha Es Hlen)|].
  intros addr w' [Hpost _]. exact Hpost.
Qed.

Lemma alloc_from_active_or_partial_fresh fuel h H C w :
  wf w → heaps w !! h = Some H →
  size_classes w !! Heap.sc H = Some C →
  (length (SizeClass.partial C) + 1 < fuel)%nat →
  returns (alloc_from_active_or_partial fuel h) w
    (λ addr w',
       alloc_post h H C w addr w' ∧ alloc_fresh w addr w'
       ∧ (Heap.active H ≠ 0 →
          state (Desc.anchor (get_desc w (Heap.active H))) = STATE_PARTIAL →
          addr = slot_of w (Heap.active H)
                   (avail (Desc.anchor (get_desc w (Heap.active H)))))).
Proof.
  intros Hwf Eh Es Hlen.
  destruct (Z.eqb_spec (Heap.active H) 0) as [Ha|Ha].
  { eapply returns_mono;
      [exact (alloc_from_partial_fresh fuel h H C w Hwf Eh Ha Es ltac:(lia))|].
    intros addr w' [Hp Hf]. split; [exact Hp|]. split; [exact Hf|].
    intros N. contradiction. }
  destruct fuel as [|n]; [lia|].
  cbn [alloc_from_active_or_partial].
  apply returns_bind. eapply returns_read_heap; [exact Eh|].
  destruct (Z.eqb_spec (Heap.active H) 0) as [|_]; [contradiction|].
  cbn [negb]. set (d := Heap.active H) in *.
  apply returns_bind, returns_bind.
  eapply returns_cas_active; [exact Eh|]. fold d. rewrite Z.eqb_refl.
  apply returns_ret. cbv beta iota.
  destruct (Z.eqb_spec d 0) as [|_]; [contradiction|].
  set (H1 := Heap.mk (Heap.sc H) 0).
  set (w1 := upd_heaps (λ m, <[h := H1]> m) w).
  assert (Hwf1 : wf w1) by (apply wfx_clear_active; auto).
  assert (Hkeep1 : keeps w w1).
  { apply keeps_of_mem; [|reflexivity].
    intros d0 p Hal. eapply allocated_slot_frame; [| | |exact Hal]; reflexivity. }
  assert (Hun1 : unowned (heaps w1) (size_classes w1) (delayed w1) d)
    by exact (active_unowned [] w h H Hwf Eh Ha).
  assert (Eh1 : heaps w1 !! h = Some H1) by (cbn; apply lookup_insert_eq).
  pose proof Hwf as (Hreg & Hds & Hhs & _).
  destruct (Hhs h H Eh) as [_ Hact].
  destruct (Hact Ha) as (Hm & Hi & Hnf & (H' & EH' & Esc) & _). fold d in Hm, Hi, Hnf, EH'.
  destruct (Hds d ltac:(apply not_elem_of_nil) Hm Hi)
    as ((hdr & Esb & Hal & Hlive & Hback) & _ & _ & _ & Hanc & _).
  assert (EH1 : ∃ H2, heaps w1 !! Desc.heap (get_desc w1 d) = Some H2 ∧
                      Heap.sc H2 = Heap.sc H1).
  { change (get_desc w1 d) with (getd (descs w) d). cbn.
    destruct (hs_le_insert (heaps w) h H 0 Eh _ _ EH') as (H2 & E2 & Esc2).
    exists H2. split; [exact E2|]. congruence. }
  destruct Hanc as [[Hse _]|[[Hsf _]|[Hsp _]]]; [|contradiction|].
  - (* the active descriptor is EMPTY: retired, then the partial queue *)
    cbn [alloc_anchor_loop].
    apply returns_bind, returns_bind. unfold atomic64_read.
    apply returns_bind, returns_read_desc; [apply dmapped_mapped; exact Hm|].
    apply returns_ret.
    apply returns_bind. unfold alloc_anchor_try.
    change (get_desc w1 d) with (getd (descs w) d). rewrite Hse.
    change (STATE_EMPTY =? STATE_EMPTY) with true. cbv iota.
    apply returns_bind.
    eapply returns_mono.
    { apply (desc_retire_spec (S n) d [] [] w1 hdr); auto.
      - lia.
      - intros d' _ Hne Hm' Hi' E'.
        apply Hne. eapply (sb_owner [] w1); eauto using not_elem_of_nil. }
    intros [] w2 (Hwf2 & Hrel2 & Escs2 & Etr2). cbv beta.
    pose proof Hrel2 as (A1 & A2 & A3 & A4 & A5 & A6 & A7 & A9 & A10 & A11 & A12).
    apply returns_ret, returns_ret. cbv iota.
    assert (Hkeep2 : keeps w1 w2).
    { apply keeps_of_mem; [|exact A2].
      apply (retired_keeps_held [d] w1 w2 Hwf1 Hrel2).
      intros d0 Hd0. apply list_elem_of_singleton in Hd0 as ->. exact Hse. }
    eapply returns_mono.
    { apply (alloc_from_partial_fresh n h H1 C w2); auto.
      - rewrite A1. exact Eh1.
      - rewrite Escs2. exact Es.
      - lia. }
    intros addr w' [Hpost Hfresh].
    split; [|split].
    + eapply alloc_post_trans; [| | | |exact Hpost]; auto.
    + apply (alloc_fresh_trans _ w2); [|exact Hfresh].
      exact (keeps_trans _ _ _ Hkeep1 Hkeep2).
    + intros _ Hp. unfold get_desc in Hp. fold d in Hp.
      rewrite Hse in Hp. discriminate Hp.
  - (* the active descriptor is PARTIAL *)
    apply (alloc_owned_spec (S n) h H1 C); auto; try lia.
Qed.

Lemma alloc_from_active_or_partial_spec fuel h H C w :
  wf w → heaps w !! h = Some H →
  size_classes w !! Heap.sc H = Some C →
  (length (SizeClass.partial C) + 1 < fuel)%nat →
  returns (alloc_from_active_or_partial fuel h) w (alloc_post h H C w).
Proof.
  intros Hwf Eh Es Hlen.
  eapply returns_mono;
    [exact (alloc_from_active_or_partial_fresh fuel h H C w Hwf Eh Es Hlen)|].
  intros addr w' (Hpost & _). exact Hpost.
Qed.

(** The slot at an address that a caller holds lies in a mapped
    superblock, at the offset of its index. *)
Lemma allocated_slot_region w d addr :
  wf w → allocated_slot w d addr →
  ∃ i hdr,
    hdr mod SB_SIZE = 0 ∧ (hdr, SB_SIZE) ∈ os_live w ∧
    0 ≤ i < Desc.max_count (get_desc w d) ∧
    addr = hdr + SB_HEADER_SIZE + i * Desc.slot_size (get_desc w d) ∧
    addr + Desc.slot_size (get_desc w d) ≤ hdr + SB_SIZE ∧
    mapped w addr (Desc.slot_size (get_desc w d)) = true ∧
    i ∉ free_slots w d.
Proof.
  intros (_ & Hds & _) (Hm & Hu & i & Hi & Ea & Hfree).
  destruct (Hds d ltac:(apply not_elem_of_nil) Hm Hu)
    as ((hdr & Esb & Hal & Hlive & _) & _ & Hsz & Hmax & _).
  fold (get_desc w d) in *.
  pose proof (slot_in_sb _ _ Hsz ltac:(rewrite <- Hmax; exact Hi)) as Hslot.
  assert (Hss : 16 ≤ Desc.slot_size (get_desc w d) ≤ 8184) by exact Hsz.
  unfold slot_of in Ea. rewrite Esb in Ea.
  exists i, hdr. split; [exact Hal|]. split; [exact Hlive|].
  split; [exact Hi|]. split; [exact Ea|].
  split; [unfold SB_USABLE_SIZE, SB_SIZE, SB_HEADER_SIZE in *; lia|].
  split; [|exact Hfree].
  rewrite Ea, <- Z.add_assoc. apply sb_mapped; [exact Hlive| |];
    unfold SB_USABLE_SIZE, SB_SIZE, SB_HEADER_SIZE in *; lia.
Qed.

(** ** The clauses under changes that leave mapped descriptors alone *)

Lemma heaps_ok_ext ds ds' live live' hs scs :
  heaps_ok ds live hs scs →
  (∀ d, dmapped live d → getd ds' d = getd ds d) →
  (∀ d, dmapped live d → dmapped live' d) →
  heaps_ok ds' live' hs scs.
Proof.
  intros Hok Hd Hl h H Eh. destruct (Hok h H Eh) as [Hsc Hact].
  split; [exact Hsc|]. intros Hne.
  destruct (Hact Hne) as (Hm & Hi & Hs & Hh & Hinj).
  rewrite (Hd _ Hm). auto 10.
Qed.

Lemma queues_ok_ext ds ds' live live' hs scs :
  queues_ok ds live hs scs →
  (∀ d, dmapped live d → getd ds' d = getd ds d) →
  (∀ d, dmapped live d → dmapped live' d) →
  queues_ok ds' live' hs scs.
Proof.
  intros Hok Hd Hl s C Es. destruct (Hok s C Es) as (Hv & Hnd & Hall).
  split; [exact Hv|]. split; [exact Hnd|].
  intros d Hq. destruct (Hall d Hq) as (H0 & Hm & Hi & Hs & Hh & Ha).
  rewrite (Hd _ Hm). auto 10.
Qed.

Lemma stack_chain_ext ds ds' p l :
  (∀ d, d ∈ l → getd ds' d = getd ds d) →
  stack_chain ds p l → stack_chain ds' p l.
Proof.
  revert p. induction l as [|x l IH]; intros p Hd H; simpl in *; [exact H|].
  destruct H as (-> & Hx & H). split; [reflexivity|]. split; [exact Hx|].
  rewrite (Hd x) by left. apply IH; [|exact H].
  intros d Hl. apply Hd. right. exact Hl.
Qed.

Lemma stack_ok_ext ds ds' live live' head dl :
  stack_ok ds live head dl →
  (∀ d, dmapped live d → getd ds' d = getd ds d) →
  (∀ d, dmapped live d → dmapped live' d) →
  stack_ok ds' live' head dl.
Proof.
  intros (l & Hch & Hnd & Hall) Hd Hl. exists l.
  split. { eapply stack_chain_ext; [|exact Hch]. intros d Hx. apply Hd, (Hall d Hx). }
  split; [exact Hnd|].
  intros d Hx. destruct (Hall d Hx) as (Hm & Hi & Hn).
  rewrite (Hd _ Hm). auto.
Qed.

Lemma delayed_ok_ext ds ds' live live' hs scs dl :
  delayed_ok ds live hs scs dl →
  (∀ d, dmapped live d → getd ds' d = getd ds d) →
  (∀ d, dmapped live d → dmapped live' d) →
  delayed_ok ds' live' hs scs dl.
Proof.
  intros (Hnd & Hall) Hd Hl. split; [exact Hnd|].
  intros d f Hf. destruct (Hall d f Hf) as (Hm & Hf').
  rewrite (Hd _ Hm). auto.
Qed.

(** ** The OS allocator *)

Lemma os_fits_spec live a size align :
  os_fits live a size align = true ↔
  0 < a ∧ a + size ≤ 2 ^ 64 ∧ a mod align = 0 ∧
  ∀ r, r ∈ live → a + size ≤ r.1 ∨ r.1 + r.2 ≤ a.
Proof.
  unfold os_fits. rewrite !andb_true_iff, forallb_forall.
  rewrite Z.ltb_lt, Z.leb_le, Z.eqb_eq.
  split.
  - intros (((H1 & H2) & H3) & H4). repeat split; auto.
    intros r Hr. apply list_elem_of_In in Hr. specialize (H4 r Hr).
    apply orb_true_iff in H4. lia.
  - intros (H1 & H2 & H3 & H4). repeat split; auto.
    intros r Hr. apply list_elem_of_In in Hr. specialize (H4 r Hr).
    apply orb_true_iff. lia.
Qed.

Lemma os_alloc_returns size align a rest w (Q : Z → World → Prop) :
  os_script w = a :: rest → os_fits (os_live w) a size align = true →
  Q a (log (EvOsAlloc size a)
         (zero_fill a size (upd_os ((a, size) :: os_live w) rest w))) →
  returns (mono_sgen_alloc_os_memory_aligned size align true) w Q.
Proof.
  intros Es Hf HQ. unfold returns, mono_sgen_alloc_os_memory_aligned.
  rewrite Es, Hf. eexists _, _. split; [reflexivity|exact HQ].
Qed.

(** Mapped descriptors and superblocks lie outside a fresh region. *)
Lemma dmapped_outside live a size align d :
  os_fits live a size align = true → dmapped live d → outside a size d.
Proof.
  intros Hf (base & Hin & H1 & H2). apply os_fits_spec in Hf as (_ & _ & _ & Hf).
  specialize (Hf _ Hin). simpl in Hf. unfold outside.
  unfold Desc.size, NUM_DESC_BATCH in *. lia.
Qed.

Lemma dmapped_cons live r d : dmapped live d → dmapped (r :: live) d.
Proof.
  intros (base & Hin & H1 & H2). exists base. split; [right; exact Hin|auto].
Qed.

Lemma wfx_os_alloc X w a size align rest :
  wfx X w → os_fits (os_live w) a size align = true → 0 < size →
  wfx X (zero_fill a size (upd_os ((a, size) :: os_live w) rest w)).
Proof.
  intros (Hreg & Hds & Hhs & Hqs & Hst & Hdl) Hf Hsz.
  pose proof Hf as Hf'. apply os_fits_spec in Hf' as (Ha & Ha64 & _ & Hdisj).
  assert (Hgd : ∀ d, dmapped (os_live w) d →
            getd (filter (λ kv : Z * Desc.t, outside a size kv.1) (descs w)) d
            = getd (descs w) d).
  { intros d Hm. unfold getd. f_equal.
    apply (zero_fill_descs_outside a size w d).
    eapply dmapped_outside; eauto. }
  unfold wfx. cbn.
  split.
  { split; [exact Ha|]. split; [exact Hsz|]. split; [exact Ha64|].
    split; [|exact Hreg]. apply Forall_forall. intros r Hr.
    unfold disjoint_regions. simpl. apply Hdisj. exact Hr. }
  split.
  { intros d HX Hm Hi.
    destruct Hm as (base & Hin & H1 & H2).
    apply elem_of_cons in Hin as [E|Hin].
    - (* a descriptor of the fresh region is zero-filled *)
      injection E as E1 E2. subst base size. exfalso.
      assert (E0 : filter (λ kv : Z * Desc.t, outside a (Desc.size * NUM_DESC_BATCH) kv.1)
                     (descs w) !! d = None).
      { apply (zero_fill_descs_inside a _ w d).
        unfold Desc.size, NUM_DESC_BATCH in *. lia. }
      unfold getd in Hi. rewrite E0 in Hi. discriminate Hi.
    - assert (Hm : dmapped (os_live w) d) by (exists base; auto).
      rewrite (Hgd d Hm) in Hi.
      eapply desc_ok_ext;
        [apply (Hds d HX Hm Hi)| | | |apply hs_le_refl|apply scs_le_refl].
      + apply Hgd. exact Hm.
      + intros k Hk.
        destruct (Hds d HX Hm Hi) as ((hdr & Esb & _ & Hlive & _) & _).
        apply (zero_fill_mem_outside a size w k).
        specialize (Hdisj _ Hlive). simpl in Hdisj. unfold outside.
        rewrite Esb in Hk. lia.
      + intros Hl. right. exact Hl. }
  split; [eapply heaps_ok_ext; eauto using dmapped_cons|].
  split; [eapply queues_ok_ext; eauto using dmapped_cons|].
  split; [eapply stack_ok_ext; eauto using dmapped_cons|].
  eapply delayed_ok_ext; eauto using dmapped_cons.
Qed.

(** ** A fresh batch of descriptors *)

Lemma upd_descs_id w : upd_descs (λ m, m) w = w.
Proof. destruct w. reflexivity. Qed.

Lemma organize_descs_returns desc : ∀ n i w,
  0 ≤ i → i + Z.of_nat n = NUM_DESC_BATCH →
  (desc, Desc.size * NUM_DESC_BATCH) ∈ os_live w →
  returns (organize_descs n i desc (desc + i * Desc.size)) w
    (λ _ w', w' = upd_descs (link_descs n i desc) w).
Proof.
  induction n as [|n IH]; intros i w Hi Hn Hin.
  - apply returns_ret. symmetry. apply upd_descs_id.
  - cbn [organize_descs].
    destruct (Z.ltb_spec i NUM_DESC_BATCH) as [Hlt|Hge]; [|lia].
    assert (Hm : mapped w (desc + i * Desc.size) Desc.size = true).
    { apply mapped_In. exists (desc, Desc.size * NUM_DESC_BATCH).
      split; [exact Hin|]. simpl. unfold Desc.size, NUM_DESC_BATCH in *. lia. }
    apply returns_bind, returns_write_desc; [exact Hm|].
    apply returns_bind, returns_ret.
    destruct n as [|n'].
    + apply returns_ret. cbn [link_descs]. reflexivity.
    + destruct (Z.eqb_spec i (NUM_DESC_BATCH - 1)) as [|_]; [lia|].
      eapply returns_mono; [apply IH; [lia|lia|exact Hin]|].
      intros _ w' ->. cbn [link_descs].
      destruct (Z.eqb_spec i (NUM_DESC_BATCH - 1)) as [|_]; [lia|].
      reflexivity.
Qed.

Lemma getd_link_descs_out desc : ∀ n i ds d,
  d ∉ batch_addrs n i desc → getd (link_descs n i desc ds) d = getd ds d.
Proof.
  induction n as [|n IH]; intros i ds d Hd; [reflexivity|].
  cbn [link_descs batch_addrs] in *. apply not_elem_of_cons in Hd as [Hne Hd].
  rewrite IH by exact Hd. apply getd_insert_ne. auto.
Qed.

Lemma batch_addrs_spec desc : ∀ n i d,
  d ∈ batch_addrs n i desc ↔ ∃ j, i ≤ j < i + Z.of_nat n ∧ d = desc + j * Desc.size.
Proof.
  induction n as [|n IH]; intros i d; cbn [batch_addrs].
  - split; [intros H; inversion H|intros (j & ? & _); lia].
  - rewrite elem_of_cons, IH. split.
    + intros [->|(j & Hj & ->)]; [exists i|exists j]; split; auto; lia.
    + intros (j & Hj & ->). destruct (decide (j = i)) as [->|n0]; [left; auto|].
      right. exists j. split; [lia|reflexivity].
Qed.

Lemma batch_addrs_NoDup desc : ∀ n i, NoDup (batch_addrs n i desc).
Proof.
  induction n as [|n IH]; intros i; cbn [batch_addrs]; constructor; auto.
  rewrite batch_addrs_spec. intros (j & Hj & E).
  unfold Desc.size in E. lia.
Qed.

Lemma getd_link_descs_in desc : ∀ n i ds j,
  i ≤ j < i + Z.of_nat n →
  getd (link_descs n i desc ds) (desc + j * Desc.size)
  = Desc.with_next (getd ds (desc + j * Desc.size))
      (if j =? NUM_DESC_BATCH - 1 then 0 else desc + (j + 1) * Desc.size).
Proof.
  induction n as [|n IH]; intros i ds j Hj; [lia|].
  cbn [link_descs]. destruct (decide (j = i)) as [->|n0].
  - rewrite getd_link_descs_out, getd_insert_eq; [reflexivity|].
    rewrite batch_addrs_spec. intros (j & Hj' & E). unfold Desc.size in E. lia.
  - rewrite IH by lia. rewrite getd_insert_ne; [reflexivity|].
    unfold Desc.size. lia.
Qed.

Lemma stack_chain_batch desc ds : ∀ n i,
  1 ≤ i → i + Z.of_nat n = NUM_DESC_BATCH → 0 < desc →
  (∀ j, i ≤ j < NUM_DESC_BATCH →
        Desc.next (getd ds (desc + j * Desc.size))
        = if j =? NUM_DESC_BATCH - 1 then 0 else desc + (j + 1) * Desc.size) →
  stack_chain ds (if i =? NUM_DESC_BATCH then 0 else desc + i * Desc.size)
    (batch_addrs n i desc).
Proof.
  induction n as [|n IH]; intros i Hi Hn Hd Hnext; cbn [batch_addrs stack_chain].
  - destruct (Z.eqb_spec i NUM_DESC_BATCH); [reflexivity|lia].
  - destruct (Z.eqb_spec i NUM_DESC_BATCH) as [|_]; [lia|].
    split; [reflexivity|]. split; [unfold Desc.size; lia|].
    rewrite Hnext by lia.
    specialize (IH (i + 1) ltac:(lia) ltac:(lia) Hd).
    destruct (Z.eqb_spec i (NUM_DESC_BATCH - 1)) as [E|E].
    + destruct (Z.eqb_spec (i + 1) NUM_DESC_BATCH) as [_|]; [|lia].
      apply IH. intros j Hj. lia.
    + destruct (Z.eqb_spec (i + 1) NUM_DESC_BATCH) as [|_]; [lia|].
      apply IH. intros j Hj. apply Hnext. lia.
Qed.

(** ** [desc_alloc] *)

Lemma not_in_use_unowned X w d :
  wfx X w → Desc.in_use (get_desc w d) = false → d ≠ 0 →
  unowned (heaps w) (size_classes w) (delayed w) d.
Proof.
  intros (Hreg & Hds & Hhs & Hqs & Hst & Hdl) Hi Hd. unfold get_desc in Hi.
  split; [|split].
  - intros h H Eh Ea. destruct (Hhs h H Eh) as [_ Hact].
    destruct (Hact ltac:(congruence)) as (_ & Hi' & _). rewrite Ea in Hi'.
    congruence.
  - intros s C Es Hq. destruct (Hqs s C Es) as (_ & _ & Hall).
    destruct (Hall d Hq) as (_ & _ & Hi' & _). congruence.
  - intros Hx. destruct Hdl as (_ & Hdl).
    destruct (Hdl _ _ Hx) as (_ & Hi' & _). congruence.
Qed.

Lemma desc_alloc_pop_spec fuel X w :
  (1 ≤ fuel)%nat → wfx X w → desc_avail w ≠ 0 →
  returns (desc_alloc fuel) w (desc_alloc_post X w).
Proof.
  intros Hf Hwf Hne. pose proof Hwf as (Hreg & Hds & Hhs & Hqs & Hst & Hdl).
  destruct Hst as (l & Hch & Hnd & Hall).
  destruct l as [|d l]; [simpl in Hch; contradiction|].
  cbn [stack_chain] in Hch. destruct Hch as (Ed & Hd0 & Hch).
  apply NoDup_cons in Hnd as [Hnl Hnd].
  destruct (Hall d ltac:(left)) as (Hm & Hi & Hnq).
  set (D := getd (descs w) d) in *.
  destruct fuel as [|n]; [lia|].
  unfold desc_alloc. cbn [desc_alloc_loop].
  apply returns_bind, returns_bind.
  unfold mono_thread_hazardous_load, read_ptr.
  apply returns_bind, returns_bind, returns_get_world, returns_ret.
  apply returns_bind, returns_modify, returns_ret.
  apply returns_bind. unfold desc_alloc_try.
  rewrite Ed. destruct (Z.eqb_spec d 0) as [|_]; [contradiction|]. cbn [negb].
  apply returns_bind, returns_bind, returns_read_desc.
  { apply (dmapped_mapped (upd_hazard d w)). exact Hm. }
  apply returns_bind, returns_cas_desc_avail. cbn [desc_avail upd_hazard].
  rewrite Ed, Z.eqb_refl. apply returns_ret.
  apply returns_bind. unfold mono_hazard_pointer_clear.
  apply returns_modify, returns_ret. cbn [fst snd]. apply returns_ret.
  apply returns_bind, returns_read_desc.
  { apply (dmapped_mapped w). exact Hm. }
  change (get_desc _ d) with D.
  apply returns_bind, returns_ASSERT; [rewrite Hi; reflexivity|].
  apply returns_bind, returns_write_desc.
  { apply (dmapped_mapped w). exact Hm. }
  apply returns_ret.
  change (get_desc _ d) with D.
  assert (Hun : unowned (heaps w) (size_classes w) (delayed w) d)
    by (eapply not_in_use_unowned; eauto).
  unfold desc_alloc_post, get_desc. wsimpl. rewrite getd_insert_eq.
  split.
  { unfold wfx. wsimpl. destruct Hun as (Hu1 & Hu2 & Hu3).
    split; [exact Hreg|].
    split.
    { eapply descs_ok_put; [exact Hds| |].
      - intros Hx. exfalso. apply Hx. left.
      - intros d' Hx Hne' Hx'. apply Hx. right. exact Hx'. }
    split.
    { eapply heaps_ok_put; [exact Hhs|]. intros h H Eh Ea. destruct (Hu1 h H Eh Ea). }
    split.
    { eapply queues_ok_put; [exact Hqs|]. intros s C Es Hq. destruct (Hu2 s C Es Hq). }
    split.
    { exists l. split; [apply stack_chain_put; auto|]. split; [exact Hnd|].
      intros d' Hd'. rewrite getd_insert_ne by (intros ->; contradiction).
      apply Hall. right. exact Hd'. }
    eapply delayed_ok_put; [exact Hdl|].
    intros [] Hx; contradiction. }
  split; [exact Hm|]. split; [reflexivity|]. split; [exact Hun|].
  split; [reflexivity|]. split; [reflexivity|]. split; [reflexivity|].
  split; [auto|].
  split. { intros d' Hne' _. apply getd_insert_ne. auto. }
  split; [auto|]. split; [auto|].
  rewrite Ed. destruct (Z.eqb_spec d 0) as [|_]; [contradiction|]. auto.
Qed.

Lemma desc_alloc_batch_spec fuel X w a rest :
  (1 ≤ fuel)%nat → wfx X w → desc_avail w = 0 →
  os_script w = a :: rest →
  os_fits (os_live w) a (Desc.size * NUM_DESC_BATCH) 1 = true →
  returns (desc_alloc fuel) w (desc_alloc_post X w).
Proof.
  intros Hf Hwf Hd0 Escr Hfit.
  pose proof Hwf as (Hreg & Hds & Hhs & Hqs & Hst & Hdl).
  pose proof Hfit as Hfit'. apply os_fits_spec in Hfit' as (Ha & Ha64 & _ & Hdisj).
  set (sz := Desc.size * NUM_DESC_BATCH) in *.
  set (live2 := (a, sz) :: os_live w).
  set (ds2 := filter (λ kv : Z * Desc.t, outside a sz kv.1) (descs w)).
  set (ds3 := link_descs (Z.to_nat NUM_DESC_BATCH) 0 a ds2).
  assert (Hin2 : (a, sz) ∈ live2) by left.
  assert (Hfresh : ∀ j, 0 ≤ j < NUM_DESC_BATCH → getd ds2 (a + j * Desc.size) = Desc.zero).
  { intros j Hj. unfold getd, ds2.
    rewrite (zero_fill_descs_inside a sz w); [reflexivity|].
    unfold sz, Desc.size, NUM_DESC_BATCH in *. lia. }
  assert (Hold : ∀ d, dmapped (os_live w) d → getd ds3 d = getd (descs w) d ∧ d ≠ a).
  { intros d Hm. pose proof (dmapped_outside _ _ _ _ _ Hfit Hm) as Hout.
    split.
    - unfold ds3. rewrite getd_link_descs_out.
      + unfold getd, ds2. f_equal. apply (zero_fill_descs_outside a sz w d Hout).
      + rewrite batch_addrs_spec. intros (j & Hj & ->).
        unfold outside, sz, Desc.size, NUM_DESC_BATCH in *. lia.
    - intros ->. unfold outside, sz, Desc.size, NUM_DESC_BATCH in *. lia. }
  assert (Hnext : ∀ j, 0 ≤ j < NUM_DESC_BATCH →
            getd ds3 (a + j * Desc.size)
            = Desc.with_next Desc.zero
                (if j =? NUM_DESC_BATCH - 1 then 0 else a + (j + 1) * Desc.size)).
  { intros j Hj. unfold ds3. rewrite getd_link_descs_in, Hfresh;
      [reflexivity|exact Hj|].
    unfold NUM_DESC_BATCH in *. lia. }
  assert (Ea0 : getd ds3 a = Desc.with_next Desc.zero (a + Desc.size)).
  { specialize (Hnext 0 ltac:(vm_compute; split; congruence)).
    replace (a + 0 * Desc.size) with a in Hnext by lia. exact Hnext. }
  assert (Hma : ∀ w0, os_live w0 = live2 → mapped w0 a Desc.size = true).
  { intros w0 E. apply mapped_In. exists (a, sz). rewrite E.
    split; [exact Hin2|]. simpl. unfold sz, Desc.size, NUM_DESC_BATCH. lia. }
  destruct fuel as [|n]; [lia|].
  unfold desc_alloc. cbn [desc_alloc_loop].
  apply returns_bind, returns_bind.
  unfold mono_thread_hazardous_load, read_ptr.
  apply returns_bind, returns_bind, returns_get_world, returns_ret.
  apply returns_bind, returns_modify, returns_ret.
  apply returns_bind. unfold desc_alloc_try.
  rewrite Hd0. cbn [Z.eqb negb].
  apply returns_bind, returns_bind. unfold mono_sgen_alloc_os_memory.
  eapply os_alloc_returns; [exact Escr|exact Hfit|].
  apply returns_bind.
  eapply returns_mono.
  { replace a with (a + 0 * Desc.size) at 2 by lia.
    apply organize_descs_returns; [lia|reflexivity|]. left. }
  intros _ w3 ->.
  apply returns_bind, returns_ret.
  apply returns_bind, returns_read_desc; [apply Hma; reflexivity|].
  apply returns_bind, returns_cas_desc_avail.
  wsimpl. rewrite Hd0. cbn [Z.eqb negb].
  apply returns_bind, returns_ret, returns_ret.
  apply returns_bind. unfold mono_hazard_pointer_clear.
  apply returns_modify, returns_ret. cbn [fst snd]. apply returns_ret.
  apply returns_bind, returns_read_desc; [apply Hma; reflexivity|].
  unfold get_desc. wsimpl. fold sz ds2 ds3 live2. rewrite Ea0.
  apply returns_bind, returns_ASSERT; [reflexivity|].
  apply returns_bind, returns_write_desc; [apply Hma; reflexivity|].
  apply returns_ret.
  unfold desc_alloc_post, get_desc. wsimpl. fold sz ds2 ds3 live2.
  rewrite Ea0, getd_insert_eq. cbn [Desc.next Desc.with_next Desc.zero].
  set (Da := Desc.with_in_use (Desc.with_next Desc.zero (a + Desc.size)) true).
  assert (Hdm2 : ∀ d, dmapped (os_live w) d → dmapped live2 d)
    by (intros; apply dmapped_cons; assumption).
  assert (Hgd : ∀ d, dmapped (os_live w) d → getd (<[a := Da]> ds3) d = getd (descs w) d).
  { intros d Hm. destruct (Hold d Hm) as [E Hne].
    rewrite getd_insert_ne by auto. exact E. }
  assert (Hama : dmapped live2 a).
  { exists a. split; [exact Hin2|]. unfold Desc.size, NUM_DESC_BATCH. lia. }
  assert (Hun : unowned (heaps w) (size_classes w) (delayed w) a).
  { split; [|split].
    - intros h H Eh Eact. destruct (Hhs h H Eh) as [_ Hact].
      destruct (Hact ltac:(lia)) as (Hm & _). rewrite Eact in Hm.
      destruct (Hold a Hm) as [_ Hne]. congruence.
    - intros s C Es Hq. destruct (Hqs s C Es) as (_ & _ & Hall).
      destruct (Hall a Hq) as (_ & Hm & _).
      destruct (Hold a Hm) as [_ Hne]. congruence.
    - intros Hx. destruct Hdl as (_ & Hdl). destruct (Hdl _ _ Hx) as (Hm & _).
      destruct (Hold a Hm) as [_ Hne]. congruence. }
  split.
  { unfold wfx. wsimpl. fold sz ds2 ds3 live2.
    split.
    { split; [exact Ha|]. split; [unfold sz; vm_compute; reflexivity|].
      split; [exact Ha64|]. split; [|exact Hreg].
      apply Forall_forall. intros r Hr. apply Hdisj. exact Hr. }
    split.
    { intros d HX Hm Hi. apply not_elem_of_cons in HX as [Hne HX].
      rewrite getd_insert_ne in Hi by auto.
      destruct Hm as (base & Hin & H1 & H2).
      apply elem_of_cons in Hin as [E|Hin].
      - injection E as ->. exfalso.
        assert (Hb : d ∈ batch_addrs (Z.to_nat NUM_DESC_BATCH) 0 a
                     ∨ d ∉ batch_addrs (Z.to_nat NUM_DESC_BATCH) 0 a)
          by (destruct (decide (d ∈ batch_addrs (Z.to_nat NUM_DESC_BATCH) 0 a)); auto).
        destruct Hb as [Hb|Hb].
        + apply batch_addrs_spec in Hb as (j & Hj & ->).
          rewrite Hnext in Hi by (unfold NUM_DESC_BATCH in *; lia).
          discriminate Hi.
        + unfold ds3 in Hi. rewrite getd_link_descs_out in Hi by exact Hb.
          unfold getd, ds2 in Hi.
          rewrite (zero_fill_descs_inside a sz w) in Hi; [discriminate Hi|].
          unfold sz, Desc.size, NUM_DESC_BATCH in *. lia.
      - assert (Hm : dmapped (os_live w) d) by (exists base; auto).
        rewrite <- (getd_insert_ne ds3 a d Da) in Hi by auto.
        rewrite (Hgd d Hm) in Hi.
        eapply desc_ok_ext;
          [apply (Hds d HX Hm Hi)| | | |apply hs_le_refl|apply scs_le_refl].
        + apply Hgd. exact Hm.
        + intros k Hk.
          destruct (Hds d HX Hm Hi) as ((hdr & Esb & _ & Hlive & _) & _).
          apply (zero_fill_mem_outside a sz w k).
          specialize (Hdisj _ Hlive). simpl in Hdisj. unfold outside.
          rewrite Esb in Hk. lia.
        + intros Hl. right. exact Hl. }
    split; [eapply heaps_ok_ext; eauto|].
    split; [eapply queues_ok_ext; eauto|].
    split.
    { exists (batch_addrs 63 1 a).
      split.
      { apply (stack_chain_batch a (<[a := Da]> ds3) 63 1); try lia; [reflexivity|].
        intros j Hj. rewrite getd_insert_ne by (unfold Desc.size; lia).
        rewrite Hnext by (unfold NUM_DESC_BATCH in *; lia). reflexivity. }
      split; [apply batch_addrs_NoDup|].
      intros d Hd. apply batch_addrs_spec in Hd as (j & Hj & ->).
      change (1 + Z.of_nat 63) with 64 in Hj.
      rewrite getd_insert_ne by (unfold Desc.size; lia).
      rewrite Hnext by (unfold NUM_DESC_BATCH in *; lia).
      split.
      { exists a. split; [exact Hin2|]. unfold Desc.size, NUM_DESC_BATCH in *. lia. }
      split; [reflexivity|].
      intros Hx. destruct Hdl as (_ & Hdl). destruct (Hdl _ _ Hx) as (Hm & _).
      pose proof (dmapped_outside _ _ _ _ _ Hfit Hm) as Hout.
      unfold outside, sz, Desc.size, NUM_DESC_BATCH in *. lia. }
    eapply delayed_ok_ext; eauto. }
  split; [exact Hama|]. split; [reflexivity|]. split; [exact Hun|].
  split; [reflexivity|]. split; [reflexivity|]. split; [reflexivity|].
  split; [exact Hdm2|].
  split. { intros d' _ Hm. apply Hgd. exact Hm. }
  split.
  { intros k. destruct (decide (outside a sz k)) as [Ho|Hi].
    - right. apply (zero_fill_mem_outside a sz w k Ho).
    - left. intros r Hr. specialize (Hdisj _ Hr). unfold outside in Hi. lia. }
  split; [intros r Hr; right; exact Hr|].
  rewrite Hd0. cbn [Z.eqb]. exists rest. auto.
Qed.

Lemma desc_alloc_spec fuel X w :
  (1 ≤ fuel)%nat → wfx X w →
  (desc_avail w = 0 →
   ∃ a rest, os_script w = a :: rest ∧
             os_fits (os_live w) a (Desc.size * NUM_DESC_BATCH) 1 = true) →
  returns (desc_alloc fuel) w (desc_alloc_post X w).
Proof.
  intros Hf Hwf Hos. destruct (Z.eqb_spec (desc_avail w) 0) as [E|E].
  - destruct (Hos E) as (a & rest & Es & Hfit).
    eapply desc_alloc_batch_spec; eauto.
  - apply desc_alloc_pop_spec; auto.
Qed.

(** ** A fresh superblock *)

Lemma upd_mem_id w : upd_mem (λ m, m) w = w.
Proof. destruct w. reflexivity. Qed.

Lemma u32_small x : 0 ≤ x < 2 ^ 32 → u32 x = x.
Proof. intros. unfold u32. apply Z.mod_small. assumption. Qed.

Lemma organize_blocks_returns bound sb ss : ∀ n i w,
  (∀ j, i ≤ j < bound → mapped w (sb + u32 (j * ss)) 4 = true) →
  0 ≤ i → bound < 2 ^ 32 →
  returns (organize_blocks n i bound sb ss) w
    (λ _ w', w' = upd_mem (link_blocks n i bound sb ss) w).
Proof.
  induction n as [|n IH]; intros i w Hm Hi Hb.
  - apply returns_ret. symmetry. apply upd_mem_id.
  - cbn [organize_blocks link_blocks].
    destruct (Z.ltb_spec i bound) as [Hlt|Hge].
    + apply returns_bind, returns_store; [apply Hm; lia|].
      eapply returns_mono.
      { apply IH; [|unfold u32; apply Z.mod_pos_bound; lia|exact Hb].
        intros j Hj. rewrite u32_small in Hj by lia.
        apply (Hm j). lia. }
      intros _ w' ->. reflexivity.
    + apply returns_ret. symmetry. apply upd_mem_id.
Qed.

Lemma link_blocks_outside bound sb ss : ∀ n i m k,
  4 ≤ ss → 0 ≤ i → bound * ss < 2 ^ 32 → bound < 2 ^ 32 →
  k < sb + i * ss ∨ sb + bound * ss ≤ k →
  link_blocks n i bound sb ss m !! k = m !! k.
Proof.
  induction n as [|n IH]; intros i m k Hs Hi Hb Hb' Hk; [reflexivity|].
  cbn [link_blocks]. destruct (Z.ltb_spec i bound) as [Hlt|Hge]; [|reflexivity].
  rewrite (u32_small (i + 1)), (u32_small (i * ss)) by nia.
  rewrite IH by (try lia; nia).
  apply store_bytes_lookup_outside. change (Z.of_nat 4) with 4. nia.
Qed.

Lemma link_blocks_load bound sb ss : ∀ n i m j,
  4 ≤ ss → 0 ≤ i → bound * ss < 2 ^ 32 → bound < 2 ^ 32 →
  bound - i ≤ Z.of_nat n → i ≤ j < bound →
  load_bytes (link_blocks n i bound sb ss m) 4 (sb + j * ss) = j + 1.
Proof.
  induction n as [|n IH]; intros i m j Hs Hi Hb Hb' Hn Hj; [lia|].
  cbn [link_blocks]. destruct (Z.ltb_spec i bound) as [Hlt|Hge]; [|lia].
  rewrite (u32_small (i + 1)), (u32_small (i * ss)) by nia.
  destruct (decide (j = i)) as [->|Hne].
  - rewrite (load_bytes_ext _ (store_bytes m 4 (sb + i * ss) (i + 1))).
    + apply load_store_same. change (256 ^ Z.of_nat 4) with (2 ^ 32). lia.
    + intros k Hk. change (Z.of_nat 4) with 4 in Hk.
      apply link_blocks_outside; try lia; nia.
  - apply IH; try lia.
Qed.

(** The free chain of a fresh superblock runs through the slots 1, 2, ...
    and ends at the zero-filled last slot. *)
Lemma chain_fresh m sb ss mc : ∀ k i,
  i + Z.of_nat k = mc - 1 →
  (∀ j, i ≤ j < mc - 1 → load_bytes m 4 (sb + j * ss) = j + 1) →
  load_bytes m 4 (sb + (mc - 1) * ss) = 0 →
  chain m sb ss (S (S k)) i = seqZ i (Z.of_nat (S k)) ++ [0]
  ∧ chain m sb ss (S k) i = seqZ i (Z.of_nat (S k)).
Proof.
  induction k as [|k IH]; intros i Hi Hl Hz.
  - cbn [chain]. replace i with (mc - 1) by lia. rewrite Hz.
    change (Z.of_nat 1) with 1. rewrite seqZ_cons by lia. simpl.
    rewrite seqZ_nil by lia. auto.
  - destruct (IH (i + 1) ltac:(lia)) as [E1 E2]; [intros; apply Hl; lia|exact Hz|].
    split.
    + change (chain m sb ss (S (S (S k))) i)
        with (i :: chain m sb ss (S (S k)) (load_bytes m 4 (sb + i * ss))).
      rewrite Hl by lia. rewrite E1.
      rewrite (seqZ_cons i (Z.of_nat (S (S k)))) by lia.
      replace (Z.pred (Z.of_nat (S (S k)))) with (Z.of_nat (S k)) by lia.
      replace (Z.succ i) with (i + 1) by lia. reflexivity.
    + change (chain m sb ss (S (S k)) i)
        with (i :: chain m sb ss (S k) (load_bytes m 4 (sb + i * ss))).
      rewrite Hl by lia. rewrite E2.
      rewrite (seqZ_cons i (Z.of_nat (S (S k)))) by lia.
      replace (Z.pred (Z.of_nat (S (S k)))) with (Z.of_nat (S k)) by lia.
      replace (Z.succ i) with (i + 1) by lia. reflexivity.
Qed.

(** ** Writes to a descriptor that nobody holds yet *)

Lemma wfx_put_exempt X w d D :
  wfx X w → d ∈ X → Desc.in_use (get_desc w d) = true →
  Desc.in_use D = true →
  unowned (heaps w) (size_classes w) (delayed w) d →
  wfx X (put_desc d D w).
Proof.
  intros (Hr & Hd & Hh & Hq & Hs & Hdl) HX Hu Hu' (Ua & Uq & Ud).
  unfold wfx. wsimpl.
  split; [exact Hr|]. split.
  { eapply descs_ok_put; [exact Hd| |auto]. intros N. contradiction. }
  split.
  { apply heaps_ok_put; [exact Hh|]. intros h H Eh Ea _.
    exfalso. exact (Ua h H Eh Ea). }
  split.
  { apply queues_ok_put; [exact Hq|]. intros s C Es Ei.
    exfalso. exact (Uq s C Es Ei). }
  split.
  { apply stack_ok_put; [exact Hs|]. left. exact Hu. }
  apply delayed_ok_put; [exact Hdl|]. intros f Hf. exfalso.
  destruct f.
  - destruct Hdl as [_ Hdl]. destruct (Hdl _ _ Hf) as (_ & E & _).
    unfold get_desc in Hu. congruence.
  - exact (Ud Hf).
Qed.

(** Stores into a superblock whose header names an exempt descriptor, or
    none, disturb no other descriptor. *)
Lemma wfx_mem_fresh X w a m' :
  wfx X w → (a, SB_SIZE) ∈ os_live w →
  load_bytes (mem w) 8 a ∈ X ∨ load_bytes (mem w) 8 a = 0 →
  (∀ k, k < a ∨ a + SB_SIZE ≤ k → m' !! k = mem w !! k) →
  wfx X (upd_mem (λ _, m') w).
Proof.
  intros (Hr & Hd & Hh & Hq & Hs & Hdl) Ha Hl Hm.
  unfold wfx. wsimpl.
  split; [exact Hr|]. split; [|auto].
  eapply descs_ok_mem; [exact Hd|].
  intros d k Hx Hdm Hu Hk. apply Hm.
  destruct (Hd d Hx Hdm Hu) as ((hdr & Esb & Hal & Hin & Hback) & _).
  rewrite Esb in Hk.
  destruct (decide (hdr = a)) as [->|Hne].
  - exfalso. destruct Hl as [Hl|Hl].
    + rewrite Hback in Hl. contradiction.
    + rewrite Hback in Hl. pose proof (dmapped_pos _ _ Hr Hdm). lia.
  - assert (Hdis : disjoint_regions (hdr, SB_SIZE) (a, SB_SIZE)).
    { apply (regions_ok_disjoint (os_live w)); auto. congruence. }
    unfold disjoint_regions in Hdis. cbn in Hdis.
    unfold SB_HEADER_SIZE in *. lia.
Qed.

Lemma wfx_unexempt X w d :
  wfx (d :: X) w →
  (d ∉ X → dmapped (os_live w) d → Desc.in_use (get_desc w d) = true →
   desc_ok (descs w) (mem w) (os_live w) (heaps w) (size_classes w) d) →
  wfx X w.
Proof.
  intros (Hr & Hd & Hrest) Hok. split; [exact Hr|]. split; [|exact Hrest].
  intros d' Hx Hdm Hu. destruct (decide (d' = d)) as [->|Hne].
  - apply Hok; auto.
  - apply Hd; auto. intros Hin. apply elem_of_cons in Hin as [?|?]; auto.
Qed.

Lemma os_fits_smaller live a size size' align :
  os_fits live a size align = true → 0 ≤ size' ≤ size →
  os_fits live a size' 1 = true.
Proof.
  intros H Hs. apply os_fits_spec in H as (H1 & H2 & H3 & H4).
  apply os_fits_spec. split; [exact H1|]. split; [lia|].
  split; [apply Z.mod_1_r|].
  intros r Hr. destruct (H4 r Hr); lia.
Qed.

Lemma os_fits_sub live live' a size align :
  os_fits live a size align = true → (∀ r, r ∈ live' → r ∈ live) →
  os_fits live' a size align = true.
Proof.
  intros H Hs. apply os_fits_spec in H as (H1 & H2 & H3 & H4).
  apply os_fits_spec. auto 6.
Qed.
Lemma alloc_sb_returns desc a rest w (Q : Z → World → Prop) :
  os_script w = a :: rest → os_fits (os_live w) a SB_SIZE SB_SIZE = true →
  Q (a + SB_HEADER_SIZE)
    (upd_mem (λ m, store_bytes m 8 a desc)
       (log (EvOsAlloc SB_SIZE a)
          (zero_fill a SB_SIZE (upd_os ((a, SB_SIZE) :: os_live w) rest w)))) →
  returns (alloc_sb desc) w Q.
Proof.
  intros Es Hf HQ. unfold alloc_sb.
  assert (Hal : SB_HEADER_FOR_ADDR a = a).
  { apply os_fits_spec in Hf as (H1 & H2 & H3 & H4).
    rewrite SB_HEADER_FOR_ADDR_eq, H3. lia. }
  apply returns_bind. eapply os_alloc_returns; [exact Es|exact Hf|].
  rewrite Hal.
  apply returns_bind, returns_ASSERT; [apply Z.eqb_refl|].
  apply returns_bind, returns_store.
  { apply mapped_In. exists (a, SB_SIZE). wsimpl. cbn.
    split; [left|unfold SB_SIZE; lia]. }
  apply returns_ret. exact HQ.
Qed.
(** The slots held stay held when a descriptor that held none is set up
    and the bytes of the regions mapped before stay as they are. *)
Lemma keeps_held_new_desc w w' d :
  wf w →
  ¬ (dmapped (os_live w) d ∧ Desc.in_use (get_desc w d) = true) →
  (∀ d0, d0 ≠ d → dmapped (os_live w) d0 →
         getd (descs w') d0 = getd (descs w) d0 ∧ dmapped (os_live w') d0) →
  (∀ r k, r ∈ os_live w → r.1 ≤ k < r.1 + r.2 → mem w' !! k = mem w !! k) →
  keeps w w'.
Proof.
  intros Hwf Hnew Hg Hmem. split.
  2: { intros d0 p k Hal Hk.
       destruct (allocated_slot_region w d0 p Hwf Hal)
         as (i & hdr & Hal0 & Hl & Hi & E & Hle & _).
       assert (Eh : SB_HEADER_FOR_ADDR p = hdr).
       { rewrite E, <- Z.add_assoc. apply SB_HEADER_FOR_ADDR_in; [exact Hal0|].
         pose proof Hwf as (_ & Hds & _).
         destruct (Hds d0 ltac:(apply not_elem_of_nil)
                     ltac:(apply Hal) ltac:(apply Hal))
           as (_ & _ & Hsz & _).
         fold (get_desc w d0) in Hsz.
         unfold valid_slot_size, SB_HEADER_SIZE, SB_SIZE in *. nia. }
       rewrite Eh in Hk. apply (Hmem (hdr, SB_SIZE) k Hl). exact Hk. }
  intros d0 p Hal.
  assert (Hne : d0 ≠ d) by (intros ->; apply Hnew; split; apply Hal).
  pose proof Hal as (Hm & Hu & _).
  pose proof Hwf as (_ & Hds & _).
  destruct (Hds d0 ltac:(apply not_elem_of_nil) Hm Hu)
    as ((hdr & Esb & _ & Hlive & _) & _).
  fold (get_desc w d0) in Esb.
  destruct (Hg d0 Hne Hm) as [Eg Hm'].
  apply (allocated_slot_ext w w' d0 p Hwf Hal Eg Hm').
  intros k Hk. rewrite Esb in Hk.
  apply (Hmem (hdr, SB_SIZE) k Hlive). cbn. lia.
Qed.

Lemma alloc_from_new_sb_fresh fuel h H C w :
  (1 ≤ fuel)%nat → wf w → heaps w !! h = Some H →
  size_classes w !! Heap.sc H = Some C → new_sb_ready w →
  returns (alloc_from_new_sb fuel h) w
    (λ r w', new_sb_post h H C w r w' ∧ alloc_fresh w r w').
Proof.
  intros Hfuel Hwf Eh Ec Hos. unfold alloc_from_new_sb.
  assert (Hvs : valid_slot_size (SizeClass.slot_size C)).
  { destruct Hwf as (_ & _ & _ & Hq & _). exact (proj1 (Hq _ _ Ec)). }
  pose proof (max_count_range _ Hvs) as Hmc.
  apply returns_bind. eapply returns_mono.
  { apply (desc_alloc_spec fuel [] w Hfuel Hwf).
    intros E0. unfold new_sb_ready in Hos. rewrite E0 in Hos.
    destruct Hos as (a & b & rest & Es & Hf & _). eauto. }
  intros d w1 (Hwf1 & Hdm1 & Hu1 & Hun1 & Ehs1 & Escs1 & Eho1 & Hdmm & Hgd & Hmem1
               & Hlive1 & Hcase).
  assert (Hnew : ¬ (dmapped (os_live w) d ∧ Desc.in_use (get_desc w d) = true)).
  { intros [Hdm Hu]. revert Hcase.
    destruct (Z.eqb_spec (desc_avail w) 0) as [E0|E0]; intros Hcase.
    - destruct Hcase as (rest' & _ & _ & El).
      destruct Hwf1 as (Hr1 & _). rewrite El in Hr1.
      destruct Hr1 as (_ & _ & _ & Hdis & _).
      destruct Hdm as (base & Hin & Hlo & Hhi).
      rewrite Forall_forall in Hdis. specialize (Hdis _ Hin).
      unfold disjoint_regions in Hdis. cbn in Hdis.
      unfold Desc.size, NUM_DESC_BATCH in *. lia.
    - destruct Hcase as (_ & _ & Ed).
      destruct Hwf as (_ & _ & _ & _ & (l & Hch & _ & Hl) & _).
      destruct l as [|x l]; cbn in Hch; [congruence|].
      destruct Hch as (Ex & _ & _).
      destruct (Hl x ltac:(left)) as (_ & Hf & _).
      rewrite <- Ex, <- Ed in Hf. unfold get_desc in Hu. congruence. }
  assert (∃ b rest, os_script w1 = b :: rest ∧
                    os_fits (os_live w1) b SB_SIZE SB_SIZE = true)
    as (b & rest & Es1 & Hfb).
  { unfold new_sb_ready in Hos. destruct (desc_avail w =? 0).
    - destruct Hos as (a & b & rest & Es & Hf & Hf').
      destruct Hcase as (rest' & Es' & -> & ->).
      rewrite Es in Es'. injection Es' as <- <-. eauto.
    - destruct Hos as (b & rest & Es & Hf).
      destruct Hcase as (-> & -> & _). eauto. }
  apply returns_bind. eapply alloc_sb_returns; [exact Es1|exact Hfb|].
  set (wz := zero_fill b SB_SIZE (upd_os ((b, SB_SIZE) :: os_live w1) rest w1)).
  set (sb := b + SB_HEADER_SIZE).
  set (ss := SizeClass.slot_size C) in *.
  set (mc := SB_USABLE_SIZE / ss) in *.
  pose proof (os_fits_spec (os_live w1) b SB_SIZE SB_SIZE) as Hb.
  apply proj1 in Hb. specialize (Hb Hfb). destruct Hb as (Hb0 & Hb64 & Hbal & Hbdis).
  assert (Hrl1 : regions_ok (os_live w1)) by exact (proj1 Hwf1).
  assert (Hd0 : 0 < d) by exact (dmapped_pos _ _ Hrl1 Hdm1).
  assert (Hd64 : d < 2 ^ 64).
  { destruct Hdm1 as (base & Hin & Hlo & Hhi).
    pose proof (regions_ok_pos _ _ Hrl1 Hin) as (_ & _ & Hle). cbn in Hle.
    unfold Desc.size in *. lia. }
  assert (Hout : outside b SB_SIZE d) by exact (dmapped_outside _ _ _ _ _ Hfb Hdm1).
  assert (Hwfz : wfx [d] wz).
  { apply (wfx_os_alloc _ _ _ _ SB_SIZE); [exact Hwf1|exact Hfb|unfold SB_SIZE; lia]. }
  assert (Hzero : ∀ k, b ≤ k < b + SB_SIZE → mem wz !! k = None).
  { intros k Hk. apply zero_fill_mem_inside. exact Hk. }
  assert (Egz : get_desc wz d = get_desc w1 d).
  { unfold get_desc, getd. f_equal.
    exact (zero_fill_descs_outside b SB_SIZE
             (upd_os ((b, SB_SIZE) :: os_live w1) rest w1) d Hout). }
  assert (Hinz : (b, SB_SIZE) ∈ os_live wz) by (subst wz; wsimpl; left).
  assert (Hdmz : dmapped (os_live wz) d) by (subst wz; wsimpl; apply dmapped_cons; exact Hdm1).
  assert (Hmz : mapped wz d Desc.size = true) by (apply dmapped_mapped; exact Hdmz).
  (* the memory of the superblock once the header and the links are written *)
  set (m2 := store_bytes (mem wz) 8 b d).
  set (m5 := link_blocks (Z.to_nat (u32 (mc - 1))) 1 (u32 (mc - 1)) sb ss m2).
  pose proof (slot_in_sb ss (mc - 1) Hvs ltac:(fold mc; lia)) as Hlast.
  assert (Hss : 16 ≤ ss ≤ 8184) by exact Hvs.
  assert (Eu : u32 (mc - 1) = mc - 1) by (apply u32_small; lia).
  assert (Hm5out : ∀ k, k < sb + ss ∨ sb + (mc - 1) * ss ≤ k → m5 !! k = m2 !! k).
  { intros k Hk. subst m5. rewrite Eu. apply link_blocks_outside;
      unfold SB_USABLE_SIZE, SB_SIZE, SB_HEADER_SIZE in *; lia. }
  assert (Hm5link : ∀ j, 1 ≤ j < mc - 1 → load_bytes m5 4 (sb + j * ss) = j + 1).
  { intros j Hj. subst m5. rewrite Eu. apply link_blocks_load;
      unfold SB_USABLE_SIZE, SB_SIZE, SB_HEADER_SIZE in *; lia. }
  assert (Hm5hdr : load_bytes m5 8 b = d).
  { rewrite (load_bytes_ext m5 m2).
    - apply load_store_same. change (256 ^ Z.of_nat 8) with (2 ^ 64). lia.
    - intros k Hk. apply Hm5out. left. subst sb. unfold SB_HEADER_SIZE.
      change (Z.of_nat 8) with 8 in Hk. lia. }
  assert (Hm5last : load_bytes m5 4 (sb + (mc - 1) * ss) = 0).
  { apply load_bytes_zero. intros k Hk. change (Z.of_nat 4) with 4 in Hk.
    rewrite Hm5out by lia. subst m2.
    rewrite store_bytes_lookup_outside.
    - apply Hzero. subst sb.
      unfold SB_USABLE_SIZE, SB_SIZE, SB_HEADER_SIZE in *. lia.
    - right. subst sb. unfold SB_HEADER_SIZE in *. change (Z.of_nat 8) with 8. lia. }
  assert (Hm5far : ∀ k, k < b ∨ b + SB_SIZE ≤ k → m5 !! k = mem wz !! k).
  { intros k Hk. rewrite Hm5out.
    - apply store_bytes_lookup_outside. change (Z.of_nat 8) with 8.
      unfold SB_SIZE in *. lia.
    - subst sb. unfold SB_USABLE_SIZE, SB_SIZE, SB_HEADER_SIZE in *. lia. }
  set (w2 := upd_mem _ _).
  assert (Hwf2 : wfx [d] w2).
  { apply (wfx_mem_fresh [d] wz b m2 Hwfz Hinz).
    - right. apply load_bytes_zero. intros k Hk. apply Hzero.
      change (Z.of_nat 8) with 8 in Hk. unfold SB_SIZE. lia.
    - intros k Hk. apply store_bytes_lookup_outside.
      change (Z.of_nat 8) with 8. unfold SB_SIZE in *. lia. }
  assert (Hun2 : unowned (heaps w2) (size_classes w2) (delayed w2) d) by exact Hun1.
  assert (Hu2 : Desc.in_use (get_desc w2 d) = true).
  { change (get_desc w2 d) with (get_desc wz d). rewrite Egz. exact Hu1. }
  apply returns_bind, returns_write_desc; [exact Hmz|].
  set (w3 := put_desc _ _ _).
  assert (Hwf3 : wfx [d] w3).
  { apply wfx_put_exempt; auto. left. }
  assert (Hu3 : Desc.in_use (get_desc w3 d) = true).
  { subst w3. rewrite get_desc_put_desc_eq. exact Hu2. }
  apply returns_bind, (returns_read_heap _ _ H); [change (heaps w1 !! h = Some H); rewrite Ehs1; exact Eh|].
  apply returns_bind, (returns_read_sc _ _ C); [change (size_classes w1 !! Heap.sc H = Some C); rewrite Escs1; exact Ec|].
  fold ss.
  apply returns_bind, returns_write_desc; [exact Hmz|].
  set (w4 := put_desc _ _ _).
  assert (Hwf4 : wfx [d] w4).
  { apply wfx_put_exempt; auto. left. }
  assert (Hu4 : Desc.in_use (get_desc w4 d) = true).
  { subst w4. rewrite get_desc_put_desc_eq. exact Hu3. }
  apply returns_bind, returns_udiv; [lia|]. fold mc.
  apply returns_bind. eapply returns_mono.
  { apply organize_blocks_returns; [|lia|rewrite Eu; lia].
    intros j Hj. rewrite Eu in Hj.
    pose proof (slot_in_sb ss j Hvs ltac:(fold mc; lia)) as Hj'.
    unfold SB_USABLE_SIZE, SB_SIZE, SB_HEADER_SIZE in Hj'.
    rewrite u32_small by lia.
    change (Z.of_nat 4) with 4. subst sb. rewrite <- Z.add_assoc.
    apply sb_mapped; [exact Hinz| |];
      unfold SB_USABLE_SIZE, SB_SIZE, SB_HEADER_SIZE in *; lia. }
  intros _ w5' ->.
  set (w5 := upd_mem _ _).
  assert (Hwf5 : wfx [d] w5).
  { apply (wfx_mem_fresh [d] w4 b m5 Hwf4 Hinz).
    - left. change (mem w4) with m2. subst m2.
      rewrite load_store_same; [left|].
      change (256 ^ Z.of_nat 8) with (2 ^ 64). lia.
    - intros k Hk. change (mem w4) with m2. apply Hm5out.
      subst sb. unfold SB_USABLE_SIZE, SB_SIZE, SB_HEADER_SIZE in *. lia. }
  assert (Hu5 : Desc.in_use (get_desc w5 d) = true) by exact Hu4.
  apply returns_bind, returns_write_desc; [exact Hmz|].
  set (DF := Desc.with_anchor _ _).
  set (w6 := put_desc _ _ _).
  assert (Eg5 : get_desc w5 d
                = Desc.with_slot_size (Desc.with_sb (get_desc w2 d) sb) ss).
  { change (get_desc w5 d) with (get_desc w4 d). unfold w4.
    rewrite get_desc_put_desc_eq. unfold w3.
    rewrite get_desc_put_desc_eq. reflexivity. }
  assert (Esb : Desc.sb DF = sb).
  { unfold DF. cbn. rewrite Eg5. reflexivity. }
  assert (Eheap : Desc.heap DF = h) by reflexivity.
  assert (Eslot : Desc.slot_size DF = ss) by reflexivity.
  assert (Emax : Desc.max_count DF = mc) by reflexivity.
  assert (Einuse : Desc.in_use DF = true) by exact Hu5.
  assert (Eavail : avail (Desc.anchor DF) = 1).
  { subst DF. cbn. autorewrite with anchor. reflexivity. }
  assert (Ecount : count (Desc.anchor DF) = mc - 1).
  { subst DF. cbn. autorewrite with anchor. rewrite Eu. apply Z.mod_small. lia. }
  assert (Etag : tag (Desc.anchor DF) = 0).
  { subst DF. cbn. autorewrite with anchor. reflexivity. }
  assert (Estate : state (Desc.anchor DF) = STATE_PARTIAL).
  { subst DF. cbn. autorewrite with anchor. reflexivity. }
  assert (Hwfx6 : wfx [d] w6).
  { apply wfx_put_exempt; auto. left. }
  assert (Eg6 : get_desc w6 d = DF) by apply get_desc_put_desc_eq.
  assert (Hchain : chain m5 sb ss (S (S (Z.to_nat (mc - 2)))) 1
                   = seqZ 1 (mc - 1) ++ [0]
                   ∧ chain m5 sb ss (S (Z.to_nat (mc - 2))) 1 = seqZ 1 (mc - 1)).
  { assert (Hc := chain_fresh m5 sb ss mc (Z.to_nat (mc - 2)) 1 ltac:(lia)
                    Hm5link Hm5last).
    replace (Z.of_nat (S (Z.to_nat (mc - 2)))) with (mc - 1) in Hc by lia.
    exact Hc. }
  assert (Hok6 : desc_ok (descs w6) (mem w6) (os_live w6) (heaps w6)
                   (size_classes w6) d).
  { unfold desc_ok. change (getd (descs w6) d) with (get_desc w6 d).
    rewrite Eg6, Esb, Eheap, Eslot, Emax.
    split.
    { exists b. split; [reflexivity|]. split; [exact Hbal|].
      split; [exact Hinz|]. exact Hm5hdr. }
    split.
    { exists H, C. split; [change (heaps w1 !! h = Some H); rewrite Ehs1; exact Eh|].
      split; [change (size_classes w1 !! Heap.sc H = Some C); rewrite Escs1; exact Ec|].
      reflexivity. }
    split; [exact Hvs|]. split; [reflexivity|].
    split.
    { right. right. rewrite Estate, Ecount. split; [reflexivity|lia]. }
    unfold chain_ok. rewrite Esb, Eslot, Emax, Ecount, Eavail.
    change (mem w6) with m5.
    replace (Z.to_nat (mc - 1)) with (S (Z.to_nat (mc - 2))) by lia.
    destruct Hchain as [-> ->]. split.
    - apply Forall_app. split.
      + apply Forall_forall. intros x Hx. apply elem_of_seqZ in Hx. lia.
      + apply Forall_singleton. lia.
    - apply NoDup_seqZ. }
  assert (Hwf6 : wf w6).
  { apply (wfx_unexempt [] w6 d Hwfx6). intros _ _ _. exact Hok6. }
  (* the descriptors in use before and the bytes of their superblocks *)
  assert (Hg6 : ∀ d0, d0 ≠ d → dmapped (os_live w) d0 →
                  getd (descs w6) d0 = getd (descs w) d0
                  ∧ dmapped (os_live w6) d0).
  { intros d0 Hne Hdm0. split.
    - change (getd (descs w6) d0) with (get_desc w6 d0). unfold w6.
      rewrite get_desc_put_desc_ne by congruence.
      change (get_desc w5 d0) with (get_desc w4 d0). unfold w4.
      rewrite get_desc_put_desc_ne by congruence. unfold w3.
      rewrite get_desc_put_desc_ne by congruence.
      change (get_desc w2 d0) with (get_desc wz d0).
      rewrite <- (Hgd d0 Hne Hdm0).
      unfold get_desc, getd. f_equal.
      exact (zero_fill_descs_outside b SB_SIZE
               (upd_os ((b, SB_SIZE) :: os_live w1) rest w1) d0
               (dmapped_outside _ _ _ _ _ Hfb (Hdmm d0 Hdm0))).
    - change (os_live w6) with ((b, SB_SIZE) :: os_live w1).
      apply dmapped_cons, Hdmm, Hdm0. }
  assert (Hmem6 : ∀ r k, r ∈ os_live w → r.1 ≤ k < r.1 + r.2 →
                    m5 !! k = mem w !! k).
  { intros r k Hr Hk.
    destruct (Hbdis r (Hlive1 r Hr)) as [Hd|Hd].
    - rewrite Hm5far by lia.
      destruct (Hmem1 k) as [Ho|<-]; [specialize (Ho r Hr); lia|].
      exact (zero_fill_mem_outside b SB_SIZE
               (upd_os ((b, SB_SIZE) :: os_live w1) rest w1) k
               ltac:(right; lia)).
    - rewrite Hm5far by lia.
      destruct (Hmem1 k) as [Ho|<-]; [specialize (Ho r Hr); lia|].
      exact (zero_fill_mem_outside b SB_SIZE
               (upd_os ((b, SB_SIZE) :: os_live w1) rest w1) k
               ltac:(left; lia)). }
  apply returns_bind, returns_ret.
  apply returns_bind, (returns_cas_active _ _ _ _ H);
    [change (heaps w1 !! h = Some H); rewrite Ehs1; exact Eh|].
  unfold new_sb_post.
  destruct (Z.eqb_spec (Heap.active H) 0) as [Ha|Ha].
  - set (w7 := upd_heaps _ _).
    apply returns_bind, returns_read_desc; [exact Hmz|].
    apply returns_ret.
    assert (Eh6 : heaps w6 !! h = Some H)
      by (change (heaps w1 !! h = Some H); rewrite Ehs1; exact Eh).
    assert (Eg7 : get_desc w7 d = DF) by exact Eg6.
    split; [|split].
    2: exact (keeps_held_new_desc w w7 d Hwf Hnew Hg6 Hmem6).
    2: { intros _ d0 Hal.
         destruct (allocated_slot_region w d0 _ Hwf Hal)
           as (i & hdr0 & _ & Hl0 & Hi0 & E0 & Hle0 & _).
         pose proof (proj2 Hwf) as (Hds0 & _).
         destruct (Hds0 d0 ltac:(apply not_elem_of_nil)
                     ltac:(apply Hal) ltac:(apply Hal))
           as (_ & _ & Hsz0 & Hmax0 & _).
         fold (get_desc w d0) in *.
         rewrite Eg7, Esb in E0, Hle0.
         assert (0 ≤ i * Desc.slot_size (get_desc w d0))
           by (unfold valid_slot_size in Hsz0; nia).
         destruct (Hbdis _ (Hlive1 _ Hl0)) as [Hd|Hd]; cbn in Hd;
           subst sb; unfold valid_slot_size, SB_HEADER_SIZE, SB_SIZE in *;
           lia. }
    split.
    { apply (wfx_set_active [] w6 h H d Hwf6 Eh6); [exact Hdmz| | | |exact Hun1].
      - rewrite Eg6. exact Einuse.
      - rewrite Eg6, Eheap. exists H. auto.
      - rewrite Eg6, Estate. discriminate. }
    rewrite Eg7, Esb.
    split; [subst sb; unfold SB_HEADER_SIZE; lia|].
    exists d. unfold new_sb_installed. rewrite Eg7.
    split; [change (heaps w7) with (<[h := Heap.mk (Heap.sc H) d]> (heaps w1));
            rewrite Ehs1; reflexivity|].
    split; [exact Escs1|].
    split; [exact Hdmz|].
    rewrite Emax, Eslot, Eavail, Ecount, Etag, Estate, Esb.
    split; [exact Einuse|].
    repeat (split; [reflexivity|]).
    unfold slot_of, free_slots. rewrite Eg7, Esb, Eslot, Ecount, Eavail.
    change (mem w7) with m5.
    split; [lia|].
    split; [intros i Hi; apply Hm5link; lia|].
    replace (Z.to_nat (mc - 1)) with (S (Z.to_nat (mc - 2))) by lia.
    exact (proj2 Hchain).
  - apply returns_bind, returns_write_desc; [exact Hmz|].
    set (w7 := put_desc _ _ _).
    assert (Eg7 : get_desc w7 d
                  = Desc.with_anchor DF (set_state (Desc.anchor DF) STATE_EMPTY)).
    { unfold w7. rewrite get_desc_put_desc_eq, Eg6. reflexivity. }
    assert (Hwfx7 : wfx [d] w7).
    { apply wfx_put_exempt;
        [exact Hwfx6|left|rewrite Eg6; exact Einuse
        |cbn; rewrite Eg6; exact Einuse|exact Hun1]. }
    apply returns_bind. eapply returns_mono.
    { apply (desc_retire_spec fuel d [d] [] w7 b Hfuel Hwfx7 Hdmz).
      - rewrite Eg7. exact Einuse.
      - rewrite Eg7. cbn. autorewrite with anchor. reflexivity.
      - rewrite Eg7. exact Esb.
      - exact Hbal.
      - intros d' Hx Hne Hdm' Hu' Hsb'.
        destruct Hwfx7 as (_ & Hd7 & _).
        destruct (Hd7 d' Hx Hdm' Hu') as ((hdr & E1 & _ & _ & Hback) & _).
        change (getd (descs w7) d') with (get_desc w7 d') in E1.
        rewrite Hsb' in E1. assert (hdr = b) as -> by lia.
        change (mem w7) with m5 in Hback. congruence.
      - exact Hun1.
      - intros d' _ Hne Hin. apply list_elem_of_singleton in Hin. contradiction. }
    intros _ w8 (Hwf8 & Hrel & Escs8 & _).
    apply returns_ret. split; [|split; [|contradiction]].
    2: { destruct Hrel as (_ & B2 & _ & _ & _ & B6 & _ & _ & B10 & _).
         apply (keeps_held_new_desc w w8 d Hwf Hnew).
         - intros d0 Hne Hdm0. destruct (Hg6 d0 Hne Hdm0) as [Eg Hdm6].
           split.
           + rewrite B6 by (intros Hin; apply list_elem_of_singleton in Hin;
                            contradiction).
             change (getd (descs w7) d0) with (get_desc w7 d0). unfold w7.
             rewrite get_desc_put_desc_ne by congruence. exact Eg.
           + apply B10. exact Hdm6.
         - intros r k Hr Hk. rewrite B2. exact (Hmem6 r k Hr Hk). }
    split; [exact Hwf8|]. split; [reflexivity|].
    split.
    + destruct Hrel as (E & _). rewrite E. exact Ehs1.
    + rewrite Escs8. exact Escs1.
Qed.

Lemma alloc_from_new_sb_spec fuel h H C w :
  (1 ≤ fuel)%nat → wf w → heaps w !! h = Some H →
  size_classes w !! Heap.sc H = Some C → new_sb_ready w →
  returns (alloc_from_new_sb fuel h) w (new_sb_post h H C w).
Proof.
  intros Hf Hwf Eh Ec Hos.
  eapply returns_mono;
    [exact (alloc_from_new_sb_fresh fuel h H C w Hf Hwf Eh Ec Hos)|].
  intros r w' [Hpost _]. exact Hpost.
Qed.
(** ** [mono_lock_free_alloc] *)

Lemma os_willing_ready w w' :
  os_willing w → os_script w' = os_script w →
  (∀ r, r ∈ os_live w' → r ∈ os_live w) → new_sb_ready w'.
Proof.
  intros (a & b & rest & Es & Ha & Hb) E Hsub. unfold new_sb_ready.
  rewrite E, Es.
  destruct (desc_avail w' =? 0).
  - exists a, b, rest. split; [reflexivity|]. split.
    + apply (os_fits_smaller _ _ SB_SIZE _ SB_SIZE).
      * eapply os_fits_sub; eauto.
      * unfold Desc.size, NUM_DESC_BATCH, SB_SIZE. lia.
    + apply os_fits_spec in Hb as (H1 & H2 & H3 & H4).
      apply os_fits_spec. split; [exact H1|]. split; [exact H2|].
      split; [exact H3|]. intros r Hr.
      apply elem_of_cons in Hr as [->|Hr].
      * specialize (H4 (a, SB_SIZE) ltac:(left)). cbn in *.
        unfold Desc.size, NUM_DESC_BATCH, SB_SIZE in *. lia.
      * apply H4. right. apply Hsub. exact Hr.
  - exists a, (b :: rest). split; [reflexivity|].
    eapply os_fits_sub; eauto.
Qed.

Lemma installed_allocated h H C w r w' d :
  valid_slot_size (SizeClass.slot_size C) →
  new_sb_installed h H C w r w' d → allocated_slot w' d r.
Proof.
  intros Hvs (_ & _ & Hdm & Hu & _ & Es & Em & _ & _ & _ & _ & _ & Er & _ & Ef).
  split; [exact Hdm|]. split; [exact Hu|].
  exists 0. pose proof (max_count_range _ Hvs).
  split; [rewrite Em; lia|]. split; [exact Er|].
  rewrite Ef. intros Hin. apply elem_of_seqZ in Hin. lia.
Qed.

Lemma mono_lock_free_alloc_spec fuel h H C w :
  wf w → heaps w !! h = Some H → size_classes w !! Heap.sc H = Some C →
  os_willing w → (length (SizeClass.partial C) + 1 < fuel)%nat →
  returns (mono_lock_free_alloc fuel h) w (λ addr w',
    addr ≠ 0 ∧ wf w' ∧
    ∃ d, allocated_slot w' d addr ∧
         Desc.slot_size (get_desc w' d) = SizeClass.slot_size C).
Proof.
  intros Hwf Eh Ec Hos Hfuel.
  destruct fuel as [|n]; [lia|].
  cbn [mono_lock_free_alloc].
  apply returns_bind. eapply returns_mono.
  { apply (alloc_from_active_or_partial_spec _ h H C w Hwf Eh Ec Hfuel). }
  intros addr w1 (Hwf1 & Es1 & Hl1 & (H1 & C1 & Eh1 & Esc1 & Ec1 & Ess1 & Ha1) & Hal).
  destruct (Z.eqb_spec addr 0) as [->|Hne]; cbn [negb].
  - apply returns_bind. eapply returns_mono.
    { apply (alloc_from_new_sb_spec (S n) h H1 C1 w1); [lia|exact Hwf1|exact Eh1| |].
      - rewrite Esc1. exact Ec1.
      - exact (os_willing_ready w w1 Hos Es1 Hl1). }
    intros r w2 (Hwf2 & Hcase). rewrite (Ha1 eq_refl) in Hcase.
    cbn in Hcase. destruct Hcase as (Hr & d & Hinst).
    destruct (Z.eqb_spec r 0) as [->|_]; [contradiction|]. cbn [negb].
    apply returns_ret. split; [exact Hr|]. split; [exact Hwf2|].
    assert (Hvs : valid_slot_size (SizeClass.slot_size C1)).
    { destruct Hwf1 as (_ & _ & _ & Hq & _). rewrite <- Esc1 in Ec1.
      exact (proj1 (Hq _ _ Ec1)). }
    exists d. split; [exact (installed_allocated _ _ _ _ _ _ _ Hvs Hinst)|].
    destruct Hinst as (_ & _ & _ & _ & _ & Es & _). rewrite Es. exact Ess1.
  - apply returns_ret. split; [exact Hne|]. split; [exact Hwf1|]. auto.
Qed.

(** [mono_lock_free_alloc] leaves its loop only with a non-null address. *)
Lemma mono_lock_free_alloc_nonnull fuel : ∀ h w addr w',
  mono_lock_free_alloc fuel h w = Done addr w' → addr ≠ 0.
Proof.
  induction fuel as [|n IH]; intros h w addr w' E; [discriminate|].
  cbn [mono_lock_free_alloc] in E.
  apply bind_Done in E as (a1 & w1 & E1 & E).
  destruct (Z.eqb_spec a1 0) as [->|Hne]; cbn [negb] in E.
  - apply bind_Done in E as (a2 & w2 & E2 & E).
    destruct (Z.eqb_spec a2 0) as [->|Hne]; cbn [negb] in E.
    + exact (IH _ _ _ _ E).
    + apply ret_Done in E as [<- _]. exact Hne.
  - apply ret_Done in E as [<- _]. exact Hne.
Qed.

(** ** Giving a descriptor back to the partial queue *)
Lemma put_partial_spec fuel d X w H C :
  wfx X w → dmapped (os_live w) d → Desc.in_use (get_desc w d) = true →
  state (Desc.anchor (get_desc w d)) ≠ STATE_FULL →
  heaps w !! Desc.heap (get_desc w d) = Some H →
  size_classes w !! Heap.sc H = Some C →
  unowned (heaps w) (size_classes w) (delayed w) d →
  returns (mono_thread_hazardous_free_or_queue fuel d Fn_desc_put_partial) w
    (λ _ w',
       wfx X w' ∧ descs w' = descs w ∧ mem w' = mem w ∧ heaps w' = heaps w ∧
       os_live w' = os_live w ∧ os_script w' = os_script w ∧
       desc_avail w' = desc_avail w ∧ hazard w' = hazard w ∧
       hazard_others w' = hazard_others w ∧ trace w' = trace w ∧
       ((delayed w' = delayed w ++ [(d, Fn_desc_put_partial)] ∧
         size_classes w' = size_classes w)
        ∨ (delayed w' = delayed w ∧
           size_classes w'
           = <[Heap.sc H := SizeClass.mk (SizeClass.partial C ++ [d])
                              (SizeClass.slot_size C)]> (size_classes w)))).
Proof.
  intros Hwf Hdm Hu Hst Eh Ec Hun.
  pose proof Hwf as (Hr & Hd & Hh & Hq & Hs & Hdl).
  pose proof Hun as (Ua & Uq & Ud).
  apply free_or_queue_returns.
  - intros _. split.
    { unfold wfx. wsimpl. split; [exact Hr|]. split; [exact Hd|].
      split; [exact Hh|]. split; [exact Hq|]. split.
      - eapply stack_ok_mono; [exact Hs|auto|].
        intros d' Hin. apply elem_of_app in Hin as [Hin|Hin]; [exact Hin|].
        apply list_elem_of_singleton in Hin. discriminate.
      - apply delayed_ok_snoc; [exact Hdl|exact Ud|exact Hdm|].
        split; [exact Hu|]. split; [exact Hst|]. split; [eauto|]. auto. }
    wsimpl. repeat (split; [reflexivity|]). left. auto.
  - intros _. cbn [call_free_func].
    eapply desc_put_partial_returns; [apply dmapped_mapped; exact Hdm|exact Hst
                                     |exact Eh|exact Ec|].
    split.
    { unfold wfx. wsimpl. split; [exact Hr|]. split.
      { eapply descs_ok_le; [exact Hd|apply hs_le_refl|].
        apply scs_le_insert. exact Ec. }
      split.
      { eapply heaps_ok_mono; [exact Hh|auto|]. apply scs_le_insert. exact Ec. }
      split.
      { apply queues_ok_set_queue; [exact Hq|exact Ec| |].
        - apply NoDup_app. split; [exact (proj1 (proj2 (Hq _ _ Ec)))|].
          split; [|apply NoDup_singleton].
          intros x Hx Hx'. apply list_elem_of_singleton in Hx'. subst x.
          exact (Uq _ _ Ec Hx).
        - intros d' Hin Hnin. apply elem_of_app in Hin as [Hin|Hin]; [contradiction|].
          apply list_elem_of_singleton in Hin. subst d'.
          split; [pose proof (dmapped_pos _ _ Hr Hdm); lia|].
          split; [exact Hdm|]. split; [exact Hu|]. split; [exact Hst|].
          split; [eauto|]. exact Ua. }
      split; [exact Hs|].
      apply delayed_ok_set_queue; [exact Hdl|exact Ec|].
      intros d' Hin Hin'. apply elem_of_app in Hin as [Hin|Hin].
      - destruct Hdl as [_ Hdl]. destruct (Hdl _ _ Hin') as (_ & _ & _ & _ & Hnq & _).
        exact (Hnq _ _ Ec Hin).
      - apply list_elem_of_singleton in Hin. subst d'. exact (Ud Hin'). }
    wsimpl. repeat (split; [reflexivity|]). right. auto.
Qed.
(** ** [list_remove_empty_desc] *)

Lemma swept_rel_refl w : swept_rel w w.
Proof. unfold swept_rel. auto 10. Qed.

Lemma swept_rel_trans w1 w2 w3 :
  swept_rel w1 w2 → swept_rel w2 w3 → swept_rel w1 w3.
Proof.
  intros (A1 & A2 & A3 & A4 & A5 & A6 & Au & A7 & A8)
         (B1 & B2 & B3 & B4 & B5 & B6 & Bu & B7 & B8).
  unfold swept_rel.
  split; [congruence|]. split; [congruence|]. split; [congruence|].
  split; [congruence|]. split; [congruence|].
  split; [intros d; rewrite B6; apply A6|]. split; [auto|].
  split; [intros d; rewrite B7; apply A7|]. auto.
Qed.

Lemma retired_swept R w w' : retired_rel R w w' → swept_rel w w'.
Proof.
  intros (A1 & A2 & A3 & A4 & A5 & A6 & A7 & A8 & A9 & A10 & A11).
  unfold swept_rel.
  split; [exact A1|]. split; [exact A2|]. split; [exact A3|].
  split; [exact A4|]. split; [exact A5|]. split; [exact A7|].
  split; [|auto].
  intros d Hd. destruct (decide (d ∈ R)) as [Hin|Hin]; [auto|].
  rewrite A6; auto.
Qed.

Lemma swept_state w w' d :
  swept_rel w w' →
  state (Desc.anchor (get_desc w' d)) = state (Desc.anchor (get_desc w d)).
Proof.
  intros (_ & _ & _ & _ & _ & A6 & _). f_equal. apply erase_anchor, A6.
Qed.

Lemma swept_retire_events w w' :
  swept_rel w w' → ∀ l, map (retire_events w') l = map (retire_events w) l.
Proof.
  intros (_ & _ & _ & _ & _ & A6 & _) l. apply map_ext. intros d.
  unfold retire_events, get_desc. rewrite (erase_sb _ _ (A6 d)). reflexivity.
Qed.

Lemma same_held_refl w : same_held w w.
Proof. intros d p. reflexivity. Qed.

Lemma same_held_trans w1 w2 w3 :
  same_held w1 w2 → same_held w2 w3 → same_held w1 w3.
Proof. intros H1 H2 d p. rewrite (H2 d p). apply H1. Qed.

Lemma same_held_frame w w' :
  descs w' = descs w → mem w' = mem w → os_live w' = os_live w →
  same_held w w'.
Proof.
  intros E1 E2 E3 d p.
  split; apply allocated_slot_frame; congruence.
Qed.

(** The slots held are the same after descriptors that were EMPTY have
    been retired. *)
Lemma retired_same_held R w w' :
  wf w → retired_rel R w w' →
  (∀ d, d ∈ R → state (Desc.anchor (get_desc w d)) = STATE_EMPTY) →
  same_held w w'.
Proof.
  intros Hwf Hrel HR d p. split; [|apply (retired_keeps_held R w w' Hwf Hrel HR)].
  destruct Hrel as (A1 & A2 & A3 & A4 & A5 & A6 & A7 & A8 & A10 & A11 & A12).
  intros (Hm & Hu & i & Hi & Ep & Hfree).
  assert (Hn : d ∉ R).
  { intros Hin. unfold get_desc in Hu. rewrite (A8 d Hin) in Hu. discriminate. }
  assert (Eg : get_desc w' d = get_desc w d) by exact (A6 d Hn).
  unfold allocated_slot, slot_of, free_slots in *. rewrite Eg, A2 in *.
  split; [apply A10; exact Hm|]. split; [exact Hu|]. exists i. auto.
Qed.

Lemma list_remove_empty_desc_loop_held fuel : ∀ s w C n,
  wf w → size_classes w !! s = Some C → 0 ≤ n ≤ 1 →
  (length (SizeClass.partial C) + Z.to_nat (2 - n) < fuel)%nat →
  returns (list_remove_empty_desc_loop fuel s n) w
    (λ _ w', sweep_post (SizeClass.partial C) (2 - n) w w' ∧ same_held w w').
Proof.
  induction fuel as [|f IH]; intros s w C n Hwf Es Hn Hlen; [lia|].
  cbn [list_remove_empty_desc_loop].
  apply returns_bind. eapply dequeue_returns; [exact Es|].
  destruct (SizeClass.partial C) as [|d q] eqn:Eq.
  - rewrite Z.eqb_refl. apply returns_ret.
    split; [|apply same_held_refl].
    split; [exact Hwf|]. split; [apply swept_rel_refl|].
    exists [], []. cbn [map concat length].
    split; [rewrite app_nil_r; reflexivity|].
    split; [intros ? Hx; inversion Hx|].
    split; [intros ? Hx; inversion Hx|].
    split; [lia|].
    intros es rest E _. symmetry in E. apply app_eq_nil in E as [-> _].
    exists []. reflexivity.
  - pose proof Hwf as (Hreg & Hds & Hhs & Hqs & Hst & Hdl).
    destruct (Hqs s C Es) as (Hval & Hnd & Hall).
    rewrite Eq in Hnd, Hall.
    destruct (Hall d ltac:(left))
      as (Hd0 & Hmap & Hin & Hnf & (H & EH & Esc) & Hact).
    pose proof (wfx_dequeue _ _ _ _ _ _ Hwf Es Eq) as Hwf1.
    pose proof (queued_unowned _ _ _ _ _ _ Hwf Es Eq) as Hun1.
    set (w1 := upd_size_classes
                 (λ m, <[s := SizeClass.mk q (SizeClass.slot_size C)]> m) w) in *.
    destruct (Z.eqb_spec d 0) as [|_]; [contradiction|].
    apply returns_bind, returns_read_desc; [apply dmapped_mapped; exact Hmap|].
    change (get_desc w1 d) with (get_desc w d).
    destruct (Hds d ltac:(apply not_elem_of_nil) Hmap Hin)
      as ((hdr & Esb & Hal & Hlive & Hback) & _ & _ & _ & Hanc & _).
    destruct (Z.eqb_spec (state (Desc.anchor (get_desc w d))) STATE_EMPTY) as [Hse|Hse].
    + (* EMPTY: retired, whatever the count so far *)
      apply returns_bind.
      eapply returns_mono.
      { apply (desc_retire_spec (S f) d [] [] w1 hdr); auto.
        - lia.
        - intros d' _ Hne Hm' Hi' E'.
          apply Hne. eapply (sb_owner [] w); eauto using not_elem_of_nil. }
      intros [] w2 (Hwf2 & Hrel2 & Escs2 & Etr2). cbv beta.
      assert (Es2 : size_classes w2 !! s
                    = Some (SizeClass.mk q (SizeClass.slot_size C))).
      { rewrite Escs2. cbn. apply lookup_insert_eq. }
      assert (Hsw2 : swept_rel w w2) by exact (retired_swept _ _ _ Hrel2).
      assert (Hsh2 : same_held w w2).
      { apply (retired_same_held [d] w1 w2 Hwf1 Hrel2).
        intros d' Hd'. apply list_elem_of_singleton in Hd' as ->. exact Hse. }
      eapply returns_mono.
      { apply (IH s w2 _ n Hwf2 Es2 Hn). simpl in *. lia. }
      intros _ w' ((Hwf' & Hsw' & retired & kept & Etr' & Hret & Hkept & Hlk & Hpre)
                   & Hsh').
      cbn [SizeClass.partial] in *.
      split; [|exact (same_held_trans _ _ _ Hsh2 Hsh')].
      split; [exact Hwf'|].
      split; [exact (swept_rel_trans _ _ _ Hsw2 Hsw')|].
      exists (d :: retired), kept.
      split.
      { rewrite Etr', Etr2. cbn [map concat].
        rewrite <- !app_assoc. f_equal.
        unfold retire_events at 2. unfold get_desc at 1. rewrite Esb.
        replace (hdr + SB_HEADER_SIZE - SB_HEADER_SIZE) with hdr by lia.
        cbn [app]. f_equal. f_equal. f_equal.
        apply swept_retire_events. exact Hsw2. }
      split.
      { intros d' Hd'. apply elem_of_cons in Hd' as [->|Hd'].
        - split; [left|]. split; [exact Hse|].
          destruct Hrel2 as (_ & _ & _ & _ & _ & _ & _ & A8 & _).
          pose proof (A8 d ltac:(left)) as Hf.
          destruct Hsw' as (_ & _ & _ & _ & _ & _ & Au & _).
          apply Au. exact Hf.
        - destruct (Hret d' Hd') as (H1 & H2 & H3).
          split; [right; exact H1|]. split; [|exact H3].
          rewrite <- (swept_state w w2 d' Hsw2). exact H2. }
      split.
      { intros d' Hd'. destruct (Hkept d' Hd') as (H1 & H2).
        split; [right; exact H1|].
        rewrite <- (swept_state w w2 d' Hsw2). exact H2. }
      split; [exact Hlk|].
      intros es rest E Hes. destruct es as [|e es].
      { exists (d :: retired). reflexivity. }
      cbn [app] in E. injection E as <- Eq'.
      destruct (Hpre es rest Eq') as (more & ->).
      { intros d' Hd'. rewrite (swept_state w w2 d' Hsw2). apply Hes. right. exact Hd'. }
      exists more. reflexivity.
    + (* not EMPTY: given back, and counted *)
      apply returns_bind, (returns_read_heap _ _ H); [exact EH|].
      apply returns_bind, returns_ASSERT; [apply Z.eqb_eq; exact Esc|].
      assert (Ec1 : size_classes w1 !! Heap.sc H
                    = Some (SizeClass.mk q (SizeClass.slot_size C))).
      { rewrite Esc. cbn. apply lookup_insert_eq. }
      apply returns_bind. eapply returns_mono.
      { apply (put_partial_spec (S f) d [] w1 H _ Hwf1 Hmap Hin Hnf EH Ec1 Hun1). }
      intros [] w2 (Hwf2 & Ed2 & Em2 & Eh2 & El2 & Eo2 & Ea2 & Ehz2 & Eho2 & Et2 & Hcase).
      cbv beta.
      assert (Hsw2 : swept_rel w w2).
      { unfold swept_rel. rewrite Ed2, Em2, Eh2, El2, Eo2, Ehz2, Eho2.
        cbn. auto 10. }
      assert (Hsh2 : same_held w w2) by exact (same_held_frame w1 w2 Ed2 Em2 El2).
      assert (Hkeep1 : ∀ d', d' ∈ [d] →
                d' ∈ d :: q ∧ state (Desc.anchor (get_desc w d')) ≠ STATE_EMPTY).
      { intros d' Hd'. apply list_elem_of_singleton in Hd'. subst d'.
        split; [left|exact Hse]. }
      assert (Hpre0 : ∀ es rest, d :: q = es ++ rest →
                (∀ d', d' ∈ es → state (Desc.anchor (get_desc w d')) = STATE_EMPTY) →
                es = []).
      { intros es rest E Hes. destruct es as [|e es]; [reflexivity|].
        cbn [app] in E. injection E as <- _. exfalso. apply Hse, Hes. left. }
      destruct (Z.leb_spec 2 (n + 1)) as [Hge|Hlt].
      * apply returns_ret. split; [|exact Hsh2].
        split; [exact Hwf2|]. split; [exact Hsw2|].
        exists [], [d]. cbn [map concat length].
        split; [rewrite app_nil_r; exact Et2|].
        split; [intros ? Hx; inversion Hx|].
        split; [exact Hkeep1|]. split; [lia|].
        intros es rest E Hes. rewrite (Hpre0 es rest E Hes). exists []. reflexivity.
      * assert (∃ C2, size_classes w2 !! s = Some C2 ∧
                      (SizeClass.partial C2 = q ∨ SizeClass.partial C2 = q ++ [d]))
          as (C2 & Es2 & Hq2).
        { destruct Hcase as [[_ E]|[_ E]]; rewrite E.
          - eexists. split; [cbn; apply lookup_insert_eq|]. left. reflexivity.
          - rewrite Esc. eexists. split; [apply lookup_insert_eq|]. right. reflexivity. }
        eapply returns_mono.
        { apply (IH s w2 C2 (n + 1) Hwf2 Es2 ltac:(lia)).
          destruct Hq2 as [-> | ->]; [|rewrite length_app]; simpl in *; lia. }
        intros _ w' ((Hwf' & Hsw' & retired & kept & Etr' & Hret & Hkept & Hlk & Hpre)
                     & Hsh').
        split; [|exact (same_held_trans _ _ _ Hsh2 Hsh')].
        split; [exact Hwf'|].
        split; [exact (swept_rel_trans _ _ _ Hsw2 Hsw')|].
        assert (Hsub : ∀ d', d' ∈ SizeClass.partial C2 → d' ∈ d :: q).
        { intros d' Hd'. destruct Hq2 as [E|E]; rewrite E in Hd'.
          - right. exact Hd'.
          - apply elem_of_app in Hd' as [Hd'|Hd']; [right; exact Hd'|].
            apply list_elem_of_singleton in Hd'. subst d'. left. }
        exists retired, (d :: kept).
        split.
        { rewrite Etr', Et2. cbn [trace]. f_equal. f_equal.
          apply swept_retire_events. exact Hsw2. }
        split.
        { intros d' Hd'. destruct (Hret d' Hd') as (H1 & H2 & H3).
          split; [auto|]. split; [|exact H3].
          rewrite <- (swept_state w w2 d' Hsw2). exact H2. }
        split.
        { intros d' Hd'. apply elem_of_cons in Hd' as [->|Hd'].
          - split; [left|exact Hse].
          - destruct (Hkept d' Hd') as (H1 & H2). split; [auto|].
            rewrite <- (swept_state w w2 d' Hsw2). exact H2. }
        split; [cbn [length]; lia|].
        intros es rest E Hes. rewrite (Hpre0 es rest E Hes).
        exists retired. reflexivity.
Qed.

Lemma list_remove_empty_desc_loop_spec fuel s w C n :
  wf w → size_classes w !! s = Some C → 0 ≤ n ≤ 1 →
  (length (SizeClass.partial C) + Z.to_nat (2 - n) < fuel)%nat →
  returns (list_remove_empty_desc_loop fuel s n) w
    (λ _ w', sweep_post (SizeClass.partial C) (2 - n) w w').
Proof.
  intros Hwf Es Hn Hlen.
  eapply returns_mono;
    [exact (list_remove_empty_desc_loop_held fuel s w C n Hwf Es Hn Hlen)|].
  intros u w' [Hpost _]. exact Hpost.
Qed.

Lemma list_remove_empty_desc_held fuel s w C :
  wf w → size_classes w !! s = Some C →
  (length (SizeClass.partial C) + 2 < fuel)%nat →
  returns (list_remove_empty_desc fuel s) w
    (λ _ w', sweep_post (SizeClass.partial C) 2
               (log (EvRemoveEmpty s) w) w' ∧ same_held w w').
Proof.
  intros Hwf Es Hlen. unfold list_remove_empty_desc.
  apply returns_bind, returns_modify.
  apply (list_remove_empty_desc_loop_held fuel s (log (EvRemoveEmpty s) w) C 0);
    [exact Hwf|exact Es|lia|simpl; lia].
Qed.

(** ** The free path *)



(** Writing the old head into a slot that is not free puts the slot at the
    head of the free chain. *)
Lemma chain_push m sb ss n i a mc :
  16 ≤ ss → 0 ≤ a < 2 ^ 32 → 0 ≤ i < mc →
  Forall (λ j, 0 ≤ j < mc) (chain m sb ss n a) →
  i ∉ chain m sb ss n a →
  chain (store_bytes m 4 (sb + i * ss) a) sb ss (S (S n)) i
  = i :: chain m sb ss (S n) a
  ∧ chain (store_bytes m 4 (sb + i * ss) a) sb ss (S n) i
    = i :: chain m sb ss n a.
Proof.
  intros Hss Ha Hi Hall Hni.
  assert (Hoth : ∀ j, j ∈ chain m sb ss n a →
            load_bytes (store_bytes m 4 (sb + i * ss) a) 4 (sb + j * ss)
            = load_bytes m 4 (sb + j * ss)).
  { intros j Hj. apply load_store_other. change (Z.of_nat 4) with 4.
    rewrite Forall_forall in Hall. specialize (Hall j Hj).
    assert (j ≠ i) by (intros ->; contradiction).
    nia. }
  assert (Hsame : load_bytes (store_bytes m 4 (sb + i * ss) a) 4 (sb + i * ss) = a).
  { apply load_store_same. change (256 ^ Z.of_nat 4) with (2 ^ 32). exact Ha. }
  split.
  - change (chain (store_bytes m 4 (sb + i * ss) a) sb ss (S (S n)) i)
      with (i :: chain (store_bytes m 4 (sb + i * ss) a) sb ss (S n)
                   (load_bytes (store_bytes m 4 (sb + i * ss) a) 4 (sb + i * ss))).
    rewrite Hsame. f_equal. apply chain_ext_S. exact Hoth.
  - change (chain (store_bytes m 4 (sb + i * ss) a) sb ss (S n) i)
      with (i :: chain (store_bytes m 4 (sb + i * ss) a) sb ss n
                   (load_bytes (store_bytes m 4 (sb + i * ss) a) 4 (sb + i * ss))).
    rewrite Hsame. f_equal. apply chain_ext. exact Hoth.
Qed.
Lemma free_anchor_loop_spec fuel d i ptr heap0 w :
  (1 ≤ fuel)%nat → wf w → dmapped (os_live w) d →
  Desc.in_use (get_desc w d) = true →
  0 ≤ i < Desc.max_count (get_desc w d) → ptr = slot_of w d i →
  i ∉ free_slots w d →
  returns (free_anchor_loop fuel d ptr (Desc.sb (get_desc w d)) heap0) w
    (λ r w',
      let D := get_desc w d in
      let old := Desc.anchor D in
      let new := free_new_anchor old i (Desc.max_count D) in
      r = (old, new,
           if count new =? Desc.max_count D then Desc.heap D else heap0) ∧
      w' = log (EvAnchor d old new)
             (put_desc d (Desc.with_anchor D new)
                (upd_mem (λ m, store_bytes m 4 ptr (avail old)) w)) ∧
      wf w' ∧
      avail new = i ∧ count new = count old + 1 ∧ tag new = tag old ∧
      state old ≠ STATE_EMPTY ∧
      state new = (if count old + 1 =? Desc.max_count D then STATE_EMPTY
                   else STATE_PARTIAL)).
Proof.
  intros Hf Hwf Hm Hu Hi Eptr Hfree.
  pose proof (allocated_not_empty w d ptr Hwf) as Hne.
  destruct Hne as [Hclt Hne].
  { split; [exact Hm|]. split; [exact Hu|]. exists i. auto. }
  pose proof Hwf as (Hreg & Hds & Hhs & Hqs & Hst & Hdl).
  destruct (Hds d ltac:(apply not_elem_of_nil) Hm Hu)
    as ((hdr & Esb & Hal & Hlive & Hback) & Hheap & Hsz & Hmax & Hanc & Hall & Hnd).
  fold (get_desc w d) in *.
  set (D := get_desc w d) in *. set (old := Desc.anchor D) in *.
  pose proof (max_count_range _ Hsz) as Hmc. rewrite <- Hmax in Hmc.
  pose proof (slot_in_sb _ _ Hsz ltac:(rewrite <- Hmax; exact Hi)) as Hslot.
  assert (Hss : 16 ≤ Desc.slot_size D ≤ 8184) by exact Hsz.
  assert (Hcnt0 : 0 ≤ count old) by (apply count_range).
  assert (Hav : 0 ≤ avail old < 1024) by (apply avail_range).
  unfold slot_of in Eptr. fold D in Eptr.
  assert (Hquot : Z.quot (ptr - Desc.sb D) (Desc.slot_size D) = i).
  { rewrite Eptr. replace (Desc.sb D + i * Desc.slot_size D - Desc.sb D)
      with (i * Desc.slot_size D) by lia.
    apply Z.quot_mul. lia. }
  set (new := free_new_anchor old i (Desc.max_count D)).
  assert (Han : avail new = i).
  { unfold new. rewrite free_new_anchor_avail. apply Z.mod_small. lia. }
  assert (Hcn : count new = count old + 1).
  { unfold new. rewrite free_new_anchor_count. apply Z.mod_small. lia. }
  assert (Htn : tag new = tag old) by apply free_new_anchor_tag.
  assert (Hso : state old = STATE_FULL ∨ state old = STATE_PARTIAL).
  { destruct Hanc as [[E _]|[[E _]|[E _]]]; [contradiction|auto|auto]. }
  assert (Hsn : state new = if count old + 1 =? Desc.max_count D then STATE_EMPTY
                            else STATE_PARTIAL).
  { unfold new. rewrite free_new_anchor_state.
    rewrite (Z.mod_small (count old + 1)) by lia.
    destruct (count old + 1 =? Desc.max_count D); [reflexivity|].
    destruct Hso as [-> | ->]; reflexivity. }
  assert (Hmp : mapped w ptr 4 = true).
  { rewrite Eptr, Esb.
    replace (hdr + SB_HEADER_SIZE + i * Desc.slot_size D)
      with (hdr + (SB_HEADER_SIZE + i * Desc.slot_size D)) by lia.
    apply sb_mapped; [exact Hlive| |];
      unfold SB_USABLE_SIZE, SB_SIZE, SB_HEADER_SIZE in *; lia. }
  destruct fuel as [|n]; [lia|]. cbn [free_anchor_loop].
  apply returns_bind. unfold atomic64_read.
  apply returns_bind, returns_read_desc; [apply dmapped_mapped; exact Hm|].
  apply returns_ret. fold D old.
  apply returns_bind. unfold free_anchor_try.
  apply returns_bind, returns_store; [exact Hmp|].
  set (w1 := upd_mem _ w).
  apply returns_bind, returns_read_desc; [apply dmapped_mapped; exact Hm|].
  change (get_desc w1 d) with D.
  destruct (Z.eqb_spec (Desc.slot_size D) 0) as [E0|_]; [lia|].
  apply returns_bind, returns_udiv; [lia|].
  rewrite Hquot, <- Hmax.
  set (X := set_count _ _).
  change (if count X =? Desc.max_count D then set_state X STATE_EMPTY else X)
    with new.
  assert (EX : count X = count new).
  { change new with (if count X =? Desc.max_count D
                     then set_state X STATE_EMPTY else X).
    destruct (count X =? Desc.max_count D); [|reflexivity].
    autorewrite with anchor. reflexivity. }
  rewrite EX.
  apply returns_bind, returns_ASSERT.
  { autorewrite with anchor. rewrite Z.mod_small by lia. apply Z.ltb_lt. lia. }
  apply returns_bind.
  exists true, (log (EvAnchor d old new) (put_desc d (Desc.with_anchor D new) w1)).
  split.
  { apply set_anchor_Done. split; [intros E; contradiction|].
    split; [apply dmapped_mapped; exact Hm|].
    change (get_desc w1 d) with D. fold old.
    rewrite Z.eqb_refl. auto. }
  apply returns_ret. cbn [fst snd]. apply returns_ret. cbv zeta.
  split; [reflexivity|]. split; [reflexivity|].
  split; [|auto 10].
  assert (Hsnf : state new ≠ STATE_FULL).
  { rewrite Hsn. destruct (count old + 1 =? Desc.max_count D); discriminate. }
  assert (Hpre : Forall (λ j, 0 ≤ j < Desc.max_count D)
                   (chain (mem w) (Desc.sb D) (Desc.slot_size D)
                      (Z.to_nat (count old)) (avail old))).
  { apply chain_prefix_Forall. exact Hall. }
  destruct (chain_push (mem w) (Desc.sb D) (Desc.slot_size D)
              (Z.to_nat (count old)) i (avail old) (Desc.max_count D))
    as [Ech1 Ech2]; [lia|lia|exact Hi|exact Hpre|exact Hfree|].
  subst w1. unfold wf, wfx. wsimpl.
  split; [exact Hreg|].
  split.
  { apply (descs_ok_put [d] []); [| |intros d' _ Hd' Hin;
        apply list_elem_of_singleton in Hin; contradiction].
    - apply (descs_ok_mem [d] _ (mem w)).
      + intros d' Hx. apply Hds. apply not_elem_of_nil.
      + intros d' k Hx Hm' Hu' Hk.
        apply store_bytes_lookup_outside. change (Z.of_nat 4) with 4.
        assert (Hdd : d' ≠ d).
        { intros ->. apply Hx. left. }
        destruct (Hds d' ltac:(apply not_elem_of_nil) Hm' Hu')
          as ((hdr' & Esb' & Hal' & Hlive' & Hback') & _).
        rewrite Esb' in Hk.
        assert (Hhh : hdr' ≠ hdr).
        { intros ->. apply Hdd.
          apply (sb_owner [] w d d' (hdr + SB_HEADER_SIZE) Hwf);
            auto using not_elem_of_nil. }
        assert (Hdis : disjoint_regions (hdr', SB_SIZE) (hdr, SB_SIZE)).
        { apply (regions_ok_disjoint (os_live w)); auto. congruence. }
        unfold disjoint_regions in Hdis. cbn in Hdis.
        rewrite Eptr, Esb.
        unfold SB_USABLE_SIZE, SB_SIZE, SB_HEADER_SIZE in *. lia.
    - intros _ _ _. unfold desc_ok. rewrite getd_insert_eq.
      cbn [Desc.sb Desc.with_anchor Desc.heap Desc.slot_size Desc.max_count
           Desc.anchor Desc.in_use].
      fold D.
      split.
      { exists hdr. split; [exact Esb|]. split; [exact Hal|].
        split; [exact Hlive|]. rewrite load_store_other; [exact Hback|].
        left. change (Z.of_nat 8) with 8. rewrite Eptr, Esb.
        unfold SB_HEADER_SIZE. lia. }
      split; [exact Hheap|]. split; [exact Hsz|]. split; [exact Hmax|].
      split.
      { unfold anchor_ok. rewrite Hsn, Hcn.
        destruct (Z.eqb_spec (count old + 1) (Desc.max_count D));
          [left|right; right]; split; try reflexivity; lia. }
      unfold chain_ok.
      cbn [Desc.sb Desc.with_anchor Desc.heap Desc.slot_size Desc.max_count
           Desc.anchor Desc.in_use].
      rewrite Hcn, Han.
      replace (Z.to_nat (count old + 1)) with (S (Z.to_nat (count old))) by lia.
      rewrite Eptr, Ech1, Ech2. split.
      + apply Forall_cons. split; [exact Hi|exact Hall].
      + apply NoDup_cons. split; [exact Hfree|exact Hnd]. }
  split.
  { apply heaps_ok_put; [exact Hhs|]. intros h H Eh Ea _. auto. }
  split.
  { apply queues_ok_put; [exact Hqs|]. intros s C Es Hin. auto. }
  split; [apply stack_ok_put; auto|].
  apply delayed_ok_put; [exact Hdl|].
  intros [] Hd; [|auto].
  exfalso. eapply delayed_not_in_use; eauto.
Qed.
(** What the anchor update of a free does to the slots held: the slot
    freed is held no more, the others are as they were. *)
Lemma free_anchor_held w d i :
  wf w → dmapped (os_live w) d → Desc.in_use (get_desc w d) = true →
  0 ≤ i < Desc.max_count (get_desc w d) → i ∉ free_slots w d →
  ∀ d0 p, allocated_slot (free_anchor_world w d i) d0 p
          ↔ allocated_slot w d0 p ∧ p ≠ slot_of w d i.
Proof.
  intros Hwf Hm Hu Hi Hfree.
  destruct (free_anchor_loop_spec 1 d i (slot_of w d i) 0 w
              ltac:(lia) Hwf Hm Hu Hi eq_refl Hfree)
    as (r & w1 & _ & _ & Ew1 & Hwf1 & _).
  change (w1 = free_anchor_world w d i) in Ew1. rewrite <- Ew1.
  pose proof Hwf as (Hreg & Hds & _).
  destruct (Hds d ltac:(apply not_elem_of_nil) Hm Hu)
    as ((hdr & Esb & Hal & Hlive & Hback) & _ & Hsz & Hmax & Hanc & Hall & Hnd).
  fold (get_desc w d) in *.
  set (D := get_desc w d) in *. set (old := Desc.anchor D) in *.
  pose proof (max_count_range _ Hsz) as Hmc. rewrite <- Hmax in Hmc.
  pose proof (slot_in_sb _ _ Hsz ltac:(rewrite <- Hmax; exact Hi)) as Hslot.
  assert (Hss : 16 ≤ Desc.slot_size D ≤ 8184) by exact Hsz.
  assert (Hav : 0 ≤ avail old < 1024) by (apply avail_range).
  assert (Hclt : count old < Desc.max_count D).
  { refine (proj1 (allocated_not_empty w d (slot_of w d i) Hwf _)).
    split; [exact Hm|]. split; [exact Hu|]. exists i. auto. }
  assert (Hcnt0 : 0 ≤ count old) by (apply count_range).
  set (new := free_new_anchor old i (Desc.max_count D)).
  assert (Han : avail new = i).
  { unfold new. rewrite free_new_anchor_avail. apply Z.mod_small. lia. }
  assert (Hcn : count new = count old + 1).
  { unfold new. rewrite free_new_anchor_count. apply Z.mod_small. lia. }
  assert (Hpre : Forall (λ j, 0 ≤ j < Desc.max_count D)
                   (chain (mem w) (Desc.sb D) (Desc.slot_size D)
                      (Z.to_nat (count old)) (avail old))).
  { apply chain_prefix_Forall. exact Hall. }
  destruct (chain_push (mem w) (Desc.sb D) (Desc.slot_size D)
              (Z.to_nat (count old)) i (avail old) (Desc.max_count D))
    as [_ Ech]; [lia|lia|exact Hi|exact Hpre|exact Hfree|].
  assert (Eg1 : get_desc w1 d = Desc.with_anchor D new).
  { rewrite Ew1. unfold free_anchor_world, get_desc. cbn. apply getd_insert_eq. }
  assert (Efree : free_slots w1 d = i :: free_slots w d).
  { unfold free_slots. rewrite Eg1.
    cbn [Desc.sb Desc.with_anchor Desc.slot_size Desc.anchor].
    rewrite Hcn, Han.
    replace (Z.to_nat (count old + 1)) with (S (Z.to_nat (count old))) by lia.
    rewrite Ew1. exact Ech. }
  assert (Eslot : ∀ j, slot_of w1 d j = slot_of w d j).
  { intros j. unfold slot_of. rewrite Eg1. reflexivity. }
  assert (Eoth : ∀ d0, d0 ≠ d → getd (descs w1) d0 = getd (descs w) d0).
  { intros d0 Hne. rewrite Ew1. cbn. apply getd_insert_ne. congruence. }
  assert (El : os_live w1 = os_live w) by (rewrite Ew1; reflexivity).
  assert (Emem : ∀ d0 k, d0 ≠ d → dmapped (os_live w) d0 →
            Desc.in_use (get_desc w d0) = true →
            Desc.sb (get_desc w d0) - SB_HEADER_SIZE ≤ k
            < Desc.sb (get_desc w d0) - SB_HEADER_SIZE + SB_SIZE →
            mem w1 !! k = mem w !! k).
  { intros d0 k Hne Hm0 Hu0 Hk. rewrite Ew1.
    change (mem (free_anchor_world w d i))
      with (store_bytes (mem w) 4 (slot_of w d i) (avail old)).
    apply store_bytes_lookup_outside. change (Z.of_nat 4) with 4.
    destruct (Hds d0 ltac:(apply not_elem_of_nil) Hm0 Hu0)
      as ((hdr' & Esb' & Hal' & Hlive' & _) & _).
    fold (get_desc w d0) in Esb'. rewrite Esb' in Hk.
    assert (Hhh : hdr' ≠ hdr).
    { intros ->. apply Hne.
      apply (sb_owner [] w d d0 (hdr + SB_HEADER_SIZE) Hwf);
        auto using not_elem_of_nil. }
    assert (Hdis : disjoint_regions (hdr', SB_SIZE) (hdr, SB_SIZE)).
    { apply (regions_ok_disjoint (os_live w)); auto. congruence. }
    unfold disjoint_regions in Hdis. cbn in Hdis.
    unfold slot_of. fold D. rewrite Esb.
    unfold SB_USABLE_SIZE, SB_SIZE, SB_HEADER_SIZE in *. lia. }
  intros d0 p. destruct (Z.eq_dec d0 d) as [->|Hne].
  - split.
    + intros (_ & _ & j & Hj & Ep & Hnf).
      rewrite Eg1 in Hj. cbn in Hj. rewrite Efree in Hnf.
      apply not_elem_of_cons in Hnf as [Hji Hnf]. rewrite Eslot in Ep.
      split.
      * split; [exact Hm|]. split; [exact Hu|]. exists j. auto.
      * rewrite Ep. unfold slot_of. fold D. nia.
    + intros [(_ & _ & j & Hj & Ep & Hnf) Hp].
      split; [rewrite El; exact Hm|]. split; [rewrite Eg1; exact Hu|].
      exists j. rewrite Eg1, Eslot, Efree. cbn.
      split; [exact Hj|]. split; [exact Ep|].
      apply not_elem_of_cons. split; [|exact Hnf].
      intros ->. apply Hp. exact Ep.
  - split.
    + intros Hal1. pose proof Hal1 as (Hm1 & Hu1 & j & Hj & Ep & _).
      unfold get_desc in Hu1, Hj. rewrite (Eoth d0 Hne) in Hu1, Hj.
      rewrite El in Hm1.
      split.
      * apply (allocated_slot_ext w1 w d0 p Hwf1 Hal1).
        -- symmetry. apply Eoth, Hne.
        -- exact Hm1.
        -- intros k Hk. symmetry. apply (Emem d0 k Hne Hm1 Hu1).
           unfold get_desc in Hk |- *. rewrite (Eoth d0 Hne) in Hk. exact Hk.
      * intros E. apply Hne.
        refine (proj1 (slot_of_inj w d d0 i j Hwf Hm Hu Hm1 Hu1 Hi Hj _)).
        rewrite <- E, Ep. unfold slot_of, get_desc. rewrite (Eoth d0 Hne).
        reflexivity.
    + intros [Hal0 _]. pose proof Hal0 as (Hm0 & Hu0 & _).
      apply (allocated_slot_ext w w1 d0 p Hwf Hal0).
      * apply Eoth, Hne.
      * rewrite El. exact Hm0.
      * intros k Hk. apply (Emem d0 k Hne Hm0 Hu0 Hk).
Qed.


(** A FULL descriptor is held by nobody. *)
Lemma full_unowned X w d :
  wfx X w → d ≠ 0 → state (Desc.anchor (get_desc w d)) = STATE_FULL →
  unowned (heaps w) (size_classes w) (delayed w) d.
Proof.
  intros (_ & _ & Hhs & Hqs & _ & Hdl) Hd0 Hs. unfold get_desc in Hs.
  split; [|split].
  - intros h H Eh Ea. destruct (Hhs h H Eh) as (_ & Hact).
    rewrite Ea in Hact. destruct (Hact Hd0) as (_ & _ & Hnf & _). contradiction.
  - intros s C Es Hin. destruct (Hqs s C Es) as (_ & _ & Hall).
    destruct (Hall d Hin) as (_ & _ & _ & Hnf & _). contradiction.
  - intros Hin. destruct Hdl as [_ Hdl].
    destruct (Hdl _ _ Hin) as (_ & _ & Hnf & _). contradiction.
Qed.

Lemma mono_lock_free_free_held fuel d i ptr w H C :
  wf w → dmapped (os_live w) d → Desc.in_use (get_desc w d) = true →
  0 ≤ i < Desc.max_count (get_desc w d) → ptr = slot_of w d i →
  i ∉ free_slots w d →
  heaps w !! Desc.heap (get_desc w d) = Some H →
  size_classes w !! Heap.sc H = Some C →
  (length (SizeClass.partial C) + 2 < fuel)%nat →
  returns (mono_lock_free_free fuel ptr) w (λ _ w',
    free_post w d i w'
    ∧ (∀ d0 p, allocated_slot w' d0 p ↔ allocated_slot w d0 p ∧ p ≠ ptr)
    ∧ (state (free_new_anchor (Desc.anchor (get_desc w d)) i
                (Desc.max_count (get_desc w d))) ≠ STATE_EMPTY →
       (state (Desc.anchor (get_desc w d)) = STATE_FULL → Heap.active H = 0 →
        heaps w' = <[Desc.heap (get_desc w d) := Heap.mk (Heap.sc H) d]> (heaps w)
        ∧ size_classes w' = size_classes w)
       ∧ (state (Desc.anchor (get_desc w d)) = STATE_FULL → Heap.active H ≠ 0 →
          heaps w' = heaps w)
       ∧ (state (Desc.anchor (get_desc w d)) ≠ STATE_FULL →
          heaps w' = heaps w ∧ size_classes w' = size_classes w))
    ∧ mem w' = mem (free_anchor_world w d i)).
Proof.
  intros Hwf Hm Hu Hi Eptr Hfree EH EC Hfuel.
  pose proof Hwf as (Hreg & Hds & Hhs & Hqs & Hst & Hdl).
  destruct (Hds d ltac:(apply not_elem_of_nil) Hm Hu)
    as ((hdr & Esb & Hal & Hlive & Hback) & Hheap & Hsz & Hmax & Hanc & Hall & Hnd).
  fold (get_desc w d) in *.
  pose proof (max_count_range _ Hsz) as Hmc. rewrite <- Hmax in Hmc.
  pose proof (slot_in_sb _ _ Hsz ltac:(rewrite <- Hmax; exact Hi)) as Hslot.
  assert (Hss : 16 ≤ Desc.slot_size (get_desc w d) ≤ 8184) by exact Hsz.
  assert (Hd0 : d ≠ 0) by (pose proof (dmapped_pos _ _ Hreg Hm); lia).
  assert (Ehp : SB_HEADER_FOR_ADDR ptr = hdr).
  { rewrite Eptr. unfold slot_of. rewrite Esb, <- Z.add_assoc.
    apply SB_HEADER_FOR_ADDR_in; [exact Hal|].
    unfold SB_USABLE_SIZE, SB_SIZE, SB_HEADER_SIZE in *. lia. }
  assert (Ehs : SB_HEADER_FOR_ADDR (Desc.sb (get_desc w d)) = hdr).
  { rewrite Esb. apply SB_HEADER_FOR_ADDR_in; [exact Hal|].
    unfold SB_SIZE, SB_HEADER_SIZE. lia. }
  unfold mono_lock_free_free, DESCRIPTOR_FOR_ADDR.
  apply returns_bind, returns_load.
  { rewrite Ehp. replace hdr with (hdr + 0) by lia.
    apply sb_mapped; [exact Hlive|lia|unfold SB_SIZE; change (Z.of_nat 8) with 8; lia]. }
  rewrite Ehp, Hback.
  apply returns_bind, returns_read_desc; [apply dmapped_mapped; exact Hm|].
  apply returns_bind, returns_ASSERT; [rewrite Ehs; apply Z.eqb_refl|].
  apply returns_bind. eapply returns_mono.
  { apply (free_anchor_loop_spec fuel d i ptr 0 w); auto. lia. }
  intros r w1 (-> & Ew1 & Hwf1 & Han & Hcn & Htn & Hso & Hsn).
  cbn [fst snd].
  set (D := get_desc w d) in *. set (old := Desc.anchor D) in *.
  set (new := free_new_anchor old i (Desc.max_count D)) in *.
  assert (Ew1' : w1 = free_anchor_world w d i).
  { rewrite Ew1, Eptr. reflexivity. }
  clear Ew1.
  assert (Eg1 : get_desc w1 d = Desc.with_anchor D new).
  { rewrite Ew1'. unfold free_anchor_world, get_desc. cbn. apply getd_insert_eq. }
  assert (Eh1 : heaps w1 = heaps w) by (rewrite Ew1'; reflexivity).
  assert (Es1 : size_classes w1 = size_classes w) by (rewrite Ew1'; reflexivity).
  assert (Edl1 : delayed w1 = delayed w) by (rewrite Ew1'; reflexivity).
  assert (El1 : os_live w1 = os_live w) by (rewrite Ew1'; reflexivity).
  assert (Hfin : ∀ w' (P : Prop), same_held w1 w' → P →
            (∀ d0 p, allocated_slot w' d0 p ↔ allocated_slot w d0 p ∧ p ≠ ptr)
            ∧ P).
  { intros w' P Hs HP. split; [|exact HP]. intros d0 p.
    rewrite (Hs d0 p), Ew1', Eptr.
    apply (free_anchor_held w d i Hwf Hm Hu Hi Hfree). }
  unfold free_post. fold D old new. rewrite <- Ew1'.
  unfold free_finish.
  destruct (Z.eqb_spec (state new) STATE_EMPTY) as [Hse|Hse].
  - (* the descriptor became EMPTY *)
    assert (Ecm : (count new =? Desc.max_count D) = true).
    { apply Z.eqb_eq. rewrite Hsn in Hse.
      destruct (Z.eqb_spec (count old + 1) (Desc.max_count D)); [lia|discriminate]. }
    rewrite Ecm.
    apply returns_bind, returns_ASSERT.
    { destruct (Z.eqb_spec (state old) STATE_EMPTY); [contradiction|reflexivity]. }
    apply returns_bind, (returns_cas_active _ _ _ _ H); [rewrite Eh1; exact EH|].
    destruct (Z.eqb_spec (Heap.active H) d) as [Ea|Ea].
    + (* we took it out of the heap: we retire it *)
      set (w2 := upd_heaps _ w1).
      assert (Hwf2 : wf w2).
      { apply wfx_clear_active; [exact Hwf1|rewrite Eh1; exact EH]. }
      assert (Eg2 : get_desc w2 d = Desc.with_anchor D new) by exact Eg1.
      assert (Hm2 : dmapped (os_live w2) d).
      { change (os_live w2) with (os_live w1). rewrite El1. exact Hm. }
      assert (Hu2 : Desc.in_use (get_desc w2 d) = true) by (rewrite Eg2; exact Hu).
      assert (Hse2 : state (Desc.anchor (get_desc w2 d)) = STATE_EMPTY)
        by (rewrite Eg2; exact Hse).
      assert (Esb2 : Desc.sb (get_desc w2 d) = hdr + SB_HEADER_SIZE)
        by (rewrite Eg2; exact Esb).
      assert (Hoth : ∀ d', d' ∉ [] → d' ≠ d → dmapped (os_live w2) d' →
                Desc.in_use (get_desc w2 d') = true →
                Desc.sb (get_desc w2 d') ≠ hdr + SB_HEADER_SIZE).
      { intros d' _ Hne Hm' Hu' Esb'. apply Hne.
        apply (sb_owner [] w2 d d' (hdr + SB_HEADER_SIZE) Hwf2);
          auto using not_elem_of_nil. }
      assert (Hun2 : unowned (heaps w2) (size_classes w2) (delayed w2) d).
      { rewrite <- Ea.
        apply (active_unowned [] w1 (Desc.heap D) H Hwf1);
          [rewrite Eh1; exact EH|rewrite Ea; exact Hd0]. }
      eapply returns_mono.
      { apply (desc_retire_spec fuel d [] [] w2 hdr ltac:(lia) Hwf2 Hm2 Hu2 Hse2
                 Esb2 Hal Hoth Hun2). auto. }
      intros _ w3 (Hwf3 & Hrel & _ & Etr).
      split.
      2: { apply Hfin;
             [|split; [intros N; contradiction
                      |exact (proj1 (proj2 Hrel))]].
           apply (retired_same_held [d] w2 w3 Hwf2 Hrel).
           intros d' Hd'. apply list_elem_of_singleton in Hd' as ->.
           exact Hse2. }
      split; [exact Hwf3|]. exists H, C.
      split; [exact EH|]. split; [exact EC|].
      destruct (Z.eqb_spec (Heap.active H) d) as [_|N]; [|contradiction].
      split.
      * rewrite Etr. unfold retire_events. fold D. rewrite Esb.
        replace (hdr + SB_HEADER_SIZE - SB_HEADER_SIZE) with hdr by lia.
        reflexivity.
      * destruct Hrel as (_ & _ & _ & _ & _ & _ & _ & A8 & _).
        apply A8. left.
    + (* somebody else holds it: we sweep the queue *)
      apply returns_bind, (returns_read_heap _ _ H); [rewrite Eh1; exact EH|].
      eapply returns_mono.
      { apply (list_remove_empty_desc_held fuel (Heap.sc H) w1 C Hwf1);
          [rewrite Es1; exact EC|exact Hfuel]. }
      intros u w3 [Hsweep Hsh].
      split; [|apply Hfin; [exact Hsh|split; [intros N; contradiction|]];
               exact (proj1 (proj2 (proj1 (proj2 Hsweep))))].
      split; [exact (proj1 Hsweep)|]. exists H, C.
      split; [exact EH|]. split; [exact EC|].
      destruct (Z.eqb_spec (Heap.active H) d) as [N|_]; [contradiction|].
      exact Hsweep.
  - destruct (Z.eqb_spec (state old) STATE_FULL) as [Hsf|Hsf].
    + (* the descriptor was FULL: it goes back to its heap *)
      assert (Hsp : state new = STATE_PARTIAL).
      { rewrite Hsn in Hse |- *.
        destruct (count old + 1 =? Desc.max_count D); [contradiction|reflexivity]. }
      assert (Hun : unowned (heaps w1) (size_classes w1) (delayed w1) d).
      { rewrite Eh1, Es1, Edl1. apply (full_unowned [] w d Hwf Hd0 Hsf). }
      apply returns_bind, returns_ASSERT; [rewrite Hsp; reflexivity|].
      apply returns_bind, returns_read_desc;
        [apply dmapped_mapped; rewrite El1; exact Hm|].
      rewrite Eg1. cbn [Desc.heap Desc.with_anchor].
      apply returns_bind, (returns_cas_active _ _ _ _ H); [rewrite Eh1; exact EH|].
      destruct (Z.eqb_spec (Heap.active H) 0) as [Ea|Ea]; cbn [negb].
      * apply returns_ret.
        split.
        2: { apply Hfin; [apply same_held_frame; reflexivity|].
             split; [|reflexivity].
             intros _. split; [|split; [intros _ N|intros N]; contradiction].
             intros _ _. cbn. rewrite Eh1, Es1. split; reflexivity. }
        split.
        { apply (wfx_set_active [] w1 (Desc.heap D) H d Hwf1);
            [rewrite Eh1; exact EH|rewrite El1; exact Hm| | | |exact Hun].
          - rewrite Eg1. exact Hu.
          - rewrite Eg1, Eh1. exists H. auto.
          - rewrite Eg1. cbn. rewrite Hsp. discriminate. }
        exists H, C. auto.
      * unfold heap_put_partial, list_put_partial.
        apply returns_bind, returns_read_desc;
          [apply dmapped_mapped; rewrite El1; exact Hm|].
        rewrite Eg1. cbn [Desc.anchor Desc.with_anchor].
        apply returns_bind, returns_ASSERT; [rewrite Hsp; reflexivity|].
        eapply returns_mono.
        { apply (put_partial_spec fuel d [] w1 H C Hwf1).
          - rewrite El1. exact Hm.
          - rewrite Eg1. exact Hu.
          - rewrite Eg1. cbn. rewrite Hsp. discriminate.
          - rewrite Eg1, Eh1. exact EH.
          - rewrite Es1. exact EC.
          - exact Hun. }
        intros _ w3 (Hwf3 & Ed3 & Em3 & Eh3 & El3 & _ & _ & _ & _ & Et3 & _).
        split.
        2: { apply Hfin; [exact (same_held_frame w1 w3 Ed3 Em3 El3)|].
             split; [|exact Em3].
             intros _. split; [intros _ N; contradiction|].
             split; [|intros N; contradiction].
             intros _ _. rewrite Eh3. exact Eh1. }
        split; [exact Hwf3|]. exists H, C. auto.
    + apply returns_ret. split.
      2: { apply Hfin; [exact (same_held_refl w1)|].
           split; [|reflexivity].
           intros _. split; [intros N; contradiction|].
           split; [intros N; contradiction|].
           intros _. split; [exact Eh1|exact Es1]. }
      split; [exact Hwf1|]. exists H, C. auto.
Qed.

Lemma mono_lock_free_free_spec fuel d i ptr w H C :
  wf w → dmapped (os_live w) d → Desc.in_use (get_desc w d) = true →
  0 ≤ i < Desc.max_count (get_desc w d) → ptr = slot_of w d i →
  i ∉ free_slots w d →
  heaps w !! Desc.heap (get_desc w d) = Some H →
  size_classes w !! Heap.sc H = Some C →
  (length (SizeClass.partial C) + 2 < fuel)%nat →
  returns (mono_lock_free_free fuel ptr) w (λ _ w', free_post w d i w').
Proof.
  intros Hwf Hm Hu Hi Eptr Hfree EH EC Hfuel.
  eapply returns_mono;
    [exact (mono_lock_free_free_held fuel d i ptr w H C Hwf Hm Hu Hi Eptr
              Hfree EH EC Hfuel)|].
  intros u w' [Hpost _]. exact Hpost.
Qed.

(** ** Every world reached is well formed *)
Lemma init_heap_wf script test_sc test_heap w :
  init_heap test_sc test_heap (initial_world script) = Done () w → wf w.
Proof.
  intros E. unfold init_heap, mono_lock_free_queue_init in E.
  apply bind_Done in E as (u1 & w1 & E1 & E).
  apply modify_Done in E1 as ->.
  apply bind_Done in E as (u2 & w2 & E2 & E).
  apply modify_Done in E2 as ->.
  apply modify_Done in E as ->.
  unfold wf, wfx, initial_world. wsimpl.
  rewrite lookup_empty, lookup_insert_eq. cbn [default SizeClass.partial Heap.active].
  rewrite insert_insert_eq.
  split; [exact I|].
  split.
  { intros d _ (base & Hin & _). inversion Hin. }
  split.
  { intros h H Eh. destruct (decide (h = test_heap)) as [->|Hne].
    - rewrite lookup_insert_eq in Eh. injection Eh as <-. cbn.
      split; [rewrite lookup_insert_eq; eauto|]. intros N. contradiction.
    - rewrite lookup_insert_ne, lookup_empty in Eh by auto. discriminate. }
  split.
  { intros s C Es. destruct (decide (s = test_sc)) as [->|Hne].
    - rewrite lookup_insert_eq in Es. injection Es as <-. cbn.
      split; [unfold valid_slot_size, TEST_SIZE, MAX_SMALL_SIZE; lia|].
      split; [apply NoDup_nil_2|]. intros d Hd. inversion Hd.
    - rewrite lookup_insert_ne, lookup_empty in Es by auto. discriminate. }
  split.
  { exists []. split; [reflexivity|]. split; [apply NoDup_nil_2|].
    intros d Hd. inversion Hd. }
  split; [apply NoDup_nil_2|]. intros d f Hd. inversion Hd.
Qed.

Theorem reachable_wf w : reachable w → wf w.
Proof.
  induction 1 as [script tsc th w E|w script _ IH|w l _ IH
                 |w fuel h H C addr w' _ IH Eh Ec Hos Hf E
                 |w fuel d ptr H C w' _ IH Hal Eh Ec Hf E].
  - exact (init_heap_wf _ _ _ _ E).
  - exact IH.
  - exact IH.
  - pose proof (mono_lock_free_alloc_spec fuel h H C w IH Eh Ec Hos Hf) as Hr.
    exact (proj1 (proj2 (returns_Done _ _ _ _ _ Hr E))).
  - destruct Hal as (Hm & Hu & i & Hi & Eptr & Hfree).
    pose proof (mono_lock_free_free_spec fuel d i ptr w H C IH Hm Hu Hi Eptr
                  Hfree Eh Ec Hf) as Hr.
    exact (proj1 (returns_Done _ _ _ _ _ Hr E)).
Qed.

(** ** The example worlds are reached *)
(** A call that returns leads from a world reached to its [world_after]. *)
Lemma reach_alloc_after w fuel h H C :
  reachable w → heaps w !! h = Some H →
  size_classes w !! Heap.sc H = Some C → os_willing w →
  (length (SizeClass.partial C) + 1 < fuel)%nat →
  reachable (world_after (mono_lock_free_alloc fuel h) w).
Proof.
  intros Hr Eh Ec Hos Hf.
  destruct (mono_lock_free_alloc_spec fuel h H C w (reachable_wf w Hr) Eh Ec
              Hos Hf) as (addr & w' & E & _).
  unfold world_after. rewrite E.
  exact (reach_alloc w fuel h H C addr w' Hr Eh Ec Hos Hf E).
Qed.

Lemma reach_free_after w fuel d ptr H C :
  reachable w → allocated_slot w d ptr →
  heaps w !! Desc.heap (get_desc w d) = Some H →
  size_classes w !! Heap.sc H = Some C →
  (length (SizeClass.partial C) + 2 < fuel)%nat →
  reachable (world_after (mono_lock_free_free fuel ptr) w).
Proof.
  intros Hr Hal Eh Ec Hf.
  pose proof Hal as (Hm & Hu & i & Hi & Eptr & Hfree).
  destruct (mono_lock_free_free_spec fuel d i ptr w H C (reachable_wf w Hr)
              Hm Hu Hi Eptr Hfree Eh Ec Hf) as (u & w' & E & _).
  unfold world_after. rewrite E. destruct u.
  exact (reach_free w fuel d ptr H C w' Hr Hal Eh Ec Hf E).
Qed.

Lemma os_willingb_sound w : os_willingb w = true → os_willing w.
Proof.
  unfold os_willingb, os_willing. intros E.
  destruct (os_script w) as [|a [|b rest]]; try discriminate.
  apply andb_true_iff in E as [E1 E2]. exists a, b, rest. auto.
Qed.

Lemma alloc_ready_sound fuel h w :
  alloc_ready fuel h w = true →
  ∃ H C, heaps w !! h = Some H ∧ size_classes w !! Heap.sc H = Some C ∧
         os_willing w ∧ (length (SizeClass.partial C) + 1 < fuel)%nat.
Proof.
  unfold alloc_ready. intros E.
  destruct (heaps w !! h) as [H|] eqn:Eh; [|discriminate].
  destruct (size_classes w !! Heap.sc H) as [C|] eqn:Ec; [|discriminate].
  apply andb_true_iff in E as [E1 E2]. apply bool_decide_eq_true in E1.
  exists H, C. split; [reflexivity|]. split; [exact Ec|].
  split; [exact (os_willingb_sound w E2)|exact E1].
Qed.

Lemma dmappedb_sound live d : dmappedb live d = true → dmapped live d.
Proof.
  unfold dmappedb, dmapped. intros E.
  apply existsb_exists in E as ([base size] & Hin & E). cbn in E.
  apply andb_true_iff in E as [E E3]. apply andb_true_iff in E as [E1 E2].
  apply Z.eqb_eq in E1. apply Z.leb_le in E2, E3. subst size.
  exists base. split; [apply list_elem_of_In; exact Hin|]. lia.
Qed.

Lemma free_ready_sound fuel ptr w :
  free_ready fuel ptr w = true →
  ∃ d H C, allocated_slot w d ptr ∧
           heaps w !! Desc.heap (get_desc w d) = Some H ∧
           size_classes w !! Heap.sc H = Some C ∧
           (length (SizeClass.partial C) + 2 < fuel)%nat.
Proof.
  unfold free_ready. intros E.
  set (d := load_bytes (mem w) 8 (SB_HEADER_FOR_ADDR ptr)) in *.
  set (i := (ptr - Desc.sb (get_desc w d)) / Desc.slot_size (get_desc w d)) in *.
  apply andb_true_iff in E as [E E7]. apply andb_true_iff in E as [E E6].
  apply andb_true_iff in E as [E E5]. apply andb_true_iff in E as [E E4].
  apply andb_true_iff in E as [E E3]. apply andb_true_iff in E as [E1 E2].
  destruct (heaps w !! Desc.heap (get_desc w d)) as [H|] eqn:Eh; [|discriminate].
  destruct (size_classes w !! Heap.sc H) as [C|] eqn:Ec; [|discriminate].
  apply bool_decide_eq_true in E6, E7.
  apply Z.leb_le in E3. apply Z.ltb_lt in E4. apply Z.eqb_eq in E5.
  exists d, H, C. split; [|auto].
  split; [exact (dmappedb_sound _ _ E1)|]. split; [exact E2|].
  exists i. auto.
Qed.

Lemma step_reachable fuel o w w' :
  reachable w → step fuel o w = Some w' → reachable w'.
Proof.
  intros Hr E. destruct o as [h|ptr]; cbn [step] in E.
  - destruct (alloc_ready fuel h w) eqn:Er; [|discriminate].
    injection E as <-.
    destruct (alloc_ready_sound _ _ _ Er) as (H & C & Eh & Ec & Hos & Hf).
    exact (reach_alloc_after w fuel h H C Hr Eh Ec Hos Hf).
  - destruct (free_ready fuel ptr w) eqn:Er; [|discriminate].
    injection E as <-.
    destruct (free_ready_sound _ _ _ Er) as (d & H & C & Hal & Eh & Ec & Hf).
    exact (reach_free_after w fuel d ptr H C Hr Hal Eh Ec Hf).
Qed.

Lemma run_reachable fuel ops : ∀ w,
  reachable w → is_Some (run fuel ops w) →
  reachable (default w (run fuel ops w)).
Proof.
  induction ops as [|o ops IH]; intros w Hr Hs; [exact Hr|].
  cbn [run] in *. destruct (step fuel o w) as [w1|] eqn:E.
  - pose proof (step_reachable _ _ _ _ Hr E) as Hr1.
    destruct (run fuel ops w1) as [w2|] eqn:E2.
    + specialize (IH w1 Hr1). rewrite E2 in IH. apply IH. eauto.
    + destruct Hs as [? Hs]. discriminate.
  - destruct Hs as [? Hs]. discriminate.
Qed.

Lemma world_init_reachable : reachable world_init.
Proof. apply (reach_init test_script test_sc test_heap). reflexivity. Qed.

Lemma world_one_reachable : reachable world_one.
Proof.
  unfold world_one. apply run_reachable; [exact world_init_reachable|].
  apply (bool_decide_unpack (is_Some _)). vm_compute. exact I.
Qed.

Lemma world_two_reachable : reachable world_two.
Proof.
  unfold world_two. apply run_reachable; [exact world_init_reachable|].
  apply (bool_decide_unpack (is_Some _)). vm_compute. exact I.
Qed.

Lemma world_sweep_reachable : reachable world_sweep.
Proof.
  unfold world_sweep. apply run_reachable; [exact world_init_reachable|].
  apply (bool_decide_unpack (is_Some _)). vm_compute. exact I.
Qed.

(** ** C3: the anchor's state follows its count *)

Lemma anchor_ok_invariant a max_count :
  2 ≤ max_count → anchor_ok a max_count → anchor_invariant a max_count.
Proof.
  unfold anchor_ok, anchor_invariant, STATE_EMPTY, STATE_FULL, STATE_PARTIAL.
  intros Hm [[E1 E2]|[[E1 E2]|[E1 E2]]]; rewrite E1; lia.
Qed.

Lemma wf_anchors_ok w : wf w → anchors_ok w.
Proof.
  intros (_ & Hds & _) d Hm Hu.
  destruct (Hds d ltac:(apply not_elem_of_nil) Hm Hu)
    as (_ & _ & Hsz & Hmax & Hanc & _).
  fold (get_desc w d) in *.
  apply anchor_ok_invariant; [|exact Hanc].
  rewrite Hmax. apply (max_count_range _ Hsz).
Qed.

(** C3. In every world reached, the anchor of every live descriptor has
    [count = max_count] exactly when its state is EMPTY, [count = 0]
    exactly when it is FULL, and is PARTIAL otherwise; and each of the
    three operations that write anchors, run from such a world, returns
    with a world where this holds again. *)
Theorem anchor_invariant_holds w :
  reachable w →
  anchors_ok w
  ∧ (∀ fuel h H C,
       heaps w !! h = Some H → size_classes w !! Heap.sc H = Some C →
       (length (SizeClass.partial C) + 1 < fuel)%nat →
       returns (alloc_from_active_or_partial fuel h) w
         (λ _ w', anchors_ok w'))
  ∧ (∀ fuel h H C,
       heaps w !! h = Some H → size_classes w !! Heap.sc H = Some C →
       new_sb_ready w → (1 ≤ fuel)%nat →
       returns (alloc_from_new_sb fuel h) w (λ _ w', anchors_ok w'))
  ∧ (∀ fuel d ptr H C,
       allocated_slot w d ptr →
       heaps w !! Desc.heap (get_desc w d) = Some H →
       size_classes w !! Heap.sc H = Some C →
       (length (SizeClass.partial C) + 2 < fuel)%nat →
       returns (mono_lock_free_free fuel ptr) w (λ _ w', anchors_ok w')).
Proof.
  intros Hr. pose proof (reachable_wf w Hr) as Hwf.
  split; [exact (wf_anchors_ok w Hwf)|].
  split.
  { intros fuel h H C Eh Ec Hf. eapply returns_mono.
    - exact (alloc_from_active_or_partial_spec fuel h H C w Hwf Eh Ec Hf).
    - intros a w' Hp. apply wf_anchors_ok. exact (proj1 Hp). }
  split.
  { intros fuel h H C Eh Ec Hos Hf. eapply returns_mono.
    - exact (alloc_from_new_sb_spec fuel h H C w Hf Hwf Eh Ec Hos).
    - intros a w' Hp. apply wf_anchors_ok. exact (proj1 Hp). }
  intros fuel d ptr H C (Hm & Hu & i & Hi & Eptr & Hfree) Eh Ec Hf.
  eapply returns_mono.
  - exact (mono_lock_free_free_spec fuel d i ptr w H C Hwf Hm Hu Hi Eptr Hfree
             Eh Ec Hf).
  - intros a w' Hp. apply wf_anchors_ok. exact (proj1 Hp).
Qed.

Lemma anchor_invariant_holds_witness :
  anchor_invariant (Desc.anchor (get_desc world_two 163840))
    (Desc.max_count (get_desc world_two 163840)).
Proof.
  apply (proj1 (anchor_invariant_holds world_two world_two_reachable)).
  - apply dmappedb_sound. vm_compute. reflexivity.
  - vm_compute. reflexivity.
Defined.
(** A run that has a result is [Done] with its [world_after]. *)
Lemma done_of_result {A} (m : M A) w a :
  result_of m w = Some a → m w = Done a (world_after m w).
Proof.
  unfold result_of, world_after. destruct (m w); [|discriminate].
  intros [= ->]. reflexivity.
Qed.

(** ** C9: no descriptor is in use and on the stack of free ones *)

Lemma stack_chain_unique ds : ∀ l1 l2 p,
  stack_chain ds p l1 → stack_chain ds p l2 → l1 = l2.
Proof.
  induction l1 as [|d l1 IH]; intros [|d2 l2] p H1 H2; cbn in *.
  - reflexivity.
  - destruct H2 as (-> & N & _). congruence.
  - destruct H1 as (-> & N & _). congruence.
  - destruct H1 as (-> & _ & H1), H2 as (<- & _ & H2).
    f_equal. exact (IH _ _ H1 H2).
Qed.

Lemma wf_stack_not_in_use X w d :
  wfx X w → on_stack w d → Desc.in_use (get_desc w d) = false.
Proof.
  intros (_ & _ & _ & _ & (l & Hc & _ & Hall) & _) (l' & Hc' & Hin).
  rewrite (stack_chain_unique _ _ _ _ Hc' Hc) in Hin.
  exact (proj1 (proj2 (Hall d Hin))).
Qed.

Lemma desc_alloc_Done fuel w d w' :
  desc_alloc fuel w = Done d w' →
  ∃ w1, desc_alloc_loop fuel w = Done d w1 ∧
        Desc.in_use (get_desc w1 d) = false ∧
        w' = put_desc d (Desc.with_in_use (get_desc w1 d) true) w1.
Proof.
  unfold desc_alloc. intros E.
  apply bind_Done in E as (d1 & w1 & E1 & E).
  apply bind_Done in E as (D & w2 & E2 & E).
  apply read_desc_Done in E2 as (Hm & -> & ->).
  apply bind_Done in E as (u & w3 & E3 & E).
  apply ASSERT_Done in E3 as (Hu & ->).
  apply bind_Done in E as (u' & w4 & E4 & E).
  apply write_desc_Done in E4 as (_ & ->).
  apply ret_Done in E as (-> & ->).
  exists w1. split; [exact E1|]. split; [|reflexivity].
  destruct (Desc.in_use (get_desc w1 d1)); [discriminate|reflexivity].
Qed.

Lemma desc_retire_Done fuel d w w' :
  desc_retire fuel d w = Done () w' →
  Desc.in_use (get_desc w d) = true ∧
  state (Desc.anchor (get_desc w d)) = STATE_EMPTY ∧
  ∃ w2, Desc.in_use (get_desc w2 d) = false ∧
        mono_thread_hazardous_free_or_queue fuel d Fn_desc_enqueue_avail w2
        = Done () w'.
Proof.
  unfold desc_retire. intros E.
  apply bind_Done in E as (u0 & w0 & E0 & E).
  apply modify_Done in E0 as ->.
  apply bind_Done in E as (D & w1 & E1 & E).
  apply read_desc_Done in E1 as (Hm & -> & ->).
  apply bind_Done in E as (u1 & w2 & E2 & E).
  apply ASSERT_Done in E2 as (Hs & ->).
  apply bind_Done in E as (u2 & w3 & E3 & E).
  apply ASSERT_Done in E3 as (Hu & ->).
  apply bind_Done in E as (u3 & w4 & E4 & E).
  apply write_desc_Done in E4 as (_ & ->).
  apply bind_Done in E as (u4 & w5 & E5 & E).
  change (get_desc (log (EvRetire d) w) d) with (get_desc w d) in *.
  split; [exact Hu|]. split; [apply Z.eqb_eq; exact Hs|].
  exists w5. split; [|exact E].
  unfold free_sb in E5.
  apply bind_Done in E5 as (u5 & w6 & E6 & E5).
  apply ASSERT_Done in E6 as (_ & ->).
  unfold mono_sgen_free_os_memory in E5. injection E5 as _ <-.
  exact (f_equal Desc.in_use
           (get_desc_put_desc_eq d (Desc.with_in_use (get_desc w d) false)
              (log (EvRetire d) w))).
Qed.

Lemma desc_enqueue_avail_Done fuel d w w' :
  desc_enqueue_avail fuel d w = Done () w' →
  Desc.in_use (get_desc w d) = false ∧
  state (Desc.anchor (get_desc w d)) = STATE_EMPTY.
Proof.
  unfold desc_enqueue_avail. intros E.
  apply bind_Done in E as (D & w1 & E1 & E).
  apply read_desc_Done in E1 as (Hm & -> & ->).
  apply bind_Done in E as (u1 & w2 & E2 & E).
  apply ASSERT_Done in E2 as (Hs & ->).
  apply bind_Done in E as (u2 & w3 & E3 & E).
  apply ASSERT_Done in E3 as (Hu & ->).
  split; [|apply Z.eqb_eq; exact Hs].
  destruct (Desc.in_use (get_desc w d)); [discriminate|reflexivity].
Qed.

(** C9. In every world reached, a descriptor on the [desc_avail] stack is
    not marked in use.  [desc_alloc] returns a descriptor whose flag was
    false and sets it before it returns, so that the descriptor is in use
    and off the stack; [desc_retire] returns only for a descriptor that is
    in use, and has cleared the flag when it hands the descriptor over for
    the push; [desc_enqueue_avail] returns only for a descriptor that is
    not in use and whose anchor is EMPTY. *)
Theorem in_use_excludes_stack w :
  reachable w →
  (∀ d, on_stack w d → Desc.in_use (get_desc w d) = false)
  ∧ (∀ fuel d w', desc_alloc fuel w = Done d w' →
       (∃ w1, desc_alloc_loop fuel w = Done d w1 ∧
              Desc.in_use (get_desc w1 d) = false) ∧
       Desc.in_use (get_desc w' d) = true ∧
       (desc_avail w ≠ 0 →
          d = desc_avail w ∧ on_stack w d ∧ ¬ on_stack w' d))
  ∧ (∀ fuel d w0 w', desc_retire fuel d w0 = Done () w' →
       Desc.in_use (get_desc w0 d) = true ∧
       ∃ w2, Desc.in_use (get_desc w2 d) = false ∧
             mono_thread_hazardous_free_or_queue fuel d
               Fn_desc_enqueue_avail w2 = Done () w')
  ∧ (∀ fuel d w0 w', desc_enqueue_avail fuel d w0 = Done () w' →
       Desc.in_use (get_desc w0 d) = false ∧
       state (Desc.anchor (get_desc w0 d)) = STATE_EMPTY).
Proof.
  intros Hr. pose proof (reachable_wf w Hr) as Hwf.
  split; [intros d; exact (wf_stack_not_in_use [] w d Hwf)|].
  split.
  { intros fuel d w' E.
    destruct (desc_alloc_Done _ _ _ _ E) as (w1 & E1 & Hu1 & Ew').
    split; [eauto|]. split.
    { rewrite Ew', get_desc_put_desc_eq. reflexivity. }
    intros Hne.
    assert (Hf : (1 ≤ fuel)%nat).
    { destruct fuel; [|lia]. discriminate E1. }
    pose proof (desc_alloc_pop_spec fuel [] w Hf Hwf Hne) as Hret.
    destruct (returns_Done _ _ _ _ _ Hret E)
      as (Hwf' & _ & Hu' & _ & _ & _ & _ & _ & _ & _ & _ & Hcase).
    destruct (Z.eqb_spec (desc_avail w) 0) as [|_]; [contradiction|].
    destruct Hcase as (_ & _ & ->).
    split; [reflexivity|]. split.
    - destruct Hwf as (_ & _ & _ & _ & (l & Hc & _ & _) & _).
      exists l. split; [exact Hc|].
      destruct l as [|x l]; cbn in Hc; [contradiction|].
      destruct Hc as (-> & _). left.
    - intros Hon. pose proof (wf_stack_not_in_use _ _ _ Hwf' Hon). congruence. }
  split.
  { intros fuel d w0 w' E.
    destruct (desc_retire_Done _ _ _ _ E) as (Hu & _ & Hq). auto. }
  intros fuel d w0 w' E. exact (desc_enqueue_avail_Done _ _ _ _ E).
Qed.

Lemma in_use_excludes_stack_witness :
  Desc.in_use (get_desc (world_after (desc_alloc 1) world_two) (test_desc 2))
  = true.
Proof.
  destruct (in_use_excludes_stack world_two world_two_reachable)
    as (_ & Ha & _).
  destruct (Ha 1%nat (test_desc 2) (world_after (desc_alloc 1) world_two))
    as (_ & Hu & _).
  - apply (done_of_result (desc_alloc 1)). vm_compute. reflexivity.
  - exact Hu.
Defined.
(** ** C7: [list_get_partial] retires the EMPTY descriptors it finds *)

(** C7. [list_get_partial] dequeues a run [retired] of descriptors from
    the front of the partial queue, all of them EMPTY and each of them
    retired, none returned.  It returns null when that run is the whole
    queue, and otherwise the descriptor behind the run, whose anchor is
    not EMPTY, neither when the call began nor when it returns; what is
    behind that descriptor stays queued. *)
Theorem list_get_partial_skips_empty fuel s w C :
  wf w → size_classes w !! s = Some C →
  (length (SizeClass.partial C) < fuel)%nat →
  returns (list_get_partial fuel s) w (λ r w',
    ∃ retired rest,
      SizeClass.partial C = retired ++ rest
      ∧ (∀ d, d ∈ retired → state (Desc.anchor (get_desc w d)) = STATE_EMPTY)
      ∧ retired_in (drop (length (trace w)) (trace w')) = retired
      ∧ (∀ d, d ∈ retired → Desc.in_use (get_desc w' d) = false)
      ∧ (r = 0 → rest = [])
      ∧ (r ≠ 0 →
           ∃ q, rest = r :: q ∧
                state (Desc.anchor (get_desc w r)) ≠ STATE_EMPTY ∧
                state (Desc.anchor (get_desc w' r)) ≠ STATE_EMPTY ∧
                size_classes w' !! s
                = Some (SizeClass.mk q (SizeClass.slot_size C)))).
Proof.
  intros Hwf Es Hf. eapply returns_mono.
  { exact (list_get_partial_spec fuel s w C Hwf Es Hf). }
  intros r w' (retired & rest & E1 & E2 & E3 & E4 & Hwf' & Hrel & Hst & Etr & Hr).
  exists retired, rest.
  split; [exact E1|]. split; [exact Hst|].
  split.
  { rewrite Etr, drop_app_length. clear. induction retired as [|d l IH];
      [reflexivity|]. cbn. f_equal. exact IH. }
  split.
  { destruct Hrel as (_ & _ & _ & _ & _ & _ & _ & A8 & _). exact A8. }
  split.
  { intros ->. exact E2. }
  intros Hne. destruct (Z.eqb_spec r 0) as [|_]; [contradiction|].
  destruct E2 as (q & -> & Eq). exists q.
  destruct (Hr Hne) as (_ & _ & Hp & _).
  split; [reflexivity|]. split; [|split; [rewrite Hp; discriminate|exact Eq]].
  assert (Hnin : r ∉ retired).
  { destruct Hwf as (_ & _ & _ & Hqs & _).
    destruct (Hqs s C Es) as (_ & Hnd & _). rewrite E1 in Hnd.
    apply NoDup_app in Hnd as (_ & Hd & _). intros Hin.
    apply (Hd r Hin). left. }
  destruct Hrel as (_ & _ & _ & _ & _ & A6 & _).
  unfold get_desc in *. rewrite <- (A6 r Hnin), Hp. discriminate.
Qed.

Lemma list_get_partial_skips_empty_witness :
  ∃ r w', list_get_partial 10 test_sc world_sweep = Done r w'
          ∧ state (Desc.anchor (get_desc world_sweep (test_desc 5))) = STATE_EMPTY.
Proof.
  destruct (list_get_partial_skips_empty 10 test_sc world_sweep sweep_class)
    as (r & w' & E & _).
  - exact (reachable_wf _ world_sweep_reachable).
  - vm_compute. reflexivity.
  - vm_compute. lia.
  - exists r, w'. split; [exact E|]. vm_compute. reflexivity.
Defined.

(** ** C4: the superblock that [alloc_from_new_sb] installs *)

(** C4. When [alloc_from_new_sb] installs its descriptor [d] as the active
    one of the heap, the anchor of [d] is {avail 1, count max_count - 1,
    tag 0, state PARTIAL}, slot [i] of the superblock holds [i + 1] for
    every [i] from 1 to [max_count - 2], the address returned is slot 0,
    and the free chain from [avail] is 1, 2, ..., [max_count - 1]: [count]
    distinct slots of the superblock, slot 0 not among them. *)
Theorem new_sb_anchor_and_chain fuel h H C w :
  wf w → heaps w !! h = Some H → size_classes w !! Heap.sc H = Some C →
  Heap.active H = 0 → new_sb_ready w → (1 ≤ fuel)%nat →
  returns (alloc_from_new_sb fuel h) w (λ r w',
    ∃ d, let D := get_desc w' d in
      heaps w' !! h = Some (Heap.mk (Heap.sc H) d)
      ∧ Desc.max_count D = SB_USABLE_SIZE / SizeClass.slot_size C
      ∧ avail (Desc.anchor D) = 1
      ∧ count (Desc.anchor D) = Desc.max_count D - 1
      ∧ tag (Desc.anchor D) = 0
      ∧ state (Desc.anchor D) = STATE_PARTIAL
      ∧ (∀ i, 1 ≤ i ≤ Desc.max_count D - 2 →
              load_bytes (mem w') 4 (slot_of w' d i) = i + 1)
      ∧ r = slot_of w' d 0 ∧ r ≠ 0
      ∧ free_slots w' d = seqZ 1 (Desc.max_count D - 1)
      ∧ NoDup (free_slots w' d)
      ∧ Z.of_nat (length (free_slots w' d)) = count (Desc.anchor D)
      ∧ (∀ i, i ∈ free_slots w' d → 1 ≤ i < Desc.max_count D)).
Proof.
  intros Hwf Eh Ec Ha Hos Hf. eapply returns_mono.
  { exact (alloc_from_new_sb_spec fuel h H C w Hf Hwf Eh Ec Hos). }
  intros r w' (Hwf' & Hcase). rewrite Ha in Hcase. cbn in Hcase.
  destruct Hcase as (Hr & d & Hinst).
  pose proof Hinst as (E1 & E2 & Hdm & Hu & E5 & E6 & E7 & E8 & E9 & E10 & E11
                       & E12 & E13 & E14 & E15).
  assert (Hvs : valid_slot_size (SizeClass.slot_size C)).
  { destruct Hwf as (_ & _ & _ & Hq & _). exact (proj1 (Hq _ _ Ec)). }
  pose proof (max_count_range _ Hvs) as Hmc. rewrite <- E7 in Hmc.
  exists d. cbv zeta.
  split; [rewrite E1; apply lookup_insert_eq|].
  split; [exact E7|]. split; [exact E8|]. split; [exact E9|].
  split; [exact E10|]. split; [exact E11|]. split; [exact E14|].
  split; [exact E13|]. split; [exact Hr|]. split; [exact E15|].
  rewrite E15. split; [apply NoDup_seqZ|].
  split; [rewrite length_seqZ, E9; lia|].
  intros i Hi. apply elem_of_seqZ in Hi. lia.
Qed.

Lemma new_sb_anchor_and_chain_witness :
  ∃ r w', alloc_from_new_sb 1 test_heap world_init = Done r w' ∧ r ≠ 0.
Proof.
  destruct (new_sb_anchor_and_chain 1 test_heap (Heap.mk test_sc 0)
              (SizeClass.mk [] TEST_SIZE) world_init)
    as (r & w' & E & d & H).
  - exact (reachable_wf _ world_init_reachable).
  - vm_compute. reflexivity.
  - vm_compute. reflexivity.
  - reflexivity.
  - unfold new_sb_ready.
    change (desc_avail world_init =? 0) with true. cbv iota.
    exists (SB_SIZE * 10), (SB_SIZE * 11), (map (λ k, SB_SIZE * k) (seqZ 12 10)).
    split; [vm_compute; reflexivity|]. split; vm_compute; reflexivity.
  - lia.
  - exists r, w'. split; [exact E|]. exact (proj1 (proj2 (proj2 (proj2 (proj2
      (proj2 (proj2 (proj2 (proj2 H))))))))).
Defined.
(** ** C2: what [mono_lock_free_alloc] returns *)

Lemma bind_Crash {A B} (m : M A) (f : A → M B) w e :
  m w = Crash e → bind m f w = Crash e.
Proof. unfold bind. intros ->. reflexivity. Qed.

Lemma null_unmapped w n : regions_ok (os_live w) → mapped w 0 n = false.
Proof.
  intros Hr. destruct (mapped w 0 n) eqn:E; [|reflexivity].
  apply mapped_In in E as (r & Hin & H1 & _).
  pose proof (regions_ok_pos _ _ Hr Hin) as (Hp & _). lia.
Qed.

(** With nothing to take a slot from, phase one returns null. *)
Lemma alloc_from_nothing fuel h H C w :
  heaps w !! h = Some H → size_classes w !! Heap.sc H = Some C →
  Heap.active H = 0 → SizeClass.partial C = [] →
  alloc_from_active_or_partial (S fuel) h w = Done 0 w.
Proof.
  intros Eh Ec Ha Eq. cbn [alloc_from_active_or_partial].
  rewrite (bind_eq _ _ w H w) by (apply read_heap_Done; auto).
  rewrite Ha. cbn [Z.eqb negb].
  assert (E : heap_get_partial (S fuel) h w = Done 0 w).
  { unfold heap_get_partial.
    rewrite (bind_eq _ _ w H w) by (apply read_heap_Done; auto).
    cbn [list_get_partial]. unfold mono_lock_free_queue_dequeue.
    rewrite (bind_eq _ _ w 0 w); [reflexivity|].
    rewrite (bind_eq _ _ w C w) by (apply read_sc_Done; auto).
    rewrite Eq. reflexivity. }
  rewrite (bind_eq _ _ w (Some 0) w); [reflexivity|].
  rewrite (bind_eq _ _ w 0 w E). reflexivity.
Qed.

(** A refusal of the OS is not checked for: the null it returns is
    written through. *)
Lemma alloc_sb_refused d w :
  regions_ok (os_live w) → os_script w = [] → alloc_sb d w = Crash Segfault.
Proof.
  intros Hr Es. unfold alloc_sb.
  rewrite (bind_eq _ _ w 0 (log (EvOsAlloc SB_SIZE 0) w)).
  2:{ unfold mono_sgen_alloc_os_memory_aligned. rewrite Es. reflexivity. }
  change (SB_HEADER_FOR_ADDR 0) with 0. cbn [Z.eqb].
  rewrite (bind_eq _ _ _ () (log (EvOsAlloc SB_SIZE 0) w)) by reflexivity.
  apply bind_Crash. unfold store.
  change (mapped (log (EvOsAlloc SB_SIZE 0) w) 0 (Z.of_nat 8))
    with (mapped w 0 (Z.of_nat 8)).
  rewrite (null_unmapped w _ Hr). reflexivity.
Qed.

Lemma desc_alloc_refused fuel w :
  regions_ok (os_live w) → os_script w = [] → desc_avail w = 0 →
  desc_alloc (S fuel) w = Crash Segfault.
Proof.
  intros Hr Es Ed. unfold desc_alloc. apply bind_Crash.
  cbn [desc_alloc_loop].
  rewrite (bind_eq _ _ w 0 (upd_hazard 0 w)).
  2:{ unfold mono_thread_hazardous_load, read_ptr.
      rewrite (bind_eq _ _ w 0 w); [reflexivity|].
      rewrite (bind_eq _ _ w w w) by reflexivity. rewrite Ed. reflexivity. }
  apply bind_Crash. unfold desc_alloc_try. cbn [Z.eqb negb].
  apply bind_Crash.
  rewrite (bind_eq _ _ _ 0 (log (EvOsAlloc (Desc.size * NUM_DESC_BATCH) 0)
                              (upd_hazard 0 w))).
  2:{ unfold mono_sgen_alloc_os_memory, mono_sgen_alloc_os_memory_aligned.
      cbn [os_script upd_hazard]. rewrite Es. reflexivity. }
  apply bind_Crash.
  change (Z.to_nat NUM_DESC_BATCH) with (S 63). cbn [organize_descs].
  change (0 <? NUM_DESC_BATCH) with true. cbv iota.
  apply bind_Crash. unfold write_desc.
  change (mapped (log (EvOsAlloc (Desc.size * NUM_DESC_BATCH) 0) (upd_hazard 0 w))
            0 Desc.size) with (mapped w 0 Desc.size).
  rewrite (null_unmapped w _ Hr). reflexivity.
Qed.

Lemma alloc_from_new_sb_refused fuel h w :
  wf w → os_script w = [] →
  alloc_from_new_sb (S fuel) h w = Crash Segfault.
Proof.
  intros Hwf Es. unfold alloc_from_new_sb.
  destruct (Z.eq_dec (desc_avail w) 0) as [Ed|Ed].
  - apply bind_Crash. exact (desc_alloc_refused fuel w (proj1 Hwf) Es Ed).
  - destruct (desc_alloc_pop_spec (S fuel) [] w ltac:(lia) Hwf Ed)
      as (d & w1 & E & Hwf1 & _ & _ & _ & _ & _ & _ & _ & _ & _ & _ & Hcase).
    destruct (Z.eqb_spec (desc_avail w) 0) as [|_]; [contradiction|].
    destruct Hcase as (Es1 & _ & _).
    rewrite (bind_eq _ _ w d w1 E). apply bind_Crash.
    apply alloc_sb_refused; [exact (proj1 Hwf1)|congruence].
Qed.

Lemma mono_lock_free_alloc_refused fuel h H C w :
  wf w → heaps w !! h = Some H → size_classes w !! Heap.sc H = Some C →
  Heap.active H = 0 → SizeClass.partial C = [] → os_script w = [] →
  mono_lock_free_alloc (S fuel) h w = Crash Segfault.
Proof.
  intros Hwf Eh Ec Ha Eq Es. cbn [mono_lock_free_alloc].
  rewrite (bind_eq _ _ w 0 w (alloc_from_nothing fuel h H C w Eh Ec Ha Eq)).
  cbn [Z.eqb negb]. apply bind_Crash.
  exact (alloc_from_new_sb_refused fuel h w Hwf Es).
Qed.


(** C2, as the code has it. [mono_lock_free_alloc] never returns null.
    Called on a heap of a well-formed world while the OS is willing, it
    returns the address of a slot of the heap's slot size that is not
    free, inside a mapped superblock at the offset [SB_HEADER_SIZE + i *
    slot_size] from its [SB_SIZE]-aligned start, and leaves a well-formed
    world, in which every anchor is consistent.  When the heap has no
    slot to give and the OS refuses memory, the call does not return: the
    null of the OS is written through. *)
Theorem alloc_returns_slot_never_null fuel h H C w :
  wf w → heaps w !! h = Some H → size_classes w !! Heap.sc H = Some C →
  (length (SizeClass.partial C) + 1 < fuel)%nat →
  (os_willing w →
   returns (mono_lock_free_alloc fuel h) w (λ addr w',
     addr ≠ 0 ∧ wf w' ∧ anchors_ok w' ∧
     ∃ d i hdr,
       dmapped (os_live w') d ∧ Desc.in_use (get_desc w' d) = true ∧
       Desc.slot_size (get_desc w' d) = SizeClass.slot_size C ∧
       hdr mod SB_SIZE = 0 ∧ (hdr, SB_SIZE) ∈ os_live w' ∧
       0 ≤ i < Desc.max_count (get_desc w' d) ∧
       addr = hdr + SB_HEADER_SIZE + i * SizeClass.slot_size C ∧
       addr + SizeClass.slot_size C ≤ hdr + SB_SIZE ∧
       mapped w' addr (SizeClass.slot_size C) = true ∧
       i ∉ free_slots w' d))
  ∧ (∀ fuel' w0 addr w',
       mono_lock_free_alloc fuel' h w0 = Done addr w' → addr ≠ 0)
  ∧ (Heap.active H = 0 → SizeClass.partial C = [] → os_script w = [] →
     mono_lock_free_alloc fuel h w = Crash Segfault).
Proof.
  intros Hwf Eh Ec Hf. split; [|split].
  - intros Hos. eapply returns_mono.
    { exact (mono_lock_free_alloc_spec fuel h H C w Hwf Eh Ec Hos Hf). }
    intros addr w' (Hne & Hwf' & d & Hal & Ess).
    split; [exact Hne|]. split; [exact Hwf'|].
    split; [exact (wf_anchors_ok w' Hwf')|].
    destruct (allocated_slot_region w' d addr Hwf' Hal)
      as (i & hdr & H1 & H2 & H3 & H4 & H5 & H6 & H7).
    rewrite Ess in H4, H5, H6.
    exists d, i, hdr. destruct Hal as (Hm & Hu & _). auto 12.
  - intros fuel' w0 addr w'. apply mono_lock_free_alloc_nonnull.
  - intros Ha Eq Es. destruct fuel as [|n]; [lia|].
    exact (mono_lock_free_alloc_refused n h H C w Hwf Eh Ec Ha Eq Es).
Qed.

Lemma alloc_returns_slot_never_null_witness :
  mono_lock_free_alloc 3 test_heap world_refused = Crash Segfault.
Proof.
  apply (alloc_returns_slot_never_null 3 test_heap (Heap.mk test_sc 0)
           (SizeClass.mk [] TEST_SIZE) world_refused).
  - apply (init_heap_wf [] test_sc test_heap). reflexivity.
  - vm_compute. reflexivity.
  - vm_compute. reflexivity.
  - vm_compute. lia.
  - reflexivity.
  - reflexivity.
  - reflexivity.
Defined.

(** The OS refuses, and the call returns no null. *)
Lemma alloc_null_iff_refused_counterexample :
  ¬ (os_script world_refused = []
     ↔ ∃ fuel w', mono_lock_free_alloc fuel test_heap world_refused
                  = Done 0 w').
Proof.
  intros [Hnull _]. destruct (Hnull eq_refl) as (fuel & w' & E).
  exact (mono_lock_free_alloc_nonnull fuel _ _ _ _ E eq_refl).
Qed.
(** ** C6: the sweep of [list_remove_empty_desc] *)




(** The world of the call: the three descriptors at the front of the queue
    are EMPTY. *)
Lemma sweep_call_world_facts :
  reachable world_sweep
  ∧ map (λ d, state (Desc.anchor (get_desc sweep_call_world d)))
      (map test_desc [5; 6; 7]) = [STATE_EMPTY; STATE_EMPTY; STATE_EMPTY].
Proof.
  split; [exact world_sweep_reachable|]. vm_compute. reflexivity.
Qed.


(** ** C1: the tag of the anchor *)

Lemma free_anchor_try_Done desc ptr sb heap old w ok new heap' w' :
  free_anchor_try desc ptr sb heap old w = Done (ok, new, heap') w' →
  ∃ index max_count,
    new = free_new_anchor old index max_count.
Proof.
  unfold free_anchor_try. intros E.
  apply bind_Done in E as (u1 & w1 & E1 & E).
  apply bind_Done in E as (D & w2 & E2 & E).
  destruct (Desc.slot_size D =? 0); [discriminate|].
  apply bind_Done in E as (mx & w3 & E3 & E).
  apply bind_Done in E as (u4 & w4 & E4 & E).
  apply bind_Done in E as (ok' & w5 & E5 & E).
  apply ret_Done in E as (E & _). injection E as _ -> _.
  eexists _, (Desc.max_count D). reflexivity.
Qed.

Lemma alloc_anchor_try_Done fuel desc old w addr new w' :
  alloc_anchor_try fuel desc old w = Done (Cas_done addr new) w' →
  ∃ next, new = alloc_new_anchor old next.
Proof.
  unfold alloc_anchor_try. intros E.
  destruct (state old =? STATE_EMPTY).
  { apply bind_Done in E as (u & w1 & _ & E). apply ret_Done in E as (E & _).
    discriminate. }
  apply bind_Done in E as (u1 & w1 & E1 & E).
  apply bind_Done in E as (u2 & w2 & E2 & E).
  apply bind_Done in E as (D & w3 & E3 & E).
  apply bind_Done in E as (u4 & w4 & E4 & E).
  apply bind_Done in E as (next & w5 & E5 & E).
  apply bind_Done in E as (mx & w6 & E6 & E).
  apply bind_Done in E as (u7 & w7 & E7 & E).
  apply bind_Done in E as (ok & w8 & E8 & E).
  apply ret_Done in E as (E & _).
  destruct ok; [|discriminate]. injection E as _ ->.
  exists next. reflexivity.
Qed.

(** C1, as the code has it. A successful anchor CAS of the free path
    leaves the tag as it was: [mono_lock_free_free] has no [++tag].  A
    successful anchor CAS of the alloc path adds one to the tag, within
    its 42 bits. *)
Theorem tag_kept_by_free_incremented_by_alloc
    desc ptr sb heap old w new heap' w' fuel adesc aold aw addr anew aw' :
  free_anchor_try desc ptr sb heap old w = Done (true, new, heap') w' →
  alloc_anchor_try fuel adesc aold aw = Done (Cas_done addr anew) aw' →
  tag new = tag old ∧ tag anew = (tag aold + 1) mod 2 ^ 42.
Proof.
  intros Ef Ea.
  destruct (free_anchor_try_Done _ _ _ _ _ _ _ _ _ _ Ef) as (i & mx & ->).
  destruct (alloc_anchor_try_Done _ _ _ _ _ _ _ Ea) as (next & ->).
  split; [apply free_new_anchor_tag|apply alloc_new_anchor_tag].
Qed.

Lemma tag_kept_by_free_incremented_by_alloc_witness :
  tag 5502976 = tag 5501954 ∧ tag 9695235 = (tag 5501954 + 1) mod 2 ^ 42.
Proof.
  apply (tag_kept_by_free_incremented_by_alloc
           (test_desc 1) (test_slot 1 0) (test_sb 1) 0 5501954 world_two
           5502976 0
           (world_after (free_anchor_try (test_desc 1) (test_slot 1 0)
                           (test_sb 1) 0 5501954) world_two)
           3 (test_desc 1) 5501954 world_two 180368 9695235
           (world_after (alloc_anchor_try 3 (test_desc 1) 5501954) world_two)).
  - apply (done_of_result
             (free_anchor_try (test_desc 1) (test_slot 1 0) (test_sb 1) 0 5501954)).
    vm_compute. reflexivity.
  - apply (done_of_result (alloc_anchor_try 3 (test_desc 1) 5501954)).
    vm_compute. reflexivity.
Defined.

(** In [world_two] the anchor of the first descriptor has tag 1; the CAS
    of the free of slot 0 succeeds and leaves tag 1, not 2. *)
Lemma free_tag_increment_counterexample :
  ¬ (∀ new heap',
       result_of (free_anchor_try (test_desc 1) (test_slot 1 0) (test_sb 1) 0
                    (Desc.anchor (get_desc world_two (test_desc 1))))
         world_two = Some (true, new, heap') →
       tag new = tag (Desc.anchor (get_desc world_two (test_desc 1))) + 1).
Proof.
  intros H. specialize (H 5502976 0).
  assert (E : tag 5502976 = tag (Desc.anchor (get_desc world_two (test_desc 1))) + 1).
  { apply H. vm_compute. reflexivity. }
  vm_compute in E. discriminate E.
Qed.
(** ** C5: a witness *)

(** ** C8: a fresh batch of descriptors *)

Lemma filter_all {A} (P : A → Prop) `{∀ x, Decision (P x)} (l : list A) :
  (∀ x, x ∈ l → P x) → filter P l = l.
Proof.
  induction l as [|x l IH]; intros Hall; [reflexivity|].
  rewrite filter_cons_True by (apply Hall; left).
  f_equal. apply IH. intros y Hy. apply Hall. right. exact Hy.
Qed.





(** * Further properties of the code *)

(** ** The [Anchor] union *)

Lemma bf_set_value a v :
  0 ≤ a < 2 ^ 64 →
  set_avail a v = mk_anchor v (count a) (state a) (tag a)
  ∧ set_count a v = mk_anchor (avail a) v (state a) (tag a)
  ∧ set_state a v = mk_anchor (avail a) (count a) v (tag a)
  ∧ set_tag a v = mk_anchor (avail a) (count a) (state a) v.
Proof.
  intros Ha. pose proof (anchor_fields a Ha) as E.
  pose proof (avail_range a). pose proof (count_range a).
  pose proof (state_range a). pose proof (tag_range a).
  unfold set_avail, set_count, set_state, set_tag, bf_set, mk_anchor.
  fold (avail a) (count a) (state a) (tag a).
  rewrite (Z.mod_small (avail a)), (Z.mod_small (count a)),
    (Z.mod_small (state a)), (Z.mod_small (tag a)) by lia.
  change (2 ^ 0) with 1. repeat split; lia.
Qed.

Lemma mk_anchor_range av cn st tg : 0 ≤ mk_anchor av cn st tg < 2 ^ 64.
Proof.
  unfold mk_anchor.
  pose proof (Z.mod_pos_bound av (2 ^ 10) ltac:(lia)).
  pose proof (Z.mod_pos_bound cn (2 ^ 10) ltac:(lia)).
  pose proof (Z.mod_pos_bound st (2 ^ 2) ltac:(lia)).
  pose proof (Z.mod_pos_bound tg (2 ^ 42) ltac:(lia)).
  lia.
Qed.

(** The four bit-fields of an anchor make up its 64 bits: a value is the
    anchor of its four fields, and a write to one field gives a 64-bit
    value with that field set, truncated to the field's width, and the
    three others as they were. *)
Theorem anchor_fields_partition_value a v :
  0 ≤ a < 2 ^ 64 →
  a = mk_anchor (avail a) (count a) (state a) (tag a)
  ∧ (0 ≤ set_avail a v < 2 ^ 64 ∧ avail (set_avail a v) = v mod 2 ^ 10
     ∧ count (set_avail a v) = count a ∧ state (set_avail a v) = state a
     ∧ tag (set_avail a v) = tag a)
  ∧ (0 ≤ set_count a v < 2 ^ 64 ∧ count (set_count a v) = v mod 2 ^ 10
     ∧ avail (set_count a v) = avail a ∧ state (set_count a v) = state a
     ∧ tag (set_count a v) = tag a)
  ∧ (0 ≤ set_state a v < 2 ^ 64 ∧ state (set_state a v) = v mod 2 ^ 2
     ∧ avail (set_state a v) = avail a ∧ count (set_state a v) = count a
     ∧ tag (set_state a v) = tag a)
  ∧ (0 ≤ set_tag a v < 2 ^ 64 ∧ tag (set_tag a v) = v mod 2 ^ 42
     ∧ avail (set_tag a v) = avail a ∧ count (set_tag a v) = count a
     ∧ state (set_tag a v) = state a).
Proof.
  intros Ha. destruct (bf_set_value a v Ha) as (E1 & E2 & E3 & E4).
  split.
  { apply anchor_eq; [exact Ha|apply mk_anchor_range| | | |].
    - rewrite mk_anchor_avail. symmetry. apply Z.mod_small, avail_range.
    - rewrite mk_anchor_count. symmetry. apply Z.mod_small, count_range.
    - rewrite mk_anchor_state. symmetry. apply Z.mod_small, state_range.
    - rewrite mk_anchor_tag. symmetry. apply Z.mod_small, tag_range. }
  split; [split; [rewrite E1; apply mk_anchor_range|]|].
  { autorewrite with anchor. auto. }
  split; [split; [rewrite E2; apply mk_anchor_range|]|].
  { autorewrite with anchor. auto. }
  split; [split; [rewrite E3; apply mk_anchor_range|]|].
  { autorewrite with anchor. auto. }
  split; [rewrite E4; apply mk_anchor_range|].
  autorewrite with anchor. auto.
Qed.

Lemma anchor_fields_partition_value_witness :
  5501954 = mk_anchor (avail 5501954) (count 5501954) (state 5501954)
              (tag 5501954)
  ∧ avail (set_avail 5501954 1027) = 3.
Proof.
  destruct (anchor_fields_partition_value 5501954 1027) as (E & (_ & E1 & _) & _).
  - lia.
  - split; [exact E|exact E1].
Defined.
(** ** Superblock headers *)

(** [SB_HEADER_FOR_ADDR] rounds an address down to a multiple of
    [SB_SIZE]: the result is aligned, at most [SB_SIZE - 1] below the
    address, and a fixed point of the macro. *)
Theorem sb_header_rounds_down a :
  SB_HEADER_FOR_ADDR a = a - a mod SB_SIZE
  ∧ SB_HEADER_FOR_ADDR a mod SB_SIZE = 0
  ∧ SB_HEADER_FOR_ADDR a ≤ a < SB_HEADER_FOR_ADDR a + SB_SIZE
  ∧ SB_HEADER_FOR_ADDR (SB_HEADER_FOR_ADDR a) = SB_HEADER_FOR_ADDR a.
Proof.
  pose proof (SB_HEADER_FOR_ADDR_eq a) as E.
  assert (Hm : 0 ≤ a mod SB_SIZE < SB_SIZE)
    by (apply Z.mod_pos_bound; unfold SB_SIZE; lia).
  assert (Hal : SB_HEADER_FOR_ADDR a mod SB_SIZE = 0).
  { rewrite E. rewrite (Z.div_mod a SB_SIZE) at 1 by (unfold SB_SIZE; lia).
    replace (SB_SIZE * (a / SB_SIZE) + a mod SB_SIZE - a mod SB_SIZE)
      with ((a / SB_SIZE) * SB_SIZE) by lia.
    apply Z.mod_mul. unfold SB_SIZE. lia. }
  split; [exact E|]. split; [exact Hal|]. split; [lia|].
  rewrite (SB_HEADER_FOR_ADDR_eq (SB_HEADER_FOR_ADDR a)), Hal. lia.
Qed.

(** After [alloc_sb (desc)] has returned, [DESCRIPTOR_FOR_ADDR] gives
    [desc] for every address of the new superblock, and the superblock is
    zero but for these eight bytes. *)
Theorem alloc_sb_descriptor_round_trip desc a rest w p :
  os_script w = a :: rest → os_fits (os_live w) a SB_SIZE SB_SIZE = true →
  0 ≤ desc < 2 ^ 64 → a ≤ p < a + SB_SIZE →
  ∃ w', alloc_sb desc w = Done (a + SB_HEADER_SIZE) w'
        ∧ DESCRIPTOR_FOR_ADDR p w' = Done desc w'
        ∧ (∀ k, a + 8 ≤ k < a + SB_SIZE → mem w' !! k = None)
        ∧ os_live w' = (a, SB_SIZE) :: os_live w.
Proof.
  intros Es Hfit Hd Hp.
  destruct (alloc_sb_returns desc a rest w (λ r w',
              r = a + SB_HEADER_SIZE ∧
              w' = upd_mem (λ m, store_bytes m 8 a desc)
                     (log (EvOsAlloc SB_SIZE a)
                        (zero_fill a SB_SIZE
                           (upd_os ((a, SB_SIZE) :: os_live w) rest w))))
              Es Hfit (conj eq_refl eq_refl)) as (r & w' & E & -> & ->).
  eexists. split; [exact E|].
  pose proof Hfit as Hfit'. apply os_fits_spec in Hfit' as (_ & _ & Hal & _).
  assert (Eh : SB_HEADER_FOR_ADDR p = a).
  { replace p with (a + (p - a)) by lia.
    apply SB_HEADER_FOR_ADDR_in; [exact Hal|lia]. }
  split.
  { unfold DESCRIPTOR_FOR_ADDR. rewrite Eh. apply load_Done.
    split.
    - apply mapped_In. exists (a, SB_SIZE). split; [left|].
      cbn. unfold SB_SIZE. lia.
    - split; [|reflexivity]. symmetry. apply load_store_same.
      change (256 ^ Z.of_nat 8) with (2 ^ 64). exact Hd. }
  split; [|reflexivity].
  intros k Hk. wsimpl. rewrite store_bytes_lookup_outside
    by (change (Z.of_nat 8) with 8; lia).
  apply (zero_fill_mem_inside a SB_SIZE). lia.
Qed.

Lemma alloc_sb_descriptor_round_trip_witness :
  ∃ w', alloc_sb 4242 world_init = Done (SB_SIZE * 10 + SB_HEADER_SIZE) w'
        ∧ DESCRIPTOR_FOR_ADDR (SB_SIZE * 10 + 5000) w' = Done 4242 w'.
Proof.
  destruct (alloc_sb_descriptor_round_trip 4242 (SB_SIZE * 10)
              (map (λ k, SB_SIZE * k) (seqZ 11 11)) world_init
              (SB_SIZE * 10 + 5000))
    as (w' & E1 & E2 & _).
  - vm_compute. reflexivity.
  - vm_compute. reflexivity.
  - lia.
  - unfold SB_SIZE. lia.
  - exists w'. auto.
Defined.

(** [free_sb] of what [alloc_sb] returned gives the superblock back: the
    mapped regions are those from before the two calls, and both calls
    are logged. *)
Theorem alloc_sb_free_sb_round_trip desc a rest w :
  os_script w = a :: rest → os_fits (os_live w) a SB_SIZE SB_SIZE = true →
  ∃ w' w'', alloc_sb desc w = Done (a + SB_HEADER_SIZE) w'
            ∧ free_sb (a + SB_HEADER_SIZE) w' = Done () w''
            ∧ os_live w'' = os_live w ∧ os_script w'' = rest
            ∧ trace w'' = trace w ++ [EvOsAlloc SB_SIZE a; EvOsFree a SB_SIZE].
Proof.
  intros Es Hfit.
  destruct (alloc_sb_returns desc a rest w (λ r w',
              r = a + SB_HEADER_SIZE ∧
              w' = upd_mem (λ m, store_bytes m 8 a desc)
                     (log (EvOsAlloc SB_SIZE a)
                        (zero_fill a SB_SIZE
                           (upd_os ((a, SB_SIZE) :: os_live w) rest w))))
              Es Hfit (conj eq_refl eq_refl)) as (r & w' & E & -> & ->).
  pose proof Hfit as Hfit'. apply os_fits_spec in Hfit' as (_ & _ & Hal & Hdis).
  assert (Eh : SB_HEADER_FOR_ADDR (a + SB_HEADER_SIZE) = a).
  { apply SB_HEADER_FOR_ADDR_in; [exact Hal|unfold SB_SIZE, SB_HEADER_SIZE; lia]. }
  eexists _, _. split; [exact E|]. split.
  { unfold free_sb. rewrite Eh, Z.eqb_refl.
    rewrite (bind_eq _ _ _ () _) by reflexivity. reflexivity. }
  wsimpl. split.
  { rewrite filter_cons_False by (intros N; apply N; reflexivity).
    apply filter_all. intros r Hr ->. specialize (Hdis _ Hr). cbn in Hdis.
    unfold SB_SIZE in Hdis. lia. }
  split; [reflexivity|].
  rewrite <- app_assoc. reflexivity.
Qed.

Lemma alloc_sb_free_sb_round_trip_witness :
  ∃ w' w'', alloc_sb 4242 world_init = Done (SB_SIZE * 10 + SB_HEADER_SIZE) w'
            ∧ free_sb (SB_SIZE * 10 + SB_HEADER_SIZE) w' = Done () w''
            ∧ os_live w'' = os_live world_init.
Proof.
  destruct (alloc_sb_free_sb_round_trip 4242 (SB_SIZE * 10)
              (map (λ k, SB_SIZE * k) (seqZ 11 11)) world_init)
    as (w' & w'' & E1 & E2 & E3 & _).
  - vm_compute. reflexivity.
  - vm_compute. reflexivity.
  - exists w', w''. auto.
Defined.
(** ** What holds in every world reached *)

(** In every world reached, [DESCRIPTOR_FOR_ADDR] of a slot that a caller
    holds is the descriptor of the slot, and no two live descriptors have
    the same superblock. *)
Theorem held_slot_finds_its_descriptor w d ptr :
  reachable w → allocated_slot w d ptr →
  DESCRIPTOR_FOR_ADDR ptr w = Done d w
  ∧ ∀ d', dmapped (os_live w) d' → Desc.in_use (get_desc w d') = true →
          Desc.sb (get_desc w d') = Desc.sb (get_desc w d) → d' = d.
Proof.
  intros Hr Hal. pose proof (reachable_wf w Hr) as Hwf.
  destruct Hal as (Hm & Hu & i & Hi & Eptr & _).
  pose proof Hwf as (_ & Hds & _).
  destruct (Hds d ltac:(apply not_elem_of_nil) Hm Hu)
    as ((hdr & Esb & Hal & Hlive & Hback) & _ & Hsz & Hmax & _).
  fold (get_desc w d) in *.
  pose proof (slot_in_sb _ _ Hsz ltac:(rewrite <- Hmax; exact Hi)) as Hslot.
  assert (Hss : 16 ≤ Desc.slot_size (get_desc w d) ≤ 8184) by exact Hsz.
  unfold slot_of in Eptr. rewrite Esb in Eptr.
  assert (Ehp : SB_HEADER_FOR_ADDR ptr = hdr).
  { rewrite Eptr, <- Z.add_assoc. apply SB_HEADER_FOR_ADDR_in; [exact Hal|].
    unfold SB_USABLE_SIZE, SB_SIZE, SB_HEADER_SIZE in *. lia. }
  split.
  - unfold DESCRIPTOR_FOR_ADDR. rewrite Ehp. apply load_Done.
    split; [|auto].
    replace hdr with (hdr + 0) by lia.
    apply sb_mapped; [exact Hlive|lia|unfold SB_SIZE; change (Z.of_nat 8) with 8; lia].
  - intros d' Hm' Hu' E.
    apply (sb_owner [] w d d' (Desc.sb (get_desc w d)) Hwf);
      auto using not_elem_of_nil.
Qed.

Lemma held_slot_finds_its_descriptor_witness :
  ∃ d, DESCRIPTOR_FOR_ADDR (test_slot 1 0) world_two = Done d world_two.
Proof.
  destruct (free_ready_sound 5 (test_slot 1 0) world_two) as (d & _ & _ & Hal & _).
  - vm_compute. reflexivity.
  - exists d.
    exact (proj1 (held_slot_finds_its_descriptor world_two d (test_slot 1 0)
                    world_two_reachable Hal)).
Defined.

(** In every world reached, the partial queue of a size class holds no
    descriptor twice; each descriptor in it is live, not FULL, of a heap
    of this size class, and the active descriptor of no heap.  The active
    descriptor of a heap is live, not FULL, and active in no other heap. *)
Theorem queues_and_heaps_hold_usable_descriptors w :
  reachable w →
  (∀ s C, size_classes w !! s = Some C →
     NoDup (SizeClass.partial C) ∧
     ∀ d, d ∈ SizeClass.partial C →
       d ≠ 0 ∧ dmapped (os_live w) d ∧ Desc.in_use (get_desc w d) = true ∧
       state (Desc.anchor (get_desc w d)) ≠ STATE_FULL ∧
       (∃ H, heaps w !! Desc.heap (get_desc w d) = Some H ∧ Heap.sc H = s) ∧
       (∀ h H, heaps w !! h = Some H → Heap.active H ≠ d))
  ∧ (∀ h H, heaps w !! h = Some H → Heap.active H ≠ 0 →
       dmapped (os_live w) (Heap.active H) ∧
       Desc.in_use (get_desc w (Heap.active H)) = true ∧
       state (Desc.anchor (get_desc w (Heap.active H))) ≠ STATE_FULL ∧
       (∀ h' H', heaps w !! h' = Some H' → Heap.active H' = Heap.active H →
                 h' = h)).
Proof.
  intros Hr. destruct (reachable_wf w Hr) as (_ & _ & Hhs & Hqs & _).
  split.
  - intros s C Es. destruct (Hqs s C Es) as (_ & Hnd & Hall). auto.
  - intros h H Eh Ha. destruct (Hhs h H Eh) as (_ & Hact).
    destruct (Hact Ha) as (H1 & H2 & H3 & _ & H5). auto.
Qed.

Lemma queues_and_heaps_hold_usable_descriptors_witness :
  state (Desc.anchor (get_desc world_two (test_desc 1))) ≠ STATE_FULL.
Proof.
  destruct (queues_and_heaps_hold_usable_descriptors world_two
              world_two_reachable) as (_ & Hh).
  destruct (Hh test_heap (Heap.mk test_sc (test_desc 1))) as (_ & _ & Hs & _).
  - vm_compute. reflexivity.
  - vm_compute. discriminate.
  - exact Hs.
Defined.
(** ** The two phases of an allocation *)

(** [alloc_from_active_or_partial] asks the OS for nothing: what the OS
    offers is untouched and no region is mapped that was not.  It leaves
    a well-formed world, returns null only when it leaves the heap without
    an active descriptor, and otherwise returns a slot, not free, of a
    live descriptor of the heap's slot size. *)
Theorem alloc_from_active_or_partial_uses_no_os fuel h H C w :
  wf w → heaps w !! h = Some H → size_classes w !! Heap.sc H = Some C →
  (length (SizeClass.partial C) + 1 < fuel)%nat →
  returns (alloc_from_active_or_partial fuel h) w (λ addr w',
    wf w' ∧ os_script w' = os_script w
    ∧ (∀ r, r ∈ os_live w' → r ∈ os_live w)
    ∧ (addr = 0 → ∃ H', heaps w' !! h = Some H' ∧ Heap.active H' = 0)
    ∧ (addr ≠ 0 →
         ∃ d, allocated_slot w' d addr ∧
              Desc.slot_size (get_desc w' d) = SizeClass.slot_size C)).
Proof.
  intros Hwf Eh Ec Hf. eapply returns_mono.
  { exact (alloc_from_active_or_partial_spec fuel h H C w Hwf Eh Ec Hf). }
  intros addr w' (Hwf' & Es & Hl & (H' & C' & Eh' & _ & _ & _ & Ha) & Hal).
  split; [exact Hwf'|]. split; [exact Es|]. split; [exact Hl|].
  split; [|exact Hal]. intros E. exists H'. auto.
Qed.

Lemma alloc_from_active_or_partial_uses_no_os_witness :
  ∃ addr w', alloc_from_active_or_partial 3 test_heap world_two = Done addr w'
             ∧ os_script w' = os_script world_two.
Proof.
  destruct (alloc_from_active_or_partial_uses_no_os 3 test_heap
              (Heap.mk test_sc (test_desc 1)) (SizeClass.mk [] TEST_SIZE)
              world_two) as (addr & w' & E & _ & Es & _).
  - exact (reachable_wf _ world_two_reachable).
  - vm_compute. reflexivity.
  - vm_compute. reflexivity.
  - vm_compute. lia.
  - exists addr, w'. auto.
Defined.



(** ** No slot is handed out twice *)

(** [mono_lock_free_alloc] returns an address that no caller held when it
    was called, held after it; and every slot that was held before the
    call is still held after it, under the same descriptor. *)
Theorem alloc_returns_unheld_slot fuel h H C w :
  wf w → heaps w !! h = Some H → size_classes w !! Heap.sc H = Some C →
  os_willing w → (length (SizeClass.partial C) + 1 < fuel)%nat →
  returns (mono_lock_free_alloc fuel h) w (λ addr w',
    (∀ d, ¬ allocated_slot w d addr)
    ∧ (∃ d, allocated_slot w' d addr)
    ∧ (∀ d p, allocated_slot w d p → allocated_slot w' d p ∧ p ≠ addr)).
Proof.
  intros Hwf Eh Ec Hos Hfuel.
  assert (Hpost : ∀ addr w',
            (∀ d, ¬ allocated_slot w d addr) → (∃ d, allocated_slot w' d addr) →
            keeps_held w w' →
            (∀ d, ¬ allocated_slot w d addr)
            ∧ (∃ d, allocated_slot w' d addr)
            ∧ (∀ d p, allocated_slot w d p → allocated_slot w' d p ∧ p ≠ addr)).
  { intros addr w' Hn Hh Hk. split; [exact Hn|]. split; [exact Hh|].
    intros d p Hal. split; [exact (Hk d p Hal)|].
    intros ->. exact (Hn d Hal). }
  destruct fuel as [|n]; [lia|].
  cbn [mono_lock_free_alloc].
  apply returns_bind. eapply returns_mono.
  { apply (alloc_from_active_or_partial_fresh _ h H C w Hwf Eh Ec Hfuel). }
  intros addr w1
    ((Hwf1 & Es1 & Hl1 & (H1 & C1 & Eh1 & Esc1 & Ec1 & Ess1 & Ha1) & Hal)
     & (Hkeep1 & Hnew1) & _).
  destruct (Z.eqb_spec addr 0) as [->|Hne]; cbn [negb].
  - apply returns_bind. eapply returns_mono.
    { apply (alloc_from_new_sb_fresh (S n) h H1 C1 w1);
        [lia|exact Hwf1|exact Eh1| |].
      - rewrite Esc1. exact Ec1.
      - exact (os_willing_ready w w1 Hos Es1 Hl1). }
    intros r w2 ((Hwf2 & Hcase) & Hkeep2 & Hnew2).
    rewrite (Ha1 eq_refl) in Hcase.
    cbn in Hcase. destruct Hcase as (Hr & d & Hinst).
    destruct (Z.eqb_spec r 0) as [->|_]; [contradiction|]. cbn [negb].
    apply returns_ret.
    assert (Hvs : valid_slot_size (SizeClass.slot_size C1)).
    { destruct Hwf1 as (_ & _ & _ & Hq & _). rewrite <- Esc1 in Ec1.
      exact (proj1 (Hq _ _ Ec1)). }
    apply Hpost.
    + intros d0 Hal0. exact (Hnew2 Hr d0 (proj1 Hkeep1 d0 r Hal0)).
    + exists d. exact (installed_allocated _ _ _ _ _ _ _ Hvs Hinst).
    + exact (keeps_held_trans _ _ _ (proj1 Hkeep1) (proj1 Hkeep2)).
  - apply returns_ret. apply Hpost.
    + exact (Hnew1 Hne).
    + destruct (Hal Hne) as (d & Hd & _). exists d. exact Hd.
    + exact (proj1 Hkeep1).
Qed.

Lemma alloc_returns_unheld_slot_witness :
  ∃ addr w', mono_lock_free_alloc 3 test_heap world_two = Done addr w'
             ∧ ¬ allocated_slot world_two (test_desc 1) addr.
Proof.
  destruct (alloc_returns_unheld_slot 3 test_heap
              (Heap.mk test_sc (test_desc 1)) (SizeClass.mk [] TEST_SIZE)
              world_two) as (addr & w' & E & Hn & _).
  - exact (reachable_wf _ world_two_reachable).
  - vm_compute. reflexivity.
  - vm_compute. reflexivity.
  - exists (SB_SIZE * 12), (SB_SIZE * 13), (map (λ k, SB_SIZE * k) (seqZ 14 8)).
    split; [|split]; vm_compute; reflexivity.
  - vm_compute. lia.
  - exists addr, w'. split; [exact E|exact (Hn _)].
Defined.



(** ** A freed slot is the next one handed out *)

(** When the descriptor of a freed slot is, or becomes, the active one of
    its heap and does not become EMPTY, the next allocation from that heap
    returns the address just freed. *)
Theorem free_then_alloc_returns_same_slot fuel d ptr w H C :
  wf w → allocated_slot w d ptr →
  heaps w !! Desc.heap (get_desc w d) = Some H →
  size_classes w !! Heap.sc H = Some C →
  count (Desc.anchor (get_desc w d)) + 1 < Desc.max_count (get_desc w d) →
  Heap.active H = d
  ∨ (Heap.active H = 0 ∧ state (Desc.anchor (get_desc w d)) = STATE_FULL) →
  (length (SizeClass.partial C) + 2 < fuel)%nat →
  returns (mono_lock_free_free fuel ptr;;
           mono_lock_free_alloc fuel (Desc.heap (get_desc w d))) w
    (λ addr w', addr = ptr ∧ wf w').
Proof.
  intros Hwf Hal EH EC Hcnt Hact Hf.
  pose proof Hal as (Hm & Hu & i & Hi & Ep & Hfree).
  assert (Hp0 : ptr ≠ 0).
  { destruct (allocated_slot_region w d ptr Hwf Hal)
      as (i' & hdr & _ & Hl & Hi' & E & _).
    pose proof (regions_ok_pos _ _ (proj1 Hwf) Hl) as (Hpos & _). cbn in Hpos.
    pose proof Hwf as (_ & Hds & _).
    destruct (Hds d ltac:(apply not_elem_of_nil) Hm Hu) as (_ & _ & Hsz & _).
    fold (get_desc w d) in Hsz. unfold valid_slot_size, SB_HEADER_SIZE in *.
    nia. }
  assert (Hd0 : d ≠ 0).
  { pose proof (dmapped_pos _ _ (proj1 Hwf) Hm). lia. }
  destruct (free_anchor_loop_spec 1 d i ptr 0 w ltac:(lia) Hwf Hm Hu Hi Ep Hfree)
    as (r & w1 & _ & _ & _ & _ & Han & _ & _ & _ & Hsn).
  cbv zeta in Han, Hsn. clear r w1.
  set (D := get_desc w d) in *. set (old := Desc.anchor D) in *.
  set (new := free_new_anchor old i (Desc.max_count D)) in *.
  assert (Hsp : state new = STATE_PARTIAL).
  { rewrite Hsn. destruct (Z.eqb_spec (count old + 1) (Desc.max_count D));
      [lia|reflexivity]. }
  apply returns_bind. eapply returns_mono.
  { exact (mono_lock_free_free_held fuel d i ptr w H C Hwf Hm Hu Hi Ep Hfree
             EH EC Hf). }
  intros u w' ((Hwf' & H0 & C0 & _ & _ & Hbr) & _ & Hhs & _).
  fold D old new in Hbr, Hhs. rewrite Hsp in Hbr, Hhs.
  change (STATE_PARTIAL =? STATE_EMPTY) with false in Hbr. cbv iota in Hbr.
  destruct Hbr as (_ & Ed & Em).
  destruct (Hhs ltac:(discriminate)) as (HA & _ & HB).
  assert (Eg : get_desc w' d = Desc.with_anchor D new).
  { unfold get_desc. rewrite Ed. unfold free_anchor_world. cbn.
    apply getd_insert_eq. }
  assert (∃ H', heaps w' !! Desc.heap D = Some H' ∧ Heap.active H' = d
                ∧ Heap.sc H' = Heap.sc H
                ∧ size_classes w' = size_classes w)
    as (H' & EH' & Ea' & Esc' & Escs').
  { destruct Hact as [Ea|[Ea Hfull]].
    - assert (Hnf : state old ≠ STATE_FULL).
      { pose proof Hwf as (_ & _ & Hhp & _).
        destruct (Hhp _ _ EH) as [_ Hx].
        destruct (Hx ltac:(rewrite Ea; exact Hd0)) as (_ & _ & Hn & _).
        rewrite Ea in Hn. exact Hn. }
      destruct (HB Hnf) as [E1 E2]. exists H. rewrite E1. auto.
    - destruct (HA Hfull Ea) as [E1 E2].
      exists (Heap.mk (Heap.sc H) d). rewrite E1, lookup_insert_eq. auto. }
  destruct fuel as [|n]; [lia|].
  cbn [mono_lock_free_alloc].
  apply returns_bind. eapply returns_mono.
  { apply (alloc_from_active_or_partial_fresh (S n) (Desc.heap D) H' C w' Hwf' EH').
    - rewrite Escs', Esc'. exact EC.
    - lia. }
  intros addr w2 ((Hwf2 & _) & _ & Hhead).
  rewrite Ea' in Hhead.
  assert (Eaddr : addr = ptr).
  { rewrite (Hhead Hd0); rewrite Eg; cbn [Desc.anchor Desc.with_anchor].
    - rewrite Han, Ep. unfold slot_of. rewrite Eg. reflexivity.
    - exact Hsp. }
  subst addr.
  destruct (Z.eqb_spec ptr 0) as [|_]; [contradiction|]. cbn [negb].
  apply returns_ret. split; [reflexivity|exact Hwf2].
Qed.

Lemma free_then_alloc_returns_same_slot_witness :
  ∃ w', (mono_lock_free_free 5 (test_slot 1 0);;
         mono_lock_free_alloc 5 test_heap) world_two
        = Done (test_slot 1 0) w'.
Proof.
  destruct (free_then_alloc_returns_same_slot 5 (test_desc 1) (test_slot 1 0)
              world_two (Heap.mk test_sc (test_desc 1))
              (SizeClass.mk [] TEST_SIZE))
    as (addr & w' & E & -> & _).
  - exact (reachable_wf _ world_two_reachable).
  - split; [apply dmappedb_sound; vm_compute; reflexivity|].
    split; [vm_compute; reflexivity|].
    exists 0. split; [vm_compute; split; [discriminate|reflexivity]|].
    split; [vm_compute; reflexivity|].
    apply (bool_decide_unpack _). vm_compute. exact I.
  - vm_compute. reflexivity.
  - vm_compute. reflexivity.
  - vm_compute. reflexivity.
  - left. vm_compute. reflexivity.
  - vm_compute. lia.
  - exists w'. exact E.
Defined.

(** ** [descriptor_check_consistency] *)

Lemma returns_ASSERT_OR_PRINT print c w (Q : unit → World → Prop) :
  c = true → Q () w → returns (ASSERT_OR_PRINT print c) w Q.
Proof. intros -> HQ. apply returns_ret. exact HQ. Qed.

Lemma check_not_avail_passes w desc (Q : unit → World → Prop) : ∀ l fuel p,
  stack_chain (descs w) p l →
  (∀ d, d ∈ l → dmapped (os_live w) d ∧ d ≠ desc) →
  (length l < fuel)%nat → Q () w →
  returns (check_not_avail fuel desc p false) w Q.
Proof.
  induction l as [|a l IH]; intros fuel p Hch Hall Hf HQ;
    (destruct fuel as [|n]; [cbn in Hf; lia|]); cbn [check_not_avail].
  - cbn in Hch. subst p. apply returns_ret. exact HQ.
  - cbn in Hch. destruct Hch as (-> & Ha0 & Hch).
    destruct (Z.eqb_spec a 0) as [|_]; [contradiction|].
    destruct (Hall a ltac:(left)) as [Hm Hne].
    apply returns_bind, returns_ASSERT_OR_PRINT.
    { destruct (Z.eqb_spec desc a) as [E|_]; [congruence|reflexivity]. }
    apply returns_bind, returns_read_desc; [apply dmapped_mapped; exact Hm|].
    apply IH; [exact Hch| |cbn in Hf; lia|exact HQ].
    intros d Hd. apply Hall. right. exact Hd.
Qed.

Lemma check_links_passes w d mc (Q : list bool → World → Prop) :
  dmapped (os_live w) d →
  (∃ hdr, Desc.sb (get_desc w d) = hdr + SB_HEADER_SIZE
          ∧ (hdr, SB_SIZE) ∈ os_live w) →
  valid_slot_size (Desc.slot_size (get_desc w d)) →
  mc = SB_USABLE_SIZE / Desc.slot_size (get_desc w d) →
  (∀ linked, Q linked w) →
  ∀ n index linked,
  Forall (λ j, 0 ≤ j < mc)
    (chain (mem w) (Desc.sb (get_desc w d)) (Desc.slot_size (get_desc w d))
       n index) →
  NoDup (chain (mem w) (Desc.sb (get_desc w d))
           (Desc.slot_size (get_desc w d)) n index) →
  (∀ j, j ∈ chain (mem w) (Desc.sb (get_desc w d))
               (Desc.slot_size (get_desc w d)) n index →
        linked !! Z.to_nat j = Some false) →
  returns (check_links n d false mc index linked) w Q.
Proof.
  intros Hm (hdr & Esb & Hlive) Hsz Hmc HQ.
  pose proof (max_count_range _ Hsz) as Hr. rewrite <- Hmc in Hr.
  induction n as [|n IH]; intros index linked Hall Hnd Hlk;
    cbn [check_links].
  - apply returns_ret, HQ.
  - cbn [chain] in Hall, Hnd, Hlk.
    apply Forall_cons in Hall as [Hi Hall].
    apply NoDup_cons in Hnd as [Hni Hnd].
    apply returns_bind, returns_read_desc; [apply dmapped_mapped; exact Hm|].
    apply returns_bind, returns_ASSERT_OR_PRINT.
    { rewrite (u32_small mc) by (change (2 ^ 32) with 4294967296; lia).
      apply andb_true_intro. split; [apply Z.leb_le|apply Z.ltb_lt]; lia. }
    rewrite (Hlk index ltac:(left)).
    apply returns_bind, returns_ASSERT_OR_PRINT; [reflexivity|].
    cbv iota.
    pose proof (slot_in_sb _ _ Hsz ltac:(rewrite <- Hmc; exact Hi)) as Hslot.
    assert (Hss : 16 ≤ Desc.slot_size (get_desc w d) ≤ 8184) by exact Hsz.
    rewrite (u32_small (index * _))
      by (change (2 ^ 32) with 4294967296;
          unfold SB_USABLE_SIZE, SB_SIZE, SB_HEADER_SIZE in *; lia).
    apply returns_bind, returns_load.
    { rewrite Esb, <- Z.add_assoc. apply sb_mapped; [exact Hlive| |];
        change (Z.of_nat 4) with 4;
        unfold SB_USABLE_SIZE, SB_SIZE, SB_HEADER_SIZE in *; lia. }
    apply IH; [exact Hall|exact Hnd|].
    intros j Hj. rewrite list_lookup_insert_ne.
    + apply Hlk. right. exact Hj.
    + rewrite Forall_forall in Hall. specialize (Hall j Hj).
      intros E. apply Hni. assert (index = j) as -> by lia. exact Hj.
Qed.

(** The check that the test program runs when it is done passes on every
    live descriptor of a well-formed world, and changes nothing. *)
Theorem descriptor_check_consistency_passes w d :
  wf w → dmapped (os_live w) d → Desc.in_use (get_desc w d) = true →
  ∃ n, ∀ fuel, (n ≤ fuel)%nat →
    descriptor_check_consistency fuel d false w = Done () w.
Proof.
  intros Hwf Hm Hu.
  pose proof Hwf as (Hreg & Hds & _ & _ & (l & Hch & _ & Hl) & _).
  destruct (Hds d ltac:(apply not_elem_of_nil) Hm Hu)
    as ((hdr & Esb & Hal & Hlive & _) & (H & C & EH & EC & Ess)
        & Hsz & Hmax & Hanc & Hall & Hnd).
  fold (get_desc w d) in *.
  exists (S (length l)). intros fuel Hf.
  pose proof (max_count_range _ Hsz) as Hr.
  assert (Hss : 16 ≤ Desc.slot_size (get_desc w d) ≤ 8184) by exact Hsz.
  enough (returns (descriptor_check_consistency fuel d false) w
            (λ _ w', w' = w)) as ([] & w' & E & ->) by exact E.
  unfold descriptor_check_consistency.
  apply returns_bind, returns_read_desc; [apply dmapped_mapped; exact Hm|].
  apply returns_bind, returns_udiv; [lia|]. rewrite <- Hmax.
  apply returns_bind. cbn [read_ptr].
  apply returns_bind, returns_get_world, returns_ret.
  apply returns_bind.
  apply (check_not_avail_passes w d _ l fuel (desc_avail w) Hch); [|lia|].
  { intros d' Hd'. destruct (Hl d' Hd') as (Hm' & Hf' & _).
    split; [exact Hm'|]. intros ->. unfold get_desc in Hu. congruence. }
  apply returns_bind, returns_read_desc; [apply dmapped_mapped; exact Hm|].
  apply returns_bind, (returns_read_heap _ _ H); [exact EH|].
  apply returns_bind, (returns_read_sc _ _ C); [exact EC|].
  apply returns_bind, returns_ASSERT_OR_PRINT;
    [rewrite Ess; apply Z.eqb_refl|].
  apply returns_bind, returns_read_desc; [apply dmapped_mapped; exact Hm|].
  apply returns_bind. cbv zeta.
  assert (HQ : ∀ m : M unit, m = ASSERT_OR_PRINT false true →
            ∀ Q : unit → World → Prop, Q () w → returns m w Q).
  { intros m -> Q HQ. apply returns_ret. exact HQ. }
  apply HQ.
  { destruct Hanc as [[-> ->]|[[-> ->]|[-> Hc]]].
    - change (STATE_EMPTY =? STATE_FULL) with false.
      change (STATE_EMPTY =? STATE_PARTIAL) with false.
      change (STATE_EMPTY =? STATE_EMPTY) with true. cbv iota.
      rewrite Z.eqb_refl. reflexivity.
    - reflexivity.
    - change (STATE_PARTIAL =? STATE_FULL) with false.
      change (STATE_PARTIAL =? STATE_PARTIAL) with true. cbv iota.
      destruct (Z.ltb_spec (count (Desc.anchor (get_desc w d)))
                  (Desc.max_count (get_desc w d))); [reflexivity|lia]. }
  apply returns_bind, returns_read_desc; [apply dmapped_mapped; exact Hm|].
  apply returns_bind.
  apply (check_links_passes w d (Desc.max_count (get_desc w d)));
    [exact Hm|exists hdr; auto|exact Hsz|exact Hmax| | |exact Hnd|].
  - intros _. apply returns_ret. reflexivity.
  - apply chain_prefix_Forall. exact Hall.
  - intros j Hj. apply lookup_replicate. split; [reflexivity|].
    apply chain_prefix_Forall in Hall. rewrite Forall_forall in Hall.
    specialize (Hall j Hj). lia.
Qed.

Lemma descriptor_check_consistency_passes_witness :
  ∃ n, descriptor_check_consistency n (test_desc 1) false world_two
       = Done () world_two.
Proof.
  destruct (descriptor_check_consistency_passes world_two (test_desc 1))
    as (n & Hn).
  - exact (reachable_wf _ world_two_reachable).
  - apply dmappedb_sound. vm_compute. reflexivity.
  - vm_compute. reflexivity.
  - exists n. apply Hn. lia.
Defined.

(** ** The bytes of the slots held *)

(** A held slot lies in the superblock of its address. *)
Lemma held_slot_in_superblock w d p :
  wf w → allocated_slot w d p →
  SB_HEADER_FOR_ADDR p ≤ p
  ∧ p + Desc.slot_size (get_desc w d) ≤ SB_HEADER_FOR_ADDR p + SB_SIZE.
Proof.
  intros Hwf Hal.
  destruct (allocated_slot_region w d p Hwf Hal)
    as (i & hdr & Hal0 & Hl & Hi & E & Hle & _).
  pose proof Hwf as (_ & Hds & _).
  destruct (Hds d ltac:(apply not_elem_of_nil) ltac:(apply Hal) ltac:(apply Hal))
    as (_ & _ & Hsz & _).
  fold (get_desc w d) in Hsz.
  assert (Eh : SB_HEADER_FOR_ADDR p = hdr).
  { rewrite E, <- Z.add_assoc. apply SB_HEADER_FOR_ADDR_in; [exact Hal0|].
    unfold valid_slot_size, SB_HEADER_SIZE, SB_SIZE in *. nia. }
  rewrite Eh. split; [|exact Hle].
  unfold valid_slot_size, SB_HEADER_SIZE in *. nia.
Qed.

(** [mono_lock_free_alloc] writes to no slot that a caller holds: every
    byte of every slot held before the call is as it was. *)
Theorem alloc_leaves_held_slots_untouched fuel h H C w :
  wf w → heaps w !! h = Some H → size_classes w !! Heap.sc H = Some C →
  os_willing w → (length (SizeClass.partial C) + 1 < fuel)%nat →
  returns (mono_lock_free_alloc fuel h) w (λ addr w',
    ∀ d p k, allocated_slot w d p →
             p ≤ k < p + Desc.slot_size (get_desc w d) →
             mem w' !! k = mem w !! k).
Proof.
  intros Hwf Eh Ec Hos Hfuel.
  assert (Hpost : ∀ w', keeps w w' →
            ∀ d p k, allocated_slot w d p →
                     p ≤ k < p + Desc.slot_size (get_desc w d) →
                     mem w' !! k = mem w !! k).
  { intros w' [_ Hb] d p k Hal Hk. apply (Hb d p k Hal).
    pose proof (held_slot_in_superblock w d p Hwf Hal). lia. }
  destruct fuel as [|n]; [lia|].
  cbn [mono_lock_free_alloc].
  apply returns_bind. eapply returns_mono.
  { apply (alloc_from_active_or_partial_fresh _ h H C w Hwf Eh Ec Hfuel). }
  intros addr w1
    ((Hwf1 & Es1 & Hl1 & (H1 & C1 & Eh1 & Esc1 & Ec1 & Ess1 & Ha1) & Hal)
     & (Hkeep1 & _) & _).
  destruct (Z.eqb_spec addr 0) as [->|Hne]; cbn [negb].
  - apply returns_bind. eapply returns_mono.
    { apply (alloc_from_new_sb_fresh (S n) h H1 C1 w1);
        [lia|exact Hwf1|exact Eh1| |].
      - rewrite Esc1. exact Ec1.
      - exact (os_willing_ready w w1 Hos Es1 Hl1). }
    intros r w2 ((Hwf2 & Hcase) & Hkeep2 & _).
    rewrite (Ha1 eq_refl) in Hcase.
    cbn in Hcase. destruct Hcase as (Hr & d & Hinst).
    destruct (Z.eqb_spec r 0) as [->|_]; [contradiction|]. cbn [negb].
    apply returns_ret. apply Hpost. exact (keeps_trans _ _ _ Hkeep1 Hkeep2).
  - apply returns_ret. apply Hpost. exact Hkeep1.
Qed.

Lemma alloc_leaves_held_slots_untouched_witness :
  ∃ addr w', mono_lock_free_alloc 3 test_heap world_two = Done addr w'
             ∧ mem w' !! test_slot 1 0 = mem world_two !! test_slot 1 0.
Proof.
  destruct (alloc_leaves_held_slots_untouched 3 test_heap
              (Heap.mk test_sc (test_desc 1)) (SizeClass.mk [] TEST_SIZE)
              world_two) as (addr & w' & E & Hk).
  - exact (reachable_wf _ world_two_reachable).
  - vm_compute. reflexivity.
  - vm_compute. reflexivity.
  - exists (SB_SIZE * 12), (SB_SIZE * 13), (map (λ k, SB_SIZE * k) (seqZ 14 8)).
    split; [|split]; vm_compute; reflexivity.
  - vm_compute. lia.
  - exists addr, w'. split; [exact E|].
    apply (Hk (test_desc 1) (test_slot 1 0)).
    + split; [apply dmappedb_sound; vm_compute; reflexivity|].
      split; [vm_compute; reflexivity|].
      exists 0. split; [vm_compute; split; [discriminate|reflexivity]|].
      split; [vm_compute; reflexivity|].
      apply (bool_decide_unpack _). vm_compute. exact I.
    + vm_compute. split; [discriminate|reflexivity].
Defined.


